(** * The resolve system of ui-router (src/resolve.ts)

    A shallow embedding of the two resolution engines of [resolve.ts]:
    the [Resolvable] / [PathElement] / [Path] classes and the legacy
    [$resolve] service ([study] and the function it returns).

    JavaScript objects used as string-keyed maps are association lists in
    insertion order, because the enumeration order of [forEach] is
    observable (it fixes the order of the plan and the cycle trace).
    Promises, callbacks and the event queue of [$q] are an explicit store;
    the closures of the source are defunctionalised into constructors that
    carry their captured variables. *)

From stdpp Require Import base tactics list strings.
From Stdlib Require Import ZArith Lia Relations.

Local Open Scope string_scope.
Local Open Scope Z_scope.
Local Open Scope nat_scope.
Local Open Scope list_scope.

(** ** JavaScript values *)

(** Values handed around by the resolve system.  [VResolve rid] is a
    reference to the result object of the legacy engine's resolve function
    (a promise carrying [$$promises], [$$values], ...). *)
#[warnings="-register-all"]
Inductive Val : Type :=
| VUndefined
| VNull
| VNum (z : Z)
| VStr (s : string)
| VObj (fields : list (string * Val))
| VResolve (rid : nat).

(** [isDefined(v)] of angular: [typeof v !== 'undefined']. *)
Definition isDefined (v : Val) : bool :=
  match v with VUndefined => false | _ => true end.

(** JavaScript truthiness, as used by [!locals], [!parent], [value.then && ...]. *)
Definition truthy (v : Val) : bool :=
  match v with
  | VUndefined | VNull => false
  | VNum z => negb (Z.eqb z 0)
  | VStr s => negb (String.eqb s "")
  | VObj _ | VResolve _ => true
  end.

(** ** Objects used as maps *)

Definition Obj (A : Type) : Type := list (string * A).

Section JsObject.
Context {A : Type}.

(** [o[k]] on an own property; [None] is JavaScript's [undefined] for an
    absent key. *)
Fixpoint get (o : Obj A) (k : string) : option A :=
  match o with
  | [] => None
  | (k', v) :: o' => if String.eqb k' k then Some v else get o' k
  end.

(** [o.hasOwnProperty(k)]. *)
Definition has (o : Obj A) (k : string) : bool :=
  match get o k with Some _ => true | None => false end.

(** [o[k] = v]: overwrite in place, or append a new property. *)
Fixpoint set (o : Obj A) (k : string) (v : A) : Obj A :=
  match o with
  | [] => [(k, v)]
  | (k', v') :: o' =>
      if String.eqb k' k then (k', v) :: o' else (k', v') :: set o' k v
  end.

(** [Object.keys(o)]. *)
Definition keys (o : Obj A) : list string := fst <$> o.

(** Modelled from the spec: [extend] of ./common (angular.extend), absent
    from src/.  It copies every property of the source onto the
    destination, "so that a Node further from the root overwrites a
    same-named entry from an ancestor": the later source wins. *)
Definition extend (dst src : Obj A) : Obj A :=
  fold_left (fun d kv => set d (fst kv) (snd kv)) src dst.

(** Modelled from the spec: [merge] of ./common, absent from src/.
    "inherited parent values not already present are merged in": a
    property of the source is copied only when the destination has no
    own property of that name. *)
Definition merge (dst src : Obj A) : Obj A :=
  fold_left (fun d kv => if has d (fst kv) then d else set d (fst kv) (snd kv))
            src dst.

(** Modelled from the spec: [omit] of ./common, absent from src/: a copy
    of the object without "a set of names to exclude". *)
Definition omit (o : Obj A) (ks : list string) : Obj A :=
  filter (fun kv => negb (existsb (String.eqb (fst kv)) ks)) o.

(** Modelled from the spec: [pick] of ./common, absent from src/:
    "restricts that mapping to only the names" listed. *)
Definition pick (o : Obj A) (ks : list string) : Obj A :=
  fold_left (fun copy k => match get o k with
                           | Some v => set copy k v
                           | None => copy
                           end) ks [].
End JsObject.

(** Modelled from the spec: [map] of ./common over an object, absent from
    src/: the same keys, each value replaced by the callback's result. *)
Definition omap {A B : Type} (f : A -> B) (o : Obj A) : Obj B :=
  map (fun kv => (fst kv, f (snd kv))) o.

(** ** Invocables and the injector *)

(** How a promise handed out by user code will settle. *)
Inductive Fate : Type :=
| WillFulfil (v : Val)
| WillReject (e : Val)
| NeverSettles.

(** What [$injector.invoke(fn, self, locals)] observes of a user function:
    it returns a plain value, throws, or returns a promise. *)
Inductive FnResult : Type :=
| Returns (v : Val)
| Throws (e : Val)
| ReturnsPromise (f : Fate).

(** An invocable of the legacy engine: a string naming a service for
    [$injector.get], or a function with the parameter names reported by
    [$injector.annotate] and its behaviour given [self] and the locals it
    is invoked with. *)
Inductive Invocable : Type :=
| IString (service : string)
| IFunc (params : list string) (body : Val -> Obj Val -> FnResult).

(** [$injector.annotate(value)] for a function invocable. *)
Definition annotate (i : Invocable) : list string :=
  match i with IString _ => [] | IFunc params _ => params end.

(** ** [study]: the topological sort *)

Inductive VisitMark : Type := VISIT_IN_PROGRESS | VISIT_DONE.

(** The invocable stored in the plan: the function itself, or for a string
    the wrapper [[function() { return $injector.get(value); }]]. *)
Inductive PlanInvocable : Type :=
| PGet (service : string)
| PInvoke (body : Val -> Obj Val -> FnResult).

(** [plan.push(key, invocable, params)]: the flat array holds three slots
    per entry; an entry is kept as one record and [plan.length / 3] is the
    length of the list. *)
Record PlanEntry : Type := mkEntry {
  pe_key : string;
  pe_invocable : PlanInvocable;
  pe_params : list string
}.

Record StudyState : Type := mkStudy {
  plan : list PlanEntry;
  cycle : list string;
  visited : Obj VisitMark
}.

Inductive Outcome (A : Type) : Type :=
| Ok (a : A)
| Throw (msg : string)
| OutOfFuel.
Arguments Ok {A} a.
Arguments Throw {A} msg.
Arguments OutOfFuel {A}.

(** [forEach(xs, f)] where [f] may throw: stop at the first exception. *)
Fixpoint forEachM {X S : Type} (f : X -> S -> Outcome S) (xs : list X) (s : S)
  : Outcome S :=
  match xs with
  | [] => Ok s
  | x :: xs' =>
      match f x s with
      | Ok s' => forEachM f xs' s'
      | Throw msg => Throw msg
      | OutOfFuel => OutOfFuel
      end
  end.

(** [cycle.indexOf(key)]: first position, [-1] when absent. *)
Fixpoint indexOf (key : string) (l : list string) : Z :=
  match l with
  | [] => (-1)%Z
  | x :: l' =>
      if String.eqb x key then 0%Z
      else let i := indexOf key l' in
           if (i <? 0)%Z then (-1)%Z else (i + 1)%Z
  end.

(** [cycle.splice(0, n)]: drop the first [n] elements ([n] is clamped at 0). *)
Definition splice0 (n : Z) (l : list string) : list string :=
  drop (Z.to_nat (Z.max 0 n)) l.

(** [cycle.join(" -> ")]. *)
Definition join (sep : string) (l : list string) : string := String.concat sep l.

Definition mark_is (m : VisitMark) (o : option VisitMark) : bool :=
  match o, m with
  | Some VISIT_IN_PROGRESS, VISIT_IN_PROGRESS => true
  | Some VISIT_DONE, VISIT_DONE => true
  | _, _ => false
  end.

Definition push_entry (e : PlanEntry) (st : StudyState) : StudyState :=
  mkStudy (plan st ++ [e]) (cycle st) (visited st).

(** [cycle.pop(); visited[key] = VISIT_DONE;] *)
Definition leave (key : string) (st : StudyState) : StudyState :=
  mkStudy (plan st) (removelast (cycle st)) (set (visited st) key VISIT_DONE).

(** The function [visit(value, key)] of [study].  The recursion of the
    source is on the dependency graph; [fuel] bounds its depth. *)
Fixpoint visit (fuel : nat) (invocables : Obj Invocable)
         (value : Invocable) (key : string) (st : StudyState)
  : Outcome StudyState :=
  match fuel with
  | O => OutOfFuel
  | S fuel' =>
      if mark_is VISIT_DONE (get (visited st) key) then Ok st
      else
        let st1 := mkStudy (plan st) (cycle st ++ [key]) (visited st) in
        if mark_is VISIT_IN_PROGRESS (get (visited st1) key) then
          Throw ("Cyclic dependency: " +:+
                 join " -> " (splice0 (indexOf key (cycle st1)) (cycle st1)))
        else
          let st2 := mkStudy (plan st1) (cycle st1)
                             (set (visited st1) key VISIT_IN_PROGRESS) in
          match value with
          | IString service =>
              Ok (leave key (push_entry (mkEntry key (PGet service) []) st2))
          | IFunc params body =>
              match forEachM
                      (fun param st' =>
                         if negb (String.eqb param key) then
                           match get invocables param with
                           | Some v => visit fuel' invocables v param st'
                           | None => Ok st'
                           end
                         else Ok st')
                      params st2 with
              | Ok st3 =>
                  Ok (leave key
                        (push_entry (mkEntry key (PInvoke body) params) st3))
              | Throw msg => Throw msg
              | OutOfFuel => OutOfFuel
              end
          end
  end.

(** The first half of [study]: [forEach(invocables, visit)] from the empty
    plan.  No chain of nested visits is longer than the number of keys, so
    one unit of fuel per key and one to spare is enough
    (see [study_plan_terminates]). *)
Definition study_plan (invocables : Obj Invocable) : Outcome (list PlanEntry) :=
  match forEachM (fun kv st => visit (S (length invocables)) invocables
                                     (snd kv) (fst kv) st)
                 invocables (mkStudy [] [] []) with
  | Ok st => Ok (plan st)
  | Throw msg => Throw msg
  | OutOfFuel => OutOfFuel
  end.

(** ** [$q]: promises, subscriptions and the event queue *)

(** A promise is pending, locked onto another promise whose outcome it
    will adopt, or settled once and for all. *)
Inductive PState : Type :=
| Pending
| Locked
| Fulfilled (v : Val)
| Rejected (e : Val).

(** Modelled from the spec: the [$q] service of angular, absent from src/.
    "create a pending result with an explicit settle/fail control; ...
    chain a continuation onto settlement"; results are "pending values
    that settle exactly once, successfully or with failure", and
    continuations run from "a single-threaded event queue".  [K] is the
    type of continuations. *)
Section Promises.
Variable K : Type.

(** One [promise.then(ok, err)] still waiting for its promise. *)
Record Sub : Type := mkSub { sub_on : nat; sub_ok : K; sub_err : K }.

Record Q : Type := mkQ {
  q_states : list PState;
  q_subs : list Sub;
  q_queue : list (K * Val)
}.

Definition q_empty : Q := mkQ [] [] [].

Definition q_state (q : Q) (p : nat) : PState :=
  default Pending (q_states q !! p).

(** [$q.defer()]: a fresh pending promise. *)
Definition q_defer (q : Q) : nat * Q :=
  (length (q_states q), mkQ (q_states q ++ [Pending]) (q_subs q) (q_queue q)).

(** [promise.then(ok, err)]: on a settled promise the continuation is
    queued at once, otherwise it waits. *)
Definition q_then (p : nat) (ok err : K) (q : Q) : Q :=
  match q_state q p with
  | Fulfilled v => mkQ (q_states q) (q_subs q) (q_queue q ++ [(ok, v)])
  | Rejected e => mkQ (q_states q) (q_subs q) (q_queue q ++ [(err, e)])
  | Pending | Locked =>
      mkQ (q_states q) (q_subs q ++ [mkSub p ok err]) (q_queue q)
  end.

Definition notify (st : PState) (sub : Sub) : list (K * Val) :=
  match st with
  | Fulfilled v => [(sub_ok sub, v)]
  | Rejected e => [(sub_err sub, e)]
  | Pending | Locked => []
  end.

(** Settle [p]: its waiting continuations move to the queue, in the
    order they subscribed. *)
Definition q_settle (p : nat) (st : PState) (q : Q) : Q :=
  mkQ (<[p := st]> (q_states q))
      (filter (fun sub => sub_on sub <> p) (q_subs q))
      (q_queue q ++
         flat_map (notify st) (filter (fun sub => sub_on sub = p) (q_subs q))).

(** [deferred.resolve(v)] with a plain value: ignored unless pending. *)
Definition q_resolve (p : nat) (v : Val) (q : Q) : Q :=
  match q_state q p with
  | Pending => q_settle p (Fulfilled v) q
  | _ => q
  end.

(** [deferred.reject(e)]: ignored unless pending. *)
Definition q_reject (p : nat) (e : Val) (q : Q) : Q :=
  match q_state q p with
  | Pending => q_settle p (Rejected e) q
  | _ => q
  end.

(** [deferred.resolve(promise)]: lock [p] onto [src]; [ok] and [err] are
    the continuations that will pass the outcome of [src] on to [p]. *)
Definition q_follow (p src : nat) (ok err : K) (q : Q) : Q :=
  match q_state q p with
  | Pending =>
      q_then src ok err
             (mkQ (<[p := Locked]> (q_states q)) (q_subs q) (q_queue q))
  | _ => q
  end.

(** What the continuations installed by [q_follow] do. *)
Definition q_adopt (p : nat) (st : PState) (q : Q) : Q :=
  match q_state q p with
  | Locked => q_settle p st q
  | _ => q
  end.
End Promises.

Arguments mkSub {K}.
Arguments sub_on {K}.
Arguments sub_ok {K}.
Arguments sub_err {K}.
Arguments mkQ {K}.
Arguments q_states {K}.
Arguments q_subs {K}.
Arguments q_queue {K}.
Arguments q_empty {K}.
Arguments q_state {K}.
Arguments q_defer {K}.
Arguments q_then {K}.
Arguments notify {K}.
Arguments q_settle {K}.
Arguments q_resolve {K}.
Arguments q_reject {K}.
Arguments q_follow {K}.
Arguments q_adopt {K}.

(** ** The legacy engine: the function returned by [study] *)

(** The closures the returned function hands to [then]. *)
Inductive LK : Type :=
| KDone (rid : nat)                      (* [done] *)
| KFail (rid : nat)                      (* [fail] *)
| KWait (rid eid : nat) (dep : string)   (* [function (result) { values[dep] = result; if (!(--waitParams)) proceed(); }] *)
| KOnFailure (rid eid : nat)             (* [onfailure] *)
| KInvoked (rid eid : nat)               (* [function (result) { values[key] = result; done(); }] *)
| KAdopt (p : nat)                       (* [$q]: pass a fulfilment on to a locked promise *)
| KAdoptFail (p : nat).                  (* [$q]: pass a rejection on to a locked promise *)

(** The variables of one call of [__invoke(key, invocable, params)]. *)
Record Invocation : Type := mkInvocation {
  iv_key : string;
  iv_invocable : PlanInvocable;
  iv_params : list string;
  iv_waitParams : Z;
  iv_invocation : nat
}.

Inductive ParentRef : Type := NO_PARENT | Parent (rid : nat).

(** The variables of one call of the returned function, with the
    properties of its [result] promise.  [values] and [result.$$values] are
    one object: [r_published] records that the property has been set. *)
Record Resolution : Type := mkResolution {
  r_locals : Obj Val;
  r_parent : ParentRef;
  r_self : Val;
  r_result : nat;
  r_promises : Obj nat;
  r_values : Obj Val;
  r_wait : Z;
  r_merged : bool;
  r_published : bool;
  r_inherited : option (Obj Val);
  r_failure : Val;
  r_invocations : list Invocation
}.

Definition set_promises (x : Obj nat) (r : Resolution) : Resolution :=
  mkResolution (r_locals r) (r_parent r) (r_self r) (r_result r) x (r_values r)
               (r_wait r) (r_merged r) (r_published r) (r_inherited r)
               (r_failure r) (r_invocations r).
Definition set_values (x : Obj Val) (r : Resolution) : Resolution :=
  mkResolution (r_locals r) (r_parent r) (r_self r) (r_result r) (r_promises r) x
               (r_wait r) (r_merged r) (r_published r) (r_inherited r)
               (r_failure r) (r_invocations r).
Definition set_wait (x : Z) (r : Resolution) : Resolution :=
  mkResolution (r_locals r) (r_parent r) (r_self r) (r_result r) (r_promises r)
               (r_values r) x (r_merged r) (r_published r) (r_inherited r)
               (r_failure r) (r_invocations r).
Definition set_merged (x : bool) (r : Resolution) : Resolution :=
  mkResolution (r_locals r) (r_parent r) (r_self r) (r_result r) (r_promises r)
               (r_values r) (r_wait r) x (r_published r) (r_inherited r)
               (r_failure r) (r_invocations r).
Definition set_published (x : bool) (r : Resolution) : Resolution :=
  mkResolution (r_locals r) (r_parent r) (r_self r) (r_result r) (r_promises r)
               (r_values r) (r_wait r) (r_merged r) x (r_inherited r)
               (r_failure r) (r_invocations r).
Definition set_inherited (x : option (Obj Val)) (r : Resolution) : Resolution :=
  mkResolution (r_locals r) (r_parent r) (r_self r) (r_result r) (r_promises r)
               (r_values r) (r_wait r) (r_merged r) (r_published r) x
               (r_failure r) (r_invocations r).
Definition set_failure (x : Val) (r : Resolution) : Resolution :=
  mkResolution (r_locals r) (r_parent r) (r_self r) (r_result r) (r_promises r)
               (r_values r) (r_wait r) (r_merged r) (r_published r) (r_inherited r)
               x (r_invocations r).
Definition set_invocations (x : list Invocation) (r : Resolution) : Resolution :=
  mkResolution (r_locals r) (r_parent r) (r_self r) (r_result r) (r_promises r)
               (r_values r) (r_wait r) (r_merged r) (r_published r) (r_inherited r)
               (r_failure r) x.
Definition set_waitParams (x : Z) (iv : Invocation) : Invocation :=
  mkInvocation (iv_key iv) (iv_invocable iv) (iv_params iv) x (iv_invocation iv).

(** The whole of the engine's world: the promises, every resolution
    started so far, the promises user code has returned and will settle
    from outside, and a record of every call of [$injector.invoke] (the
    resolution, the key, and the values passed as locals). *)
Record Legacy : Type := mkLegacy {
  l_q : Q LK;
  l_res : list Resolution;
  l_outside : list (nat * Fate);
  l_log : list (nat * string * Obj Val)
}.

Definition legacy_init : Legacy := mkLegacy q_empty [] [] [].

Definition with_q (f : Q LK -> Q LK) (s : Legacy) : Legacy :=
  mkLegacy (f (l_q s)) (l_res s) (l_outside s) (l_log s).
Definition with_res (rid : nat) (f : Resolution -> Resolution) (s : Legacy) : Legacy :=
  mkLegacy (l_q s) (alter f rid (l_res s)) (l_outside s) (l_log s).
Definition with_invocation (rid eid : nat) (f : Invocation -> Invocation)
           (s : Legacy) : Legacy :=
  with_res rid (fun r => set_invocations (alter f eid (r_invocations r)) r) s.
Definition add_log (rid : nat) (key : string) (values : Obj Val) (s : Legacy) : Legacy :=
  mkLegacy (l_q s) (l_res s) (l_outside s) (l_log s ++ [(rid, key, values)]).

Definition invocation (s : Legacy) (rid eid : nat) : option Invocation :=
  r ← l_res s !! rid; r_invocations r !! eid.

(** The properties the function reads off its [parent] argument.
    [NO_PARENT] is [extend($q.when(NOTHING), { $$promises: NOTHING, $$values: NOTHING })]. *)
Definition parent_failure (s : Legacy) (parent : ParentRef) : Val :=
  match parent with
  | NO_PARENT => VUndefined
  | Parent rid => from_option r_failure VUndefined (l_res s !! rid)
  end.
Definition parent_inherited (s : Legacy) (parent : ParentRef) : option (Obj Val) :=
  match parent with
  | NO_PARENT => None
  | Parent rid => r ← l_res s !! rid; r_inherited r
  end.
Definition parent_promises (s : Legacy) (parent : ParentRef) : Obj nat :=
  match parent with
  | NO_PARENT => []
  | Parent rid => from_option r_promises [] (l_res s !! rid)
  end.
Definition parent_values (s : Legacy) (parent : ParentRef) : option (Obj Val) :=
  match parent with
  | NO_PARENT => Some []
  | Parent rid =>
      r ← l_res s !! rid; if r_published r then Some (r_values r) else None
  end.

Section LegacyEngine.
(** [$injector.get(name)]: the service, or the exception for an unknown
    provider. *)
Variable injector_get : string -> FnResult.

(** [$injector.invoke(invocable, self, values)]. *)
Definition invoke (i : PlanInvocable) (self : Val) (values : Obj Val) : FnResult :=
  match i with
  | PGet service => injector_get service
  | PInvoke body => body self values
  end.

(** [function fail(reason)]. *)
Definition fail (rid : nat) (reason : Val) (s : Legacy) : Legacy :=
  match l_res s !! rid with
  | Some r =>
      with_q (q_reject (r_result r) reason) (with_res rid (set_failure reason) s)
  | None => s
  end.

(** [function done()]. *)
Definition done (rid : nat) (s : Legacy) : Legacy :=
  match l_res s !! rid with
  | Some r =>
      let wait := (r_wait r - 1)%Z in
      if (wait =? 0)%Z then
        let values :=
          if r_merged r then r_values r
          else merge (r_values r) (default [] (parent_values s (r_parent r))) in
        with_q (q_resolve (r_result r) (VObj values))
               (with_res rid
                  (fun r => set_inherited None
                              (set_published true
                                 (set_values values (set_wait wait r)))) s)
      else with_res rid (set_wait wait) s
  | None => s
  end.

(** [function onfailure(reason)] of [__invoke]. *)
Definition onfailure (rid eid : nat) (reason : Val) (s : Legacy) : Legacy :=
  match invocation s rid eid with
  | Some iv => fail rid reason (with_q (q_reject (iv_invocation iv) reason) s)
  | None => s
  end.

(** [function proceed()] of [__invoke]. *)
Definition proceed (rid eid : nat) (s : Legacy) : Legacy :=
  match l_res s !! rid, invocation s rid eid with
  | Some r, Some iv =>
      if isDefined (r_failure r) then s
      else
        let s1 := add_log rid (iv_key iv) (r_values r) s in
        match invoke (iv_invocable iv) (r_self r) (r_values r) with
        | Returns v =>
            with_q (q_then (iv_invocation iv) (KInvoked rid eid) (KOnFailure rid eid))
                   (with_q (q_resolve (iv_invocation iv) v) s1)
        | ReturnsPromise fate =>
            let (p, q1) := q_defer (l_q s1) in
            let s2 := mkLegacy q1 (l_res s1) (l_outside s1 ++ [(p, fate)]) (l_log s1) in
            with_q (q_then (iv_invocation iv) (KInvoked rid eid) (KOnFailure rid eid))
                   (with_q (q_follow (iv_invocation iv) p
                                     (KAdopt (iv_invocation iv))
                                     (KAdoptFail (iv_invocation iv))) s2)
        | Throws e => onfailure rid eid e s1
        end
  | _, _ => s
  end.

(** The body of [forEach(params, function (dep) { ... })] in [__invoke]. *)
Definition wait_for (rid eid : nat) (s : Legacy) (dep : string) : Legacy :=
  match l_res s !! rid with
  | Some r =>
      match get (r_promises r) dep with
      | Some p =>
          if negb (has (r_locals r) dep) then
            with_q (q_then p (KWait rid eid dep) (KOnFailure rid eid))
                   (with_invocation rid eid
                      (fun iv => set_waitParams (iv_waitParams iv + 1)%Z iv) s)
          else s
      | None => s
      end
  | None => s
  end.

(** [function __invoke(key, invocable, params)]. *)
Definition invoke_entry (rid : nat) (e : PlanEntry) (s : Legacy) : Legacy :=
  match l_res s !! rid with
  | Some r =>
      let (p, q1) := q_defer (l_q s) in
      let eid := length (r_invocations r) in
      let iv := mkInvocation (pe_key e) (pe_invocable e) (pe_params e) 0%Z p in
      let s1 := with_res rid (set_invocations (r_invocations r ++ [iv]))
                         (with_q (fun _ => q1) s) in
      let s2 := fold_left (wait_for rid eid) (pe_params e) s1 in
      let s3 := match invocation s2 rid eid with
                | Some iv' => if (iv_waitParams iv' =? 0)%Z
                              then proceed rid eid s2 else s2
                | None => s2
                end in
      with_res rid (fun r => set_promises (set (r_promises r) (pe_key e) p) r) s3
  | None => s
  end.

(** [for (var i = 0, ii = plan.length; i < ii; i += 3) ...]. *)
Definition process_entry (rid : nat) (s : Legacy) (e : PlanEntry) : Legacy :=
  match l_res s !! rid with
  | Some r => if has (r_locals r) (pe_key e) then done rid s
              else invoke_entry rid e s
  | None => s
  end.

(** The function from the short-circuit on [parent.$$failure] to
    [return result], once [locals] and [parent] have been checked. *)
Definition start (pl : list PlanEntry) (invocableKeys : list string)
           (locals : Obj Val) (parent : ParentRef) (self : Val) (s : Legacy)
  : nat * Legacy :=
  let (p, q1) := q_defer (l_q s) in
  let rid := length (l_res s) in
  let r0 := mkResolution locals parent self p [] (extend [] locals)
                         (1 + Z.of_nat (length pl))%Z false false None
                         VUndefined [] in
  let s0 := mkLegacy q1 (l_res s ++ [r0]) (l_outside s) (l_log s) in
  if isDefined (parent_failure s parent) then
    (rid, fail rid (parent_failure s parent) s0)
  else
    let s1 := match parent_inherited s parent with
              | Some iv =>
                  with_res rid (fun r => set_values
                                  (merge (r_values r) (omit iv invocableKeys)) r) s0
              | None => s0
              end in
    let s2 := with_res rid (fun r => set_promises
                              (extend (r_promises r) (parent_promises s parent)) r) s1 in
    let s3 := match parent_values s parent with
              | Some pv =>
                  done rid
                    (with_res rid
                       (fun r => set_inherited (Some (omit pv invocableKeys))
                                   (set_merged true
                                      (set_values (merge (r_values r)
                                                         (omit pv invocableKeys)) r)))
                       s2)
              | None =>
                  let s' := match parent_inherited s parent with
                            | Some iv =>
                                with_res rid (set_inherited
                                                (Some (omit iv invocableKeys))) s2
                            | None => s2
                            end in
                  match parent with
                  | Parent prid =>
                      match l_res s !! prid with
                      | Some pr => with_q (q_then (r_result pr) (KDone rid) (KFail rid)) s'
                      | None => s'
                      end
                  | NO_PARENT => s'
                  end
              end in
    (rid, fold_left (process_entry rid) pl s3).

(** [function isResolve(value)]: an object with a truthy [then] and a
    truthy [$$promises].  Every result of the engine is one. *)
Definition isResolve (value : Val) : bool :=
  match value with
  | VResolve _ => true
  | VObj o => truthy (default VUndefined (get o "then"))
              && truthy (default VUndefined (get o "$$promises"))
  | _ => false
  end.

(** [if (isResolve(locals) && self === undefined) { self = parent; parent = locals; locals = null; }] *)
Definition shift_args (locals parent self : Val) : Val * Val * Val :=
  if isResolve locals && negb (isDefined self) then (VNull, locals, parent)
  else (locals, parent, self).

Inductive CallResult : Type :=
| CallThrows (msg : string)
| CallReturns (rid : nat) (s : Legacy)
| CallOutside.

(** The function returned by [study], called with [(locals, parent, self)].
    A [locals] or [parent] object that only imitates a resolve result, and
    a resolve result used as [locals], are outside this model. *)
Definition resolve_fn (pl : list PlanEntry) (invocableKeys : list string)
           (a1 a2 a3 : Val) (s : Legacy) : CallResult :=
  match shift_args a1 a2 a3 with
  | (locals, parent, self) =>
      if negb (truthy locals) || match locals with VObj _ => true | _ => false end then
        let locals' := match locals with VObj o => o | _ => [] end in
        if negb (truthy parent) then
          let (rid, s') := start pl invocableKeys locals' NO_PARENT self s in
          CallReturns rid s'
        else if isResolve parent then
          match parent with
          | VResolve prid =>
              match l_res s !! prid with
              | Some _ =>
                  let (rid, s') := start pl invocableKeys locals' (Parent prid) self s in
                  CallReturns rid s'
              | None => CallOutside
              end
          | _ => CallOutside
          end
        else CallThrows "'parent' must be a promise returned by $resolve.resolve()"
      else
        match locals with
        | VResolve _ => CallOutside
        | _ => CallThrows "'locals' must be an object"
        end
  end.

(** [$resolve.resolve(invocables, locals, parent, self)]:
    [this.study(invocables)(locals, parent, self)]. *)
Definition resolve (invocables : Obj Invocable) (a1 a2 a3 : Val) (s : Legacy)
  : CallResult :=
  match study_plan invocables with
  | Ok pl => resolve_fn pl (keys invocables) a1 a2 a3 s
  | Throw msg => CallThrows msg
  | OutOfFuel => CallOutside
  end.

(** Running one continuation taken from the queue. *)
Definition run_callback (k : LK) (arg : Val) (s : Legacy) : Legacy :=
  match k with
  | KDone rid => done rid s
  | KFail rid => fail rid arg s
  | KWait rid eid dep =>
      let s1 := with_res rid (fun r => set_values (set (r_values r) dep arg) r) s in
      let s2 := with_invocation rid eid
                  (fun iv => set_waitParams (iv_waitParams iv - 1)%Z iv) s1 in
      match invocation s2 rid eid with
      | Some iv => if (iv_waitParams iv =? 0)%Z then proceed rid eid s2 else s2
      | None => s2
      end
  | KOnFailure rid eid => onfailure rid eid arg s
  | KInvoked rid eid =>
      match invocation s rid eid with
      | Some iv =>
          done rid (with_res rid (fun r => set_values (set (r_values r) (iv_key iv) arg) r) s)
      | None => s
      end
  | KAdopt p => with_q (q_adopt p (Fulfilled arg)) s
  | KAdoptFail p => with_q (q_adopt p (Rejected arg)) s
  end.

(** One turn of the event queue: the oldest queued continuation runs. *)
Definition tick (s : Legacy) : Legacy :=
  match q_queue (l_q s) with
  | [] => s
  | (k, arg) :: rest =>
      run_callback k arg
        (with_q (fun q => mkQ (q_states q) (q_subs q) rest) s)
  end.

(** A promise returned by user code settles as it was fated to. *)
Definition settle_outside (i : nat) (s : Legacy) : Legacy :=
  match l_outside s !! i with
  | Some (p, WillFulfil v) =>
      with_q (q_resolve p v)
             (mkLegacy (l_q s) (l_res s) (delete i (l_outside s)) (l_log s))
  | Some (p, WillReject e) =>
      with_q (q_reject p e)
             (mkLegacy (l_q s) (l_res s) (delete i (l_outside s)) (l_log s))
  | _ => s
  end.

(** Turn the queue until it is empty (or the fuel is spent). *)
Fixpoint drain (fuel : nat) (s : Legacy) : Legacy :=
  match fuel with
  | O => s
  | S fuel' => match q_queue (l_q s) with
               | [] => s
               | _ => drain fuel' (tick s)
               end
  end.

(** What can happen to the world: a call of [$resolve.resolve], a turn of
    the queue, or an outside promise settling. *)
Inductive lstep : Legacy -> Legacy -> Prop :=
| step_call invocables a1 a2 a3 s rid s' :
    resolve invocables a1 a2 a3 s = CallReturns rid s' -> lstep s s'
| step_tick s : lstep s (tick s)
| step_outside i s : lstep s (settle_outside i s).

Definition reachable (s : Legacy) : Prop :=
  clos_refl_trans Legacy lstep legacy_init s.
End LegacyEngine.

(** ** [Resolvable], [PathElement] and [Path] *)

(** A [Resolvable] object.  [rv_promise = None] is [promise === undefined];
    [rv_data] starts out [undefined]. *)
Record Resolvable : Type := mkResolvable {
  rv_name : string;
  rv_resolveFn : Val -> Obj Val -> FnResult;
  rv_state : Val;
  rv_deps : list string;
  rv_promise : option nat;
  rv_data : Val
}.

Definition set_promise (x : option nat) (r : Resolvable) : Resolvable :=
  mkResolvable (rv_name r) (rv_resolveFn r) (rv_state r) (rv_deps r) x (rv_data r).
Definition set_data (x : Val) (r : Resolvable) : Resolvable :=
  mkResolvable (rv_name r) (rv_resolveFn r) (rv_state r) (rv_deps r) (rv_promise r) x.

(** A [PathElement]: an object with an identity ([===]), its state and its
    [_resolvables], a map from names to [Resolvable] objects (references
    into the store). *)
Record PathElement : Type := mkPathElement {
  pel_id : nat;
  pel_state : Val;
  pel_resolvables : Obj nat
}.

(** A [Path] is its [elements] array. *)
Definition Path : Type := list PathElement.

Definition same_element (a b : PathElement) : bool := Nat.eqb (pel_id a) (pel_id b).

(** [Path.getResolvables(options)] with [options.omitOwnLocals = omitOwnLocals]. *)
Definition getResolvables (path : Path) (omitOwnLocals : list string) : Obj nat :=
  fold_left
    (fun memo elem =>
       let omitProps :=
         match last path with
         | Some l => if same_element elem l then omitOwnLocals else []
         | None => []
         end in
       extend memo (omit (pel_resolvables elem) omitProps))
    path [].

(** [this.elements.indexOf(toPathElement)]. *)
Fixpoint elementIndex (toPathElement : PathElement) (elements : list PathElement) : Z :=
  match elements with
  | [] => (-1)%Z
  | e :: rest =>
      if same_element e toPathElement then 0%Z
      else let i := elementIndex toPathElement rest in
           if (i <? 0)%Z then (-1)%Z else (i + 1)%Z
  end.

(** [Path.pathFromRoot(toPathElement)]; [None] is the thrown
    "This Path does not contain the toPathElement". *)
Definition pathFromRoot (path : Path) (toPathElement : PathElement) : option Path :=
  let elementIdx := elementIndex toPathElement path in
  if (elementIdx =? -1)%Z then None
  else Some (take (Z.to_nat (elementIdx + 1)) path).

(** The closures of [resolveResolvable] and of [$q.all], with the promise
    returned by the [then] that installed them ([derived]). *)
Inductive NK : Type :=
| NInvoke (r deferred derived : nat)   (* [locals => { try { ... } catch ... return this.promise; }], [this] is [r] *)
| NStore (derived : nat)               (* [function(data) { this.data = data; return this.promise; }] *)
| NPass (derived : nat)                (* [then] without a rejection handler *)
| NAllOk (a : nat) (key : string)      (* [$q.all]: one input fulfilled *)
| NAllFail (a : nat) (key : string)    (* [$q.all]: one input rejected *)
| NAdopt (p : nat)
| NAdoptFail (p : nat).

(** The variables of one call of [$q.all]. *)
Record AllState : Type := mkAll {
  all_deferred : nat;
  all_results : Obj Val;
  all_counter : Z
}.

(** What [this] is bound to inside a function body. *)
Inductive Receiver : Type :=
| RecvUndefined
| RecvGlobal
| RecvResolvable (r : nat).

Record NewApi : Type := mkNewApi {
  n_q : Q NK;
  n_resolvables : list Resolvable;
  n_alls : list AllState;
  n_outside : list (nat * Fate);
  n_global : Obj Val;
  n_log : list (nat * Obj Val)
}.

Definition n_with_q (f : Q NK -> Q NK) (s : NewApi) : NewApi :=
  mkNewApi (f (n_q s)) (n_resolvables s) (n_alls s) (n_outside s) (n_global s) (n_log s).
Definition n_with_resolvable (r : nat) (f : Resolvable -> Resolvable) (s : NewApi) : NewApi :=
  mkNewApi (n_q s) (alter f r (n_resolvables s)) (n_alls s) (n_outside s)
           (n_global s) (n_log s).
Definition n_with_all (a : nat) (f : AllState -> AllState) (s : NewApi) : NewApi :=
  mkNewApi (n_q s) (n_resolvables s) (alter f a (n_alls s)) (n_outside s)
           (n_global s) (n_log s).
Definition n_defer (s : NewApi) : nat * NewApi :=
  let (p, q1) := q_defer (n_q s) in (p, n_with_q (fun _ => q1) s).

(** A world in which nothing has been resolved yet. *)
Definition new_world (rs : list Resolvable) : NewApi :=
  mkNewApi q_empty
           (map (fun r => set_data VUndefined (set_promise None r)) rs) [] [] [] [].

(** What a continuation hands back to [then]. *)
Inductive CbResult : Type :=
| CbValue (v : Val)
| CbPromise (p : nat)
| CbThrow (e : Val).

(** [then] settles the promise it returned from the continuation's result. *)
Definition settle_derived (derived : nat) (res : CbResult) (s : NewApi) : NewApi :=
  match res with
  | CbValue v => n_with_q (q_resolve derived v) s
  | CbPromise p => n_with_q (q_follow derived p (NAdopt derived) (NAdoptFail derived)) s
  | CbThrow e => n_with_q (q_reject derived e) s
  end.

(** [promise.then(ok)] and [promise.then(ok, err)] returning the derived promise. *)
Definition n_then (p : nat) (ok err : nat -> NK) (s : NewApi) : nat * NewApi :=
  let (d, s1) := n_defer s in
  (d, n_with_q (q_then p (ok d) (err d)) s1).

(** Modelled from the spec: [$q.all], absent from src/: "combine a set of
    pending results into one that settles when all inputs settle or fails
    as soon as any input fails". *)
Definition q_all (promises : Obj nat) (s : NewApi) : nat * NewApi :=
  let (d, s1) := n_defer s in
  let a := length (n_alls s1) in
  let s2 := mkNewApi (n_q s1) (n_resolvables s1)
                     (n_alls s1 ++ [mkAll d [] (Z.of_nat (length promises))])
                     (n_outside s1) (n_global s1) (n_log s1) in
  let s3 := fold_left (fun s kp => n_with_q (q_then (snd kp) (NAllOk a (fst kp))
                                                    (NAllFail a (fst kp))) s)
                      promises s2 in
  (d, if Nat.eqb (length promises) 0 then n_with_q (q_resolve d (VObj [])) s3 else s3).

(** [this.data = data; return this.promise;] for a given binding of [this]. *)
Definition store_data (this : Receiver) (data : Val) (s : NewApi) : CbResult * NewApi :=
  match this with
  | RecvUndefined =>
      (CbThrow (VStr "TypeError: Cannot set property 'data' of undefined"), s)
  | RecvGlobal =>
      (CbValue (default VUndefined (get (n_global s) "promise")),
       mkNewApi (n_q s) (n_resolvables s) (n_alls s) (n_outside s)
                (set (n_global s) "data" data) (n_log s))
  | RecvResolvable r =>
      (match n_resolvables s !! r with
       | Some rv => match rv_promise rv with
                    | Some p => CbPromise p
                    | None => CbValue VUndefined
                    end
       | None => CbValue VUndefined
       end,
       n_with_resolvable r (set_data data) s)
  end.

(** The Resolvables a path refers to exist in the store. *)
Definition path_wf (n : nat) (path : Path) : Prop :=
  forall elem k id, elem ∈ path -> (k, id) ∈ pel_resolvables elem -> id < n.

Section NewEngine.
(** Whether the compiled module runs in strict mode.  [$q] calls its
    continuations as plain functions: in a [function] body [this] is
    then [undefined] (strict) or the global object (sloppy); an arrow
    function keeps the [this] of the method that created it. *)
Variable strict : bool.

Definition plain_call_this : Receiver :=
  if strict then RecvUndefined else RecvGlobal.

(** The body of [resolveResolvable], with [get_] for the calls
    [resolvable.get(pathContext)] on the dependencies. *)
Definition resolveResolvable_with
           (get_ : nat -> Path -> NewApi -> option (nat * NewApi))
           (r : nat) (rv : Resolvable) (pathContext : Path) (s : NewApi)
  : option (nat * NewApi) :=
  let (deferred, s1) := n_defer s in
  let s2 := n_with_resolvable r (set_promise (Some deferred)) s1 in
  let ancestorsByName := getResolvables pathContext [rv_name rv] in
  let depResolvables := pick ancestorsByName (rv_deps rv) in
  match
    fold_left (fun acc kr =>
                 match acc with
                 | Some (depPromises, s') =>
                     match get_ (snd kr) pathContext s' with
                     | Some (p, s'') => Some (depPromises ++ [(fst kr, p)], s'')
                     | None => None
                     end
                 | None => None
                 end)
              depResolvables (Some ([], s2))
  with
  | Some (depPromises, s3) =>
      let (a, s4) := q_all depPromises s3 in
      let (b, s5) := n_then a (NInvoke r deferred) NPass s4 in
      let (c, s6) := n_then b NStore NPass s5 in
      Some (c, s6)
  | None => None
  end.

(** [Resolvable.get(pathContext)]: [this.promise || this.resolveResolvable(...)].
    [None]: the fuel is spent, or [r] is no Resolvable of the store. *)
Fixpoint get_fuel (fuel : nat) (r : nat) (pathContext : Path) (s : NewApi)
  : option (nat * NewApi) :=
  match n_resolvables s !! r with
  | Some rv =>
      match rv_promise rv with
      | Some p => Some (p, s)
      | None =>
          match fuel with
          | O => None
          | S fuel' => resolveResolvable_with (get_fuel fuel') r rv pathContext s
          end
      end
  | None => None
  end.

(** Each nested call of [resolveResolvable] sets the promise of one more
    Resolvable first, so the nesting is no deeper than the store is large. *)
Definition rget (r : nat) (pathContext : Path) (s : NewApi) : option (nat * NewApi) :=
  get_fuel (S (length (n_resolvables s))) r pathContext s.

(** [PathElement.invokeNow(fn, locals, pathContext)]: the locals handed to
    [$injector.invoke]; [None] when [pathFromRoot] throws. *)
Definition combinedLocals (elem : PathElement) (deps : list string)
           (locals : Obj Val) (pathContext : Path) (s : NewApi) : option (Obj Val) :=
  match pathFromRoot pathContext elem with
  | Some sub =>
      let resolvables := pick (getResolvables sub []) deps in
      let moreLocals :=
        omap (fun r => from_option rv_data VUndefined (n_resolvables s !! r))
             resolvables in
      Some (extend (extend [] locals) moreLocals)
  | None => None
  end.

Definition invokeNow (elem : PathElement) (deps : list string)
           (fn : Val -> Obj Val -> FnResult)
           (locals : Obj Val) (pathContext : Path) (s : NewApi) : option FnResult :=
  option_map (fn (pel_state elem)) (combinedLocals elem deps locals pathContext s).

(** Running one continuation of the queue.  [$q] calls it as a plain
    function and settles the derived promise from what it returns. *)
Definition n_run_callback (k : NK) (arg : Val) (s : NewApi) : NewApi :=
  match k with
  | NInvoke r deferred derived =>
      match n_resolvables s !! r with
      | Some rv =>
          let locals := match arg with VObj o => o | _ => [] end in
          let s1 := mkNewApi (n_q s) (n_resolvables s) (n_alls s) (n_outside s)
                             (n_global s) (n_log s ++ [(r, locals)]) in
          let s2 :=
            match rv_resolveFn rv (rv_state rv) locals with
            | Returns v => n_with_q (q_resolve deferred v) s1
            | ReturnsPromise fate =>
                let (p, s') := n_defer s1 in
                n_with_q (q_follow deferred p (NAdopt deferred) (NAdoptFail deferred))
                         (mkNewApi (n_q s') (n_resolvables s') (n_alls s')
                                   (n_outside s' ++ [(p, fate)]) (n_global s')
                                   (n_log s'))
            | Throws e => n_with_q (q_reject deferred e) s1
            end in
          settle_derived derived
            (match rv_promise rv with
             | Some p => CbPromise p
             | None => CbValue VUndefined
             end) s2
      | None => s
      end
  | NStore derived =>
      let (res, s1) := store_data plain_call_this arg s in
      settle_derived derived res s1
  | NPass derived => n_with_q (q_reject derived arg) s
  | NAllOk a key =>
      match n_alls s !! a with
      | Some al =>
          if has (all_results al) key then s
          else
            let results := set (all_results al) key arg in
            let counter := (all_counter al - 1)%Z in
            let s1 := n_with_all a (fun _ => mkAll (all_deferred al) results counter) s in
            if (counter =? 0)%Z
            then n_with_q (q_resolve (all_deferred al) (VObj results)) s1
            else s1
      | None => s
      end
  | NAllFail a key =>
      match n_alls s !! a with
      | Some al =>
          if has (all_results al) key then s
          else n_with_q (q_reject (all_deferred al) arg) s
      | None => s
      end
  | NAdopt p => n_with_q (q_adopt p (Fulfilled arg)) s
  | NAdoptFail p => n_with_q (q_adopt p (Rejected arg)) s
  end.

Definition n_tick (s : NewApi) : NewApi :=
  match q_queue (n_q s) with
  | [] => s
  | (k, arg) :: rest =>
      n_run_callback k arg
        (n_with_q (fun q => mkQ (q_states q) (q_subs q) rest) s)
  end.

Definition n_settle_outside (i : nat) (s : NewApi) : NewApi :=
  match n_outside s !! i with
  | Some (p, WillFulfil v) =>
      n_with_q (q_resolve p v)
               (mkNewApi (n_q s) (n_resolvables s) (n_alls s)
                         (delete i (n_outside s)) (n_global s) (n_log s))
  | Some (p, WillReject e) =>
      n_with_q (q_reject p e)
               (mkNewApi (n_q s) (n_resolvables s) (n_alls s)
                         (delete i (n_outside s)) (n_global s) (n_log s))
  | _ => s
  end.

Fixpoint n_drain (fuel : nat) (s : NewApi) : NewApi :=
  match fuel with
  | O => s
  | S fuel' => match q_queue (n_q s) with
               | [] => s
               | _ => n_drain fuel' (n_tick s)
               end
  end.

(** What can happen: some caller asks a Resolvable for its promise, the
    queue turns, or an outside promise settles. *)
Inductive nstep : NewApi -> NewApi -> Prop :=
| nstep_get r pathContext s p s' :
    path_wf (length (n_resolvables s)) pathContext ->
    r < length (n_resolvables s) ->
    rget r pathContext s = Some (p, s') -> nstep s s'
| nstep_tick s : nstep s (n_tick s)
| nstep_outside i s : nstep s (n_settle_outside i s).
End NewEngine.

(** ** Specification vocabulary for [study] *)

(** [depends_on inv k p]: the function registered under [k] declares the
    parameter [p], [p] is another key of the same mapping.  These are the
    edges [visit] follows ([param !== key && invocables.hasOwnProperty(param)]). *)
Definition depends_on (inv : Obj Invocable) (k p : string) : Prop :=
  exists params body,
    get inv k = Some (IFunc params body) /\ p ∈ params /\ p <> k /\ has inv p = true.

Definition acyclic (inv : Obj Invocable) : Prop :=
  forall k, ~ clos_trans string (depends_on inv) k k.

Definition has_cycle (inv : Obj Invocable) : Prop :=
  exists k, clos_trans string (depends_on inv) k k.

(** Consecutive elements of the list are related. *)
Fixpoint chain (R : relation string) (l : list string) : Prop :=
  match l with
  | x :: t => match t with y :: _ => R x y | [] => True end /\ chain R t
  | [] => True
  end.

(** Every entry comes after the entries for the in-mapping names it
    depends on. *)
Definition topological (inv : Obj Invocable) (pl : list PlanEntry) : Prop :=
  forall l1 e l2, pl = l1 ++ e :: l2 ->
    forall p, p ∈ pe_params e -> p <> pe_key e -> has inv p = true ->
      p ∈ pe_key <$> l1.

(** The plan entry [visit] pushes for an invocable. *)
Definition entry_for (key : string) (value : Invocable) : PlanEntry :=
  match value with
  | IString service => mkEntry key (PGet service) []
  | IFunc params body => mkEntry key (PInvoke body) params
  end.

Definition entry_of (inv : Obj Invocable) (e : PlanEntry) : Prop :=
  exists value, get inv (pe_key e) = Some value /\ e = entry_for (pe_key e) value.

(** The error [visit] throws: the names of a simple cycle of the
    dependency graph, closed by repeating its first name. *)
Definition cycle_error (inv : Obj Invocable) (msg : string) : Prop :=
  exists k mid,
    msg = "Cyclic dependency: " +:+ join " -> " (k :: mid ++ [k]) /\
    chain (depends_on inv) (k :: mid ++ [k]) /\
    NoDup (k :: mid).

Definition fn0 (v : Val) : Val -> Obj Val -> FnResult := fun _ _ => Returns v.

(** [{Z: function(A){}, A: function(B){}, B: function(C){}, C: function(A){}, D: function(){}}] *)
Definition abc_cycle : Obj Invocable :=
  [("Z", IFunc ["A"] (fn0 VNull)); ("A", IFunc ["B"] (fn0 VNull));
   ("B", IFunc ["C"] (fn0 VNull)); ("C", IFunc ["A"] (fn0 VNull));
   ("D", IFunc [] (fn0 VNull))].

(** [{c: function(b){}, b: function(a, b, q){}, a: "svc"}] *)
Definition cba_acyclic : Obj Invocable :=
  [("c", IFunc ["b"] (fn0 VNull)); ("b", IFunc ["a"; "b"; "q"] (fn0 VNull));
   ("a", IString "svc")].

(** ** Scenarios *)

(** No service is registered with the injector. *)
Definition no_services : string -> FnResult :=
  fun name => Throws (VStr ("Unknown provider: " +:+ name)).

(** [$resolve.resolve(invocables, locals, parent, self)] from a given world,
    keeping the world as it is when the call throws. *)
Definition call (invocables : Obj Invocable) (a1 a2 a3 : Val) (s : Legacy)
  : nat * Legacy :=
  match resolve no_services invocables a1 a2 a3 s with
  | CallReturns rid s' => (rid, s')
  | _ => (length (l_res s), s)
  end.

(** [{ a: function () { throw e; } }] *)
Definition throws_a (e : Val) : Obj Invocable :=
  [("a", IFunc [] (fun _ _ => Throws e))].

(** [{ b: function () { return 1; } }] *)
Definition returns_b : Obj Invocable :=
  [("b", IFunc [] (fun _ _ => Returns (VNum 1)))].

(** A parent resolution that has failed with [e], then a child resolved
    against it: the world right after the child's call returns. *)
Definition child_of_failed_parent (e : Val) : nat * Legacy :=
  let (parent, s1) := call (throws_a e) VUndefined VUndefined VUndefined legacy_init in
  let s2 := drain no_services 10 s1 in
  call returns_b VUndefined (VResolve parent) VUndefined s2.

(** [{ slow: function () { return aPromise; }, a: function () { throw e; },
      c: function (slow) { return 3; } }] *)
Definition slow_a_c (e : Val) : Obj Invocable :=
  [("slow", IFunc [] (fun _ _ => ReturnsPromise (WillFulfil (VNum 1))));
   ("a", IFunc [] (fun _ _ => Throws e));
   ("c", IFunc ["slow"] (fun _ _ => Returns (VNum 3)))].

(** The call, the queue drained, then the promise returned by [slow] is
    fulfilled and the queue drained again. *)
Definition failure_then_late_dependency (e : Val) : Legacy * Legacy :=
  let (rid, s1) := call (slow_a_c e) VUndefined VUndefined VUndefined legacy_init in
  let s2 := drain no_services 10 s1 in
  (s2, drain no_services 10 (settle_outside 0 s2)).

(** [{ b: function (a) { return 2; }, a: function () { throw e; } }] *)
Definition b_needs_throwing_a (e : Val) : Obj Invocable :=
  [("b", IFunc ["a"] (fun _ _ => Returns (VNum 2)));
   ("a", IFunc [] (fun _ _ => Throws e))].

(** What an invocable declared as [function (x) { ... }] sees of [x]; when
    no [x] is passed the injector looks for a service of that name. *)
Definition param_x (values : Obj Val) : FnResult :=
  match get values "x" with
  | Some v => Returns v
  | None => no_services "x"
  end.

(** [{ y: function (x) { return x; }, x: function (x) { return x + 10; } }] *)
Definition decorate_x : Obj Invocable :=
  [("y", IFunc ["x"] (fun _ values => param_x values));
   ("x", IFunc ["x"] (fun _ values =>
                        match param_x values with
                        | Returns (VNum z) => Returns (VNum (z + 10))
                        | other => other
                        end))].

(** A parent whose [x] is the result of an invocable, and the child
    [decorate_x] resolved against it, run to quiescence. *)
Definition decorate_invocable_parent : Legacy :=
  let (parent, s1) :=
    call [("x", IFunc [] (fun _ _ => Returns (VNum 1)))]
         VUndefined VUndefined VUndefined legacy_init in
  let s2 := drain no_services 10 s1 in
  drain no_services 20 (snd (call decorate_x VUndefined (VResolve parent) VUndefined s2)).

(** A parent whose [x] is one of its locals, and the same child. *)
Definition decorate_local_parent : Legacy :=
  let (parent, s1) :=
    call [] (VObj [("x", VNum 1)]) VUndefined VUndefined legacy_init in
  let s2 := drain no_services 10 s1 in
  drain no_services 20 (snd (call decorate_x VUndefined (VResolve parent) VUndefined s2)).

(** [{ x: function () { return 1; }, y: function (x) { return x; } }]
    resolved with [locals = { x: 5 }]. *)
Definition local_x_5 : Legacy :=
  drain no_services 10
        (snd (call [("x", IFunc [] (fun _ _ => Returns (VNum 1)));
                    ("y", IFunc ["x"] (fun _ values => param_x values))]
                   (VObj [("x", VNum 5)]) VUndefined VUndefined legacy_init)).

(** A path of one element whose state declares [resolve: { x: ... }], the
    Resolvable [x] holding the data [1]. *)
Definition root_x : PathElement := mkPathElement 0 (VStr "root") [("x", 0)].
Definition world_x_resolved : NewApi :=
  mkNewApi (mkQ [Fulfilled (VNum 1)] [] [])
           [mkResolvable "x" (fun _ _ => Returns (VNum 1)) (VStr "root") []
                         (Some 0) (VNum 1)]
           [] [] [] [].

(** A state [{ resolve: { a: function () { return 1; } } }]: its one
    Resolvable, not yet resolved, and the path holding it. *)
Definition resolvable_a : Resolvable :=
  mkResolvable "a" (fun _ _ => Returns (VNum 1)) (VStr "home") [] None VUndefined.
Definition home : PathElement := mkPathElement 0 (VStr "home") [("a", 0)].

(** [a.get(path)] in a fresh world, the queue run until it is empty. *)
Definition a_resolved (strict : bool) : option (nat * NewApi) :=
  match rget 0 [home] (new_world [resolvable_a]) with
  | Some (p, s) => Some (p, n_drain strict 20 s)
  | None => None
  end.

(* ===================================================================== *)
(** * Theorems *)
(* ===================================================================== *)

(** ** Objects *)

Section JsObjectFacts.
Context {A : Type}.
Implicit Types (o : Obj A) (k : string) (v : A).

Lemma get_set o k v k' :
  get (set o k v) k' = if String.eqb k k' then Some v else get o k'.
Proof.
  induction o as [|[k0 v0] o IH]; simpl.
  - destruct (String.eqb_spec k k'); reflexivity.
  - destruct (String.eqb_spec k0 k) as [->|Hne]; simpl.
    + destruct (String.eqb_spec k k'); reflexivity.
    + rewrite IH. destruct (String.eqb_spec k0 k') as [->|]; [|reflexivity].
      destruct (String.eqb_spec k k'); congruence.
Qed.

Lemma get_set_eq o k v : get (set o k v) k = Some v.
Proof. rewrite get_set, String.eqb_refl. reflexivity. Qed.

Lemma get_set_ne o k v k' : k <> k' -> get (set o k v) k' = get o k'.
Proof. intros H. rewrite get_set. destruct (String.eqb_spec k k'); congruence. Qed.

Lemma has_set o k v k' :
  has (set o k v) k' = if String.eqb k k' then true else has o k'.
Proof. unfold has. rewrite get_set. destruct (String.eqb k k'); reflexivity. Qed.

Lemma get_Some_elem o k v : get o k = Some v -> (k, v) ∈ o.
Proof.
  induction o as [|[k0 v0] o IH]; simpl; [discriminate|].
  destruct (String.eqb_spec k0 k) as [->|].
  - intros [= ->]. left.
  - intros H. right. auto.
Qed.

Lemma has_keys o k : has o k = true <-> k ∈ keys o.
Proof.
  unfold has, keys. induction o as [|[k0 v0] o IH]; simpl.
  - split; [discriminate|]. intros H. inversion H.
  - destruct (String.eqb_spec k0 k) as [->|Hne].
    + split; [intros _; left | reflexivity].
    + rewrite IH. split; [intros H; right; exact H|].
      intros H. inversion H; subst; [congruence | assumption].
Qed.

Lemma get_first o1 k v o2 : k ∉ keys o1 -> get (o1 ++ (k, v) :: o2) k = Some v.
Proof.
  unfold keys. induction o1 as [|[k0 v0] o1 IH]; simpl; intros Hn.
  - rewrite String.eqb_refl. reflexivity.
  - destruct (String.eqb_spec k0 k) as [->|].
    + exfalso. apply Hn. left.
    + apply IH. intros H. apply Hn. right. exact H.
Qed.
End JsObjectFacts.

(** ** [study]: invariants of the depth-first visit *)

Lemma forEachM_spec {X S : Type} (f : X -> S -> Outcome S)
      (P : list X -> S -> Prop) (E : string -> Prop) (xs : list X) (s : S) :
  P [] s ->
  (forall l1 x l2 s0, xs = l1 ++ x :: l2 -> P l1 s0 ->
     match f x s0 with
     | Ok s' => P (l1 ++ [x]) s'
     | Throw m => E m
     | OutOfFuel => False
     end) ->
  match forEachM f xs s with
  | Ok s' => P xs s'
  | Throw m => E m
  | OutOfFuel => False
  end.
Proof.
  revert P s. induction xs as [|x xs IH]; intros P s H0 Hstep; simpl.
  - exact H0.
  - pose proof (Hstep [] x xs s eq_refl H0) as Hx.
    destruct (f x s) as [s'| |]; [|exact Hx|exact Hx].
    apply (IH (fun l => P (x :: l))); [exact Hx|].
    intros l1 y l2 s0 -> Hp. apply (Hstep (x :: l1) y l2 s0 eq_refl Hp).
Qed.

Section Chains.
Variable R : relation string.

Lemma chain_app_last l y :
  chain R l -> (forall x, last l = Some x -> R x y) -> chain R (l ++ [y]).
Proof.
  induction l as [|a l IH]; simpl; intros Hc Hl; [auto|].
  destruct Hc as [Ha Hc]. destruct l as [|b l]; simpl in *.
  - split; [apply Hl; reflexivity | auto].
  - split; [exact Ha|]. apply IH; [exact Hc|exact Hl].
Qed.

Lemma chain_suffix l1 l2 : chain R (l1 ++ l2) -> chain R l2.
Proof.
  induction l1 as [|a l1 IH]; simpl; [auto|]. intros [_ Hc]. auto.
Qed.

Lemma chain_clos l x y : chain R (x :: l ++ [y]) -> clos_trans string R x y.
Proof.
  revert x. induction l as [|a l IH]; intros x; simpl.
  - intros [Hxy _]. apply t_step. exact Hxy.
  - intros [Hxa Hc]. eapply t_trans; [apply t_step; exact Hxa|].
    apply IH. exact Hc.
Qed.
End Chains.

Lemma indexOf_first key pre rest :
  key ∉ pre -> indexOf key (pre ++ key :: rest) = Z.of_nat (length pre).
Proof.
  induction pre as [|a pre IH]; simpl; intros Hn.
  - rewrite String.eqb_refl. reflexivity.
  - destruct (String.eqb_spec a key) as [->|Hne].
    + exfalso. apply Hn. left.
    + rewrite IH by (intros H; apply Hn; right; exact H).
      destruct (Z.ltb_spec (Z.of_nat (length pre)) 0); lia.
Qed.

Lemma splice0_prefix pre l : splice0 (Z.of_nat (length pre)) (pre ++ l) = l.
Proof.
  unfold splice0. rewrite Z.max_r by lia. rewrite Nat2Z.id.
  apply drop_app_length.
Qed.

Lemma mark_is_done o : mark_is VISIT_DONE o = true <-> o = Some VISIT_DONE.
Proof. destruct o as [[|]|]; simpl; split; congruence. Qed.

Lemma mark_is_progress o :
  mark_is VISIT_IN_PROGRESS o = true <-> o = Some VISIT_IN_PROGRESS.
Proof. destruct o as [[|]|]; simpl; split; congruence. Qed.

(** What holds of the three mutable variables of [study] between calls of
    [visit]. *)
Record StudyInv (inv : Obj Invocable) (st : StudyState) : Prop := {
  si_chain : chain (depends_on inv) (cycle st);
  si_nodup : NoDup (cycle st);
  si_progress : forall k,
      get (visited st) k = Some VISIT_IN_PROGRESS <-> k ∈ cycle st;
  si_done : forall k,
      get (visited st) k = Some VISIT_DONE <-> k ∈ pe_key <$> plan st;
  si_keys : forall k, k ∈ cycle st -> has inv k = true;
  si_entries : Forall (entry_of inv) (plan st);
  si_topo : topological inv (plan st);
  si_plan_nodup : NoDup (pe_key <$> plan st)
}.

Lemma cycle_bound inv st : StudyInv inv st -> length (cycle st) <= length inv.
Proof.
  intros H. rewrite <- (length_fmap fst inv).
  apply submseteq_length, NoDup_submseteq; [apply (si_nodup _ _ H)|].
  intros k Hk. apply has_keys. apply (si_keys _ _ H). exact Hk.
Qed.

Lemma topological_snoc inv pl e :
  topological inv pl ->
  (forall p, p ∈ pe_params e -> p <> pe_key e -> has inv p = true ->
             p ∈ pe_key <$> pl) ->
  topological inv (pl ++ [e]).
Proof.
  intros Ht He l1 e' l2 Heq p Hp Hne Hhas.
  destruct l2 as [|e2 l2 _] using rev_ind.
  - apply app_inj_tail in Heq as [-> ->]. apply He; assumption.
  - rewrite app_comm_cons, app_assoc in Heq.
    apply app_inj_tail in Heq as [-> _].
    apply (Ht l1 e' l2 eq_refl); assumption.
Qed.

Lemma enter_inv inv st key :
  StudyInv inv st -> has inv key = true ->
  get (visited st) key = None ->
  (forall x, last (cycle st) = Some x -> depends_on inv x key) ->
  StudyInv inv (mkStudy (plan st) (cycle st ++ [key])
                        (set (visited st) key VISIT_IN_PROGRESS)).
Proof.
  intros H Hhas Hnone Hlast.
  assert (Hnc : key ∉ cycle st).
  { intros Hin. apply (si_progress _ _ H) in Hin. congruence. }
  constructor; simpl.
  - apply chain_app_last; [apply (si_chain _ _ H) | exact Hlast].
  - apply NoDup_app. split; [apply (si_nodup _ _ H)|]. split.
    + intros x Hx Hx'. apply list_elem_of_singleton in Hx'. subst. auto.
    + apply NoDup_singleton.
  - intros k. rewrite get_set, elem_of_app, list_elem_of_singleton.
    destruct (String.eqb_spec key k) as [->|Hne].
    + split; auto.
    + rewrite (si_progress _ _ H). split; [auto|]. intros [?|?]; congruence.
  - intros k. rewrite get_set.
    destruct (String.eqb_spec key k) as [->|Hne]; [|apply (si_done _ _ H)].
    split; [discriminate|]. intros Hin. apply (si_done _ _ H) in Hin. congruence.
  - intros k. rewrite elem_of_app, list_elem_of_singleton.
    intros [Hk| ->]; [apply (si_keys _ _ H); exact Hk | exact Hhas].
  - apply (si_entries _ _ H).
  - apply (si_topo _ _ H).
  - apply (si_plan_nodup _ _ H).
Qed.

Lemma leave_inv inv st key value stk :
  StudyInv inv st -> cycle st = stk ++ [key] -> get inv key = Some value ->
  (forall p, p ∈ pe_params (entry_for key value) -> p <> key ->
             has inv p = true -> get (visited st) p = Some VISIT_DONE) ->
  let st' := leave key (push_entry (entry_for key value) st) in
  StudyInv inv st' /\ cycle st' = stk /\
  get (visited st') key = Some VISIT_DONE /\
  (forall k, get (visited st) k = Some VISIT_DONE ->
             get (visited st') k = Some VISIT_DONE).
Proof.
  intros H Hc Hval Hdeps st'.
  assert (Hkey : pe_key (entry_for key value) = key) by (destruct value; reflexivity).
  assert (Hnd := si_nodup _ _ H). rewrite Hc in Hnd.
  apply NoDup_app in Hnd as (Hnd1 & Hnd2 & _).
  assert (Hip : get (visited st) key = Some VISIT_IN_PROGRESS).
  { apply (si_progress _ _ H). rewrite Hc, elem_of_app, list_elem_of_singleton. auto. }
  assert (Hcyc : cycle st' = stk).
  { unfold st'. simpl. rewrite Hc. apply removelast_last. }
  split; [|split; [exact Hcyc|split]].
  - constructor; rewrite ?Hcyc.
    + pose proof (si_chain _ _ H) as Hch. rewrite Hc in Hch.
      clear -Hch. induction stk as [|a stk IH]; simpl in *; [auto|].
      destruct Hch as [Ha Hch]. split; [|auto].
      destruct stk; simpl in *; auto.
    + exact Hnd1.
    + intros k. unfold st'. simpl. rewrite get_set.
      destruct (String.eqb_spec key k) as [->|Hne].
      * split; [discriminate|]. intros Hin. exfalso.
        apply (Hnd2 k Hin). apply list_elem_of_singleton. reflexivity.
      * rewrite (si_progress _ _ H), Hc, elem_of_app, list_elem_of_singleton.
        split; [intros [?|?]; congruence | auto].
    + intros k. unfold st'. simpl. rewrite get_set, fmap_app, elem_of_app. simpl.
      rewrite list_elem_of_singleton, Hkey.
      destruct (String.eqb_spec key k) as [->|Hne].
      * split; auto.
      * rewrite (si_done _ _ H). split; [auto|]. intros [?|?]; congruence.
    + intros k Hk. apply (si_keys _ _ H). rewrite Hc, elem_of_app. auto.
    + unfold st'. simpl. apply Forall_app. split; [apply (si_entries _ _ H)|].
      apply Forall_singleton. exists value. rewrite Hkey. auto.
    + unfold st'. simpl. apply topological_snoc; [apply (si_topo _ _ H)|].
      rewrite Hkey. intros p Hp Hne Hhas. apply (si_done _ _ H). auto.
    + unfold st'. simpl. rewrite fmap_app. simpl. rewrite Hkey.
      apply NoDup_app. split; [apply (si_plan_nodup _ _ H)|]. split.
      * intros x Hx Hx'. apply list_elem_of_singleton in Hx'. subst.
        apply (si_done _ _ H) in Hx. congruence.
      * apply NoDup_singleton.
  - unfold st'. simpl. apply get_set_eq.
  - intros k Hk. unfold st'. simpl. rewrite get_set.
    destruct (String.eqb_spec key k); [reflexivity|exact Hk].
Qed.

Definition visit_post (inv : Obj Invocable) (key : string) (st : StudyState)
           (r : Outcome StudyState) : Prop :=
  match r with
  | Ok st' =>
      StudyInv inv st' /\ cycle st' = cycle st /\
      get (visited st') key = Some VISIT_DONE /\
      (forall k, get (visited st) k = Some VISIT_DONE ->
                 get (visited st') k = Some VISIT_DONE)
  | Throw msg => cycle_error inv msg
  | OutOfFuel => False
  end.

Lemma visit_spec inv fuel : forall value key st,
  StudyInv inv st ->
  get (visited st) key = Some VISIT_DONE \/ get inv key = Some value ->
  (forall x, last (cycle st) = Some x -> depends_on inv x key) ->
  length inv < fuel + length (cycle st) ->
  visit_post inv key st (visit fuel inv value key st).
Proof.
  induction fuel as [|fuel IH]; intros value key st Hinv Hval Hlast Hfuel.
  { exfalso. pose proof (cycle_bound _ _ Hinv). lia. }
  cbn [visit cycle visited plan].
  destruct (mark_is VISIT_DONE (get (visited st) key)) eqn:Hd.
  { apply mark_is_done in Hd. cbn. auto. }
  destruct (mark_is VISIT_IN_PROGRESS (get (visited st) key)) eqn:Hp.
  { (* the key is on the stack: a cycle *)
    apply mark_is_progress in Hp. apply (si_progress _ _ Hinv) in Hp.
    apply list_elem_of_split_l in Hp as (pre & mid & Hc & Hpre).
    assert (Hstack : cycle st ++ [key] = pre ++ (key :: mid ++ [key])).
    { rewrite Hc, <- app_assoc. reflexivity. }
    assert (Hch : chain (depends_on inv) (key :: mid ++ [key])).
    { apply (chain_suffix _ pre). rewrite <- Hstack.
      apply chain_app_last; [apply (si_chain _ _ Hinv)|exact Hlast]. }
    assert (Hnd : NoDup (key :: mid)).
    { pose proof (si_nodup _ _ Hinv) as Hnd. rewrite Hc in Hnd.
      apply NoDup_app in Hnd as (_ & _ & Hnd). exact Hnd. }
    unfold visit_post, cycle_error. exists key, mid.
    rewrite Hstack, indexOf_first by exact Hpre. rewrite splice0_prefix.
    auto. }
  assert (Hnone : get (visited st) key = None).
  { destruct (get (visited st) key) as [[|]|]; simpl in *; congruence. }
  destruct Hval as [Hval|Hval]; [congruence|].
  assert (Hhas : has inv key = true) by (unfold has; rewrite Hval; reflexivity).
  pose proof (enter_inv inv st key Hinv Hhas Hnone Hlast) as Hinv2.
  set (st2 := mkStudy (plan st) (cycle st ++ [key])
                      (set (visited st) key VISIT_IN_PROGRESS)) in *.
  assert (Hmono2 : forall k, get (visited st) k = Some VISIT_DONE ->
                             get (visited st2) k = Some VISIT_DONE).
  { intros k Hk. unfold st2. simpl. rewrite get_set_ne; [exact Hk|congruence]. }
  destruct value as [service|params body].
  - destruct (leave_inv inv st2 key (IString service) (cycle st) Hinv2 eq_refl Hval)
      as (Hi & Hc & Hdone & Hmono).
    { simpl. intros p Hp0. inversion Hp0. }
    cbn. split; [exact Hi|]. split; [exact Hc|]. split; [exact Hdone|].
    intros k Hk. apply Hmono, Hmono2, Hk.
  - match goal with |- visit_post _ _ _ (match forEachM ?f _ _ with _ => _ end) =>
        pose proof (forEachM_spec f
          (fun l s' => StudyInv inv s' /\ cycle s' = cycle st ++ [key] /\
                       (forall k, get (visited st2) k = Some VISIT_DONE ->
                                  get (visited s') k = Some VISIT_DONE) /\
                       (forall p, p ∈ l -> p <> key -> has inv p = true ->
                                  get (visited s') p = Some VISIT_DONE))
          (cycle_error inv) params st2) as Hloop
    end.
    cbv beta in Hloop.
    lapply Hloop; [clear Hloop; intros Hloop|].
    2:{ split; [exact Hinv2|]. split; [reflexivity|]. split; [auto|].
        intros p Hp0. inversion Hp0. }
    lapply Hloop; [clear Hloop; intros Hloop|].
    2:{ intros l1 x l2 s0 Hparams (Hi0 & Hc0 & Hm0 & Hq0).
        assert (Hstay : StudyInv inv s0 /\ cycle s0 = cycle st ++ [key] /\
                  (forall k, get (visited st2) k = Some VISIT_DONE ->
                             get (visited s0) k = Some VISIT_DONE) /\
                  (forall p, p ∈ l1 ++ [x] -> p <> key -> has inv p = true ->
                             get (visited s0) p = Some VISIT_DONE) -> _) by exact id.
        destruct (String.eqb_spec x key) as [->|Hne]; simpl.
        { split; [exact Hi0|]. split; [exact Hc0|]. split; [exact Hm0|].
          intros p Hp1 Hne1. apply elem_of_app in Hp1 as [Hp1|Hp1]; [auto|].
          apply list_elem_of_singleton in Hp1. congruence. }
        destruct (get inv x) as [v|] eqn:Hx.
        2:{ split; [exact Hi0|]. split; [exact Hc0|]. split; [exact Hm0|].
            intros p Hp1 Hne1 Hhas1. apply elem_of_app in Hp1 as [Hp1|Hp1]; [auto|].
            apply list_elem_of_singleton in Hp1. subst p.
            unfold has in Hhas1. rewrite Hx in Hhas1. discriminate. }
        assert (Hpost := IH v x s0 Hi0 (or_intror Hx)).
        lapply Hpost; [clear Hpost; intros Hpost|].
        2:{ rewrite Hc0, last_snoc. intros y [= <-].
            exists params, body. split; [exact Hval|]. split.
            - rewrite Hparams, elem_of_app, elem_of_cons. auto.
            - split; [exact Hne|]. unfold has. rewrite Hx. reflexivity. }
        lapply Hpost; [clear Hpost; intros Hpost|].
        2:{ rewrite Hc0, length_app. simpl. lia. }
        destruct (visit fuel inv v x s0) as [s1| |]; simpl in *; [|exact Hpost|exact Hpost].
        destruct Hpost as (Hi1 & Hc1 & Hd1 & Hm1).
        split; [exact Hi1|]. split; [congruence|]. split; [auto|].
        intros p Hp1 Hne1 Hhas1. apply elem_of_app in Hp1 as [Hp1|Hp1]; [auto|].
        apply list_elem_of_singleton in Hp1. subst p. exact Hd1. }
    destruct (forEachM _ params st2) as [st3| |]; [|exact Hloop|exact Hloop].
    destruct Hloop as (Hi3 & Hc3 & Hm3 & Hq3).
    destruct (leave_inv inv st3 key (IFunc params body) (cycle st) Hi3 Hc3 Hval)
      as (Hi & Hc & Hdone & Hmono).
    { simpl. intros p Hp0 Hne0 Hhas0. auto. }
    cbn. split; [exact Hi|]. split; [exact Hc|]. split; [exact Hdone|].
    intros k Hk. apply Hmono, Hm3, Hmono2, Hk.
Qed.

Definition plan_ok (inv : Obj Invocable) (pl : list PlanEntry) : Prop :=
  topological inv pl /\ Forall (entry_of inv) pl /\ NoDup (pe_key <$> pl) /\
  (forall k, k ∈ pe_key <$> pl <-> has inv k = true).

Lemma study_plan_spec inv :
  match study_plan inv with
  | Ok pl => plan_ok inv pl
  | Throw msg => cycle_error inv msg
  | OutOfFuel => False
  end.
Proof.
  unfold study_plan.
  match goal with |- match (match forEachM ?f _ ?s0 with _ => _ end) with _ => _ end =>
    pose proof (forEachM_spec f
      (fun l s => StudyInv inv s /\ cycle s = [] /\
                  (forall k, k ∈ keys l -> get (visited s) k = Some VISIT_DONE))
      (cycle_error inv) inv s0) as Hloop
  end.
  cbv beta in Hloop.
  lapply Hloop; [clear Hloop; intros Hloop|].
  2:{ split; [|split; [reflexivity|intros k Hk; inversion Hk]].
      constructor; simpl; try solve [constructor].
      - intros k. split; [discriminate|]. intros Hk. inversion Hk.
      - intros k. split; [discriminate|]. intros Hk. inversion Hk.
      - intros k Hk. inversion Hk.
      - intros l1 e l2 Heq. destruct l1; discriminate. }
  lapply Hloop; [clear Hloop; intros Hloop|].
  2:{ intros l1 [k v] l2 s0 Heq (Hi & Hc & Hq). cbn [fst snd].
      assert (Hpost := visit_spec inv (S (length inv)) v k s0 Hi).
      lapply Hpost; [clear Hpost; intros Hpost|].
      2:{ destruct (decide (k ∈ keys l1)) as [Hin|Hnin]; [left; auto|].
          right. rewrite Heq. apply get_first. exact Hnin. }
      lapply Hpost; [clear Hpost; intros Hpost|].
      2:{ rewrite Hc. simpl. discriminate. }
      lapply Hpost; [clear Hpost; intros Hpost|lia].
      destruct (visit _ inv v k s0) as [s1| |]; [|exact Hpost|exact Hpost].
      cbn [visit_post] in Hpost. destruct Hpost as (Hi1 & Hc1 & Hd1 & Hm1).
      split; [exact Hi1|]. split; [congruence|].
      intros k0. unfold keys. rewrite fmap_app, elem_of_app. simpl.
      rewrite list_elem_of_singleton. intros [Hk0| ->]; [apply Hm1, Hq, Hk0|exact Hd1]. }
  destruct (forEachM _ inv _) as [st| |]; [|exact Hloop|exact Hloop].
  destruct Hloop as (Hi & Hc & Hq).
  split; [apply (si_topo _ _ Hi)|]. split; [apply (si_entries _ _ Hi)|].
  split; [apply (si_plan_nodup _ _ Hi)|].
  intros k. split.
  - intros Hk. apply list_elem_of_fmap in Hk as (e & -> & He).
    pose proof (si_entries _ _ Hi) as Hall. rewrite Forall_forall in Hall.
    destruct (Hall e He) as (value & Hget & _). unfold has. rewrite Hget. reflexivity.
  - intros Hk. apply (si_done _ _ Hi). apply Hq. apply has_keys. exact Hk.
Qed.

(** The position of the first occurrence of a name in a list. *)
Fixpoint position (k : string) (l : list string) : nat :=
  match l with
  | [] => 0
  | x :: l' => if String.eqb x k then 0 else S (position k l')
  end.

Lemma position_lt k l1 l2 : k ∈ l1 -> position k (l1 ++ l2) < length l1.
Proof.
  induction l1 as [|a l1 IH]; simpl; intros Hk; [inversion Hk|].
  destruct (String.eqb_spec a k) as [->|Hne]; [lia|].
  apply elem_of_cons in Hk as [Hk|Hk]; [congruence|].
  specialize (IH Hk). lia.
Qed.

Lemma position_first k l1 l2 : k ∉ l1 -> position k (l1 ++ k :: l2) = length l1.
Proof.
  induction l1 as [|a l1 IH]; simpl; intros Hk.
  - rewrite String.eqb_refl. reflexivity.
  - destruct (String.eqb_spec a k) as [->|Hne]; [exfalso; apply Hk; left|].
    rewrite IH; [reflexivity|]. intros H. apply Hk. right. exact H.
Qed.

(** In a plan accepted by [plan_ok], a dependency sits strictly before
    the entry that declares it. *)
Lemma plan_ok_position inv pl k p :
  plan_ok inv pl -> depends_on inv k p ->
  position p (pe_key <$> pl) < position k (pe_key <$> pl).
Proof.
  intros (Htopo & Hent & _ & Hall) (params & body & Hget & Hp & Hne & Hhas).
  assert (Hk : k ∈ pe_key <$> pl).
  { apply Hall. unfold has. rewrite Hget. reflexivity. }
  apply list_elem_of_split_l in Hk as (ks1 & ks2 & Heq & Hfirst).
  apply fmap_app_inv in Heq as (l1 & l2' & -> & Heq & ->).
  symmetry in Heq. apply fmap_cons_inv in Heq as (e & l2 & Hk & -> & ->).
  subst k. rewrite fmap_app, fmap_cons.
  rewrite (position_first (pe_key e)) by exact Hfirst.
  apply position_lt.
  apply (Htopo l1 e l2 eq_refl); [|exact Hne|exact Hhas].
  rewrite Forall_forall in Hent.
  destruct (Hent e) as (value & Hget' & He).
  { rewrite elem_of_app, elem_of_cons. auto. }
  rewrite Hget in Hget'. injection Hget' as <-.
  rewrite He. simpl. exact Hp.
Qed.

Lemma plan_ok_acyclic inv pl : plan_ok inv pl -> acyclic inv.
Proof.
  intros Hok k Hcyc.
  assert (Hlt : forall a b, clos_trans string (depends_on inv) a b ->
                  position b (pe_key <$> pl) < position a (pe_key <$> pl)).
  { intros a b H. induction H as [a b H|a b c _ IH1 _ IH2].
    - apply (plan_ok_position inv pl a b Hok H).
    - lia. }
  specialize (Hlt k k Hcyc). lia.
Qed.

Lemma cycle_error_has_cycle inv msg : cycle_error inv msg -> has_cycle inv.
Proof.
  intros (k & mid & _ & Hch & _). exists k. apply (chain_clos _ mid). exact Hch.
Qed.

(** The recursion of [visit] never exhausts the fuel [study_plan] gives it:
    [study] returns a plan or throws. *)
Lemma study_plan_terminates inv : study_plan inv <> OutOfFuel.
Proof.
  pose proof (study_plan_spec inv) as H. intros Heq. rewrite Heq in H. exact H.
Qed.

(** C3: for every acyclic mapping of invocables, [study] returns a plan,
    and in that plan every entry comes after the entries of all the names
    of the mapping that it depends on.  The plan has exactly one entry per
    key of the mapping, holding the invocable and its declared
    dependencies. *)
Theorem study_topological_order (inv : Obj Invocable) :
  acyclic inv ->
  exists pl,
    study_plan inv = Ok pl /\
    topological inv pl /\
    Forall (entry_of inv) pl /\
    NoDup (pe_key <$> pl) /\
    (forall k, k ∈ pe_key <$> pl <-> has inv k = true).
Proof.
  intros Hac. pose proof (study_plan_spec inv) as H.
  destruct (study_plan inv) as [pl|msg|].
  - exists pl. split; [reflexivity|exact H].
  - exfalso. destruct (cycle_error_has_cycle inv msg H) as (k & Hk).
    exact (Hac k Hk).
  - contradiction.
Qed.

(** A decidable certificate of acyclicity: a rank that decreases along
    every edge. *)
Definition ranked (inv : Obj Invocable) (rank : string -> nat) : bool :=
  forallb (fun kv =>
             forallb (fun p => String.eqb p (fst kv) || negb (has inv p)
                               || (rank p <? rank (fst kv)))
                     (annotate (snd kv)))
          inv.

Lemma ranked_acyclic inv rank : ranked inv rank = true -> acyclic inv.
Proof.
  intros Hr.
  assert (Hstep : forall a b, depends_on inv a b -> rank b < rank a).
  { intros a b (params & body & Hget & Hp & Hne & Hhas).
    apply get_Some_elem in Hget.
    unfold ranked in Hr. rewrite forallb_forall in Hr.
    specialize (Hr _ (proj1 (list_elem_of_In _ _) Hget)). simpl in Hr.
    rewrite forallb_forall in Hr.
    specialize (Hr _ (proj1 (list_elem_of_In _ _) Hp)).
    rewrite Hhas in Hr. simpl in Hr. rewrite orb_false_r in Hr.
    apply orb_true_iff in Hr as [Hr|Hr].
    - apply String.eqb_eq in Hr. congruence.
    - apply Nat.ltb_lt in Hr. exact Hr. }
  intros k Hk.
  assert (Hlt : forall a b, clos_trans string (depends_on inv) a b -> rank b < rank a).
  { intros a b H. induction H; [auto|lia]. }
  specialize (Hlt k k Hk). lia.
Qed.

Lemma cba_acyclic_is_acyclic : acyclic cba_acyclic.
Proof.
  apply (ranked_acyclic _ (fun k => if String.eqb k "c" then 2
                                    else if String.eqb k "b" then 1 else 0)).
  vm_compute. reflexivity.
Defined.

Lemma study_topological_order_witness :
  acyclic cba_acyclic /\
  exists pl,
    study_plan cba_acyclic = Ok pl /\
    topological cba_acyclic pl /\
    Forall (entry_of cba_acyclic) pl /\
    NoDup (pe_key <$> pl) /\
    (forall k, k ∈ pe_key <$> pl <-> has cba_acyclic k = true).
Proof.
  split; [exact cba_acyclic_is_acyclic|].
  apply (study_topological_order cba_acyclic). exact cba_acyclic_is_acyclic.
Defined.

Example study_cba_acyclic_plan :
  option_map (fmap pe_key)
             (match study_plan cba_acyclic with Ok pl => Some pl | _ => None end)
  = Some ["a"; "b"; "c"].
Proof. vm_compute. reflexivity. Qed.

(** C4: for every mapping whose dependency graph has a cycle, [study]
    throws (it returns no plan and starts no asynchronous work), and the
    message is "Cyclic dependency: " followed by the names of one simple
    cycle of the graph, in visit order from the repeated name back to
    itself, joined with " -> ". *)
Theorem study_cycle_trace (inv : Obj Invocable) :
  has_cycle inv ->
  exists k mid,
    study_plan inv =
      Throw ("Cyclic dependency: " +:+ join " -> " (k :: mid ++ [k])) /\
    chain (depends_on inv) (k :: mid ++ [k]) /\
    NoDup (k :: mid).
Proof.
  intros (k0 & Hcyc). pose proof (study_plan_spec inv) as H.
  destruct (study_plan inv) as [pl|msg|].
  - exfalso. exact (plan_ok_acyclic inv pl H k0 Hcyc).
  - destruct H as (k & mid & -> & Hch & Hnd). exists k, mid. auto.
  - contradiction.
Qed.

Lemma abc_cycle_has_cycle : has_cycle abc_cycle.
Proof.
  exists "A".
  assert (HAB : depends_on abc_cycle "A" "B").
  { exists ["B"], (fn0 VNull). repeat split; try reflexivity; [left|discriminate]. }
  assert (HBC : depends_on abc_cycle "B" "C").
  { exists ["C"], (fn0 VNull). repeat split; try reflexivity; [left|discriminate]. }
  assert (HCA : depends_on abc_cycle "C" "A").
  { exists ["A"], (fn0 VNull). repeat split; try reflexivity; [left|discriminate]. }
  eapply t_trans; [apply t_step, HAB|].
  eapply t_trans; [apply t_step, HBC|apply t_step, HCA].
Defined.

Lemma study_cycle_trace_witness :
  has_cycle abc_cycle /\
  exists k mid,
    study_plan abc_cycle =
      Throw ("Cyclic dependency: " +:+ join " -> " (k :: mid ++ [k])) /\
    chain (depends_on abc_cycle) (k :: mid ++ [k]) /\
    NoDup (k :: mid).
Proof.
  split; [exact abc_cycle_has_cycle|].
  apply (study_cycle_trace abc_cycle). exact abc_cycle_has_cycle.
Defined.

(** The mapping of the spec's example, with two more invocables around the
    cycle: the trace names A, B and C only. *)
Example study_abc_cycle_message :
  study_plan abc_cycle = Throw "Cyclic dependency: A -> B -> C -> A".
Proof. vm_compute. reflexivity. Qed.

(** ** More on objects *)

Section JsObjectFacts2.
Context {A : Type}.
Implicit Types (o : Obj A) (k : string) (v : A).

Lemma keys_set o k v :
  keys (set o k v) = if has o k then keys o else keys o ++ [k].
Proof.
  unfold keys, has. induction o as [|[k0 v0] o IH]; [reflexivity|].
  cbn [set get]. destruct (String.eqb_spec k0 k) as [->|Hne]; [reflexivity|].
  rewrite fmap_cons, IH. destruct (get o k); reflexivity.
Qed.

Lemma NoDup_keys_set o k v : NoDup (keys o) -> NoDup (keys (set o k v)).
Proof.
  intros Hnd. rewrite keys_set. destruct (has o k) eqn:Hh; [exact Hnd|].
  apply NoDup_app. split; [exact Hnd|]. split; [|apply NoDup_singleton].
  intros x Hx Hx'. apply list_elem_of_singleton in Hx'. subst x.
  apply has_keys in Hx. congruence.
Qed.

Lemma get_not_key o k : k ∉ keys o -> get o k = None.
Proof.
  intros Hn. destruct (get o k) eqn:Hg; [|reflexivity].
  exfalso. apply Hn, has_keys. unfold has. rewrite Hg. reflexivity.
Qed.

(** [extend]: the source wins. *)
Lemma get_extend (dst src : Obj A) k :
  NoDup (keys src) ->
  get (extend dst src) k =
    match get src k with Some v => Some v | None => get dst k end.
Proof.
  unfold extend. revert dst. induction src as [|[k0 v0] src IH]; intros dst Hnd; simpl.
  - reflexivity.
  - unfold keys in Hnd. simpl in Hnd. apply NoDup_cons in Hnd as [Hk0 Hnd].
    rewrite (IH _ Hnd).
    destruct (String.eqb_spec k0 k) as [->|Hne].
    + rewrite (get_not_key src k Hk0). apply get_set_eq.
    + rewrite get_set_ne by exact Hne. reflexivity.
Qed.

(** [merge]: the destination wins. *)
Lemma get_merge (dst src : Obj A) k :
  get dst k <> None -> get (merge dst src) k = get dst k.
Proof.
  unfold merge. revert dst. induction src as [|[k0 v0] src IH]; intros dst Hd; simpl.
  - reflexivity.
  - destruct (has dst k0) eqn:Hh; [apply IH; exact Hd|].
    assert (Hne : k0 <> k).
    { intros ->. unfold has in Hh. destruct (get dst k); congruence. }
    rewrite IH; rewrite get_set_ne by exact Hne; [reflexivity|exact Hd].
Qed.

Lemma get_pick_acc o (ks : list string) (acc : Obj A) k :
  get (fold_left (fun copy k => match get o k with
                                | Some v => set copy k v
                                | None => copy
                                end) ks acc) k =
    if bool_decide (k ∈ ks) then
      match get o k with Some v => Some v | None => get acc k end
    else get acc k.
Proof.
  revert acc. induction ks as [|k0 ks IH]; intros acc; simpl.
  - reflexivity.
  - rewrite IH. destruct (String.eqb_spec k0 k) as [->|Hne].
    + rewrite (bool_decide_eq_true_2 (k ∈ k :: ks)) by left.
      destruct (get o k) as [v|] eqn:Hg.
      * rewrite get_set_eq. destruct (bool_decide (k ∈ ks)); reflexivity.
      * destruct (bool_decide (k ∈ ks)); reflexivity.
    + assert (Hacc : get (match get o k0 with
                          | Some v => set acc k0 v
                          | None => acc
                          end) k = get acc k).
      { destruct (get o k0); [apply get_set_ne; exact Hne|reflexivity]. }
      rewrite Hacc.
      destruct (decide (k ∈ ks)) as [Hin|Hnin].
      * rewrite !bool_decide_eq_true_2; [reflexivity|right; exact Hin|exact Hin].
      * rewrite !bool_decide_eq_false_2; [reflexivity| |exact Hnin].
        intros Hin. apply elem_of_cons in Hin as [?|?]; congruence.
Qed.

(** [pick]: the listed names, where the object has them. *)
Lemma get_pick o (ks : list string) k :
  get (pick o ks) k = if bool_decide (k ∈ ks) then get o k else None.
Proof.
  unfold pick. rewrite get_pick_acc. simpl.
  destruct (bool_decide (k ∈ ks)); [|reflexivity].
  destruct (get o k); reflexivity.
Qed.

Lemma NoDup_keys_pick o (ks : list string) : NoDup (keys (pick o ks)).
Proof.
  unfold pick.
  assert (H : forall acc, NoDup (keys acc) ->
            NoDup (keys (fold_left (fun copy k => match get o k with
                                                  | Some v => set copy k v
                                                  | None => copy
                                                  end) ks acc))).
  { induction ks as [|k0 ks IH]; intros acc Hacc; simpl; [exact Hacc|].
    apply IH. destruct (get o k0); [apply NoDup_keys_set|]; exact Hacc. }
  apply H. constructor.
Qed.
End JsObjectFacts2.

Lemma get_omap {A B : Type} (f : A -> B) (o : Obj A) k :
  get (omap f o) k = f <$> get o k.
Proof.
  induction o as [|[k0 v0] o IH]; simpl; [reflexivity|].
  destruct (String.eqb k0 k); [reflexivity|exact IH].
Qed.

Lemma keys_omap {A B : Type} (f : A -> B) (o : Obj A) : keys (omap f o) = keys o.
Proof.
  unfold keys, omap. induction o as [|[k0 v0] o IH]; simpl; [reflexivity|].
  f_equal. exact IH.
Qed.

(** ** [PathElement.invokeNow] *)

(** The locals [invokeNow] passes on: under a name that is a parameter of
    the function and a Resolvable in scope, the Resolvable's data; under
    any other name, the caller's local. *)
Lemma combinedLocals_spec elem deps locals pathContext s sub name :
  pathFromRoot pathContext elem = Some sub ->
  NoDup (keys locals) ->
  exists combined,
    combinedLocals elem deps locals pathContext s = Some combined /\
    get combined name =
      match get (getResolvables sub []) name with
      | Some r =>
          if bool_decide (name ∈ deps)
          then Some (from_option rv_data VUndefined (n_resolvables s !! r))
          else get locals name
      | None => get locals name
      end.
Proof.
  intros Hsub Hnd. unfold combinedLocals. rewrite Hsub.
  eexists. split; [reflexivity|].
  rewrite get_extend by (rewrite keys_omap; apply NoDup_keys_pick).
  rewrite get_omap, get_pick, get_extend by exact Hnd. simpl.
  destruct (bool_decide (name ∈ deps)); simpl.
  - destruct (get (getResolvables sub []) name); simpl; [reflexivity|].
    destruct (get locals name); reflexivity.
  - destruct (get locals name); destruct (get (getResolvables sub []) name); reflexivity.
Qed.

(** C1 (as stated, refuted): with the Resolvable [x] in scope holding the
    data [1] and the caller passing [locals = { x: 5 }], a function
    declared as [function (x)] is invoked with [x = 1], not with the
    local's [5]. *)
Lemma invokeNow_local_loses_collision :
  get (A := Val) [("x", VNum 5)] "x" = Some (VNum 5) /\
  combinedLocals root_x ["x"] [("x", VNum 5)] [root_x] world_x_resolved
    = Some [("x", VNum 1)] /\
  invokeNow root_x ["x"] (fun _ values => param_x values)
            [("x", VNum 5)] [root_x] world_x_resolved
    = Some (Returns (VNum 1)).
Proof. repeat split; vm_compute; reflexivity. Qed.

(** C1 (amended): [invokeNow] invokes the function with the state as
    context and with locals in which, under every name that is a declared
    parameter and a Resolvable in scope from the root to this element,
    the Resolvable's data is passed - also when the caller supplied a
    local of that name; the caller's locals are passed under all other
    names. *)
Theorem invokeNow_resolved_data_wins
        (elem : PathElement) (deps : list string)
        (fn : Val -> Obj Val -> FnResult) (locals : Obj Val)
        (pathContext sub : Path) (s : NewApi) :
  pathFromRoot pathContext elem = Some sub ->
  NoDup (keys locals) ->
  exists combined,
    invokeNow elem deps fn locals pathContext s
      = Some (fn (pel_state elem) combined) /\
    forall name,
      get combined name =
        match get (getResolvables sub []) name with
        | Some r =>
            if bool_decide (name ∈ deps)
            then Some (from_option rv_data VUndefined (n_resolvables s !! r))
            else get locals name
        | None => get locals name
        end.
Proof.
  intros Hsub Hnd.
  destruct (combinedLocals_spec elem deps locals pathContext s sub "" Hsub Hnd)
    as (combined & Hc & _).
  exists combined. split.
  - unfold invokeNow. rewrite Hc. reflexivity.
  - intros name.
    destruct (combinedLocals_spec elem deps locals pathContext s sub name Hsub Hnd)
      as (combined' & Hc' & Hget).
    rewrite Hc in Hc'. injection Hc' as <-. exact Hget.
Qed.

Lemma invokeNow_resolved_data_wins_witness :
  exists combined,
    invokeNow root_x ["x"] (fun _ values => param_x values)
              [("x", VNum 5); ("y", VNum 6)] [root_x] world_x_resolved
      = Some (param_x combined) /\
    forall name,
      get combined name =
        match get (getResolvables [root_x] []) name with
        | Some r =>
            if bool_decide (name ∈ ["x"])
            then Some (from_option rv_data VUndefined
                                   (n_resolvables world_x_resolved !! r))
            else get [("x", VNum 5); ("y", VNum 6)] name
        | None => get [("x", VNum 5); ("y", VNum 6)] name
        end.
Proof.
  apply (invokeNow_resolved_data_wins root_x ["x"] (fun _ values => param_x values)
           [("x", VNum 5); ("y", VNum 6)] [root_x] [root_x] world_x_resolved).
  - reflexivity.
  - apply (bool_decide_unpack (NoDup _)). vm_compute. exact I.
Defined.

(** ** [Resolvable.resolveResolvable]: the data slot *)

(** C2 (the code at the failing input): the Resolvable [a] of a state
    [{ resolve: { a: function () { return 1; } } }] is resolved in a fresh
    world.  Its promise is fulfilled with [1] and nothing is left in the
    queue, yet its data slot is still [undefined]: the second continuation
    is a [function], whose [this] is not the Resolvable, so the value is
    stored on the global object or the store throws. *)
Theorem resolved_data_left_undefined (strict : bool) :
  exists p s rv,
    a_resolved strict = Some (p, s) /\
    q_queue (n_q s) = [] /\
    n_resolvables s !! 0 = Some rv /\
    rv_promise rv = Some 0 /\
    q_state (n_q s) 0 = Fulfilled (VNum 1) /\
    n_log s = [(0, [])] /\
    rv_data rv = VUndefined /\
    q_state (n_q s) p =
      (if strict
       then Rejected (VStr "TypeError: Cannot set property 'data' of undefined")
       else Fulfilled VUndefined) /\
    get (n_global s) "data" = (if strict then None else Some (VNum 1)).
Proof.
  destruct strict; vm_compute; do 3 eexists; repeat split; reflexivity.
Qed.

(** Had the continuation been called with the Resolvable as [this], the
    data would have been stored: the slip is the binding of [this]. *)
Lemma store_data_on_resolvable r data s rv :
  n_resolvables s !! r = Some rv ->
  rv_data <$> (n_resolvables (snd (store_data (RecvResolvable r) data s)) !! r)
    = Some data.
Proof.
  intros H. simpl. rewrite list_lookup_alter_eq, H. reflexivity.
Qed.

(** ** The legacy engine: arguments *)

(** C10: called with a resolve result first and no third argument, the
    function takes the first argument as [parent], the second as [self],
    and no locals: it runs as [start] does on the empty locals, that parent
    and that [self]. *)
Theorem resolve_fn_parent_first
        (injector_get : string -> FnResult) (pl : list PlanEntry)
        (invocableKeys : list string) (a1 a2 : Val) (s : Legacy) :
  isResolve a1 = true ->
  shift_args a1 a2 VUndefined = (VNull, a1, a2) /\
  forall prid pr,
    a1 = VResolve prid -> l_res s !! prid = Some pr ->
    resolve_fn injector_get pl invocableKeys a1 a2 VUndefined s =
      CallReturns (fst (start injector_get pl invocableKeys [] (Parent prid) a2 s))
                  (snd (start injector_get pl invocableKeys [] (Parent prid) a2 s)).
Proof.
  intros Hres.
  assert (Hshift : shift_args a1 a2 VUndefined = (VNull, a1, a2)).
  { unfold shift_args. rewrite Hres. reflexivity. }
  split; [exact Hshift|].
  intros prid pr -> Hpr. unfold resolve_fn. rewrite Hshift. cbn [truthy negb orb isResolve].
  rewrite Hpr. destruct (start _ _ _ _ _ _ _). reflexivity.
Qed.

Lemma resolve_fn_parent_first_witness :
  let s := drain no_services 10
             (snd (call returns_b VUndefined VUndefined VUndefined legacy_init)) in
  isResolve (VResolve 0) = true /\
  shift_args (VResolve 0) (VStr "me") VUndefined = (VNull, VResolve 0, VStr "me") /\
  r_parent <$> (l_res (snd (call returns_b (VResolve 0) (VStr "me") VUndefined s)) !! 1)
    = Some (Parent 0) /\
  r_self <$> (l_res (snd (call returns_b (VResolve 0) (VStr "me") VUndefined s)) !! 1)
    = Some (VStr "me") /\
  r_locals <$> (l_res (snd (call returns_b (VResolve 0) (VStr "me") VUndefined s)) !! 1)
    = Some [].
Proof.
  intros s. split; [reflexivity|].
  split; [exact (proj1 (resolve_fn_parent_first no_services [] [] (VResolve 0)
                          (VStr "me") s eq_refl))|].
  repeat split; vm_compute; reflexivity.
Defined.

(** ** The legacy engine: failures *)

(** The gate of [proceed]: with a defined [$$failure] nothing is invoked. *)
Lemma proceed_after_defined_failure injector_get rid eid s r :
  l_res s !! rid = Some r -> isDefined (r_failure r) = true ->
  proceed injector_get rid eid s = s.
Proof.
  intros Hr Hf. unfold proceed. rewrite Hr.
  destruct (invocation s rid eid); [rewrite Hf|]; reflexivity.
Qed.

(** The short-circuit of [start]: with a defined [parent.$$failure] the
    function fails with that reason and invokes nothing. *)
Lemma start_parent_failure_defined injector_get pl ks locals parent self s :
  isDefined (parent_failure s parent) = true ->
  let s' := snd (start injector_get pl ks locals parent self s) in
  l_log s' = l_log s /\
  (r_failure <$> l_res s' !! length (l_res s)) = Some (parent_failure s parent) /\
  exists r, l_res s' !! length (l_res s) = Some r /\
            q_state (l_q s') (r_result r) = Rejected (parent_failure s parent).
Proof.
  intros Hf. unfold start. destruct (q_defer (l_q s)) as [p q1] eqn:Hq.
  rewrite Hf. cbn [snd]. unfold fail. cbn [l_res].
  rewrite lookup_app_r, Nat.sub_diag by lia. cbn [lookup list_lookup].
  unfold with_q, with_res. cbn [l_q l_res l_log l_outside r_result].
  split; [reflexivity|].
  unfold q_defer in Hq. injection Hq as <- <-.
  rewrite !list_lookup_alter_eq, lookup_app_r, Nat.sub_diag by lia.
  cbn [lookup list_lookup fmap option_fmap option_map set_failure r_failure].
  split; [reflexivity|]. eexists. split; [reflexivity|].
  cbn [r_result set_failure]. unfold q_reject, q_state. cbn [q_states].
  rewrite lookup_app_r, Nat.sub_diag by lia. simpl.
  rewrite list_lookup_insert_eq by (rewrite length_app; simpl; lia).
  reflexivity.
Qed.

(** The spec's scenario, for any thrown value: [b] depends on [a], [a]
    throws; the resolution is rejected with what [a] threw and [b] is
    never invoked. *)
Lemma dependent_of_throwing_invocable_not_invoked (e : Val) :
  let s := drain no_services 10
             (snd (call (b_needs_throwing_a e) VUndefined VUndefined VUndefined
                        legacy_init)) in
  l_log s = [(0, "a", [])] /\
  q_state (l_q s) 0 = Rejected e /\
  q_queue (l_q s) = [].
Proof. repeat split; reflexivity. Qed.

(** C7 (the code at the failing input): [a] throws [undefined] while [c]
    still waits for the promise returned by [slow].  The resolution is
    rejected at once, but [$$failure] holds [undefined], the gate of
    [proceed] reads it as "no failure", and [c] is invoked when [slow]'s
    promise is fulfilled later. *)
Theorem invoked_after_failure_with_undefined_reason :
  let (s, s') := failure_then_late_dependency VUndefined in
  q_state (l_q s) 0 = Rejected VUndefined /\
  l_log s = [(0, "slow", []); (0, "a", [])] /\
  l_log s' = [(0, "slow", []); (0, "a", []); (0, "c", [("slow", VNum 1)])].
Proof. vm_compute. repeat split; reflexivity. Qed.

(** With a defined reason the same run invokes nothing after the failure. *)
Lemma not_invoked_after_failure_with_defined_reason :
  let (s, s') := failure_then_late_dependency (VStr "boom") in
  q_state (l_q s) 0 = Rejected (VStr "boom") /\
  l_log s = [(0, "slow", []); (0, "a", [])] /\
  l_log s' = [(0, "slow", []); (0, "a", [])].
Proof. vm_compute. repeat split; reflexivity. Qed.

(** C8 (the code at the failing input): the parent has failed with the
    reason [undefined].  The short-circuit tests [isDefined(parent.$$failure)],
    finds nothing, and the child invokes [b] before its call returns; the
    parent's rejection reaches the child only through the queue. *)
Theorem child_invokes_despite_failed_parent :
  let (child, s) := child_of_failed_parent VUndefined in
  q_state (l_q s) 0 = Rejected VUndefined /\
  l_log s = [(0, "a", []); (1, "b", [])] /\
  (r_failure <$> l_res s !! child) = Some VUndefined /\
  (exists r, l_res s !! child = Some r /\ q_state (l_q s) (r_result r) = Pending).
Proof.
  vm_compute. repeat split; try reflexivity. eexists. split; reflexivity.
Qed.

(** With a defined reason the child is rejected in the call and invokes
    nothing. *)
Lemma child_short_circuits_on_defined_failure :
  let (child, s) := child_of_failed_parent (VStr "boom") in
  l_log s = [(0, "a", [])] /\
  (exists r, l_res s !! child = Some r /\
             q_state (l_q s) (r_result r) = Rejected (VStr "boom")).
Proof. vm_compute. split; [reflexivity|]. eexists. split; reflexivity. Qed.

(** ** The legacy engine: decorating an inherited value *)

(** C6 (as stated, refuted): the parent resolution resolved to
    [{ x: 1 }], the [1] being one of its locals.  The child's
    [x: function (x)] is invoked at once with no [x] among its locals
    (the injector is left to find a service [x]); it is not given the
    parent's [1]. *)
Lemma self_dependency_not_resolved_from_parent_local :
  (r_values <$> l_res decorate_local_parent !! 0) = Some [("x", VNum 1)] /\
  (r_published <$> l_res decorate_local_parent !! 0) = Some true /\
  l_log decorate_local_parent = [(1, "x", [])] /\
  q_state (l_q decorate_local_parent) 1 = Rejected (VStr "Unknown provider: x").
Proof. vm_compute. repeat split; reflexivity. Qed.

(** The scenario of the spec, the parent's [x] coming from an invocable:
    the child's [x] is invoked with the parent's [1], its sibling [y] with
    the decorated [11]. *)
Example decorate_invocable_parent_log :
  l_log decorate_invocable_parent =
    [(0, "x", []); (1, "x", [("x", VNum 1)]); (1, "y", [("x", VNum 11)])] /\
  (r_values <$> l_res decorate_invocable_parent !! 1)
    = Some [("x", VNum 11); ("y", VNum 11)].
Proof. vm_compute. split; reflexivity. Qed.

(** The scenario of the spec for locals: [x] is never invoked and the
    result carries the local's [5]. *)
Example local_x_5_result :
  l_log local_x_5 = [(0, "y", [("x", VNum 5)])] /\
  q_state (l_q local_x_5) 0 = Fulfilled (VObj [("x", VNum 5); ("y", VNum 5)]).
Proof. vm_compute. split; reflexivity. Qed.

(** ** [$q]: what the operations do to the store *)

Section PromisesFacts.
Context {K : Type}.
Implicit Types (q : Q K) (p : nat) (k ok err : K) (st : PState).

(** Every continuation the store still holds, waiting or queued. *)
Definition callbacks q : list K :=
  flat_map (fun sub => [sub_ok sub; sub_err sub]) (q_subs q) ++ (fst <$> q_queue q).

Lemma callbacks_defer q : callbacks (snd (q_defer q)) = callbacks q.
Proof. reflexivity. Qed.

Lemma q_state_defer q p : q_state (snd (q_defer q)) p = q_state q p.
Proof.
  unfold q_state, q_defer. simpl.
  destruct (decide (p < length (q_states q))) as [Hlt|Hge].
  - rewrite lookup_app_l by exact Hlt. reflexivity.
  - rewrite (lookup_ge_None_2 (q_states q)) by lia.
    destruct (decide (p = length (q_states q))) as [->|Hne].
    + rewrite lookup_app_r, Nat.sub_diag by lia. reflexivity.
    + rewrite lookup_ge_None_2; [reflexivity|]. rewrite length_app. simpl. lia.
Qed.

Lemma q_defer_fresh q : fst (q_defer q) = length (q_states q).
Proof. reflexivity. Qed.

Lemma q_defer_length q : length (q_states (snd (q_defer q))) = S (length (q_states q)).
Proof. unfold q_defer. simpl. rewrite length_app. simpl. lia. Qed.

Lemma callbacks_then q p ok err k :
  k ∈ callbacks (q_then p ok err q) -> k ∈ callbacks q \/ k = ok \/ k = err.
Proof.
  unfold q_then, callbacks.
  destruct (q_state q p); simpl;
    rewrite ?flat_map_app, ?fmap_app, !elem_of_app; simpl;
    rewrite ?elem_of_cons, ?elem_of_nil; tauto.
Qed.

Lemma q_state_then q p ok err p' : q_state (q_then p ok err q) p' = q_state q p'.
Proof. unfold q_then. destruct (q_state q p); reflexivity. Qed.

Lemma q_states_then q p ok err : q_states (q_then p ok err q) = q_states q.
Proof. unfold q_then. destruct (q_state q p); reflexivity. Qed.

Lemma elem_of_notify st sub k v :
  (k, v) ∈ notify st sub -> k = sub_ok sub \/ k = sub_err sub.
Proof.
  destruct st; simpl; rewrite ?elem_of_cons, ?elem_of_nil; intros H;
    try tauto; destruct H as [[= -> _]|[]]; auto.
Qed.

Lemma callbacks_settle q p st k :
  k ∈ callbacks (q_settle p st q) -> k ∈ callbacks q.
Proof.
  unfold q_settle, callbacks. simpl. rewrite !elem_of_app, fmap_app, elem_of_app.
  intros [H|[H|H]].
  - left. apply list_elem_of_In, in_flat_map in H as (sub & Hsub & Hk).
    apply list_elem_of_In, list_elem_of_filter in Hsub as [_ Hsub].
    apply list_elem_of_In, in_flat_map. exists sub. split; [apply list_elem_of_In|]; auto.
  - auto.
  - left. apply list_elem_of_fmap in H as ([k' v] & -> & H). simpl.
    apply list_elem_of_In, in_flat_map in H as (sub & Hsub & Hk).
    apply list_elem_of_In, list_elem_of_filter in Hsub as [_ Hsub].
    apply list_elem_of_In, elem_of_notify in Hk.
    apply list_elem_of_In, in_flat_map. exists sub. split; [apply list_elem_of_In; exact Hsub|].
    simpl. destruct Hk as [->| ->]; auto.
Qed.

Lemma callbacks_resolve q p v k : k ∈ callbacks (q_resolve p v q) -> k ∈ callbacks q.
Proof.
  unfold q_resolve. destruct (q_state q p); first [exact (fun H => H) | apply callbacks_settle].
Qed.

Lemma callbacks_reject q p e k : k ∈ callbacks (q_reject p e q) -> k ∈ callbacks q.
Proof.
  unfold q_reject. destruct (q_state q p); first [exact (fun H => H) | apply callbacks_settle].
Qed.

Lemma callbacks_adopt q p st k : k ∈ callbacks (q_adopt p st q) -> k ∈ callbacks q.
Proof.
  unfold q_adopt. destruct (q_state q p); first [exact (fun H => H) | apply callbacks_settle].
Qed.

Lemma callbacks_follow q p src ok err k :
  k ∈ callbacks (q_follow p src ok err q) -> k ∈ callbacks q \/ k = ok \/ k = err.
Proof.
  unfold q_follow. destruct (q_state q p); try (intros H; left; exact H).
  intros H. apply callbacks_then in H. exact H.
Qed.

Lemma callbacks_pop q k v rest k' :
  q_queue q = (k, v) :: rest ->
  k' ∈ callbacks (mkQ (q_states q) (q_subs q) rest) -> k' ∈ callbacks q.
Proof.
  intros Hq. unfold callbacks. simpl. rewrite Hq, !elem_of_app, fmap_cons, elem_of_cons.
  tauto.
Qed.

Lemma callbacks_head q k v rest :
  q_queue q = (k, v) :: rest -> k ∈ callbacks q.
Proof.
  intros Hq. unfold callbacks. rewrite Hq, elem_of_app, fmap_cons, elem_of_cons. auto.
Qed.
End PromisesFacts.

(** ** The legacy engine: locals shadow invocables *)

(** A continuation [KWait] never waits for a name that is a local. *)
Definition wait_ok (s : Legacy) (k : LK) : Prop :=
  match k with
  | KWait rid _ dep =>
      exists r, l_res s !! rid = Some r /\ has (r_locals r) dep = false
  | _ => True
  end.

Record LocalsInv (s : Legacy) : Prop := {
  li_keys : forall rid r iv,
      l_res s !! rid = Some r -> iv ∈ r_invocations r ->
      has (r_locals r) (iv_key iv) = false;
  li_values : forall rid r k,
      l_res s !! rid = Some r -> has (r_locals r) k = true ->
      get (r_values r) k = get (extend [] (r_locals r)) k;
  li_waits : forall k, k ∈ callbacks (l_q s) -> wait_ok s k;
  li_log : forall rid k vals,
      (rid, k, vals) ∈ l_log s ->
      exists r, l_res s !! rid = Some r /\ has (r_locals r) k = false
}.

(** A change of one resolution that keeps its locals, does not touch the
    value of any local, and only adds invocations for names that are not
    locals. *)
Definition keeps_locals (f : Resolution -> Resolution) (r : Resolution) : Prop :=
  r_locals (f r) = r_locals r /\
  (forall k, has (r_locals r) k = true -> get (r_values (f r)) k = get (r_values r) k) /\
  (forall iv, iv ∈ r_invocations (f r) ->
     has (r_locals r) (iv_key iv) = false \/
     exists iv', iv' ∈ r_invocations r /\ iv_key iv' = iv_key iv).

Lemma LocalsInv_with_res s rid f :
  (forall r, l_res s !! rid = Some r -> keeps_locals f r) ->
  LocalsInv s -> LocalsInv (with_res rid f s).
Proof.
  intros Hf [Hk Hv Hw Hl].
  assert (Hlook : forall rid' r', l_res (with_res rid f s) !! rid' = Some r' ->
            exists r, l_res s !! rid' = Some r /\
                      (r' = r \/ (rid' = rid /\ r' = f r))).
  { intros rid' r'. unfold with_res. simpl. rewrite list_lookup_alter.
    destruct (decide (rid = rid')) as [->|Hne].
    - destruct (l_res s !! rid') as [r|]; simpl; [|discriminate].
      intros [= <-]. exists r. auto.
    - intros H. exists r'. auto. }
  constructor.
  - intros rid' r' iv Hr Hiv. destruct (Hlook _ _ Hr) as (r & Hr0 & [->|[-> ->]]).
    + eauto.
    + destruct (Hf r Hr0) as (Hloc & _ & Hinv). rewrite Hloc.
      destruct (Hinv iv Hiv) as [H|(iv' & Hiv' & Hkey)]; [exact H|].
      rewrite <- Hkey. eauto.
  - intros rid' r' k Hr Hhas. destruct (Hlook _ _ Hr) as (r & Hr0 & [->|[-> ->]]).
    + eauto.
    + destruct (Hf r Hr0) as (Hloc & Hval & _). rewrite Hloc in *.
      rewrite Hval by exact Hhas. eauto.
  - intros k Hin. specialize (Hw k Hin). destruct k; simpl in *; auto.
    destruct Hw as (r & Hr & Hhas). unfold with_res. simpl.
    rewrite list_lookup_alter. destruct (decide (rid = rid0)) as [->|Hne].
    + rewrite Hr. simpl. exists (f r). split; [reflexivity|].
      destruct (Hf r Hr) as (-> & _). exact Hhas.
    + eauto.
  - intros rid' k vals Hin. destruct (Hl _ _ _ Hin) as (r & Hr & Hhas).
    unfold with_res. simpl. rewrite list_lookup_alter.
    destruct (decide (rid = rid')) as [->|Hne].
    + rewrite Hr. simpl. exists (f r). split; [reflexivity|].
      destruct (Hf r Hr) as (-> & _). exact Hhas.
    + eauto.
Qed.

(** A change of the promise store that brings in no new continuation. *)
Lemma LocalsInv_with_q s f :
  (forall k, k ∈ callbacks (f (l_q s)) -> k ∈ callbacks (l_q s)) ->
  LocalsInv s -> LocalsInv (with_q f s).
Proof.
  intros Hf [Hk Hv Hw Hl]. constructor; auto.
  intros k Hin. apply Hf in Hin. specialize (Hw k Hin).
  destruct k; simpl in *; auto.
Qed.

Lemma LocalsInv_with_q_then s p ok err :
  wait_ok s ok -> wait_ok s err ->
  LocalsInv s -> LocalsInv (with_q (q_then p ok err) s).
Proof.
  intros Hok Herr [Hk Hv Hw Hl]. constructor; auto.
  intros k Hin. simpl in Hin. apply callbacks_then in Hin as [Hin|[->| ->]].
  - specialize (Hw k Hin). destruct k; simpl in *; auto.
  - destruct ok; simpl in *; auto.
  - destruct err; simpl in *; auto.
Qed.

Lemma has_merge_dst {A : Type} (dst src : Obj A) k :
  has dst k = true -> get (merge dst src) k = get dst k.
Proof.
  intros H. apply get_merge. unfold has in H. destruct (get dst k); congruence.
Qed.

Lemma has_extend {A : Type} (dst src : Obj A) k :
  has (extend dst src) k = has dst k || has src k.
Proof.
  unfold extend. revert dst. induction src as [|[k0 v0] src IH]; intros dst; simpl.
  - destruct (has dst k); reflexivity.
  - rewrite IH, has_set.
    assert (Hc : has ((k0, v0) :: src) k = if String.eqb k0 k then true else has src k).
    { unfold has. simpl. destruct (String.eqb k0 k); reflexivity. }
    rewrite Hc. destruct (String.eqb k0 k); simpl; [rewrite orb_true_r|]; reflexivity.
Qed.

Lemma keeps_locals_values r (g : Resolution -> Resolution) :
  r_locals (g r) = r_locals r ->
  r_invocations (g r) = r_invocations r ->
  (forall k, has (r_locals r) k = true ->
             get (r_values (g r)) k = get (r_values r) k) ->
  keeps_locals g r.
Proof.
  intros Hl Hi Hv. split; [exact Hl|]. split; [exact Hv|].
  intros iv Hiv. rewrite Hi in Hiv. right. eauto.
Qed.

Lemma keeps_locals_other r (g : Resolution -> Resolution) :
  r_locals (g r) = r_locals r ->
  r_invocations (g r) = r_invocations r ->
  r_values (g r) = r_values r ->
  keeps_locals g r.
Proof.
  intros Hl Hi Hv. split; [exact Hl|]. split.
  - intros k _. rewrite Hv. reflexivity.
  - intros iv Hiv. rewrite Hi in Hiv. right. eauto.
Qed.

Lemma LocalsInv_add_log s rid key vals r :
  l_res s !! rid = Some r -> has (r_locals r) key = false ->
  LocalsInv s -> LocalsInv (add_log rid key vals s).
Proof.
  intros Hr Hh [Hk Hv Hw Hl]. constructor; auto.
  intros rid' k' vals' Hin. simpl in Hin.
  apply elem_of_app in Hin as [Hin|Hin]; [eauto|].
  apply list_elem_of_singleton in Hin. injection Hin as -> -> ->. eauto.
Qed.

Lemma LocalsInv_fail s rid reason : LocalsInv s -> LocalsInv (fail rid reason s).
Proof.
  intros H. unfold fail. destruct (l_res s !! rid) as [r|] eqn:Hr; [|exact H].
  apply LocalsInv_with_q; [intros k; apply callbacks_reject|].
  apply LocalsInv_with_res; [|exact H].
  intros r' _. apply keeps_locals_other; reflexivity.
Qed.

Lemma LocalsInv_done s rid : LocalsInv s -> LocalsInv (done rid s).
Proof.
  intros H. unfold done. destruct (l_res s !! rid) as [r|] eqn:Hr; [|exact H].
  destruct (r_wait r - 1 =? 0)%Z.
  - apply LocalsInv_with_q; [intros k; apply callbacks_resolve|].
    apply LocalsInv_with_res; [|exact H].
    intros r' Hr'. rewrite Hr in Hr'. injection Hr' as <-.
    apply keeps_locals_values; [reflexivity|reflexivity|].
    intros k Hk. simpl. destruct (r_merged r); [reflexivity|].
    apply has_merge_dst. unfold has.
    rewrite (li_values _ H rid r k Hr Hk).
    fold (has (extend (A := Val) [] (r_locals r)) k). rewrite has_extend, Hk.
    apply orb_true_r.
  - apply LocalsInv_with_res; [|exact H].
    intros r' _. apply keeps_locals_other; reflexivity.
Qed.

Lemma invocation_Some s rid eid iv :
  invocation s rid eid = Some iv ->
  exists r, l_res s !! rid = Some r /\ r_invocations r !! eid = Some iv.
Proof.
  unfold invocation. destruct (l_res s !! rid) as [r|]; simpl; [|discriminate].
  intros H. eauto.
Qed.

Lemma LocalsInv_onfailure s rid eid reason :
  LocalsInv s -> LocalsInv (onfailure rid eid reason s).
Proof.
  intros H. unfold onfailure. destruct (invocation s rid eid); [|exact H].
  apply LocalsInv_fail, LocalsInv_with_q; [intros k; apply callbacks_reject|exact H].
Qed.

Section LocalsFacts.
Variable injector_get : string -> FnResult.

Lemma LocalsInv_proceed s rid eid :
  LocalsInv s -> LocalsInv (proceed injector_get rid eid s).
Proof.
  intros H. unfold proceed.
  destruct (l_res s !! rid) as [r|] eqn:Hr; [|exact H].
  destruct (invocation s rid eid) as [iv|] eqn:Hiv; [|exact H].
  destruct (isDefined (r_failure r)); [exact H|].
  apply invocation_Some in Hiv as (r' & Hr' & Hiv). rewrite Hr in Hr'. injection Hr' as <-.
  assert (Hkey : has (r_locals r) (iv_key iv) = false).
  { apply (li_keys _ H rid r iv Hr). apply list_elem_of_lookup_2 in Hiv. exact Hiv. }
  pose proof (LocalsInv_add_log s rid (iv_key iv) (r_values r) r Hr Hkey H) as H1.
  destruct (invoke injector_get (iv_invocable iv) (r_self r) (r_values r)) as [v|e|fate].
  - apply LocalsInv_with_q_then; [exact I|exact I|].
    apply LocalsInv_with_q; [intros k; apply callbacks_resolve|exact H1].
  - apply LocalsInv_onfailure. exact H1.
  - destruct (q_defer (l_q (add_log rid (iv_key iv) (r_values r) s))) as [p q1] eqn:Hq.
    apply LocalsInv_with_q_then; [exact I|exact I|].
    destruct H1 as [Hk Hv Hw Hl]. constructor; auto.
    intros k Hin. simpl in Hin. apply callbacks_follow in Hin as [Hin|[->| ->]];
      try exact I.
    unfold q_defer in Hq. injection Hq as <- <-.
    specialize (Hw k Hin). destruct k; simpl in *; auto.
Qed.

Lemma keeps_locals_waitParams r eid g :
  keeps_locals
    (fun r => set_invocations
                (alter (fun iv => set_waitParams (g iv) iv) eid (r_invocations r)) r) r.
Proof.
  split; [reflexivity|]. split; [reflexivity|].
  intros iv Hiv. right. simpl in Hiv.
  apply list_elem_of_lookup in Hiv as (i & Hi).
  rewrite list_lookup_alter in Hi. destruct (decide (eid = i)) as [->|Hne].
  - destruct (r_invocations r !! i) as [iv'|] eqn:Hiv'; simpl in Hi; [|discriminate].
    injection Hi as <-. exists iv'. split; [|reflexivity].
    apply list_elem_of_lookup_2 in Hiv'. exact Hiv'.
  - exists iv. split; [|reflexivity]. apply list_elem_of_lookup_2 in Hi. exact Hi.
Qed.

Lemma LocalsInv_run_callback s k arg :
  wait_ok s k -> LocalsInv s -> LocalsInv (run_callback injector_get k arg s).
Proof.
  intros Hk H. destruct k as [rid|rid|rid eid dep|rid eid|rid eid|p|p]; simpl.
  - apply LocalsInv_done, H.
  - apply LocalsInv_fail, H.
  - destruct Hk as (r & Hr & Hdep).
    assert (H2 : LocalsInv
              (with_invocation rid eid
                 (fun iv => set_waitParams (iv_waitParams iv - 1)%Z iv)
                 (with_res rid (fun r => set_values (set (r_values r) dep arg) r) s))).
    { apply LocalsInv_with_res; [intros r' _; apply keeps_locals_waitParams|].
      apply LocalsInv_with_res; [|exact H].
      intros r' Hr'. rewrite Hr in Hr'. injection Hr' as <-.
      apply keeps_locals_values; [reflexivity|reflexivity|].
      intros k0 Hk0. simpl. apply get_set_ne. intros ->. congruence. }
    destruct (invocation _ rid eid) as [iv|]; [|exact H2].
    destruct (iv_waitParams iv =? 0)%Z; [apply LocalsInv_proceed|]; exact H2.
  - apply LocalsInv_onfailure, H.
  - destruct (invocation s rid eid) as [iv|] eqn:Hiv; [|exact H].
    apply invocation_Some in Hiv as (r & Hr & Hiv).
    apply LocalsInv_done, LocalsInv_with_res; [|exact H].
    intros r' Hr'. rewrite Hr in Hr'. injection Hr' as <-.
    apply keeps_locals_values; [reflexivity|reflexivity|].
    intros k0 Hk0. simpl. apply get_set_ne. intros <-.
    apply list_elem_of_lookup_2 in Hiv.
    pose proof (li_keys _ H rid r iv Hr Hiv). congruence.
  - apply LocalsInv_with_q; [intros k; apply callbacks_adopt|exact H].
  - apply LocalsInv_with_q; [intros k; apply callbacks_adopt|exact H].
Qed.

Lemma LocalsInv_tick s : LocalsInv s -> LocalsInv (tick injector_get s).
Proof.
  intros H. unfold tick. destruct (q_queue (l_q s)) as [|[k arg] rest] eqn:Hq; [exact H|].
  apply LocalsInv_run_callback.
  - pose proof (li_waits _ H k (callbacks_head _ _ _ _ Hq)) as Hk.
    destruct k; simpl in *; auto.
  - apply LocalsInv_with_q; [|exact H].
    intros k'. apply (callbacks_pop _ _ _ _ _ Hq).
Qed.

Lemma LocalsInv_outside_list s (o : list (nat * Fate)) :
  LocalsInv s -> LocalsInv (mkLegacy (l_q s) (l_res s) o (l_log s)).
Proof. intros [Hk Hv Hw Hl]. constructor; auto. Qed.

Lemma LocalsInv_settle_outside s i : LocalsInv s -> LocalsInv (settle_outside i s).
Proof.
  intros H. unfold settle_outside.
  destruct (l_outside s !! i) as [[p [v|e|]]|]; try exact H.
  - apply LocalsInv_with_q; [intros k; apply callbacks_resolve|].
    apply LocalsInv_outside_list, H.
  - apply LocalsInv_with_q; [intros k; apply callbacks_reject|].
    apply LocalsInv_outside_list, H.
Qed.
End LocalsFacts.

Section LocalsStart.
Variable injector_get : string -> FnResult.

Lemma LocalsInv_wait_for rid eid s dep :
  LocalsInv s -> LocalsInv (wait_for rid eid s dep).
Proof.
  intros H. unfold wait_for. destruct (l_res s !! rid) as [r|] eqn:Hr; [|exact H].
  destruct (get (r_promises r) dep) as [p|]; [|exact H].
  destruct (has (r_locals r) dep) eqn:Hdep; simpl; [exact H|].
  apply LocalsInv_with_q_then; [|exact I|].
  - simpl. unfold with_invocation, with_res. simpl.
    rewrite list_lookup_alter_eq, Hr. simpl. eexists. split; [reflexivity|exact Hdep].
  - apply LocalsInv_with_res; [|exact H].
    intros r' _. apply (keeps_locals_waitParams r' eid (fun iv => (iv_waitParams iv + 1)%Z)).
Qed.

Lemma LocalsInv_fold_wait_for rid eid deps s :
  LocalsInv s -> LocalsInv (fold_left (wait_for rid eid) deps s).
Proof.
  revert s. induction deps as [|dep deps IH]; intros s H; simpl; [exact H|].
  apply IH, LocalsInv_wait_for, H.
Qed.

Lemma LocalsInv_invoke_entry rid e s r :
  l_res s !! rid = Some r -> has (r_locals r) (pe_key e) = false ->
  LocalsInv s -> LocalsInv (invoke_entry injector_get rid e s).
Proof.
  intros Hr Hkey H. unfold invoke_entry. rewrite Hr.
  destruct (q_defer (l_q s)) as [p q1] eqn:Hq.
  apply LocalsInv_with_res; [intros r' _; apply keeps_locals_other; reflexivity|].
  match goal with |- LocalsInv (match invocation ?s2 _ _ with _ => _ end) =>
    assert (H2 : LocalsInv s2) end.
  { apply LocalsInv_fold_wait_for.
    apply LocalsInv_with_res.
    - intros r' Hr'. split; [reflexivity|]. split; [reflexivity|].
      intros iv Hiv. simpl in Hiv. simpl in Hr'. rewrite Hr in Hr'. injection Hr' as <-.
      apply elem_of_app in Hiv as [Hiv|Hiv]; [right; eauto|].
      apply list_elem_of_singleton in Hiv. subst iv. left. exact Hkey.
    - apply LocalsInv_with_q; [|exact H].
      intros k. unfold q_defer in Hq. injection Hq as <- <-. exact (fun H => H). }
  destruct (invocation _ rid _) as [iv'|]; [|exact H2].
  destruct (iv_waitParams iv' =? 0)%Z; [apply LocalsInv_proceed|]; exact H2.
Qed.

Lemma LocalsInv_process_entry rid s e :
  LocalsInv s -> LocalsInv (process_entry injector_get rid s e).
Proof.
  intros H. unfold process_entry. destruct (l_res s !! rid) as [r|] eqn:Hr; [|exact H].
  destruct (has (r_locals r) (pe_key e)) eqn:Hkey.
  - apply LocalsInv_done, H.
  - eapply LocalsInv_invoke_entry; eauto.
Qed.

Lemma LocalsInv_fold_process_entry rid pl s :
  LocalsInv s -> LocalsInv (fold_left (process_entry injector_get rid) pl s).
Proof.
  revert s. induction pl as [|e pl IH]; intros s H; simpl; [exact H|].
  apply IH, LocalsInv_process_entry, H.
Qed.

Lemma LocalsInv_new_resolution s q r0 :
  callbacks q = callbacks (l_q s) ->
  r_invocations r0 = [] -> r_values r0 = extend [] (r_locals r0) ->
  LocalsInv s -> LocalsInv (mkLegacy q (l_res s ++ [r0]) (l_outside s) (l_log s)).
Proof.
  intros Hq Hi Hv [Hk Hval Hw Hl].
  assert (Hlook : forall rid r, (l_res s ++ [r0]) !! rid = Some r ->
                    l_res s !! rid = Some r \/ r = r0).
  { intros rid r Hr. apply lookup_app_Some in Hr as [Hr|[_ Hr]]; [auto|].
    right. apply list_elem_of_lookup_2, list_elem_of_singleton in Hr. exact Hr. }
  constructor; simpl.
  - intros rid r iv Hr Hiv. destruct (Hlook _ _ Hr) as [Hr'| ->]; [eauto|].
    rewrite Hi in Hiv. inversion Hiv.
  - intros rid r k Hr Hhas. destruct (Hlook _ _ Hr) as [Hr'| ->]; [eauto|].
    rewrite Hv. reflexivity.
  - intros k Hin. rewrite Hq in Hin. specialize (Hw k Hin).
    destruct k; simpl in *; auto. destruct Hw as (r & Hr & Hh).
    exists r. split; [apply lookup_app_l_Some; exact Hr|exact Hh].
  - intros rid k vals Hin. destruct (Hl _ _ _ Hin) as (r & Hr & Hh).
    exists r. split; [apply lookup_app_l_Some; exact Hr|exact Hh].
Qed.

Lemma keeps_locals_merge r (x : Obj Val) (g : Obj Val -> Resolution -> Resolution) :
  get (r_values r) = get (extend [] (r_locals r)) \/
  (forall k, has (r_locals r) k = true -> get (r_values r) k = get (extend [] (r_locals r)) k) ->
  r_locals (g (merge (r_values r) x) r) = r_locals r ->
  r_invocations (g (merge (r_values r) x) r) = r_invocations r ->
  r_values (g (merge (r_values r) x) r) = merge (r_values r) x ->
  keeps_locals (fun r => g (merge (r_values r) x) r) r.
Proof.
  intros Hv Hl Hi Hval. apply keeps_locals_values; [exact Hl|exact Hi|].
  intros k Hk. rewrite Hval. apply has_merge_dst. unfold has.
  assert (Hg : get (r_values r) k = get (extend [] (r_locals r)) k).
  { destruct Hv as [Hv|Hv]; [rewrite Hv; reflexivity|auto]. }
  rewrite Hg. fold (has (extend (A := Val) [] (r_locals r)) k).
  rewrite has_extend, Hk. apply orb_true_r.
Qed.

Lemma LocalsInv_start pl ks locals parent self s :
  LocalsInv s -> LocalsInv (snd (start injector_get pl ks locals parent self s)).
Proof.
  intros H. unfold start. destruct (q_defer (l_q s)) as [p q1] eqn:Hq.
  set (rid := length (l_res s)).
  set (r0 := mkResolution _ _ _ _ _ _ _ _ _ _ _ _).
  assert (H0 : LocalsInv (mkLegacy q1 (l_res s ++ [r0]) (l_outside s) (l_log s))).
  { apply LocalsInv_new_resolution; [|reflexivity|reflexivity|exact H].
    unfold q_defer in Hq. injection Hq as <- <-. reflexivity. }
  destruct (isDefined (parent_failure s parent)); cbn [snd].
  { apply LocalsInv_fail, H0. }
  apply LocalsInv_fold_process_entry.
  assert (Hmerge : forall s1 (x : Obj Val) g,
            LocalsInv s1 ->
            (forall v r, r_locals (g v r) = r_locals r) ->
            (forall v r, r_invocations (g v r) = r_invocations r) ->
            (forall v r, r_values (g v r) = v) ->
            LocalsInv (with_res rid (fun r => g (merge (r_values r) x) r) s1)).
  { intros s1 x g H1 Hl Hi Hv. apply LocalsInv_with_res; [|exact H1].
    intros r Hr. apply keeps_locals_merge; auto.
    right. intros k Hk. apply (li_values _ H1 rid r k Hr Hk). }
  match goal with |- LocalsInv (match parent_values s parent with _ => _ end) =>
    idtac end.
  set (s1 := match parent_inherited s parent with
             | Some iv => _
             | None => _
             end).
  assert (H1 : LocalsInv s1).
  { unfold s1. destruct (parent_inherited s parent) as [iv|]; [|exact H0].
    apply (Hmerge _ (omit iv ks) (fun v r => set_values v r) H0); reflexivity. }
  set (s2 := with_res rid _ s1).
  assert (H2 : LocalsInv s2).
  { apply LocalsInv_with_res; [|exact H1].
    intros r _. apply keeps_locals_other; reflexivity. }
  destruct (parent_values s parent) as [pv|].
  - apply LocalsInv_done.
    apply (Hmerge _ (omit pv ks)
             (fun v r => set_inherited (Some (omit pv ks)) (set_merged true (set_values v r)))
             H2); reflexivity.
  - assert (H3 : LocalsInv match parent_inherited s parent with
                           | Some iv => with_res rid (set_inherited (Some (omit iv ks))) s2
                           | None => s2
                           end).
    { destruct (parent_inherited s parent) as [iv|]; [|exact H2].
      apply LocalsInv_with_res; [|exact H2].
      intros r _. apply keeps_locals_other; reflexivity. }
    destruct parent as [|prid]; [exact H3|].
    destruct (l_res s !! prid) as [pr|]; [|exact H3].
    apply LocalsInv_with_q_then; [exact I|exact I|exact H3].
Qed.

Lemma LocalsInv_init : LocalsInv legacy_init.
Proof.
  constructor; simpl.
  - intros rid r iv Hr. rewrite lookup_nil in Hr. discriminate.
  - intros rid r k Hr. rewrite lookup_nil in Hr. discriminate.
  - intros k Hk. inversion Hk.
  - intros rid k vals Hin. inversion Hin.
Qed.

Lemma LocalsInv_resolve invocables a1 a2 a3 s rid s' :
  resolve injector_get invocables a1 a2 a3 s = CallReturns rid s' ->
  LocalsInv s -> LocalsInv s'.
Proof.
  unfold resolve, resolve_fn. intros Hcall H.
  destruct (study_plan invocables) as [pl| |]; try discriminate.
  destruct (shift_args a1 a2 a3) as [[locals parent] self].
  destruct (negb (truthy locals) || _); [|destruct locals; discriminate].
  destruct (negb (truthy parent)).
  - pose proof (LocalsInv_start pl (keys invocables)
                  (match locals with VObj o => o | _ => [] end) NO_PARENT self s H) as Hs.
    destruct (start _ _ _ _ _ _ _) as [rid0 s0]. injection Hcall as <- <-. exact Hs.
  - destruct (isResolve parent); [|discriminate].
    destruct parent as [| | | | |prid]; try discriminate.
    destruct (l_res s !! prid); [|discriminate].
    pose proof (LocalsInv_start pl (keys invocables)
                  (match locals with VObj o => o | _ => [] end) (Parent prid) self s H) as Hs.
    destruct (start _ _ _ _ _ _ _) as [rid0 s0]. injection Hcall as <- <-. exact Hs.
Qed.

Lemma LocalsInv_reachable s : reachable injector_get s -> LocalsInv s.
Proof.
  intros H. apply clos_rt_rtn1 in H. induction H as [|s1 s2 Hstep _ IH].
  - exact LocalsInv_init.
  - destruct Hstep as [invocables a1 a2 a3 s rid s' Hcall|s|i s].
    + eapply LocalsInv_resolve; eauto.
    + apply LocalsInv_tick, IH.
    + apply LocalsInv_settle_outside, IH.
Qed.

Lemma reachable_tick s : reachable injector_get s -> reachable injector_get (tick injector_get s).
Proof. intros H. eapply rt_trans; [exact H|]. apply rt_step, step_tick. Qed.

Lemma reachable_drain fuel s :
  reachable injector_get s -> reachable injector_get (drain injector_get fuel s).
Proof.
  revert s. induction fuel as [|fuel IH]; intros s H; simpl; [exact H|].
  destruct (q_queue (l_q s)); [exact H|]. apply IH, reachable_tick, H.
Qed.

Lemma reachable_settle_outside i s :
  reachable injector_get s -> reachable injector_get (settle_outside i s).
Proof. intros H. eapply rt_trans; [exact H|]. apply rt_step, step_outside. Qed.
End LocalsStart.

Lemma reachable_call invocables a1 a2 a3 s :
  reachable no_services s ->
  reachable no_services (snd (call invocables a1 a2 a3 s)).
Proof.
  intros H. unfold call.
  destruct (resolve no_services invocables a1 a2 a3 s) as [msg|rid s'|] eqn:Hc;
    try exact H.
  eapply rt_trans; [exact H|]. apply rt_step. eapply step_call. exact Hc.
Qed.

Lemma local_x_5_reachable : reachable no_services local_x_5.
Proof.
  unfold local_x_5. apply reachable_drain, reachable_call. apply rt_refl.
Defined.

(** ** Counting continuations *)

Fixpoint tally {A : Type} (P : A -> bool) (l : list A) : nat :=
  match l with
  | [] => 0
  | x :: l' => (if P x then 1 else 0) + tally P l'
  end.

Lemma tally_app {A : Type} (P : A -> bool) l1 l2 :
  tally P (l1 ++ l2) = tally P l1 + tally P l2.
Proof. induction l1 as [|x l1 IH]; simpl; [reflexivity|]. rewrite IH. lia. Qed.

Lemma tally_zero {A : Type} (P : A -> bool) l :
  (forall x, x ∈ l -> P x = false) -> tally P l = 0.
Proof.
  induction l as [|x l IH]; intros H; simpl; [reflexivity|].
  rewrite (H x) by left. rewrite IH; [reflexivity|]. intros y Hy. apply H. right. exact Hy.
Qed.

Lemma tally_pos {A : Type} (P : A -> bool) l x :
  x ∈ l -> P x = true -> 0 < tally P l.
Proof.
  induction l as [|y l IH]; intros Hin HP; [inversion Hin|]. simpl.
  apply elem_of_cons in Hin as [->|Hin]; [rewrite HP; lia|].
  specialize (IH Hin HP). lia.
Qed.

Section PromisesCount.
Context {K : Type}.
Variable P : K -> bool.
Implicit Types (q : Q K) (p : nat) (ok err : K) (st : PState).

(** How many of the continuations held by the store satisfy [P]. *)
Definition occ q : nat := tally P (callbacks q).

Definition one (k : K) : nat := if P k then 1 else 0.

Lemma occ_defer q : occ (snd (q_defer q)) = occ q.
Proof. reflexivity. Qed.

Lemma occ_then_le q p ok err : occ (q_then p ok err q) <= occ q + one ok + one err.
Proof.
  unfold occ, q_then, callbacks, one.
  destruct (q_state q p); cbn [q_subs q_queue];
    rewrite ?flat_map_app, ?fmap_app, !tally_app;
    cbn [flat_map fmap list_fmap fst app tally sub_ok sub_err];
    destruct (P ok), (P err); lia.
Qed.

Lemma tally_notify st sub :
  tally P (fst <$> notify st sub) <= one (sub_ok sub) + one (sub_err sub).
Proof.
  unfold one. destruct st; simpl; destruct (P (sub_ok sub)), (P (sub_err sub)); simpl; lia.
Qed.

Lemma occ_settle_le q p st : occ (q_settle p st q) <= occ q.
Proof.
  unfold occ, q_settle, callbacks. simpl. rewrite fmap_app, !tally_app.
  assert (H : forall subs : list (Sub K),
    tally P (flat_map (fun sub => [sub_ok sub; sub_err sub])
                      (filter (fun sub => sub_on sub <> p) subs)) +
    tally P (fst <$> flat_map (notify st) (filter (fun sub => sub_on sub = p) subs))
    <= tally P (flat_map (fun sub => [sub_ok sub; sub_err sub]) subs)).
  { induction subs as [|sub subs IH]; [simpl; lia|].
    rewrite !filter_cons. pose proof (tally_notify st sub) as Hn. unfold one in Hn.
    destruct (decide (sub_on sub = p)) as [Heq|Hne].
    - rewrite decide_False by (intros Hc; apply Hc; exact Heq).
      simpl flat_map. rewrite fmap_app, !tally_app. simpl in *.
      destruct (P (sub_ok sub)), (P (sub_err sub)); simpl in *; lia.
    - rewrite decide_True by exact Hne. simpl in *.
      destruct (P (sub_ok sub)), (P (sub_err sub)); simpl in *; lia. }
  specialize (H (q_subs q)). lia.
Qed.

Lemma occ_resolve_le q p v : occ (q_resolve p v q) <= occ q.
Proof. unfold q_resolve. destruct (q_state q p); auto using occ_settle_le. Qed.

Lemma occ_reject_le q p e : occ (q_reject p e q) <= occ q.
Proof. unfold q_reject. destruct (q_state q p); auto using occ_settle_le. Qed.

Lemma occ_adopt_le q p st : occ (q_adopt p st q) <= occ q.
Proof. unfold q_adopt. destruct (q_state q p); auto using occ_settle_le. Qed.

Lemma occ_follow_le q p src ok err :
  occ (q_follow p src ok err q) <= occ q + one ok + one err.
Proof.
  unfold q_follow. destruct (q_state q p); try lia.
  etransitivity; [apply occ_then_le|]. reflexivity.
Qed.

Lemma occ_pop q k v rest :
  q_queue q = (k, v) :: rest ->
  occ q = one k + occ (mkQ (q_states q) (q_subs q) rest).
Proof.
  intros Hq. unfold occ, callbacks, one. cbn [q_subs q_queue].
  rewrite Hq, !tally_app. cbn [fmap list_fmap tally fst]. lia.
Qed.
End PromisesCount.

(** ** [Resolvable.get]: the resolve function runs at most once *)

Definition is_invoke (r : nat) (k : NK) : bool :=
  match k with NInvoke r' _ _ => Nat.eqb r' r | _ => false end.

(** How often the resolve function of [r] has been invoked. *)
Definition invocations_of (r : nat) (log : list (nat * Obj Val)) : nat :=
  tally (fun e => Nat.eqb (fst e) r) log.

Definition no_promise (rv : Resolvable) : bool :=
  match rv_promise rv with None => true | Some _ => false end.

Definition unset (s : NewApi) (r : nat) : bool :=
  from_option no_promise false (n_resolvables s !! r).

Definition unset_count (s : NewApi) : nat := tally no_promise (n_resolvables s).

(** The invocations of [r] performed, those still to come, and the one
    that may yet be set up: this never grows. *)
Definition budget (r : nat) (s : NewApi) : nat :=
  occ (is_invoke r) (n_q s) + invocations_of r (n_log s)
  + (if unset s r then 1 else 0).

(** What a call of [get] may change. *)
Record GetStep (s s' : NewApi) : Prop := {
  gs_budget : forall r, budget r s' <= budget r s;
  gs_log : n_log s' = n_log s;
  gs_len : length (n_resolvables s') = length (n_resolvables s);
  gs_set : forall r rv, n_resolvables s !! r = Some rv -> rv_promise rv <> None ->
                        n_resolvables s' !! r = Some rv;
  gs_data : forall r, rv_data <$> n_resolvables s' !! r = rv_data <$> n_resolvables s !! r;
  gs_count : unset_count s' <= unset_count s
}.

Lemma GetStep_refl s : GetStep s s.
Proof. constructor; auto. Qed.

Lemma GetStep_trans s1 s2 s3 : GetStep s1 s2 -> GetStep s2 s3 -> GetStep s1 s3.
Proof.
  intros [Hb1 Hl1 Hn1 Hs1 Hd1 Hc1] [Hb2 Hl2 Hn2 Hs2 Hd2 Hc2]. constructor.
  - intros r. etransitivity; [apply Hb2|apply Hb1].
  - congruence.
  - congruence.
  - intros r rv Hr Hp. apply Hs2; [apply Hs1|]; assumption.
  - intros r. rewrite Hd2. apply Hd1.
  - lia.
Qed.

Lemma GetStep_with_q s f :
  (forall r, occ (is_invoke r) (f (n_q s)) <= occ (is_invoke r) (n_q s)) ->
  GetStep s (n_with_q f s).
Proof.
  intros Hf. constructor; auto.
  intros r. unfold budget, unset. simpl. specialize (Hf r). lia.
Qed.

Lemma GetStep_defer s : GetStep s (snd (n_defer s)).
Proof.
  unfold n_defer. destruct (q_defer (n_q s)) as [p q1] eqn:Hq. simpl.
  apply (GetStep_with_q s (fun _ => q1)). intros r.
  unfold q_defer in Hq. injection Hq as <- <-. reflexivity.
Qed.

Lemma GetStep_then s p ok err :
  (forall r d, is_invoke r (ok d) = false) ->
  (forall r d, is_invoke r (err d) = false) ->
  GetStep s (snd (n_then p ok err s)).
Proof.
  intros Hok Herr. unfold n_then.
  pose proof (GetStep_defer s) as H1. destruct (n_defer s) as [d s1]. simpl in *.
  eapply GetStep_trans; [exact H1|]. apply GetStep_with_q. intros r.
  etransitivity; [apply occ_then_le|]. unfold one. rewrite Hok, Herr. lia.
Qed.

Lemma GetStep_q_all promises s : GetStep s (snd (q_all promises s)).
Proof.
  unfold q_all. pose proof (GetStep_defer s) as H1.
  destruct (n_defer s) as [d s1]. simpl in H1.
  set (s2 := mkNewApi _ _ (n_alls s1 ++ _) _ _ _).
  assert (H2 : GetStep s s2).
  { eapply GetStep_trans; [exact H1|]. constructor; auto. }
  match goal with |- GetStep s (snd (_, if _ then n_with_q _ ?s3 else _)) =>
    assert (H3 : GetStep s s3) end.
  { clearbody s2. clear H1. revert s2 H2.
    generalize (length (n_alls s1)). intros a.
    induction promises as [|[k p] promises IH]; intros s2 H2; simpl; [exact H2|].
    apply IH. eapply GetStep_trans; [exact H2|]. apply GetStep_with_q. intros r.
    etransitivity; [apply occ_then_le|]. unfold one. simpl. lia. }
  simpl. destruct (length promises =? 0); [|exact H3].
  eapply GetStep_trans; [exact H3|]. apply GetStep_with_q. intros r.
  apply occ_resolve_le.
Qed.

Lemma tally_alter {A : Type} (P : A -> bool) (f : A -> A) i l x :
  l !! i = Some x ->
  tally P (alter f i l) + (if P x then 1 else 0)
  = tally P l + (if P (f x) then 1 else 0).
Proof.
  revert i. induction l as [|y l IH]; intros i Hi; [rewrite lookup_nil in Hi; discriminate|].
  destruct i as [|i].
  - simpl in *. injection Hi as ->. destruct (P (f x)), (P x); lia.
  - specialize (IH i Hi). change (alter f (S i) (y :: l)) with (y :: alter f i l).
    cbn [tally]. destruct (P (f x)), (P x), (P y); lia.
Qed.

(** [this.promise = deferred.promise] on a Resolvable that had none: the
    budget of the Resolvable drops by the one it may still spend. *)
Lemma set_promise_step s r rv d :
  n_resolvables s !! r = Some rv -> rv_promise rv = None ->
  let s' := n_with_resolvable r (set_promise (Some d)) s in
  (forall r', budget r' s' + (if Nat.eqb r' r then 1 else 0) <= budget r' s) /\
  n_log s' = n_log s /\
  length (n_resolvables s') = length (n_resolvables s) /\
  (forall r' rv', n_resolvables s !! r' = Some rv' -> rv_promise rv' <> None ->
                  n_resolvables s' !! r' = Some rv') /\
  (forall r', rv_data <$> n_resolvables s' !! r' = rv_data <$> n_resolvables s !! r') /\
  unset_count s' < unset_count s /\
  unset s' r = false.
Proof.
  intros Hr Hp s'. repeat split.
  - intros r'. unfold budget, unset, s'. simpl. rewrite list_lookup_alter.
    destruct (Nat.eqb_spec r' r) as [->|Hne].
    + rewrite decide_True by reflexivity. rewrite Hr. simpl.
      unfold no_promise. simpl. rewrite Hp. lia.
    + rewrite decide_False by congruence. lia.
  - apply length_alter.
  - intros r' rv' Hr' Hp'. simpl. rewrite list_lookup_alter.
    destruct (decide (r = r')) as [->|Hne]; [congruence|exact Hr'].
  - intros r'. simpl. rewrite list_lookup_alter.
    destruct (decide (r = r')) as [->|Hne]; [|reflexivity].
    rewrite Hr. reflexivity.
  - unfold unset_count, s'. simpl.
    pose proof (tally_alter no_promise (set_promise (Some d)) r _ rv Hr) as Ht.
    assert (H1 : no_promise rv = true) by (unfold no_promise; rewrite Hp; reflexivity).
    assert (H2 : no_promise (set_promise (Some d) rv) = false) by reflexivity.
    rewrite H1, H2 in Ht. lia.
  - unfold unset, s'. simpl. rewrite list_lookup_alter_eq, Hr. reflexivity.
Qed.

Lemma elem_of_set {A : Type} (o : Obj A) k v x :
  x ∈ set o k v -> x ∈ o \/ x = (k, v).
Proof.
  induction o as [|[k0 v0] o IH]; simpl.
  - intros H. apply list_elem_of_singleton in H. auto.
  - destruct (String.eqb_spec k0 k) as [->|Hne]; rewrite !elem_of_cons; intros [H|H]; auto.
    destruct (IH H); auto.
Qed.

Lemma elem_of_extend {A : Type} (dst src : Obj A) x :
  x ∈ extend dst src -> x ∈ dst \/ x ∈ src.
Proof.
  unfold extend. revert dst. induction src as [|[k v] src IH]; intros dst; simpl; [auto|].
  intros H. destruct (IH _ H) as [H1|H1].
  - apply elem_of_set in H1 as [H1| ->]; [auto|]. right. left.
  - right. right. exact H1.
Qed.

Lemma elem_of_pick {A : Type} (o : Obj A) ks x : x ∈ pick o ks -> x ∈ o.
Proof.
  unfold pick.
  assert (H : forall acc, (forall y, y ∈ acc -> y ∈ o) ->
            x ∈ fold_left (fun copy k => match get o k with
                                         | Some v => set copy k v
                                         | None => copy
                                         end) ks acc -> x ∈ o).
  { induction ks as [|k ks IH]; intros acc Hacc; simpl; [apply Hacc|].
    apply IH. destruct (get o k) as [v|] eqn:Hg; [|exact Hacc].
    intros y Hy. apply elem_of_set in Hy as [Hy| ->]; [auto|].
    apply get_Some_elem. exact Hg. }
  apply H. intros y Hy. inversion Hy.
Qed.

Lemma elem_of_getResolvables path om x :
  x ∈ getResolvables path om ->
  exists elem, elem ∈ path /\ x ∈ pel_resolvables elem.
Proof.
  unfold getResolvables. generalize (last path). intros l.
  assert (H : forall (acc : Obj nat) (els : list PathElement),
            x ∈ fold_left
                  (fun memo elem =>
                     extend memo
                       (omit (pel_resolvables elem)
                             match l with
                             | Some l0 => if same_element elem l0 then om else []
                             | None => []
                             end)) els acc ->
            x ∈ acc \/ exists elem, elem ∈ els /\ x ∈ pel_resolvables elem).
  { intros acc els. revert acc. induction els as [|e els IH]; intros acc; simpl; [auto|].
    intros Hx. destruct (IH _ Hx) as [Hx1|(elem & He & Hx1)].
    - apply elem_of_extend in Hx1 as [Hx1|Hx1]; [auto|].
      right. exists e. split; [left|].
      unfold omit in Hx1. apply list_elem_of_filter in Hx1 as [_ Hx1]. exact Hx1.
    - right. exists elem. split; [right; exact He|exact Hx1]. }
  intros Hx. destruct (H [] path Hx) as [Hx1|Hx1]; [inversion Hx1|exact Hx1].
Qed.

Lemma budget_with_q s f r :
  budget r (n_with_q f s) + occ (is_invoke r) (n_q s)
  = budget r s + occ (is_invoke r) (f (n_q s)).
Proof. unfold budget, unset. simpl. lia. Qed.

(** The loop over [depResolvables], given that [get] behaves on every
    dependency. *)
Lemma deps_loop (get_ : nat -> Path -> NewApi -> option (nat * NewApi))
      (pathContext : Path) (n : nat) (bound : nat) :
  (forall r s, r < n -> length (n_resolvables s) = n -> unset_count s < bound ->
     exists p s', get_ r pathContext s = Some (p, s') /\ GetStep s s') ->
  forall (deps : Obj nat) acc s,
    (forall kr, kr ∈ deps -> snd kr < n) ->
    length (n_resolvables s) = n -> unset_count s < bound ->
    exists promises s',
      fold_left (fun acc kr =>
                   match acc with
                   | Some (depPromises, s') =>
                       match get_ (snd kr) pathContext s' with
                       | Some (p, s'') => Some (depPromises ++ [(fst kr, p)], s'')
                       | None => None
                       end
                   | None => None
                   end) deps (Some (acc, s)) = Some (promises, s') /\
      GetStep s s'.
Proof.
  intros Hget deps. induction deps as [|[k id] deps IH]; intros acc s Hdeps Hlen Hcount.
  - simpl. exists acc, s. split; [reflexivity|apply GetStep_refl].
  - simpl. destruct (Hget id s) as (p & s1 & Hg & Hstep); [|exact Hlen|exact Hcount|].
    { apply (Hdeps (k, id)). left. }
    rewrite Hg.
    destruct (IH (acc ++ [(k, p)]) s1) as (promises & s2 & Hfold & Hstep2).
    + intros kr Hkr. apply Hdeps. right. exact Hkr.
    + rewrite (gs_len _ _ Hstep). exact Hlen.
    + pose proof (gs_count _ _ Hstep). lia.
    + exists promises, s2. split; [exact Hfold|].
      eapply GetStep_trans; eassumption.
Qed.

(** [get] returns, whatever the path: no chain of nested
    [resolveResolvable] calls outlasts the Resolvables without a promise. *)
Lemma get_fuel_spec fuel : forall r pathContext s,
  path_wf (length (n_resolvables s)) pathContext ->
  r < length (n_resolvables s) ->
  unset_count s < fuel ->
  exists p s', get_fuel fuel r pathContext s = Some (p, s') /\
               GetStep s s' /\ unset s' r = false.
Proof.
  induction fuel as [|fuel IH]; intros r pathContext s Hwf Hr Hcount; [lia|].
  simpl. destruct (lookup_lt_is_Some_2 _ _ Hr) as [rv Hrv]. rewrite Hrv.
  destruct (rv_promise rv) as [p|] eqn:Hp.
  { exists p, s. split; [reflexivity|]. split; [apply GetStep_refl|].
    unfold unset. rewrite Hrv. simpl. unfold no_promise. rewrite Hp. reflexivity. }
  unfold resolveResolvable_with.
  pose proof (GetStep_defer s) as H1.
  destruct (n_defer s) as [deferred s1] eqn:Hd. simpl in H1.
  assert (Hrv1 : n_resolvables s1 !! r = Some rv).
  { unfold n_defer in Hd. destruct (q_defer (n_q s)). injection Hd as _ <-. exact Hrv. }
  destruct (set_promise_step s1 r rv deferred Hrv1 Hp)
    as (Hb2 & Hl2 & Hn2 & Hs2 & Hd2 & Hc2 & Hu2).
  set (s2 := n_with_resolvable r (set_promise (Some deferred)) s1) in *.
  assert (Hlen2 : length (n_resolvables s2) = length (n_resolvables s)).
  { rewrite Hn2. apply (gs_len _ _ H1). }
  destruct (deps_loop (get_fuel fuel) pathContext (length (n_resolvables s)) fuel)
    with (deps := pick (getResolvables pathContext [rv_name rv]) (rv_deps rv))
         (acc := @nil (string * nat)) (s := s2)
    as (promises & s3 & Hfold & H3).
  { intros r0 s0 Hr0 Hlen0 Hc0.
    destruct (IH r0 pathContext s0) as (p0 & s0' & Hg & Hst & _); [| |exact Hc0|eauto].
    - rewrite Hlen0. exact Hwf.
    - rewrite Hlen0. exact Hr0. }
  { intros [k id] Hkr. apply elem_of_pick, elem_of_getResolvables in Hkr
      as (elem & He & Hk). simpl. eapply Hwf; eassumption. }
  { exact Hlen2. }
  { pose proof (gs_count _ _ H1). lia. }
  rewrite Hfold.
  pose proof (GetStep_q_all promises s3) as H4.
  destruct (q_all promises s3) as [a s4]. simpl in H4.
  assert (H5 : forall r', budget r' (snd (n_then a (NInvoke r deferred) NPass s4))
                          <= budget r' s4 + (if Nat.eqb r' r then 1 else 0)).
  { intros r'. unfold n_then.
    pose proof (GetStep_defer s4) as Hd4. destruct (n_defer s4) as [d s4']. simpl in *.
    pose proof (gs_budget _ _ Hd4 r') as Hb.
    pose proof (budget_with_q s4' (q_then a (NInvoke r deferred d) (NPass d)) r') as He.
    pose proof (occ_then_le (is_invoke r') (n_q s4') a (NInvoke r deferred d) (NPass d)) as Ho.
    unfold one in Ho. simpl in Ho. rewrite (Nat.eqb_sym r r') in Ho.
    destruct (r' =? r); lia. }
  destruct (n_then a (NInvoke r deferred) NPass s4) as [b s5] eqn:Hthen.
  pose proof (GetStep_then s5 b NStore NPass (fun _ _ => eq_refl) (fun _ _ => eq_refl)) as H6.
  destruct (n_then b NStore NPass s5) as [c s6]. simpl in H5, H6.
  exists c, s6. split; [reflexivity|].
  assert (Hframe5 : n_log s5 = n_log s4 /\
                    n_resolvables s5 = n_resolvables s4).
  { unfold n_then, n_defer in Hthen. destruct (q_defer (n_q s4)).
    injection Hthen as _ <-. split; reflexivity. }
  destruct Hframe5 as (Hlog5 & Hres5).
  split.
  - constructor.
    + intros r'. pose proof (gs_budget _ _ H6 r'). specialize (H5 r').
      pose proof (gs_budget _ _ H4 r'). pose proof (gs_budget _ _ H3 r').
      specialize (Hb2 r'). pose proof (gs_budget _ _ H1 r').
      destruct (r' =? r); lia.
    + rewrite (gs_log _ _ H6), Hlog5, (gs_log _ _ H4), (gs_log _ _ H3), Hl2.
      apply (gs_log _ _ H1).
    + rewrite (gs_len _ _ H6), Hres5, (gs_len _ _ H4), (gs_len _ _ H3). exact Hlen2.
    + intros r' rv' Hr' Hp'. apply (gs_set _ _ H6); [|exact Hp']. rewrite Hres5.
      apply (gs_set _ _ H4); [|exact Hp']. apply (gs_set _ _ H3); [|exact Hp'].
      apply Hs2; [|exact Hp']. apply (gs_set _ _ H1); assumption.
    + intros r'. rewrite (gs_data _ _ H6), Hres5, (gs_data _ _ H4), (gs_data _ _ H3), Hd2.
      apply (gs_data _ _ H1).
    + pose proof (gs_count _ _ H6) as Hc6. unfold unset_count in Hc6 at 2.
      rewrite Hres5 in Hc6. fold (unset_count s4) in Hc6.
      pose proof (gs_count _ _ H4). pose proof (gs_count _ _ H3).
      pose proof (gs_count _ _ H1). lia.
  - assert (Hset2 : exists rv2, n_resolvables s2 !! r = Some rv2 /\ rv_promise rv2 <> None).
    { unfold s2. simpl. rewrite list_lookup_alter_eq, Hrv1. simpl.
      eexists. split; [reflexivity|]. simpl. discriminate. }
    destruct Hset2 as (rv2 & Hrv2 & Hp2).
    pose proof (gs_set _ _ H3 r rv2 Hrv2 Hp2) as Hrv3.
    pose proof (gs_set _ _ H4 r rv2 Hrv3 Hp2) as Hrv4.
    rewrite <- Hres5 in Hrv4.
    pose proof (gs_set _ _ H6 r rv2 Hrv4 Hp2) as Hrv6.
    unfold unset. rewrite Hrv6. simpl. unfold no_promise.
    destruct (rv_promise rv2); [reflexivity|congruence].
Qed.

Lemma tally_le_length {A : Type} (P : A -> bool) l : tally P l <= length l.
Proof. induction l as [|x l IH]; simpl; [lia|]. destruct (P x); lia. Qed.

Lemma rget_spec r pathContext s :
  path_wf (length (n_resolvables s)) pathContext ->
  r < length (n_resolvables s) ->
  exists p s', rget r pathContext s = Some (p, s') /\
               GetStep s s' /\ unset s' r = false.
Proof.
  intros Hwf Hr. apply get_fuel_spec; [exact Hwf|exact Hr|].
  pose proof (tally_le_length no_promise (n_resolvables s)). unfold unset_count. lia.
Qed.

(** With its promise set, [get] hands it back and changes nothing. *)
Lemma rget_memoized r pathContext s rv d :
  n_resolvables s !! r = Some rv -> rv_promise rv = Some d ->
  rget r pathContext s = Some (d, s).
Proof. intros Hr Hp. unfold rget. simpl. rewrite Hr, Hp. reflexivity. Qed.

Lemma budget_q_le s f r :
  occ (is_invoke r) (f (n_q s)) <= occ (is_invoke r) (n_q s) ->
  budget r (n_with_q f s) <= budget r s.
Proof. intros H. pose proof (budget_with_q s f r). lia. Qed.

Lemma budget_settle_derived derived res s r :
  budget r (settle_derived derived res s) <= budget r s.
Proof.
  destruct res as [v|p|e]; simpl; apply budget_q_le.
  - apply occ_resolve_le.
  - etransitivity; [apply occ_follow_le|]. unfold one. simpl. lia.
  - apply occ_reject_le.
Qed.

Section OnceFacts.
Variable strict : bool.

Lemma n_run_callback_resolvables k arg s :
  n_resolvables (n_run_callback strict k arg s) = n_resolvables s.
Proof.
  destruct k as [r deferred derived|derived|derived|a key|a key|p|p]; simpl;
    try reflexivity.
  - destruct (n_resolvables s !! r) as [rv|]; [|reflexivity].
    destruct (rv_resolveFn rv (rv_state rv) _) as [v|e|fate];
      destruct (rv_promise rv); simpl; try reflexivity;
      unfold n_defer; simpl; reflexivity.
  - unfold plain_call_this. destruct strict; simpl.
    + reflexivity.
    + destruct (default VUndefined (get (n_global s) "promise")); reflexivity.
  - destruct (n_alls s !! a) as [al|]; [|reflexivity].
    destruct (has (all_results al) key); [reflexivity|].
    destruct (all_counter al - 1 =? 0)%Z; reflexivity.
  - destruct (n_alls s !! a) as [al|]; [|reflexivity].
    destruct (has (all_results al) key); reflexivity.
Qed.

Lemma budget_run_callback k arg s r :
  budget r (n_run_callback strict k arg s) <= budget r s + one (is_invoke r) k.
Proof.
  destruct k as [r0 deferred derived|derived|derived|a key|a key|p|p]; unfold one;
    cbn [is_invoke n_run_callback].
  - destruct (n_resolvables s !! r0) as [rv|] eqn:Hrv; [|lia].
    etransitivity; [apply budget_settle_derived|].
    set (s1 := mkNewApi _ _ _ _ _ (n_log s ++ _)).
    assert (H1 : budget r s1 <= budget r s + (if r0 =? r then 1 else 0)).
    { unfold budget, unset, s1, invocations_of. simpl. rewrite tally_app. simpl.
      destruct (r0 =? r); lia. }
    destruct (rv_resolveFn rv (rv_state rv) _) as [v|e|fate].
    + etransitivity; [apply budget_q_le, occ_resolve_le|exact H1].
    + etransitivity; [apply budget_q_le, occ_reject_le|exact H1].
    + unfold n_defer. simpl. etransitivity; [|exact H1].
      etransitivity; [apply budget_q_le|].
      * etransitivity; [apply occ_follow_le|]. unfold one. simpl. rewrite !Nat.add_0_r.
        reflexivity.
      * unfold budget, unset, occ, callbacks, s1.
        cbn [n_q n_log n_resolvables q_subs q_queue]. lia.
  - unfold plain_call_this. destruct strict; simpl.
    + etransitivity; [apply budget_q_le, occ_reject_le|lia].
    + etransitivity; [apply budget_q_le, occ_resolve_le|].
      unfold budget, unset. cbn [n_q n_log n_resolvables]. lia.
  - etransitivity; [apply budget_q_le, occ_reject_le|lia].
  - destruct (n_alls s !! a) as [al|]; [|lia].
    destruct (has (all_results al) key); [lia|].
    destruct (all_counter al - 1 =? 0)%Z.
    + etransitivity; [apply budget_q_le, occ_resolve_le|].
      unfold budget, unset. simpl. lia.
    + unfold budget, unset. simpl. lia.
  - destruct (n_alls s !! a) as [al|]; [|lia].
    destruct (has (all_results al) key); [lia|].
    etransitivity; [apply budget_q_le, occ_reject_le|lia].
  - etransitivity; [apply budget_q_le, occ_adopt_le|lia].
  - etransitivity; [apply budget_q_le, occ_adopt_le|lia].
Qed.

Lemma n_tick_resolvables s : n_resolvables (n_tick strict s) = n_resolvables s.
Proof.
  unfold n_tick. destruct (q_queue (n_q s)) as [|[k arg] rest]; [reflexivity|].
  rewrite n_run_callback_resolvables. reflexivity.
Qed.

Lemma budget_tick s r : budget r (n_tick strict s) <= budget r s.
Proof.
  unfold n_tick. destruct (q_queue (n_q s)) as [|[k arg] rest] eqn:Hq; [lia|].
  etransitivity; [apply budget_run_callback|].
  pose proof (occ_pop (is_invoke r) (n_q s) k arg rest Hq) as Hpop.
  unfold budget, unset in *. simpl. lia.
Qed.

Lemma n_settle_outside_resolvables i s :
  n_resolvables (n_settle_outside i s) = n_resolvables s.
Proof.
  unfold n_settle_outside. destruct (n_outside s !! i) as [[p [v|e|]]|]; reflexivity.
Qed.

Lemma budget_settle_outside i s r : budget r (n_settle_outside i s) <= budget r s.
Proof.
  unfold n_settle_outside. destruct (n_outside s !! i) as [[p [v|e|]]|]; try lia.
  - etransitivity; [apply budget_q_le, occ_resolve_le|]. unfold budget, unset. simpl. lia.
  - etransitivity; [apply budget_q_le, occ_reject_le|]. unfold budget, unset. simpl. lia.
Qed.

(** What every step keeps: the budget of each Resolvable does not grow, a
    promise once set stays, and no data slot is ever written. *)
Record Kept (s s' : NewApi) : Prop := {
  k_budget : forall r, budget r s' <= budget r s;
  k_len : length (n_resolvables s') = length (n_resolvables s);
  k_set : forall r rv, n_resolvables s !! r = Some rv -> rv_promise rv <> None ->
                       n_resolvables s' !! r = Some rv;
  k_data : forall r, rv_data <$> n_resolvables s' !! r = rv_data <$> n_resolvables s !! r
}.

Lemma Kept_nstep s s' : nstep strict s s' -> Kept s s'.
Proof.
  intros [r pathContext s0 p s0' Hwf Hr Hget|s0|i s0].
  - destruct (rget_spec r pathContext s0 Hwf Hr) as (p' & s1 & Hget' & Hstep & _).
    rewrite Hget in Hget'. injection Hget' as -> ->.
    constructor; [apply (gs_budget _ _ Hstep)|apply (gs_len _ _ Hstep)
                  |apply (gs_set _ _ Hstep)|apply (gs_data _ _ Hstep)].
  - constructor; rewrite ?n_tick_resolvables; auto using budget_tick.
  - constructor; rewrite ?n_settle_outside_resolvables; auto using budget_settle_outside.
Qed.

Lemma Kept_steps s s' : clos_refl_trans NewApi (nstep strict) s s' -> Kept s s'.
Proof.
  intros H. induction H as [s s' H|s|s1 s2 s3 _ IH1 _ IH2].
  - apply Kept_nstep, H.
  - constructor; auto.
  - destruct IH1 as [Hb1 Hl1 Hs1 Hd1], IH2 as [Hb2 Hl2 Hs2 Hd2]. constructor.
    + intros r. etransitivity; [apply Hb2|apply Hb1].
    + congruence.
    + intros r rv Hr Hp. apply Hs2; [apply Hs1|]; assumption.
    + intros r. rewrite Hd2. apply Hd1.
Qed.

Lemma budget_new_world rs r : budget r (new_world rs) <= 1.
Proof.
  unfold budget, new_world, occ, callbacks, invocations_of. simpl.
  destruct (unset _ r); lia.
Qed.
End OnceFacts.

(** C5: in every world reachable from one in which nothing is resolved
    yet, and for every Resolvable [r] of the store and every path: the
    resolve function of [r] has been invoked at most once; [get] returns
    and leaves the promise slot of [r] set; and from then on, whatever
    happens, the resolve function has still been invoked at most once and
    every [get] on [r] returns the promise of that slot and changes
    nothing. *)
Theorem get_invokes_resolveFn_at_most_once
        (strict : bool) (rs : list Resolvable) (s : NewApi)
        (r : nat) (pathContext : Path) :
  clos_refl_trans NewApi (nstep strict) (new_world rs) s ->
  path_wf (length (n_resolvables s)) pathContext ->
  r < length (n_resolvables s) ->
  invocations_of r (n_log s) <= 1 /\
  exists p1 s1 d,
    rget r pathContext s = Some (p1, s1) /\
    (rv_promise <$> n_resolvables s1 !! r) = Some (Some d) /\
    forall s2, clos_refl_trans NewApi (nstep strict) s1 s2 ->
      invocations_of r (n_log s2) <= 1 /\
      forall pathContext', rget r pathContext' s2 = Some (d, s2).
Proof.
  intros Hreach Hwf Hr.
  pose proof (Kept_steps strict _ _ Hreach) as K0.
  assert (Hbudget : budget r s <= 1).
  { etransitivity; [apply (k_budget _ _ K0)|apply budget_new_world]. }
  split; [unfold budget in Hbudget; lia|].
  destruct (rget_spec r pathContext s Hwf Hr) as (p1 & s1 & Hget & Hstep & Hset).
  unfold unset in Hset.
  destruct (n_resolvables s1 !! r) as [rv|] eqn:Hrv.
  2:{ apply lookup_ge_None_1 in Hrv. rewrite (gs_len _ _ Hstep) in Hrv. lia. }
  simpl in Hset. unfold no_promise in Hset.
  destruct (rv_promise rv) as [d|] eqn:Hd; [|discriminate].
  exists p1, s1, d. split; [exact Hget|].
  split; [rewrite Hrv; simpl; rewrite Hd; reflexivity|].
  intros s2 Hsteps. pose proof (Kept_steps strict _ _ Hsteps) as K2. split.
  - pose proof (k_budget _ _ K2 r). pose proof (gs_budget _ _ Hstep r).
    unfold budget in *. lia.
  - intros pathContext'. apply (rget_memoized r pathContext' s2 rv d); [|exact Hd].
    apply (k_set _ _ K2); [exact Hrv|congruence].
Qed.

Lemma get_invokes_resolveFn_at_most_once_witness :
  invocations_of 0 (n_log (new_world [resolvable_a])) <= 1 /\
  exists p1 s1 d,
    rget 0 [home] (new_world [resolvable_a]) = Some (p1, s1) /\
    (rv_promise <$> n_resolvables s1 !! 0) = Some (Some d) /\
    forall s2, clos_refl_trans NewApi (nstep true) s1 s2 ->
      invocations_of 0 (n_log s2) <= 1 /\
      forall pathContext', rget 0 pathContext' s2 = Some (d, s2).
Proof.
  apply (get_invokes_resolveFn_at_most_once true [resolvable_a]
           (new_world [resolvable_a]) 0 [home]).
  - apply rt_refl.
  - intros elem k id He Hk. apply list_elem_of_singleton in He. subst elem.
    simpl in Hk. apply list_elem_of_singleton in Hk. injection Hk as _ ->.
    simpl. lia.
  - simpl. lia.
Defined.

(** In every world reachable from a fresh one, the data slot of every
    Resolvable is still [undefined]: no step writes it. *)
Lemma data_never_stored (strict : bool) (rs : list Resolvable) (s : NewApi) r rv :
  clos_refl_trans NewApi (nstep strict) (new_world rs) s ->
  n_resolvables s !! r = Some rv -> rv_data rv = VUndefined.
Proof.
  intros Hreach Hrv. pose proof (k_data _ _ (Kept_steps strict _ _ Hreach) r) as Hd.
  rewrite Hrv in Hd. simpl in Hd. unfold new_world in Hd. simpl in Hd.
  rewrite list_lookup_fmap in Hd.
  destruct (rs !! r); simpl in Hd; [|discriminate]. injection Hd as ->. reflexivity.
Qed.

(** ** The legacy engine: what an invocable is invoked with *)

Definition is_wait (rid e : nat) (k : LK) : bool :=
  match k with
  | KWait rid' e' _ => Nat.eqb rid' rid && Nat.eqb e' e
  | _ => false
  end.

Definition is_errback (k : LK) : bool :=
  match k with
  | KFail _ | KOnFailure _ _ | KAdoptFail _ => true
  | _ => false
  end.

(** [promises] after the invocations [ivs] have published their promise,
    starting from [base]. *)
Definition published (ivs : list Invocation) (base : Obj nat) : Obj nat :=
  fold_left (fun o iv => set o (iv_key iv) (iv_invocation iv)) ivs base.

(** [promises] as the [e]-th call of [__invoke] of a resolution finds it:
    the parent's promises, overridden by those of the entries before it. *)
Definition visible (s : Legacy) (r : Resolution) (e : nat) : Obj nat :=
  published (take e (r_invocations r)) (extend [] (parent_promises s (r_parent r))).

(** Invocation [e] of resolution [rid] declares [dep], [dep] is no local,
    and [promises[dep]] was [p] when the invocation was set up. *)
Definition waits (s : Legacy) (rid e : nat) (dep : string) (p : nat) : Prop :=
  exists r iv,
    l_res s !! rid = Some r /\ r_invocations r !! e = Some iv /\
    dep ∈ iv_params iv /\ has (r_locals r) dep = false /\
    get (visible s r e) dep = Some p.

(** [values[dep]] holds what [p] was fulfilled with. *)
Definition seen (s : Legacy) (r : Resolution) (p : nat) (dep : string) : Prop :=
  exists v, q_state (l_q s) p = Fulfilled v /\ get (r_values r) dep = Some v.

Definition sub_wf (s : Legacy) (sub : Sub LK) : Prop :=
  is_errback (sub_err sub) = true /\
  match sub_ok sub with
  | KWait rid e dep => sub_err sub = KOnFailure rid e /\ waits s rid e dep (sub_on sub)
  | KInvoked rid e =>
      exists iv, invocation s rid e = Some iv /\ iv_invocation iv = sub_on sub
  | KDone _ | KAdopt _ => True
  | KFail _ | KOnFailure _ _ | KAdoptFail _ => False
  end.

Definition task_wf (s : Legacy) (t : LK * Val) : Prop :=
  match fst t with
  | KWait rid e dep =>
      exists p, waits s rid e dep p /\ q_state (l_q s) p = Fulfilled (snd t)
  | KInvoked rid e =>
      exists iv, invocation s rid e = Some iv /\
                 q_state (l_q s) (iv_invocation iv) = Fulfilled (snd t)
  | _ => True
  end.

(** The entries of one resolution: distinct names, and a name an entry
    depends on is never the name of a later entry. *)
Definition sorted_invocations (ivs : list Invocation) : Prop :=
  NoDup (iv_key <$> ivs) /\
  forall e d iv ivd,
    ivs !! e = Some iv -> ivs !! d = Some ivd ->
    iv_key ivd ∈ iv_params iv -> d <> e -> d < e.

Definition started (q : Q LK) (p : nat) : Prop :=
  q_state q p = Locked \/ exists v, q_state q p = Fulfilled v.

(** The invariant of the engine.  [waitParams] of an entry bounds the
    number of its [KWait] continuations still held; when the two agree,
    every dependency the entry waits for is either still awaited or has
    been written to [values] with the value its promise was fulfilled
    with.  [h] names the dependencies of an entry whose [forEach(params)]
    is still running. *)
Record WFh (h : nat -> nat -> string -> Prop) (s : Legacy) : Prop := {
  wf_subs : forall sub, sub ∈ q_subs (l_q s) -> sub_wf s sub;
  wf_tasks : forall t, t ∈ q_queue (l_q s) -> task_wf s t;
  wf_count : forall rid r e iv,
      l_res s !! rid = Some r -> r_invocations r !! e = Some iv ->
      (Z.of_nat (occ (is_wait rid e) (l_q s)) <= iv_waitParams iv)%Z;
  wf_seen : forall rid r e iv dep p,
      l_res s !! rid = Some r -> r_invocations r !! e = Some iv ->
      (1 <= iv_waitParams iv)%Z ->
      Z.of_nat (occ (is_wait rid e) (l_q s)) = iv_waitParams iv ->
      waits s rid e dep p ->
      KWait rid e dep ∈ callbacks (l_q s) \/ seen s r p dep \/ h rid e dep;
  wf_started : forall rid r e iv,
      l_res s !! rid = Some r -> r_invocations r !! e = Some iv ->
      started (l_q s) (iv_invocation iv) -> iv_waitParams iv = 0%Z;
  wf_sorted : forall rid r,
      l_res s !! rid = Some r -> sorted_invocations (r_invocations r);
  wf_result_valid : forall rid r,
      l_res s !! rid = Some r -> r_result r < length (q_states (l_q s));
  wf_invocation_valid : forall rid r e iv,
      l_res s !! rid = Some r -> r_invocations r !! e = Some iv ->
      iv_invocation iv < length (q_states (l_q s));
  wf_outside_valid : forall p f,
      (p, f) ∈ l_outside s -> p < length (q_states (l_q s));
  wf_result_own : forall rid r rid' r' e iv,
      l_res s !! rid = Some r -> l_res s !! rid' = Some r' ->
      r_invocations r' !! e = Some iv -> r_result r <> iv_invocation iv;
  wf_outside_own : forall p f rid r e iv,
      (p, f) ∈ l_outside s -> l_res s !! rid = Some r ->
      r_invocations r !! e = Some iv -> p <> iv_invocation iv;
  wf_invocation_own : forall rid r e iv rid' r' e' iv',
      l_res s !! rid = Some r -> r_invocations r !! e = Some iv ->
      l_res s !! rid' = Some r' -> r_invocations r' !! e' = Some iv' ->
      iv_invocation iv = iv_invocation iv' -> rid = rid' /\ e = e';
  wf_promises : forall rid r,
      l_res s !! rid = Some r -> NoDup (keys (r_promises r));
  wf_parent : forall rid r prid,
      l_res s !! rid = Some r -> r_parent r = Parent prid -> prid < rid;
  wf_log : forall rid key vals,
      (rid, key, vals) ∈ l_log s ->
      exists r e iv,
        l_res s !! rid = Some r /\ r_invocations r !! e = Some iv /\
        iv_key iv = key /\
        forall dep p, waits s rid e dep p ->
          exists v, q_state (l_q s) p = Fulfilled v /\ get vals dep = Some v
}.

Definition no_hole : nat -> nat -> string -> Prop := fun _ _ _ => False.

Definition WF : Legacy -> Prop := WFh no_hole.

(** The part of an invocation record that never changes. *)
Definition static (iv : Invocation) : string * list string * nat :=
  (iv_key iv, iv_params iv, iv_invocation iv).

(** A change of a resolution that keeps its arguments and its result
    promise, and at most adds entries. *)
Definition shape_ext (r r' : Resolution) : Prop :=
  r_locals r' = r_locals r /\ r_parent r' = r_parent r /\
  r_result r' = r_result r /\
  (static <$> r_invocations r) `prefix_of` (static <$> r_invocations r').

(** A change of a resolution that keeps everything but its bookkeeping. *)
Definition core_same (r r' : Resolution) : Prop :=
  r_locals r' = r_locals r /\ r_parent r' = r_parent r /\
  r_promises r' = r_promises r /\ r_result r' = r_result r /\
  static <$> r_invocations r' = static <$> r_invocations r.

Lemma core_same_refl r : core_same r r.
Proof. repeat split. Qed.

Lemma core_same_trans r1 r2 r3 : core_same r1 r2 -> core_same r2 r3 -> core_same r1 r3.
Proof.
  intros (H1 & H2 & H3 & H4 & H5) (G1 & G2 & G3 & G4 & G5).
  repeat split; congruence.
Qed.

Lemma core_same_shape r r' : core_same r r' -> shape_ext r r'.
Proof.
  intros (H1 & H2 & _ & H4 & H5). repeat split; try assumption.
  rewrite H5. reflexivity.
Qed.

Lemma shape_ext_refl r : shape_ext r r.
Proof. split; [reflexivity|]. split; [reflexivity|]. split; reflexivity. Qed.

Lemma static_lookup (ivs ivs' : list Invocation) e iv' :
  static <$> ivs' = static <$> ivs -> ivs' !! e = Some iv' ->
  exists iv, ivs !! e = Some iv /\ static iv = static iv'.
Proof.
  intros Heq Hl. assert (H : (static <$> ivs') !! e = Some (static iv')).
  { rewrite list_lookup_fmap, Hl. reflexivity. }
  rewrite Heq, list_lookup_fmap in H.
  destruct (ivs !! e) as [iv|]; simpl in H; [|discriminate].
  exists iv. split; [reflexivity|]. congruence.
Qed.

Lemma static_lookup_fwd (ivs ivs' : list Invocation) e iv :
  (static <$> ivs) `prefix_of` (static <$> ivs') -> ivs !! e = Some iv ->
  exists iv', ivs' !! e = Some iv' /\ static iv' = static iv.
Proof.
  intros [k Hk] Hl.
  assert (H : (static <$> ivs') !! e = Some (static iv)).
  { rewrite Hk, lookup_app_l by (rewrite length_fmap; eapply lookup_lt_Some; exact Hl).
    rewrite list_lookup_fmap, Hl. reflexivity. }
  rewrite list_lookup_fmap in H.
  destruct (ivs' !! e) as [iv'|]; simpl in H; [|discriminate].
  exists iv'. split; [reflexivity|]. congruence.
Qed.

Lemma static_lookup_back (ivs ivs' : list Invocation) e iv' :
  (static <$> ivs) `prefix_of` (static <$> ivs') -> ivs' !! e = Some iv' ->
  e < length ivs ->
  exists iv, ivs !! e = Some iv /\ static iv = static iv'.
Proof.
  intros Hpre Hl He. destruct (lookup_lt_is_Some_2 ivs e He) as [iv Hiv].
  destruct (static_lookup_fwd _ _ _ _ Hpre Hiv) as (iv2 & Hiv2 & Hs).
  exists iv. split; [exact Hiv|]. congruence.
Qed.

Lemma published_static ivs ivs' base :
  static <$> ivs' = static <$> ivs -> published ivs' base = published ivs base.
Proof.
  unfold published. revert ivs' base.
  induction ivs as [|iv ivs IH]; intros [|iv' ivs'] base Heq; try discriminate.
  - reflexivity.
  - rewrite !fmap_cons in Heq. injection Heq as Hk _ Hi Heq. simpl.
    rewrite Hk, Hi. apply IH. exact Heq.
Qed.

Lemma published_snoc ivs iv base :
  published (ivs ++ [iv]) base = set (published ivs base) (iv_key iv) (iv_invocation iv).
Proof. unfold published. rewrite fold_left_app. reflexivity. Qed.

Lemma published_app ivs1 ivs2 base :
  published (ivs1 ++ ivs2) base = published ivs2 (published ivs1 base).
Proof. unfold published. apply fold_left_app. Qed.

Lemma static_take (ivs ivs' : list Invocation) e :
  (static <$> ivs) `prefix_of` (static <$> ivs') -> e <= length ivs ->
  static <$> take e ivs' = static <$> take e ivs.
Proof.
  intros [k Hk] He. rewrite !fmap_take, Hk.
  apply take_app_le. rewrite length_fmap. exact He.
Qed.

(** Lookups in a store where one resolution was changed. *)
Lemma lookup_with_res s rid f rid' r' :
  l_res (with_res rid f s) !! rid' = Some r' ->
  exists r, l_res s !! rid' = Some r /\ (r' = r \/ (rid' = rid /\ r' = f r)).
Proof.
  unfold with_res. simpl. rewrite list_lookup_alter.
  destruct (decide (rid = rid')) as [->|Hne].
  - destruct (l_res s !! rid') as [r|]; simpl; [|discriminate].
    intros [= <-]. exists r. auto.
  - intros H. exists r'. auto.
Qed.

Lemma lookup_with_res_fwd s rid f rid' r :
  l_res s !! rid' = Some r ->
  l_res (with_res rid f s) !! rid' = Some (if decide (rid = rid') then f r else r).
Proof.
  intros H. unfold with_res. simpl. rewrite list_lookup_alter.
  destruct (decide (rid = rid')) as [->|Hne]; rewrite H; reflexivity.
Qed.

Section Frames.
Variables (s : Legacy) (rid : nat) (f : Resolution -> Resolution).
Hypothesis Hshape : forall r, l_res s !! rid = Some r -> shape_ext r (f r).
Hypothesis Hprom : forall r rid' r',
  l_res s !! rid = Some r -> l_res s !! rid' = Some r' ->
  r_parent r' = Parent rid -> r_promises (f r) = r_promises r.

Lemma core_lookup rid' r' :
  l_res (with_res rid f s) !! rid' = Some r' ->
  exists r, l_res s !! rid' = Some r /\ shape_ext r r' /\
            (r' = r \/ (rid' = rid /\ r' = f r)).
Proof.
  intros H. destruct (lookup_with_res _ _ _ _ _ H) as (r & Hr & [->|[-> ->]]).
  - exists r. split; [exact Hr|]. split; [apply shape_ext_refl|auto].
  - exists r. split; [exact Hr|]. split; [apply Hshape; exact Hr|auto].
Qed.

Lemma core_lookup_fwd rid' r :
  l_res s !! rid' = Some r ->
  exists r', l_res (with_res rid f s) !! rid' = Some r' /\ shape_ext r r' /\
             (r' = r \/ (rid' = rid /\ r' = f r)).
Proof.
  clear Hprom. intros H. eexists. split; [apply lookup_with_res_fwd; exact H|].
  destruct (decide (rid = rid')) as [->|Hne].
  - split; [apply Hshape; exact H|auto].
  - split; [apply shape_ext_refl|auto].
Qed.

Lemma parent_promises_with_res rid' r0 :
  l_res s !! rid' = Some r0 ->
  parent_promises (with_res rid f s) (r_parent r0) = parent_promises s (r_parent r0).
Proof.
  intros Hr0. destruct (r_parent r0) as [|prid] eqn:Hpar; [reflexivity|].
  simpl. rewrite list_lookup_alter.
  destruct (decide (rid = prid)) as [->|Hne]; [|reflexivity].
  pose proof (fun r H => Hprom r rid' r0 H Hr0 Hpar) as Hp.
  destruct (l_res s !! prid) as [r|]; [|reflexivity]. simpl.
  apply (Hp r eq_refl).
Qed.

Lemma visible_ext rid' r r' e :
  l_res s !! rid' = Some r -> shape_ext r r' -> e <= length (r_invocations r) ->
  visible (with_res rid f s) r' e = visible s r e.
Proof.
  intros Hr (_ & Hpar & _ & Hst) He. unfold visible.
  rewrite Hpar, (parent_promises_with_res rid' r Hr).
  apply published_static, static_take; assumption.
Qed.

Lemma waits_fwd rid' e dep p :
  waits s rid' e dep p -> waits (with_res rid f s) rid' e dep p.
Proof.
  intros (r & iv & Hr & Hiv & Hdep & Hloc & Hvis).
  destruct (core_lookup_fwd _ _ Hr) as (r' & Hr' & Hc & _).
  pose proof Hc as (Hl & _ & _ & Hst).
  destruct (static_lookup_fwd _ _ _ _ Hst Hiv) as (iv' & Hiv' & Hs).
  exists r', iv'.
  rewrite (visible_ext rid' r r' e Hr Hc)
    by (apply Nat.lt_le_incl; eapply lookup_lt_Some; exact Hiv).
  unfold static in Hs. injection Hs as _ Hpar _.
  repeat split; try assumption; congruence.
Qed.

Lemma waits_back rid' e dep p :
  waits (with_res rid f s) rid' e dep p ->
  exists r, l_res s !! rid' = Some r /\
            (e < length (r_invocations r) -> waits s rid' e dep p).
Proof.
  intros (r' & iv' & Hr' & Hiv' & Hdep & Hloc & Hvis).
  destruct (core_lookup _ _ Hr') as (r & Hr & Hc & _).
  exists r. split; [exact Hr|]. intros He.
  pose proof Hc as (Hl & _ & _ & Hst).
  destruct (static_lookup_back _ _ _ _ Hst Hiv' He) as (iv & Hiv & Hs).
  exists r, iv. rewrite (visible_ext rid' r r' e Hr Hc) in Hvis by lia.
  unfold static in Hs. injection Hs as _ Hpar _.
  repeat split; try assumption; congruence.
Qed.

Lemma invocation_fwd rid' e iv :
  invocation s rid' e = Some iv ->
  exists iv', invocation (with_res rid f s) rid' e = Some iv' /\ static iv' = static iv.
Proof.
  intros H. apply invocation_Some in H as (r & Hr & Hiv).
  destruct (core_lookup_fwd _ _ Hr) as (r' & Hr' & (_ & _ & _ & Hst) & _).
  destruct (static_lookup_fwd _ _ _ _ Hst Hiv) as (iv' & Hiv' & Hs).
  exists iv'. split; [|exact Hs]. unfold invocation. rewrite Hr'. exact Hiv'.
Qed.

Lemma sub_wf_with_res sub : sub_wf s sub -> sub_wf (with_res rid f s) sub.
Proof.
  intros [He Hok]. split; [exact He|].
  destruct (sub_ok sub) as [| |rid' e dep| |rid' e| |]; auto.
  - destruct Hok as [Herr Hw]. split; [exact Herr|]. apply waits_fwd. exact Hw.
  - destruct Hok as (iv & Hiv & Hp).
    destruct (invocation_fwd _ _ _ Hiv) as (iv' & Hiv' & Hs).
    exists iv'. split; [exact Hiv'|]. unfold static in Hs. injection Hs as _ _ Hs. congruence.
Qed.

Lemma task_wf_with_res t : task_wf s t -> task_wf (with_res rid f s) t.
Proof.
  unfold task_wf. destruct (fst t) as [| |rid' e dep| |rid' e| |]; auto.
  - intros (p & Hw & Hq). exists p. split; [apply waits_fwd; exact Hw|exact Hq].
  - intros (iv & Hiv & Hq).
    destruct (invocation_fwd _ _ _ Hiv) as (iv' & Hiv' & Hs).
    exists iv'. split; [exact Hiv'|]. unfold static in Hs. injection Hs as _ _ Hs.
    simpl. rewrite Hs. exact Hq.
Qed.
End Frames.

(** A change of the promise store alone: what is left to show for each
    entry is its count, its awaited dependencies, and that it has not
    started early. *)
Lemma WF_q_gen h h' s q' :
  WFh h s ->
  length (q_states (l_q s)) <= length (q_states q') ->
  (forall p v, q_state (l_q s) p = Fulfilled v -> q_state q' p = Fulfilled v) ->
  (forall sub, sub ∈ q_subs q' -> sub ∈ q_subs (l_q s) \/ sub_wf s sub) ->
  (forall t, t ∈ q_queue q' ->
             t ∈ q_queue (l_q s) \/ task_wf (with_q (fun _ => q') s) t) ->
  (forall rid r e iv,
      l_res s !! rid = Some r -> r_invocations r !! e = Some iv ->
      (Z.of_nat (occ (is_wait rid e) q') <= iv_waitParams iv)%Z /\
      (forall dep p,
          (1 <= iv_waitParams iv)%Z ->
          Z.of_nat (occ (is_wait rid e) q') = iv_waitParams iv ->
          waits s rid e dep p ->
          (Z.of_nat (occ (is_wait rid e) (l_q s)) = iv_waitParams iv ->
           KWait rid e dep ∈ callbacks (l_q s) \/ seen s r p dep \/ h rid e dep) ->
          KWait rid e dep ∈ callbacks q' \/
          seen (with_q (fun _ => q') s) r p dep \/ h' rid e dep) /\
      (started q' (iv_invocation iv) ->
       started (l_q s) (iv_invocation iv) \/ iv_waitParams iv = 0%Z)) ->
  WFh h' (with_q (fun _ => q') s).
Proof.
  intros H Hlen Hful Hsubs Htasks Hinv.
  assert (Htask_old : forall t, task_wf s t -> task_wf (with_q (fun _ => q') s) t).
  { intros t. unfold task_wf. destruct (fst t); auto.
    - intros (p & Hw & Hq). exists p. split; [exact Hw|apply Hful; exact Hq].
    - intros (iv & Hiv & Hq). exists iv. split; [exact Hiv|apply Hful; exact Hq]. }
  constructor; cbn [with_q l_q l_res l_outside l_log].
  - intros sub Hsub. destruct (Hsubs sub Hsub) as [Ho|Hn]; [|exact Hn].
    apply (wf_subs _ _ H sub Ho).
  - intros t Ht. destruct (Htasks t Ht) as [Ho|Hn]; [|exact Hn].
    apply Htask_old, (wf_tasks _ _ H t Ho).
  - intros rid r e iv Hr Hiv. apply (Hinv rid r e iv Hr Hiv).
  - intros rid r e iv dep p Hr Hiv Hwp Heq Hw.
    destruct (Hinv rid r e iv Hr Hiv) as (_ & Hs & _).
    apply (Hs dep p Hwp Heq Hw). intros Heq0.
    apply (wf_seen _ _ H rid r e iv dep p Hr Hiv Hwp Heq0 Hw).
  - intros rid r e iv Hr Hiv Hs.
    destruct (Hinv rid r e iv Hr Hiv) as (_ & _ & Hst).
    destruct (Hst Hs) as [Hs0|Hz]; [|exact Hz].
    apply (wf_started _ _ H rid r e iv Hr Hiv Hs0).
  - apply (wf_sorted _ _ H).
  - intros rid r Hr. pose proof (wf_result_valid _ _ H rid r Hr). lia.
  - intros rid r e iv Hr Hiv. pose proof (wf_invocation_valid _ _ H rid r e iv Hr Hiv). lia.
  - intros p f Hp. pose proof (wf_outside_valid _ _ H p f Hp). lia.
  - apply (wf_result_own _ _ H).
  - apply (wf_outside_own _ _ H).
  - apply (wf_invocation_own _ _ H).
  - apply (wf_promises _ _ H).
  - apply (wf_parent _ _ H).
  - intros rid key vals Hl.
    destruct (wf_log _ _ H rid key vals Hl) as (r & e & iv & Hr & Hiv & Hk & Hv).
    exists r, e, iv. split; [exact Hr|]. split; [exact Hiv|]. split; [exact Hk|].
    intros dep p Hw. destruct (Hv dep p Hw) as (v & Hq & Hg).
    exists v. split; [apply Hful; exact Hq|exact Hg].
Qed.

(** A change of the promise store that only settles promises, brings in
    well-formed continuations only, and does not add waits. *)
Lemma WF_q h s q' :
  WFh h s ->
  length (q_states (l_q s)) <= length (q_states q') ->
  (forall p v, q_state (l_q s) p = Fulfilled v -> q_state q' p = Fulfilled v) ->
  (forall sub, sub ∈ q_subs q' -> sub ∈ q_subs (l_q s) \/ sub_wf s sub) ->
  (forall t, t ∈ q_queue q' ->
             t ∈ q_queue (l_q s) \/ task_wf (with_q (fun _ => q') s) t) ->
  (forall rid e, occ (is_wait rid e) q' <= occ (is_wait rid e) (l_q s)) ->
  (forall rid e dep,
      KWait rid e dep ∈ callbacks (l_q s) ->
      KWait rid e dep ∈ callbacks q' \/
      occ (is_wait rid e) q' < occ (is_wait rid e) (l_q s)) ->
  (forall rid r e iv,
      l_res s !! rid = Some r -> r_invocations r !! e = Some iv ->
      started q' (iv_invocation iv) ->
      started (l_q s) (iv_invocation iv) \/ iv_waitParams iv = 0%Z) ->
  WFh h (with_q (fun _ => q') s).
Proof.
  intros H Hlen Hful Hsubs Htasks Hocc Hin Hst.
  apply (WF_q_gen h h s q' H Hlen Hful Hsubs Htasks).
  intros rid r e iv Hr Hiv.
  pose proof (wf_count _ _ H rid r e iv Hr Hiv) as Hc. pose proof (Hocc rid e) as Ho.
  split; [lia|]. split; [|apply (Hst rid r e iv Hr Hiv)].
  intros dep p Hwp Heq Hw Hold.
  destruct Hold as [Hq|[(v & Hq & Hv)|Hh]]; [lia| | |].
  - destruct (Hin rid e dep Hq) as [Hq'|Hlt]; [left; exact Hq'|lia].
  - right. left. exists v. split; [apply Hful; exact Hq|exact Hv].
  - right. right. exact Hh.
Qed.

Lemma WFh_weaken (h h' : nat -> nat -> string -> Prop) s :
  (forall rid e dep p, waits s rid e dep p -> h rid e dep -> h' rid e dep) ->
  WFh h s -> WFh h' s.
Proof.
  intros Hh H. constructor.
  - apply (wf_subs _ _ H).
  - apply (wf_tasks _ _ H).
  - apply (wf_count _ _ H).
  - intros rid r e iv dep p Hr Hiv Hwp Heq Hw.
    destruct (wf_seen _ _ H rid r e iv dep p Hr Hiv Hwp Heq Hw) as [Hq|[Hs|Hx]]; auto.
    right. right. apply (Hh rid e dep p Hw Hx).
  - apply (wf_started _ _ H).
  - apply (wf_sorted _ _ H).
  - apply (wf_result_valid _ _ H).
  - apply (wf_invocation_valid _ _ H).
  - apply (wf_outside_valid _ _ H).
  - apply (wf_result_own _ _ H).
  - apply (wf_outside_own _ _ H).
  - apply (wf_invocation_own _ _ H).
  - apply (wf_promises _ _ H).
  - apply (wf_parent _ _ H).
  - apply (wf_log _ _ H).
Qed.

(** *** Settling a promise *)

Section SettleFacts.
Context {K : Type}.
Implicit Types (q : Q K) (p : nat) (st : PState).

Lemma q_state_settle q p st p' :
  p < length (q_states q) ->
  q_state (q_settle p st q) p' = if decide (p = p') then st else q_state q p'.
Proof.
  intros Hp. unfold q_state, q_settle. simpl.
  destruct (decide (p = p')) as [->|Hne].
  - rewrite list_lookup_insert_eq by exact Hp. reflexivity.
  - rewrite list_lookup_insert_ne by exact Hne. reflexivity.
Qed.

Lemma q_states_settle_length q p st :
  length (q_states (q_settle p st q)) = length (q_states q).
Proof. unfold q_settle. simpl. apply length_insert. Qed.

Lemma q_subs_settle q p st sub :
  sub ∈ q_subs (q_settle p st q) -> sub ∈ q_subs q.
Proof. unfold q_settle. simpl. intros H. apply list_elem_of_filter in H as [_ H]. exact H. Qed.

Lemma q_queue_settle q p st t :
  t ∈ q_queue (q_settle p st q) ->
  t ∈ q_queue q \/
  exists sub, sub ∈ q_subs q /\ sub_on sub = p /\ t ∈ notify st sub.
Proof.
  unfold q_settle. simpl. rewrite elem_of_app. intros [H|H]; [auto|]. right.
  apply list_elem_of_In, in_flat_map in H as (sub & Hsub & Ht).
  apply list_elem_of_In, list_elem_of_filter in Hsub as [Hon Hsub].
  exists sub. split; [exact Hsub|]. split; [exact Hon|apply list_elem_of_In; exact Ht].
Qed.

(** A continuation held before is held after, unless its promise was
    settled the other way. *)
Lemma callbacks_settle_keep q p st k :
  k ∈ callbacks q ->
  k ∈ callbacks (q_settle p st q) \/
  exists sub, sub ∈ q_subs q /\ sub_on sub = p /\
              ((k = sub_ok sub /\ forall v, st <> Fulfilled v) \/
               (k = sub_err sub /\ forall x, st <> Rejected x)).
Proof.
  unfold callbacks, q_settle. cbn [q_subs q_queue]. rewrite !elem_of_app, fmap_app, elem_of_app.
  intros [H|H]; [|auto].
  apply list_elem_of_In, in_flat_map in H as (sub & Hsub & Hk).
  apply list_elem_of_In in Hsub.
  destruct (decide (sub_on sub = p)) as [Hon|Hne].
  - assert (Hnot : forall t, t ∈ notify st sub ->
              fst t ∈ fst <$> flat_map (notify st)
                                (filter (fun sub => sub_on sub = p) (q_subs q))).
    { intros t Ht. apply list_elem_of_fmap. exists t. split; [reflexivity|].
      apply list_elem_of_In, in_flat_map. exists sub. split; [|apply list_elem_of_In; exact Ht].
      apply list_elem_of_In, list_elem_of_filter. auto. }
    simpl in Hk. destruct Hk as [<-|[<-|[]]].
    + destruct st as [| |v|x].
      * right. exists sub. split; [exact Hsub|]. split; [exact Hon|].
        left. split; [reflexivity|discriminate].
      * right. exists sub. split; [exact Hsub|]. split; [exact Hon|].
        left. split; [reflexivity|discriminate].
      * left. right. right. apply (Hnot (sub_ok sub, v)). left.
      * right. exists sub. split; [exact Hsub|]. split; [exact Hon|].
        left. split; [reflexivity|discriminate].
    + destruct st as [| |v|x].
      * right. exists sub. split; [exact Hsub|]. split; [exact Hon|].
        right. split; [reflexivity|discriminate].
      * right. exists sub. split; [exact Hsub|]. split; [exact Hon|].
        right. split; [reflexivity|discriminate].
      * right. exists sub. split; [exact Hsub|]. split; [exact Hon|].
        right. split; [reflexivity|discriminate].
      * left. right. right. apply (Hnot (sub_err sub, x)). left.
  - left. left. apply list_elem_of_In, in_flat_map. exists sub. split; [|exact Hk].
    apply list_elem_of_In, list_elem_of_filter. auto.
Qed.

(** Settling by rejection drops the fulfilment continuations of the
    promise: their count goes down. *)
Lemma occ_settle_rejected_lt (P : K -> bool) q p x sub :
  sub ∈ q_subs q -> sub_on sub = p ->
  P (sub_ok sub) = true -> P (sub_err sub) = false ->
  occ P (q_settle p (Rejected x) q) < occ P q.
Proof.
  intros Hsub Hon Hok Herr. unfold occ, q_settle, callbacks. cbn [q_subs q_queue].
  rewrite fmap_app, !tally_app.
  assert (H : forall subs : list (Sub K), sub ∈ subs ->
    tally P (flat_map (fun sub => [sub_ok sub; sub_err sub])
                      (filter (fun sub => sub_on sub <> p) subs)) +
    tally P (fst <$> flat_map (notify (Rejected x)) (filter (fun sub => sub_on sub = p) subs))
    < tally P (flat_map (fun sub => [sub_ok sub; sub_err sub]) subs)).
  { induction subs as [|sub0 subs IH]; intros Hin; [inversion Hin|].
    rewrite !filter_cons.
    pose proof (occ_settle_le P (mkQ [] subs []) p (Rejected x)) as Hle.
    unfold occ, q_settle, callbacks in Hle. cbn [q_subs q_queue] in Hle.
    rewrite !tally_app in Hle. cbn [fmap list_fmap app tally] in Hle.
    apply elem_of_cons in Hin as [<-|Hin].
    - rewrite (decide_False (P := sub_on sub <> p)) by (intros Hc; exact (Hc Hon)).
      try rewrite (decide_True (P := sub_on sub = p)) by exact Hon.
      cbn [flat_map notify]. rewrite fmap_app, !tally_app. cbn [fmap list_fmap tally fst app].
      rewrite Hok, Herr. lia.
    - specialize (IH Hin). destruct (decide (sub_on sub0 = p)) as [Heq|Hne].
      + rewrite (decide_False (P := sub_on sub0 <> p)) by (intros Hc; exact (Hc Heq)).
        try rewrite (decide_True (P := sub_on sub0 = p)) by exact Heq.
        cbn [flat_map notify]. rewrite fmap_app, !tally_app. cbn [fmap list_fmap tally fst app].
        destruct (P (sub_ok sub0)), (P (sub_err sub0)); lia.
      + rewrite (decide_True (P := sub_on sub0 <> p)) by exact Hne.
        try rewrite (decide_False (P := sub_on sub0 = p)) by exact Hne.
        cbn [flat_map]. rewrite !tally_app.
        cbn [tally app]. destruct (P (sub_ok sub0)), (P (sub_err sub0)); lia. }
  specialize (H (q_subs q) Hsub). lia.
Qed.
End SettleFacts.

Lemma is_wait_errback rid e k : is_errback k = true -> is_wait rid e k = false.
Proof. destruct k; simpl; congruence. Qed.

Lemma task_wf_errback s k x : is_errback k = true -> task_wf s (k, x).
Proof. unfold task_wf. destruct k; simpl; try discriminate; auto. Qed.

Lemma WF_settle h s p st :
  WFh h s -> p < length (q_states (l_q s)) ->
  q_state (l_q s) p = Pending \/ q_state (l_q s) p = Locked ->
  (exists v, st = Fulfilled v) \/ (exists x, st = Rejected x) ->
  (forall rid r e iv v,
      l_res s !! rid = Some r -> r_invocations r !! e = Some iv ->
      iv_invocation iv = p -> st = Fulfilled v ->
      q_state (l_q s) p = Locked \/ iv_waitParams iv = 0%Z) ->
  WFh h (with_q (q_settle p st) s).
Proof.
  intros H Hp Hpend Hst Hown.
  assert (Hp' : forall p' v, q_state (l_q s) p' = Fulfilled v -> p <> p').
  { intros p' v Hq ->. destruct Hpend as [Hq'|Hq']; congruence. }
  apply (WF_q h s (q_settle p st (l_q s)) H).
  - rewrite q_states_settle_length. lia.
  - intros p' v Hq. rewrite q_state_settle by exact Hp.
    rewrite decide_False by (apply (Hp' p' v Hq)). exact Hq.
  - intros sub Hsub. left. apply (q_subs_settle _ _ _ _ Hsub).
  - intros t Ht. apply q_queue_settle in Ht as [Ht|(sub & Hsub & Hon & Ht)]; [auto|].
    right. pose proof (wf_subs _ _ H sub Hsub) as [Herr Hok].
    destruct st as [| |v|x]; simpl in Ht; try (inversion Ht; fail);
      apply list_elem_of_singleton in Ht; subst t.
    + unfold task_wf. cbn [fst snd with_q l_q].
      destruct (sub_ok sub) as [| |rid e dep| |rid e| |]; auto.
      * destruct Hok as [_ Hw]. exists p. rewrite Hon in Hw. split; [exact Hw|].
        rewrite q_state_settle by exact Hp. rewrite decide_True by reflexivity. reflexivity.
      * destruct Hok as (iv & Hiv & Hpx). exists iv. split; [exact Hiv|].
        rewrite q_state_settle by exact Hp. rewrite decide_True by congruence. reflexivity.
    + apply task_wf_errback. exact Herr.
  - intros rid e. apply occ_settle_le.
  - intros rid e dep Hin.
    destruct (callbacks_settle_keep _ p st _ Hin)
      as [Hk|(sub & Hsub & Hon & [[Hk Hnf]|[Hk _]])]; [left; exact Hk| |].
    + right. destruct Hst as [[v ->]|[x ->]]; [exfalso; exact (Hnf v eq_refl)|].
      pose proof (wf_subs _ _ H sub Hsub) as [Herr Hok]. rewrite <- Hk in Hok.
      destruct Hok as [Herr' _].
      apply (occ_settle_rejected_lt (is_wait rid e) _ p x sub Hsub Hon).
      * rewrite <- Hk. simpl. rewrite !Nat.eqb_refl. reflexivity.
      * apply is_wait_errback. exact Herr.
    + exfalso. pose proof (wf_subs _ _ H sub Hsub) as [Herr _].
      rewrite <- Hk in Herr. discriminate.
  - intros rid r e iv Hr Hiv Hs. unfold started in *.
    rewrite q_state_settle in Hs by exact Hp.
    destruct (decide (p = iv_invocation iv)) as [Heq|Hne]; [|left; exact Hs].
    destruct Hs as [->|[v ->]].
    + destruct Hst as [[v Hv]|[x Hx]]; discriminate.
    + destruct (Hown rid r e iv v Hr Hiv (eq_sym Heq) eq_refl) as [Hl|Hz]; [|right; exact Hz].
      left. left. rewrite <- Heq. exact Hl.
Qed.

Lemma WF_resolve h s p v :
  WFh h s -> p < length (q_states (l_q s)) ->
  (forall rid r e iv,
      l_res s !! rid = Some r -> r_invocations r !! e = Some iv ->
      iv_invocation iv = p -> iv_waitParams iv = 0%Z) ->
  WFh h (with_q (q_resolve p v) s).
Proof.
  intros H Hp Hown. unfold with_q, q_resolve.
  destruct (q_state (l_q s) p) eqn:Hq; try (destruct s; exact H).
  apply (WF_settle h s p (Fulfilled v) H Hp); [auto|eauto|].
  intros rid r e iv v' Hr Hiv Hpx _. right. eauto.
Qed.

Lemma WF_reject h s p x :
  WFh h s -> p < length (q_states (l_q s)) -> WFh h (with_q (q_reject p x) s).
Proof.
  intros H Hp. unfold with_q, q_reject.
  destruct (q_state (l_q s) p) eqn:Hq; try (destruct s; exact H).
  apply (WF_settle h s p (Rejected x) H Hp); [auto|eauto|].
  intros rid r e iv v' Hr Hiv Hpx Hc. discriminate.
Qed.

Lemma WF_adopt h s p st :
  WFh h s -> (exists v, st = Fulfilled v) \/ (exists x, st = Rejected x) ->
  WFh h (with_q (q_adopt p st) s).
Proof.
  intros H Hst. unfold with_q, q_adopt.
  destruct (q_state (l_q s) p) eqn:Hq; try (destruct s; exact H).
  assert (Hp : p < length (q_states (l_q s))).
  { unfold q_state in Hq. destruct (q_states (l_q s) !! p) eqn:Hl; [|discriminate].
    apply lookup_lt_Some in Hl. exact Hl. }
  apply (WF_settle h s p st H Hp); [auto|exact Hst|].
  intros rid r e iv v' Hr Hiv Hpx _. left. exact Hq.
Qed.

Lemma WF_then h s p ok err :
  WFh h s -> sub_wf s (mkSub p ok err) ->
  (forall rid e, is_wait rid e ok = false) ->
  WFh h (with_q (q_then p ok err) s).
Proof.
  intros H Hsub Hnw. pose proof Hsub as [Herr Hok]. cbn [sub_ok sub_err sub_on] in *.
  apply (WF_q h s (q_then p ok err (l_q s)) H).
  - rewrite q_states_then. lia.
  - intros p' v Hq. rewrite q_state_then. exact Hq.
  - intros sub Hin. unfold q_then in Hin.
    destruct (q_state (l_q s) p); cbn [q_subs] in Hin; auto;
      apply elem_of_app in Hin as [Hin|Hin]; auto;
      apply list_elem_of_singleton in Hin; subst sub; auto.
  - intros t Hin. unfold q_then in Hin.
    destruct (q_state (l_q s) p) eqn:Hq; cbn [q_queue] in Hin; auto;
      apply elem_of_app in Hin as [Hin|Hin]; auto;
      apply list_elem_of_singleton in Hin; subst t; right.
    + unfold task_wf. cbn [fst snd with_q l_q].
      destruct ok as [| |rid e dep| |rid e| |]; auto.
      * specialize (Hnw rid e). simpl in Hnw. rewrite !Nat.eqb_refl in Hnw. discriminate.
      * destruct Hok as (iv & Hiv & Hpx). exists iv. split; [exact Hiv|].
        rewrite q_state_then, Hpx. exact Hq.
    + apply task_wf_errback. exact Herr.
  - intros rid e. etransitivity; [apply occ_then_le|]. unfold one.
    rewrite Hnw, (is_wait_errback rid e err Herr). lia.
  - intros rid e dep Hin. left. unfold callbacks, q_then in *.
    destruct (q_state (l_q s) p); cbn [q_subs q_queue];
      rewrite ?flat_map_app, ?fmap_app, !elem_of_app in *; tauto.
  - intros rid r e iv Hr Hiv Hs. left. unfold started in *.
    rewrite q_state_then in Hs. exact Hs.
Qed.

Lemma WF_defer h s : WFh h s -> WFh h (with_q (fun q => snd (q_defer q)) s).
Proof.
  intros H. apply (WF_q h s (snd (q_defer (l_q s))) H).
  - rewrite q_defer_length. lia.
  - intros p v Hq. rewrite q_state_defer. exact Hq.
  - intros sub Hin. left. exact Hin.
  - intros t Hin. left. exact Hin.
  - intros rid e. reflexivity.
  - intros rid e dep Hin. left. exact Hin.
  - intros rid r e iv Hr Hiv Hs. left. unfold started in *.
    rewrite q_state_defer in Hs. exact Hs.
Qed.

Lemma q_state_lock (q : Q LK) p p' v :
  q_state q p = Pending ->
  q_state (mkQ (<[p := Locked]> (q_states q)) (q_subs q) (q_queue q)) p' = Fulfilled v ->
  q_state q p' = Fulfilled v.
Proof.
  unfold q_state. cbn [q_states]. intros Hp.
  destruct (decide (p = p')) as [->|Hne].
  - destruct (decide (p' < length (q_states q))) as [Hlt|Hge].
    + rewrite list_lookup_insert_eq by exact Hlt. discriminate.
    + rewrite list_insert_ge by lia. auto.
  - rewrite list_lookup_insert_ne by exact Hne. auto.
Qed.

Lemma WF_follow h s p src :
  WFh h s ->
  (forall rid r e iv,
      l_res s !! rid = Some r -> r_invocations r !! e = Some iv ->
      iv_invocation iv = p -> iv_waitParams iv = 0%Z) ->
  WFh h (with_q (q_follow p src (KAdopt p) (KAdoptFail p)) s).
Proof.
  intros H Hown. unfold with_q, q_follow.
  destruct (q_state (l_q s) p) eqn:Hq; try (destruct s; exact H).
  set (q1 := mkQ (<[p := Locked]> (q_states (l_q s))) (q_subs (l_q s)) (q_queue (l_q s))).
  assert (H1 : WFh h (with_q (fun _ => q1) s)).
  { apply (WF_q h s q1 H).
    - unfold q1. cbn [q_states]. rewrite length_insert. lia.
    - intros p' v Hq'. unfold q1, q_state. cbn [q_states].
      rewrite list_lookup_insert_ne; [exact Hq'|]. intros ->. congruence.
    - intros sub Hin. left. exact Hin.
    - intros t Hin. left. exact Hin.
    - intros rid e. reflexivity.
    - intros rid e dep Hin. left. exact Hin.
    - intros rid r e iv Hr Hiv Hs.
      destruct (decide (iv_invocation iv = p)) as [Heq|Hne]; [right; eauto|].
      left. unfold started, q1, q_state in *. cbn [q_states] in Hs.
      rewrite list_lookup_insert_ne in Hs by congruence. exact Hs. }
  apply (WF_then h _ src (KAdopt p) (KAdoptFail p)) in H1; [exact H1| |reflexivity].
  split; [reflexivity|exact I].
Qed.


(** *** Changing one resolution *)

(** What is left to show when one resolution changes: the invariant of
    its own entries, in the new state. *)
Lemma WF_res_gen h s rid f :
  WFh h s ->
  (forall r, l_res s !! rid = Some r -> shape_ext r (f r)) ->
  (forall r rid' r', l_res s !! rid = Some r -> l_res s !! rid' = Some r' ->
     r_parent r' = Parent rid -> r_promises (f r) = r_promises r) ->
  (forall r, l_res s !! rid = Some r ->
     NoDup (keys (r_promises (f r))) /\ sorted_invocations (r_invocations (f r)) /\
     forall e iv', r_invocations (f r) !! e = Some iv' ->
       (Z.of_nat (occ (is_wait rid e) (l_q s)) <= iv_waitParams iv')%Z /\
       (forall dep p,
           (1 <= iv_waitParams iv')%Z ->
           Z.of_nat (occ (is_wait rid e) (l_q s)) = iv_waitParams iv' ->
           waits (with_res rid f s) rid e dep p ->
           KWait rid e dep ∈ callbacks (l_q s) \/ seen s (f r) p dep \/ h rid e dep) /\
       (started (l_q s) (iv_invocation iv') -> iv_waitParams iv' = 0%Z) /\
       (length (r_invocations r) <= e ->
        iv_invocation iv' < length (q_states (l_q s)) /\
        (forall rid2 r2, l_res s !! rid2 = Some r2 -> r_result r2 <> iv_invocation iv') /\
        (forall p fate, (p, fate) ∈ l_outside s -> p <> iv_invocation iv') /\
        (forall rid2 r2 e2 iv2,
            l_res s !! rid2 = Some r2 -> r_invocations r2 !! e2 = Some iv2 ->
            iv_invocation iv2 <> iv_invocation iv') /\
        (forall e2 iv2,
            r_invocations (f r) !! e2 = Some iv2 -> length (r_invocations r) <= e2 ->
            iv_invocation iv2 = iv_invocation iv' -> e2 = e))) ->
  WFh h (with_res rid f s).
Proof.
  intros H Hshape Hprom Hf.
  (* every entry of the new state is an old one, or a new one of [rid] *)
  assert (Hcls : forall rid' r' e iv',
            l_res (with_res rid f s) !! rid' = Some r' ->
            r_invocations r' !! e = Some iv' ->
            exists r, l_res s !! rid' = Some r /\ shape_ext r r' /\
              ((r' = r /\ r_invocations r !! e = Some iv') \/
               (rid' = rid /\ r' = f r /\
                ((exists iv, r_invocations r !! e = Some iv /\ static iv = static iv') \/
                 length (r_invocations r) <= e)))).
  { intros rid' r' e iv' Hr' Hiv'.
    destruct (core_lookup s rid f Hshape _ _ Hr') as (r & Hr & Hc & Hcase).
    exists r. split; [exact Hr|]. split; [exact Hc|].
    destruct Hcase as [->|[-> ->]]; [left; auto|right].
    split; [reflexivity|]. split; [reflexivity|].
    destruct (decide (e < length (r_invocations r))) as [Hlt|Hge]; [left|right; lia].
    destruct Hc as (_ & _ & _ & Hst).
    apply (static_lookup_back _ _ _ _ Hst Hiv' Hlt). }
  (* the promise of an entry of the new state *)
  assert (Hpx : forall rid' r' e iv',
            l_res (with_res rid f s) !! rid' = Some r' ->
            r_invocations r' !! e = Some iv' ->
            (exists r iv, l_res s !! rid' = Some r /\ r_invocations r !! e = Some iv /\
                          iv_invocation iv = iv_invocation iv') \/
            (rid' = rid /\ exists r, l_res s !! rid = Some r /\ r' = f r /\
                                     length (r_invocations r) <= e)).
  { intros rid' r' e iv' Hr' Hiv'.
    destruct (Hcls _ _ _ _ Hr' Hiv') as (r & Hr & _ & [[-> Hiv]|(-> & -> & [(iv & Hiv & Hs)|Hge])]).
    - left. exists r, iv'. auto.
    - left. exists r, iv. unfold static in Hs. injection Hs as _ _ Hs. auto.
    - right. split; [reflexivity|]. exists r. auto. }
  constructor; cbn [with_res l_q l_outside l_log].
  - intros sub Hsub. apply sub_wf_with_res; [exact Hshape|exact Hprom|].
    apply (wf_subs _ _ H sub Hsub).
  - intros t Ht. apply task_wf_with_res; [exact Hshape|exact Hprom|].
    apply (wf_tasks _ _ H t Ht).
  - intros rid' r' e iv' Hr' Hiv'.
    destruct (Hcls _ _ _ _ Hr' Hiv') as (r & Hr & _ & [[-> Hiv]|(-> & -> & _)]).
    + apply (wf_count _ _ H rid' r e iv' Hr Hiv).
    + destruct (Hf r Hr) as (_ & _ & Hc). apply (Hc e iv' Hiv').
  - intros rid' r' e iv' dep p Hr' Hiv' Hwp Heq Hw.
    destruct (Hcls _ _ _ _ Hr' Hiv') as (r & Hr & _ & [[-> Hiv]|(-> & -> & _)]).
    + destruct (waits_back s rid f Hshape Hprom _ _ _ _ Hw) as (r0 & Hr0 & Hw0).
      rewrite Hr in Hr0. injection Hr0 as <-.
      apply (wf_seen _ _ H rid' r e iv' dep p Hr Hiv Hwp Heq).
      apply Hw0. eapply lookup_lt_Some. exact Hiv.
    + destruct (Hf r Hr) as (_ & _ & Hc). destruct (Hc e iv' Hiv') as (_ & Hs & _).
      apply (Hs dep p Hwp Heq Hw).
  - intros rid' r' e iv' Hr' Hiv' Hs.
    destruct (Hcls _ _ _ _ Hr' Hiv') as (r & Hr & _ & [[-> Hiv]|(-> & -> & _)]).
    + apply (wf_started _ _ H rid' r e iv' Hr Hiv Hs).
    + destruct (Hf r Hr) as (_ & _ & Hc). destruct (Hc e iv' Hiv') as (_ & _ & Hst & _).
      apply Hst. exact Hs.
  - intros rid' r' Hr'.
    destruct (lookup_with_res _ _ _ _ _ Hr') as (r & Hr & [->|[-> ->]]).
    + apply (wf_sorted _ _ H rid' r Hr).
    + apply (Hf r Hr).
  - intros rid' r' Hr'.
    destruct (core_lookup s rid f Hshape _ _ Hr') as (r & Hr & (_ & _ & Hres & _) & _).
    rewrite Hres. apply (wf_result_valid _ _ H rid' r Hr).
  - intros rid' r' e iv' Hr' Hiv'.
    destruct (Hpx _ _ _ _ Hr' Hiv') as [(r & iv & Hr & Hiv & Heq)|(-> & r & Hr & -> & Hge)].
    + rewrite <- Heq. apply (wf_invocation_valid _ _ H rid' r e iv Hr Hiv).
    + destruct (Hf r Hr) as (_ & _ & Hc). destruct (Hc e iv' Hiv') as (_ & _ & _ & Hn).
      apply (Hn Hge).
  - apply (wf_outside_valid _ _ H).
  - intros rid1 r1' rid2 r2' e iv' Hr1' Hr2' Hiv'.
    destruct (core_lookup s rid f Hshape _ _ Hr1') as (r1 & Hr1 & (_ & _ & Hres & _) & _).
    rewrite Hres.
    destruct (Hpx _ _ _ _ Hr2' Hiv') as [(r & iv & Hr & Hiv & Heq)|(-> & r & Hr & -> & Hge)].
    + rewrite <- Heq. apply (wf_result_own _ _ H rid1 r1 rid2 r e iv Hr1 Hr Hiv).
    + destruct (Hf r Hr) as (_ & _ & Hc). destruct (Hc e iv' Hiv') as (_ & _ & _ & Hn).
      destruct (Hn Hge) as (_ & Hn2 & _). apply (Hn2 rid1 r1 Hr1).
  - intros p fate rid' r' e iv' Hp Hr' Hiv'.
    destruct (Hpx _ _ _ _ Hr' Hiv') as [(r & iv & Hr & Hiv & Heq)|(-> & r & Hr & -> & Hge)].
    + rewrite <- Heq. apply (wf_outside_own _ _ H p fate rid' r e iv Hp Hr Hiv).
    + destruct (Hf r Hr) as (_ & _ & Hc). destruct (Hc e iv' Hiv') as (_ & _ & _ & Hn).
      destruct (Hn Hge) as (_ & _ & Hn3 & _). apply (Hn3 p fate Hp).
  - intros rid1 r1' e1 iv1' rid2 r2' e2 iv2' Hr1' Hiv1' Hr2' Hiv2' Heq.
    destruct (Hpx _ _ _ _ Hr1' Hiv1') as [(r1 & iv1 & Hr1 & Hiv1 & Heq1)|(-> & r1 & Hr1 & -> & Hge1)];
      destruct (Hpx _ _ _ _ Hr2' Hiv2') as [(r2 & iv2 & Hr2 & Hiv2 & Heq2)|(-> & r2 & Hr2 & -> & Hge2)].
    + apply (wf_invocation_own _ _ H rid1 r1 e1 iv1 rid2 r2 e2 iv2 Hr1 Hiv1 Hr2 Hiv2).
      congruence.
    + exfalso. destruct (Hf r2 Hr2) as (_ & _ & Hc).
      destruct (Hc e2 iv2' Hiv2') as (_ & _ & _ & Hn).
      destruct (Hn Hge2) as (_ & _ & _ & Hn4 & _).
      apply (Hn4 rid1 r1 e1 iv1 Hr1 Hiv1). congruence.
    + exfalso. destruct (Hf r1 Hr1) as (_ & _ & Hc).
      destruct (Hc e1 iv1' Hiv1') as (_ & _ & _ & Hn).
      destruct (Hn Hge1) as (_ & _ & _ & Hn4 & _).
      apply (Hn4 rid2 r2 e2 iv2 Hr2 Hiv2). congruence.
    + split; [reflexivity|]. rewrite Hr1 in Hr2. injection Hr2 as <-.
      destruct (Hf r1 Hr1) as (_ & _ & Hc).
      destruct (Hc e2 iv2' Hiv2') as (_ & _ & _ & Hn).
      destruct (Hn Hge2) as (_ & _ & _ & _ & Hn5).
      apply (Hn5 e1 iv1' Hiv1' Hge1 Heq).
  - intros rid' r' Hr'.
    destruct (lookup_with_res _ _ _ _ _ Hr') as (r & Hr & [->|[-> ->]]).
    + apply (wf_promises _ _ H rid' r Hr).
    + apply (Hf r Hr).
  - intros rid' r' prid Hr' Hpar.
    destruct (core_lookup s rid f Hshape _ _ Hr') as (r & Hr & (_ & Hp & _) & _).
    rewrite Hp in Hpar. apply (wf_parent _ _ H rid' r prid Hr Hpar).
  - intros rid' key vals Hl.
    destruct (wf_log _ _ H rid' key vals Hl) as (r & e & iv & Hr & Hiv & Hk & Hv).
    destruct (core_lookup_fwd s rid f Hshape _ _ Hr) as (r' & Hr' & (_ & _ & _ & Hst) & _).
    destruct (static_lookup_fwd _ _ _ _ Hst Hiv) as (iv' & Hiv' & Hs).
    exists r', e, iv'. split; [exact Hr'|]. split; [exact Hiv'|].
    unfold static in Hs. injection Hs as Hkey _ _. split; [congruence|].
    intros dep p Hw.
    destruct (waits_back s rid f Hshape Hprom _ _ _ _ Hw) as (r0 & Hr0 & Hw0).
    rewrite Hr in Hr0. injection Hr0 as <-.
    apply Hv, Hw0. eapply lookup_lt_Some. exact Hiv.
Qed.

Lemma sorted_static ivs ivs' :
  static <$> ivs' = static <$> ivs -> sorted_invocations ivs -> sorted_invocations ivs'.
Proof.
  intros Hst [Hnd Hs]. split.
  - assert (Hk : iv_key <$> ivs' = iv_key <$> ivs).
    { assert (He : forall l : list Invocation, iv_key <$> l = (fun x => fst (fst x)) <$> (static <$> l)).
      { intros l. rewrite <- list_fmap_compose. reflexivity. }
      rewrite (He ivs'), (He ivs), Hst. reflexivity. }
    rewrite Hk. exact Hnd.
  - intros e d iv' ivd' He Hd Hin Hne.
    destruct (static_lookup _ _ _ _ Hst He) as (iv & Hiv & Hs1).
    destruct (static_lookup _ _ _ _ Hst Hd) as (ivd & Hivd & Hs2).
    unfold static in Hs1, Hs2. injection Hs1 as _ Hp1 _. injection Hs2 as Hk2 _ _.
    apply (Hs e d iv ivd Hiv Hivd); [|exact Hne]. rewrite Hk2, Hp1. exact Hin.
Qed.

(** A change of one resolution that keeps its core and its counters, and
    the values its waiting entries have already received. *)
Lemma WF_res h s rid f :
  WFh h s ->
  (forall r, l_res s !! rid = Some r ->
     core_same r (f r) /\
     (forall e, iv_waitParams <$> (r_invocations (f r) !! e)
                = iv_waitParams <$> (r_invocations r !! e)) /\
     (forall e iv dep p,
        r_invocations r !! e = Some iv -> (1 <= iv_waitParams iv)%Z ->
        Z.of_nat (occ (is_wait rid e) (l_q s)) = iv_waitParams iv ->
        waits s rid e dep p -> seen s r p dep ->
        get (r_values (f r)) dep = get (r_values r) dep)) ->
  WFh h (with_res rid f s).
Proof.
  intros H Hf.
  assert (Hshape : forall r, l_res s !! rid = Some r -> shape_ext r (f r)).
  { intros r Hr. apply core_same_shape, (Hf r Hr). }
  assert (Hprom : forall r rid' r', l_res s !! rid = Some r -> l_res s !! rid' = Some r' ->
            r_parent r' = Parent rid -> r_promises (f r) = r_promises r).
  { intros r rid' r' Hr _ _. destruct (Hf r Hr) as ((_ & _ & Hp & _) & _). exact Hp. }
  apply (WF_res_gen h s rid f H Hshape Hprom).
  intros r Hr. destruct (Hf r Hr) as (Hc & Hwp & Hval).
  pose proof Hc as (_ & _ & Hp & _ & Hst).
  split; [rewrite Hp; apply (wf_promises _ _ H rid r Hr)|].
  split; [apply (sorted_static _ _ Hst), (wf_sorted _ _ H rid r Hr)|].
  intros e iv' Hiv'.
  destruct (static_lookup _ _ _ _ Hst Hiv') as (iv & Hiv & Hs).
  assert (Hw0 : iv_waitParams iv' = iv_waitParams iv).
  { specialize (Hwp e). rewrite Hiv', Hiv in Hwp. simpl in Hwp. congruence. }
  unfold static in Hs. injection Hs as _ _ Hpx.
  rewrite Hw0, <- Hpx.
  split; [apply (wf_count _ _ H rid r e iv Hr Hiv)|]. split; [|split].
  - intros dep p Hwp1 Heq Hw.
    destruct (waits_back s rid f Hshape Hprom _ _ _ _ Hw) as (r0 & Hr0 & Hwb).
    assert (Hw' : waits s rid e dep p).
    { apply Hwb. rewrite Hr in Hr0. injection Hr0 as <-. eapply lookup_lt_Some. exact Hiv. }
    destruct (wf_seen _ _ H rid r e iv dep p Hr Hiv Hwp1 Heq Hw') as [Hq|[Hseen|Hh]]; auto.
    right. left. destruct Hseen as (v & Hq & Hv). exists v. split; [exact Hq|].
    rewrite (Hval e iv dep p Hiv Hwp1 Heq Hw'); [exact Hv|]. exists v. auto.
  - apply (wf_started _ _ H rid r e iv Hr Hiv).
  - intros Hge. exfalso. apply lookup_lt_Some in Hiv. lia.
Qed.

(** The fields no continuation depends on. *)
Lemma WF_res_misc h s rid f :
  WFh h s ->
  (forall r, core_same r (f r) /\ r_invocations (f r) = r_invocations r /\
             r_values (f r) = r_values r) ->
  WFh h (with_res rid f s).
Proof.
  intros H Hf. apply WF_res; [exact H|]. intros r _.
  destruct (Hf r) as (Hc & Hi & Hv). split; [exact Hc|]. split.
  - intros e. rewrite Hi. reflexivity.
  - intros. rewrite Hv. reflexivity.
Qed.

(** [merge] into the values: what is there stays. *)
Lemma WF_res_merge h s rid (g : Obj Val -> Resolution -> Resolution) (x : Obj Val) :
  WFh h s ->
  (forall v r, core_same r (g v r) /\ r_invocations (g v r) = r_invocations r /\
               r_values (g v r) = v) ->
  WFh h (with_res rid (fun r => g (merge (r_values r) x) r) s).
Proof.
  intros H Hg. apply WF_res; [exact H|]. intros r _.
  destruct (Hg (merge (r_values r) x) r) as (Hc & Hi & Hv). split; [exact Hc|]. split.
  - intros e. rewrite Hi. reflexivity.
  - intros e iv dep p _ _ _ _ (v & _ & Hget). rewrite Hv.
    apply get_merge. congruence.
Qed.

Lemma WF_fail h s rid reason : WFh h s -> WFh h (fail rid reason s).
Proof.
  intros H. unfold fail. destruct (l_res s !! rid) as [r|] eqn:Hr; [|exact H].
  apply WF_reject.
  - apply WF_res_misc; [exact H|]. intros r0. repeat split.
  - cbn [with_res l_q]. apply (wf_result_valid _ _ H rid r Hr).
Qed.

Lemma WF_done h s rid : WFh h s -> WFh h (done rid s).
Proof.
  intros H. unfold done. destruct (l_res s !! rid) as [r|] eqn:Hr; [|exact H].
  destruct (r_wait r - 1 =? 0)%Z.
  - apply WF_resolve.
    + destruct (r_merged r).
      * apply WF_res; [exact H|]. intros r0 Hr0. rewrite Hr in Hr0. injection Hr0 as <-.
        split; [repeat split|]. split; [reflexivity|]. intros. reflexivity.
      * apply WF_res; [exact H|]. intros r0 Hr0. rewrite Hr in Hr0. injection Hr0 as <-.
        split; [repeat split|]. split; [reflexivity|].
        intros e iv dep p _ _ _ _ (v & _ & Hget). cbn [r_values set_inherited set_published set_values].
        apply get_merge. congruence.
    + cbn [with_res l_q]. apply (wf_result_valid _ _ H rid r Hr).
    + intros rid' r' e iv Hr' Hiv Hpx. exfalso.
      destruct (lookup_with_res _ _ _ _ _ Hr') as (r0 & Hr0 & Hcase).
      assert (Hiv0 : exists iv0, r_invocations r0 !! e = Some iv0 /\
                                 iv_invocation iv0 = iv_invocation iv).
      { destruct Hcase as [->|[-> ->]]; [eauto|]. cbn in Hiv. eauto. }
      destruct Hiv0 as (iv0 & Hiv0 & Hpx0).
      apply (wf_result_own _ _ H rid r rid' r0 e iv0 Hr Hr0 Hiv0). congruence.
  - apply WF_res_misc; [exact H|]. intros r0. repeat split.
Qed.

Lemma WF_onfailure h s rid e reason : WFh h s -> WFh h (onfailure rid e reason s).
Proof.
  intros H. unfold onfailure. destruct (invocation s rid e) as [iv|] eqn:Hiv; [|exact H].
  apply invocation_Some in Hiv as (r & Hr & Hiv).
  apply WF_fail, WF_reject; [exact H|]. apply (wf_invocation_valid _ _ H rid r e iv Hr Hiv).
Qed.

(** *** [proceed] *)

Lemma WF_add_log h s rid key vals :
  WFh h s ->
  (exists r e iv,
      l_res s !! rid = Some r /\ r_invocations r !! e = Some iv /\ iv_key iv = key /\
      forall dep p, waits s rid e dep p ->
        exists v, q_state (l_q s) p = Fulfilled v /\ get vals dep = Some v) ->
  WFh h (add_log rid key vals s).
Proof.
  intros H Hnew. constructor.
  - exact (wf_subs _ _ H).
  - exact (wf_tasks _ _ H).
  - exact (wf_count _ _ H).
  - exact (wf_seen _ _ H).
  - exact (wf_started _ _ H).
  - exact (wf_sorted _ _ H).
  - exact (wf_result_valid _ _ H).
  - exact (wf_invocation_valid _ _ H).
  - exact (wf_outside_valid _ _ H).
  - exact (wf_result_own _ _ H).
  - exact (wf_outside_own _ _ H).
  - exact (wf_invocation_own _ _ H).
  - exact (wf_promises _ _ H).
  - exact (wf_parent _ _ H).
  - intros rid' key' vals' Hl. cbn [add_log l_log] in Hl.
    apply elem_of_app in Hl as [Hl|Hl].
    + exact (wf_log _ _ H rid' key' vals' Hl).
    + apply list_elem_of_singleton in Hl. injection Hl as -> -> ->. exact Hnew.
Qed.

(** The promises user code still holds: some settled, some new. *)
Lemma WF_outside h s out' :
  WFh h s ->
  (forall x, x ∈ out' ->
     x ∈ l_outside s \/
     (fst x < length (q_states (l_q s)) /\
      forall rid r e iv, l_res s !! rid = Some r -> r_invocations r !! e = Some iv ->
                         fst x <> iv_invocation iv)) ->
  WFh h (mkLegacy (l_q s) (l_res s) out' (l_log s)).
Proof.
  intros H Hout. constructor.
  - exact (wf_subs _ _ H).
  - exact (wf_tasks _ _ H).
  - exact (wf_count _ _ H).
  - exact (wf_seen _ _ H).
  - exact (wf_started _ _ H).
  - exact (wf_sorted _ _ H).
  - exact (wf_result_valid _ _ H).
  - exact (wf_invocation_valid _ _ H).
  - intros p f Hp. cbn [l_outside l_q] in *.
    destruct (Hout _ Hp) as [Ho|[Hn _]]; [|exact Hn].
    exact (wf_outside_valid _ _ H p f Ho).
  - exact (wf_result_own _ _ H).
  - intros p f rid r e iv Hp Hr Hiv. cbn [l_outside l_res] in *.
    destruct (Hout _ Hp) as [Ho|[_ Hn]]; [|exact (Hn rid r e iv Hr Hiv)].
    exact (wf_outside_own _ _ H p f rid r e iv Ho Hr Hiv).
  - exact (wf_invocation_own _ _ H).
  - exact (wf_promises _ _ H).
  - exact (wf_parent _ _ H).
  - exact (wf_log _ _ H).
Qed.

Section Proceed.
Variable injector_get : string -> FnResult.

(** [proceed] keeps the invariant when the entry waits for nothing more
    and [values] holds what its dependencies were fulfilled with. *)
Lemma WF_proceed h s rid eid :
  WFh h s ->
  (forall r iv, l_res s !! rid = Some r -> r_invocations r !! eid = Some iv ->
     iv_waitParams iv = 0%Z /\
     forall dep p, waits s rid eid dep p -> seen s r p dep) ->
  WFh h (proceed injector_get rid eid s).
Proof.
  intros H Hready. unfold proceed.
  destruct (l_res s !! rid) as [r|] eqn:Hr; [|exact H].
  destruct (invocation s rid eid) as [iv|] eqn:Hinv; [|exact H].
  pose proof Hinv as Hinv0.
  apply invocation_Some in Hinv as (r0 & Hr0 & Hiv). rewrite Hr in Hr0. injection Hr0 as <-.
  destruct (isDefined (r_failure r)); [exact H|].
  destruct (Hready r iv eq_refl Hiv) as [Hwp Hseen].
  set (s1 := add_log rid (iv_key iv) (r_values r) s).
  assert (H1 : WFh h s1).
  { apply WF_add_log; [exact H|]. exists r, eid, iv.
    split; [exact Hr|]. split; [exact Hiv|]. split; [reflexivity|]. exact Hseen. }
  assert (Hown : forall rid' r' e' iv',
             l_res s !! rid' = Some r' -> r_invocations r' !! e' = Some iv' ->
             iv_invocation iv' = iv_invocation iv -> iv_waitParams iv' = 0%Z).
  { intros rid' r' e' iv' Hr' Hiv' Hpx.
    destruct (wf_invocation_own _ _ H rid' r' e' iv' rid r eid iv Hr' Hiv' Hr Hiv Hpx) as [-> ->].
    rewrite Hr in Hr'. injection Hr' as <-. rewrite Hiv in Hiv'. injection Hiv' as <-.
    exact Hwp. }
  assert (Hvalid : iv_invocation iv < length (q_states (l_q s))).
  { apply (wf_invocation_valid _ _ H rid r eid iv Hr Hiv). }
  assert (Hsub : forall s', l_res s' = l_res s ->
            sub_wf s' (mkSub (iv_invocation iv) (KInvoked rid eid) (KOnFailure rid eid))).
  { intros s' Hres. split; [reflexivity|]. cbn [sub_ok sub_on]. exists iv.
    split; [|reflexivity]. unfold invocation. rewrite Hres. exact Hinv0. }
  destruct (invoke injector_get (iv_invocable iv) (r_self r) (r_values r)) as [v|x|fate].
  - apply WF_then; [apply WF_resolve; [exact H1|exact Hvalid|exact Hown]| |reflexivity].
    apply Hsub. reflexivity.
  - apply WF_onfailure. exact H1.
  - unfold q_defer. cbn [fst snd].
    set (p := length (q_states (l_q s1))).
    set (q1 := mkQ (q_states (l_q s1) ++ [Pending]) (q_subs (l_q s1)) (q_queue (l_q s1))).
    assert (H2 : WFh h (mkLegacy q1 (l_res s1) (l_outside s1 ++ [(p, fate)]) (l_log s1))).
    { apply (WF_outside h (with_q (fun q => snd (q_defer q)) s1)); [apply WF_defer; exact H1|].
      intros x Hx. apply elem_of_app in Hx as [Hx|Hx]; [left; exact Hx|right].
      apply list_elem_of_singleton in Hx. subst x. cbn [fst with_q l_q q_defer snd q_states l_res].
      split; [unfold p; rewrite length_app; cbn [length]; lia|].
      intros rid' r' e' iv' Hr' Hiv' Heq.
      pose proof (wf_invocation_valid _ _ H1 rid' r' e' iv' Hr' Hiv') as Hlt.
      unfold p in Heq. lia. }
    apply WF_then; [apply WF_follow; [exact H2|exact Hown]| |reflexivity].
    apply Hsub. reflexivity.
Qed.
End Proceed.

(** *** What [promises] holds for a name *)

Lemma get_published_notin ivs base key :
  key ∉ iv_key <$> ivs -> get (published ivs base) key = get base key.
Proof.
  unfold published. revert base. induction ivs as [|iv ivs IH]; intros base Hk; [reflexivity|].
  rewrite fmap_cons in Hk. apply not_elem_of_cons in Hk as [Hne Hk].
  simpl. rewrite (IH _ Hk). apply get_set_ne. congruence.
Qed.

Lemma get_published_in ivs base d ivd :
  NoDup (iv_key <$> ivs) -> ivs !! d = Some ivd ->
  get (published ivs base) (iv_key ivd) = Some (iv_invocation ivd).
Proof.
  revert base d. induction ivs as [|iv ivs IH]; intros base d Hnd Hd; [discriminate|].
  rewrite fmap_cons in Hnd. apply NoDup_cons in Hnd as [Hk Hnd].
  destruct d as [|d]; simpl in Hd.
  - injection Hd as ->. change (published (ivd :: ivs) base)
      with (published ivs (set base (iv_key ivd) (iv_invocation ivd))).
    rewrite (get_published_notin _ _ _ Hk). apply get_set_eq.
  - change (published (iv :: ivs) base)
      with (published ivs (set base (iv_key iv) (iv_invocation iv))).
    apply (IH _ d Hnd Hd).
Qed.

Lemma NoDup_keys_take (ivs : list Invocation) e :
  NoDup (iv_key <$> ivs) -> NoDup (iv_key <$> take e ivs).
Proof.
  intros H. rewrite fmap_take. apply (sublist_NoDup _ _ H), sublist_take.
Qed.

(** An entry before [e]: its promise is the one [e] finds under its name. *)
Lemma visible_before s r e d ivd :
  sorted_invocations (r_invocations r) ->
  r_invocations r !! d = Some ivd -> d < e ->
  get (visible s r e) (iv_key ivd) = Some (iv_invocation ivd).
Proof.
  intros [Hnd _] Hd Hlt. unfold visible.
  apply (get_published_in _ _ d); [apply NoDup_keys_take; exact Hnd|].
  apply lookup_take_Some. auto.
Qed.

(** Two entries that declare the same name find the same promise under
    it, unless the earlier one carries that name itself. *)
Lemma visible_agree s r e e' iv iv' dep :
  sorted_invocations (r_invocations r) ->
  r_invocations r !! e = Some iv -> r_invocations r !! e' = Some iv' ->
  dep ∈ iv_params iv -> e < e' ->
  get (visible s r e) dep = get (visible s r e') dep \/
  (iv_key iv = dep /\ get (visible s r e') dep = Some (iv_invocation iv)).
Proof.
  intros Hsorted He He' Hdep Hlt. pose proof Hsorted as [Hnd Hord].
  destruct (decide (dep ∈ iv_key <$> take e' (r_invocations r))) as [Hin|Hnin].
  - apply list_elem_of_fmap in Hin as (ivd & -> & Hin).
    apply elem_of_take in Hin as (d & Hd & Hd').
    destruct (decide (d = e)) as [->|Hne].
    + rewrite He in Hd. injection Hd as <-. right. split; [reflexivity|].
      apply (visible_before s r e' e iv Hsorted He Hlt).
    + left. pose proof (Hord e d iv ivd He Hd Hdep Hne) as Hde.
      rewrite (visible_before s r e d ivd Hsorted Hd Hde).
      rewrite (visible_before s r e' d ivd Hsorted Hd Hd'). reflexivity.
  - left. unfold visible. rewrite (get_published_notin _ _ _ Hnin).
    apply get_published_notin. intros Hin. apply Hnin.
    apply list_elem_of_fmap in Hin as (ivd & -> & Hin).
    apply elem_of_take in Hin as (d & Hd & Hd').
    apply list_elem_of_fmap. exists ivd. split; [reflexivity|].
    apply elem_of_take. exists d. split; [exact Hd|lia].
Qed.

(** An entry that names itself among its parameters finds the parent's
    promise. *)
Lemma visible_self s r e iv :
  sorted_invocations (r_invocations r) -> r_invocations r !! e = Some iv ->
  get (visible s r e) (iv_key iv)
  = get (extend [] (parent_promises s (r_parent r))) (iv_key iv).
Proof.
  intros [Hnd _] He. unfold visible. apply get_published_notin.
  intros Hin. apply list_elem_of_fmap in Hin as (ivd & Hk & Hin).
  apply elem_of_take in Hin as (d & Hd & Hlt).
  assert (Hde : d = e).
  { apply (NoDup_lookup (iv_key <$> r_invocations r) d e (iv_key iv) Hnd).
    - rewrite list_lookup_fmap, Hd. simpl. congruence.
    - rewrite list_lookup_fmap, He. reflexivity. }
  lia.
Qed.

Lemma waits_fun s rid e dep p p' :
  waits s rid e dep p -> waits s rid e dep p' -> p = p'.
Proof.
  intros (r & iv & Hr & Hiv & _ & _ & Hv) (r' & iv' & Hr' & Hiv' & _ & _ & Hv').
  rewrite Hr in Hr'. injection Hr' as <-. congruence.
Qed.

Lemma static_alter (g : Invocation -> Invocation) (e : nat) (ivs : list Invocation) :
  (forall iv, static (g iv) = static iv) ->
  static <$> alter g e ivs = static <$> ivs.
Proof.
  intros Hg. revert e. induction ivs as [|iv ivs IH]; intros [|e]; simpl; try reflexivity.
  - rewrite Hg. reflexivity.
  - f_equal. apply IH.
Qed.

(** *** One turn of the queue *)

Lemma tally_none {A : Type} (P : A -> bool) l x :
  tally P l = 0 -> x ∈ l -> P x = false.
Proof.
  intros H0 Hin. destruct (P x) eqn:HP; [|reflexivity].
  pose proof (tally_pos P l x Hin HP). lia.
Qed.

Lemma callbacks_split (q : Q LK) k arg rest k' :
  q_queue q = (k, arg) :: rest -> k' ∈ callbacks q ->
  k' = k \/ k' ∈ callbacks (mkQ (q_states q) (q_subs q) rest).
Proof.
  intros Hq. unfold callbacks. cbn [q_subs q_queue]. rewrite Hq, fmap_cons.
  rewrite !elem_of_app, elem_of_cons. simpl. tauto.
Qed.

(** Taking the oldest continuation off the queue. *)
Lemma WF_pop h s k arg rest :
  WFh h s -> q_queue (l_q s) = (k, arg) :: rest ->
  WFh h (with_q (fun q => mkQ (q_states q) (q_subs q) rest) s).
Proof.
  intros H Hq.
  apply (WF_q h s (mkQ (q_states (l_q s)) (q_subs (l_q s)) rest) H).
  - reflexivity.
  - intros p v Hp. exact Hp.
  - intros sub Hsub. left. exact Hsub.
  - intros t Ht. left. cbn [q_queue] in Ht. rewrite Hq. right. exact Ht.
  - intros rid e. rewrite (occ_pop _ _ _ _ _ Hq). lia.
  - intros rid e dep Hin. rewrite (occ_pop (is_wait rid e) _ _ _ _ Hq). unfold one.
    destruct (is_wait rid e k) eqn:Hk; [right; lia|left].
    destruct (callbacks_split _ _ _ _ _ Hq Hin) as [<-|Hin']; [|exact Hin'].
    simpl in Hk. rewrite !Nat.eqb_refl in Hk. discriminate.
  - intros rid r e iv Hr Hiv Hs. left. exact Hs.
Qed.

Lemma waits_core s rid f rid' e dep p :
  (forall r, l_res s !! rid = Some r -> core_same r (f r)) ->
  waits (with_res rid f s) rid' e dep p <-> waits s rid' e dep p.
Proof.
  intros Hcore.
  assert (Hshape : forall r, l_res s !! rid = Some r -> shape_ext r (f r)).
  { intros r Hr. apply core_same_shape, Hcore, Hr. }
  assert (Hprom : forall r rid' r', l_res s !! rid = Some r -> l_res s !! rid' = Some r' ->
            r_parent r' = Parent rid -> r_promises (f r) = r_promises r).
  { intros r rid0 r0 Hr _ _. destruct (Hcore r Hr) as (_ & _ & Hp & _). exact Hp. }
  split; [|apply waits_fwd; assumption].
  intros Hw. destruct (waits_back s rid f Hshape Hprom _ _ _ _ Hw) as (r & Hr & Hwb).
  apply Hwb. destruct Hw as (r' & iv' & Hr' & Hiv' & _).
  destruct (lookup_with_res _ _ _ _ _ Hr') as (r0 & Hr0 & Hcase).
  rewrite Hr in Hr0. injection Hr0 as <-.
  assert (Hlen : length (r_invocations r') = length (r_invocations r)).
  { destruct Hcase as [->|[-> ->]]; [reflexivity|].
    destruct (Hcore r Hr) as (_ & _ & _ & _ & Hst).
    apply (f_equal length) in Hst. rewrite !length_fmap in Hst. exact Hst. }
  rewrite <- Hlen. eapply lookup_lt_Some. exact Hiv'.
Qed.

Lemma core_same_dec (g : Invocation -> Invocation) eid r :
  (forall iv, static (g iv) = static iv) ->
  core_same r (set_invocations (alter g eid (r_invocations r)) r).
Proof.
  intros Hg. split; [reflexivity|]. split; [reflexivity|]. split; [reflexivity|].
  split; [reflexivity|]. cbn [r_invocations set_invocations]. apply static_alter, Hg.
Qed.

Section Turn.
Variable injector_get : string -> FnResult.

(** A [KWait] continuation runs: [values[dep] = result; if (!(--waitParams)) proceed();]. *)
Lemma WF_run_wait s rid eid dep arg rest :
  WF s -> q_queue (l_q s) = (KWait rid eid dep, arg) :: rest ->
  WF (run_callback injector_get (KWait rid eid dep) arg
        (with_q (fun q => mkQ (q_states q) (q_subs q) rest) s)).
Proof.
  intros H Hq.
  assert (Hhead : (KWait rid eid dep, arg) ∈ q_queue (l_q s)) by (rewrite Hq; left).
  destruct (wf_tasks _ _ H _ Hhead) as (p & Hw & Hp). cbn [fst snd] in Hp.
  pose proof Hw as (r & iv & Hr & Hiv & Hdep & Hloc & Hvis).
  pose proof (wf_sorted _ _ H rid r Hr) as Hsorted.
  set (qpop := mkQ (q_states (l_q s)) (q_subs (l_q s)) rest).
  assert (Hocc : occ (is_wait rid eid) (l_q s) = 1 + occ (is_wait rid eid) qpop).
  { rewrite (occ_pop _ _ _ _ _ Hq). unfold one. simpl. rewrite !Nat.eqb_refl. reflexivity. }
  pose proof (wf_count _ _ H rid r eid iv Hr Hiv) as Hcnt.
  set (setv := fun r : Resolution => set_values (set (r_values r) dep arg) r).
  assert (Hcore_setv : forall r0, l_res s !! rid = Some r0 -> core_same r0 (setv r0)).
  { intros r0 _. repeat split. }
  set (A := with_res rid setv s).
  assert (HA : WF A).
  { apply WF_res; [exact H|]. intros r0 Hr0. rewrite Hr in Hr0. injection Hr0 as <-.
    split; [repeat split|]. split; [reflexivity|].
    intros e' iv' dep' p' Hiv' Hwp' Heq' Hw' (v' & Hp' & Hv').
    unfold setv. cbn [r_values set_values].
    destruct (decide (dep = dep')) as [<-|Hne]; [|apply get_set_ne; exact Hne].
    rewrite get_set_eq, Hv'. f_equal.
    assert (Hpp : p = p' -> arg = v') by (intros <-; congruence).
    pose proof Hw' as (r1 & iv1 & Hr1 & Hiv1 & Hdep1 & _ & Hvis1).
    rewrite Hr in Hr1. injection Hr1 as <-. rewrite Hiv' in Hiv1. injection Hiv1 as <-.
    destruct (lt_eq_lt_dec eid e') as [[Hlt|Heq]|Hgt].
    - destruct (visible_agree s r eid e' iv iv' dep Hsorted Hiv Hiv' Hdep Hlt) as [Hag|[Hk Hag]].
      + apply Hpp. congruence.
      + exfalso. assert (Hpe : p' = iv_invocation iv) by congruence. subst p'.
        assert (Hz : iv_waitParams iv = 0%Z).
        { apply (wf_started _ _ H rid r eid iv Hr Hiv). right. eauto. }
        lia.
    - subst e'. apply Hpp. congruence.
    - destruct (visible_agree s r e' eid iv' iv dep Hsorted Hiv' Hiv Hdep1 Hgt) as [Hag|[Hk Hag]].
      + apply Hpp. congruence.
      + exfalso. assert (Hpe : p = iv_invocation iv') by congruence. subst p.
        assert (Hz : iv_waitParams iv' = 0%Z).
        { apply (wf_started _ _ H rid r e' iv' Hr Hiv'). right. eauto. }
        lia. }
  assert (HrA : l_res A !! rid = Some (setv r)).
  { unfold A. rewrite (lookup_with_res_fwd s rid setv rid r Hr).
    rewrite decide_True by reflexivity. reflexivity. }
  assert (HwA : waits A rid eid dep p).
  { apply waits_core; assumption. }
  pose proof (WF_pop _ A _ _ _ HA Hq) as HB0.
  set (B0 := with_q (fun q => mkQ (q_states q) (q_subs q) rest) A) in HB0.
  set (dec := fun iv : Invocation => set_waitParams (iv_waitParams iv - 1)%Z iv).
  set (f := fun r : Resolution => set_invocations (alter dec eid (r_invocations r)) r).
  assert (Hcore_f : forall r0, l_res B0 !! rid = Some r0 -> core_same r0 (f r0)).
  { intros r0 _. apply core_same_dec. reflexivity. }
  (* what the head of the queue has delivered *)
  assert (Hdelivered : forall dep' p',
             waits A rid eid dep' p' -> KWait rid eid dep' ∈ callbacks (l_q A) ->
             KWait rid eid dep' ∈ callbacks qpop \/ seen B0 (f (setv r)) p' dep').
  { intros dep' p' Hw' Hin.
    destruct (callbacks_split _ _ _ _ _ Hq Hin) as [Heq|Hin']; [right|left; exact Hin'].
    injection Heq as ->. rewrite (waits_fun _ _ _ _ _ _ Hw' HwA).
    exists arg. split; [exact Hp|]. unfold f, setv. cbn [r_values set_invocations set_values].
    apply get_set_eq. }
  assert (HB : WF (with_res rid f B0)).
  { apply (WF_res_gen no_hole B0 rid f HB0).
    - intros r0 Hr0. apply core_same_shape, Hcore_f, Hr0.
    - intros r0 rid' r' _ _ _. reflexivity.
    - intros r0 Hr0. change (l_res B0) with (l_res A) in Hr0.
      rewrite HrA in Hr0. injection Hr0 as <-.
      split; [apply (wf_promises _ _ HA rid (setv r) HrA)|].
      split.
      { apply (sorted_static (r_invocations (setv r))); [apply static_alter; reflexivity|].
        apply (wf_sorted _ _ HA rid (setv r) HrA). }
      intros e iv' Hiv'. unfold f in Hiv'. cbn [r_invocations set_invocations setv set_values] in Hiv'.
      assert (Hlen : length (r_invocations (setv r)) <= e -> False).
      { intros Hge. cbn [r_invocations setv set_values] in Hge.
        pose proof (lookup_lt_Some _ _ _ Hiv') as Hlt. rewrite length_alter in Hlt. lia. }
      rewrite list_lookup_alter in Hiv'.
      assert (HwB : forall dep' p', waits (with_res rid f B0) rid e dep' p' ->
                                     waits A rid e dep' p').
      { intros dep' p' Hw'. apply (waits_core B0 rid f) in Hw'; [exact Hw'|exact Hcore_f]. }
      destruct (decide (eid = e)) as [<-|Hne].
      + rewrite Hiv in Hiv'. simpl in Hiv'. injection Hiv' as <-.
        cbn [dec iv_waitParams set_waitParams iv_invocation].
        split; [change (l_q B0) with qpop; lia|]. split; [|split].
        * intros dep' p' Hwp1 Heq1 Hw'. change (l_q B0) with qpop in Heq1 |- *.
          apply HwB in Hw'.
          destruct (wf_seen _ _ HA rid (setv r) eid iv dep' p' HrA Hiv) as [Hin|[Hs|[]]];
            [lia|change (l_q A) with (l_q s); lia|exact Hw'| |].
          -- destruct (Hdelivered dep' p' Hw' Hin) as [Hin'|Hs]; auto.
          -- right. left. exact Hs.
        * intros Hs. exfalso.
          assert (Hz : iv_waitParams iv = 0%Z).
          { apply (wf_started _ _ H rid r eid iv Hr Hiv). exact Hs. }
          lia.
        * intros Hge. exfalso. apply Hlen, Hge.
      + split; [apply (wf_count _ _ HB0 rid (setv r) e iv' HrA Hiv')|]. split; [|split].
        * intros dep' p' Hwp1 Heq1 Hw'. apply HwB in Hw'.
          destruct (wf_seen _ _ HB0 rid (setv r) e iv' dep' p' HrA Hiv' Hwp1 Heq1 Hw')
            as [Hin|[Hs|[]]]; auto.
        * apply (wf_started _ _ HB0 rid (setv r) e iv' HrA Hiv').
        * intros Hge. exfalso. apply Hlen, Hge. }
  cbn [run_callback].
  change (with_invocation rid eid (fun iv0 => set_waitParams (iv_waitParams iv0 - 1)%Z iv0)
            (with_res rid (fun r0 => set_values (set (r_values r0) dep arg) r0)
               (with_q (fun q => mkQ (q_states q) (q_subs q) rest) s)))
    with (with_res rid f B0).
  destruct (invocation (with_res rid f B0) rid eid) as [ivB|] eqn:HivB; [|exact HB].
  destruct (iv_waitParams ivB =? 0)%Z eqn:Hzero; [|exact HB].
  apply Z.eqb_eq in Hzero.
  assert (HrB : l_res (with_res rid f B0) !! rid = Some (f (setv r))).
  { rewrite (lookup_with_res_fwd B0 rid f rid (setv r) HrA).
    rewrite decide_True by reflexivity. reflexivity. }
  apply invocation_Some in HivB as (rB0 & HrB0 & HivB).
  rewrite HrB in HrB0. injection HrB0 as <-.
  unfold f in HivB. cbn [r_invocations set_invocations setv set_values] in HivB.
  rewrite list_lookup_alter, decide_True, Hiv in HivB by reflexivity.
  simpl in HivB. injection HivB as <-. cbn [dec iv_waitParams set_waitParams] in Hzero.
  apply WF_proceed; [exact HB|].
  intros rB ivB' HrB' HivB'. rewrite HrB in HrB'. injection HrB' as <-.
  unfold f in HivB'. cbn [r_invocations set_invocations setv set_values] in HivB'.
  rewrite list_lookup_alter, decide_True, Hiv in HivB' by reflexivity.
  simpl in HivB'. injection HivB' as <-. split; [cbn [dec iv_waitParams set_waitParams]; exact Hzero|].
  intros dep' p' Hw'.
  apply (waits_core B0 rid f) in Hw'; [|exact Hcore_f].
  destruct (wf_seen _ _ HA rid (setv r) eid iv dep' p' HrA Hiv) as [Hin|[Hs|[]]];
    [lia|change (l_q A) with (l_q s); lia|exact Hw'| |].
  - destruct (Hdelivered dep' p' Hw' Hin) as [Hin'|Hs]; [exfalso|exact Hs].
    assert (Hnone : is_wait rid eid (KWait rid eid dep') = false).
    { apply (tally_none _ (callbacks qpop)); [|exact Hin'].
      change (occ (is_wait rid eid) qpop = 0). lia. }
    simpl in Hnone. rewrite !Nat.eqb_refl in Hnone. discriminate.
  - exact Hs.
Qed.

(** A [KInvoked] continuation runs: [values[key] = result; done();]. *)
Lemma WF_run_invoked s rid eid arg rest :
  WF s -> q_queue (l_q s) = (KInvoked rid eid, arg) :: rest ->
  WF (run_callback injector_get (KInvoked rid eid) arg
        (with_q (fun q => mkQ (q_states q) (q_subs q) rest) s)).
Proof.
  intros H Hq.
  assert (Hhead : (KInvoked rid eid, arg) ∈ q_queue (l_q s)) by (rewrite Hq; left).
  destruct (wf_tasks _ _ H _ Hhead) as (iv & Hinv & Hp). cbn [fst snd] in Hp.
  pose proof (WF_pop _ s _ _ _ H Hq) as HP.
  cbn [run_callback].
  change (invocation (with_q (fun q => mkQ (q_states q) (q_subs q) rest) s) rid eid)
    with (invocation s rid eid).
  rewrite Hinv. apply invocation_Some in Hinv as (r & Hr & Hiv).
  pose proof (wf_sorted _ _ H rid r Hr) as Hsorted.
  apply WF_done, WF_res; [exact HP|].
  intros r0 Hr0. change (l_res s !! rid = Some r0) in Hr0.
  rewrite Hr in Hr0. injection Hr0 as <-.
  split; [repeat split|]. split; [reflexivity|].
  intros e' iv' dep' p' Hiv' Hwp' _ Hw' (v' & Hp' & Hv').
  cbn [r_values set_values].
  destruct (decide (iv_key iv = dep')) as [<-|Hne]; [|apply get_set_ne; exact Hne].
  rewrite get_set_eq, Hv'. f_equal.
  destruct Hw' as (r1 & iv1 & Hr1 & Hiv1 & Hdep1 & _ & Hvis1).
  change (l_res s !! rid = Some r1) in Hr1.
  rewrite Hr in Hr1. injection Hr1 as <-. rewrite Hiv' in Hiv1. injection Hiv1 as <-.
  destruct (decide (eid = e')) as [<-|Hne].
  - exfalso. rewrite Hiv in Hiv'. injection Hiv' as <-.
    assert (Hz : iv_waitParams iv = 0%Z).
    { apply (wf_started _ _ H rid r eid iv Hr Hiv). right. eauto. }
    lia.
  - destruct Hsorted as [Hnd Hord].
    pose proof (Hord e' eid iv' iv Hiv' Hiv Hdep1 Hne) as Hlt.
    assert (Hvis : get (visible s r e') (iv_key iv) = Some (iv_invocation iv)).
    { apply (visible_before s r e' eid iv); [split; assumption|exact Hiv|exact Hlt]. }
    change (get (visible s r e') (iv_key iv) = Some p') in Hvis1.
    assert (Hpe : p' = iv_invocation iv) by congruence. subst p'.
    change (q_state (l_q s) (iv_invocation iv) = Fulfilled v') in Hp'. congruence.
Qed.

Lemma WF_run_callback s k arg rest :
  WF s -> q_queue (l_q s) = (k, arg) :: rest ->
  WF (run_callback injector_get k arg
        (with_q (fun q => mkQ (q_states q) (q_subs q) rest) s)).
Proof.
  intros H Hq. pose proof (WF_pop _ s _ _ _ H Hq) as HP.
  destruct k as [rid|rid|rid eid dep|rid eid|rid eid|p|p].
  - apply WF_done. exact HP.
  - apply WF_fail. exact HP.
  - apply WF_run_wait; assumption.
  - apply WF_onfailure. exact HP.
  - apply WF_run_invoked; assumption.
  - apply WF_adopt; [exact HP|]. left. eauto.
  - apply WF_adopt; [exact HP|]. right. eauto.
Qed.

Lemma WF_tick s : WF s -> WF (tick injector_get s).
Proof.
  intros H. unfold tick. destruct (q_queue (l_q s)) as [|[k arg] rest] eqn:Hq; [exact H|].
  apply WF_run_callback; assumption.
Qed.

Lemma WF_drain fuel s : WF s -> WF (drain injector_get fuel s).
Proof.
  revert s. induction fuel as [|fuel IH]; intros s H; [exact H|]. simpl.
  destruct (q_queue (l_q s)); [exact H|]. apply IH, WF_tick, H.
Qed.
End Turn.

Lemma WF_settle_outside i s : WF s -> WF (settle_outside i s).
Proof.
  intros H. unfold settle_outside.
  destruct (l_outside s !! i) as [[p fate]|] eqn:Hl; [|exact H].
  assert (Hin : (p, fate) ∈ l_outside s) by (eapply list_elem_of_lookup_2; exact Hl).
  assert (H1 : WF (mkLegacy (l_q s) (l_res s) (delete i (l_outside s)) (l_log s))).
  { apply WF_outside; [exact H|]. intros x Hx. left.
    apply list_elem_of_delete_inv in Hx. exact Hx. }
  destruct fate as [v|x|].
  - apply WF_resolve; [exact H1|apply (wf_outside_valid _ _ H p _ Hin)|].
    intros rid r e iv Hr Hiv Hpx. exfalso.
    apply (wf_outside_own _ _ H p _ rid r e iv Hin Hr Hiv). congruence.
  - apply WF_reject; [exact H1|apply (wf_outside_valid _ _ H p _ Hin)].
  - exact H.
Qed.

(** *** Starting a resolution *)

(** Two states whose resolutions agree but for their bookkeeping. *)
Definition res_core (s s' : Legacy) : Prop :=
  length (l_res s') = length (l_res s) /\
  forall rid r, l_res s !! rid = Some r ->
    exists r', l_res s' !! rid = Some r' /\ core_same r r'.

Lemma res_core_eq s s' : l_res s' = l_res s -> res_core s s'.
Proof.
  intros Heq. split; [rewrite Heq; reflexivity|].
  intros rid r Hr. exists r. rewrite Heq. split; [exact Hr|apply core_same_refl].
Qed.

Lemma res_core_trans s1 s2 s3 : res_core s1 s2 -> res_core s2 s3 -> res_core s1 s3.
Proof.
  intros [Hl1 H1] [Hl2 H2]. split; [congruence|].
  intros rid r Hr. destruct (H1 rid r Hr) as (r2 & Hr2 & Hc2).
  destruct (H2 rid r2 Hr2) as (r3 & Hr3 & Hc3).
  exists r3. split; [exact Hr3|]. apply (core_same_trans _ _ _ Hc2 Hc3).
Qed.

Lemma res_core_res s rid f :
  (forall r, core_same r (f r)) -> res_core s (with_res rid f s).
Proof.
  intros Hf. split; [apply length_alter|].
  intros rid' r Hr. eexists. split; [apply lookup_with_res_fwd; exact Hr|].
  destruct (decide (rid = rid')); [apply Hf|apply core_same_refl].
Qed.

Lemma res_core_fail s rid reason : res_core s (fail rid reason s).
Proof.
  unfold fail. destruct (l_res s !! rid); [|apply res_core_eq; reflexivity].
  apply (res_core_trans _ (with_res rid (set_failure reason) s)).
  - apply res_core_res. intros r0. repeat split.
  - apply res_core_eq. reflexivity.
Qed.

Lemma res_core_done s rid : res_core s (done rid s).
Proof.
  unfold done. destruct (l_res s !! rid) as [r|]; [|apply res_core_eq; reflexivity].
  destruct (r_wait r - 1 =? 0)%Z.
  - eapply res_core_trans; [|apply res_core_eq; reflexivity].
    apply res_core_res. intros r0. repeat split.
  - apply res_core_res. intros r0. repeat split.
Qed.

Lemma res_core_onfailure s rid e reason : res_core s (onfailure rid e reason s).
Proof.
  unfold onfailure. destruct (invocation s rid e); [|apply res_core_eq; reflexivity].
  eapply res_core_trans; [|apply res_core_fail]. apply res_core_eq. reflexivity.
Qed.

Lemma res_core_wait_for s rid eid dep : res_core s (wait_for rid eid s dep).
Proof.
  unfold wait_for. destruct (l_res s !! rid) as [r|]; [|apply res_core_eq; reflexivity].
  destruct (get (r_promises r) dep); [|apply res_core_eq; reflexivity].
  destruct (negb (has (r_locals r) dep)); [|apply res_core_eq; reflexivity].
  eapply res_core_trans; [|apply res_core_eq; reflexivity].
  apply res_core_res. intros r0. apply core_same_dec. reflexivity.
Qed.

Lemma parent_promises_core s s' parent :
  res_core s s' -> parent_promises s' parent = parent_promises s parent.
Proof.
  intros [Hlen Hres]. destruct parent as [|prid]; [reflexivity|]. simpl.
  destruct (l_res s !! prid) as [pr|] eqn:Hpr.
  - destruct (Hres prid pr Hpr) as (pr' & Hpr' & (_ & _ & Hp & _)). rewrite Hpr'. exact Hp.
  - apply lookup_ge_None in Hpr. rewrite <- Hlen in Hpr.
    apply lookup_ge_None in Hpr. rewrite Hpr. reflexivity.
Qed.

Lemma visible_core s s' r r' e :
  res_core s s' -> core_same r r' -> visible s' r' e = visible s r e.
Proof.
  intros Hrc (_ & Hpar & _ & _ & Hst). unfold visible.
  rewrite Hpar, (parent_promises_core s s' _ Hrc).
  apply published_static. rewrite !fmap_take, Hst. reflexivity.
Qed.

(** The resolution [rid] is the one being set up: it is the newest, it
    has [n] entries, [promises] is what entry [e] finds, and no entry
    still to come is depended upon. *)
Definition Building (s : Legacy) (rid n e : nat) (rest : list PlanEntry) : Prop :=
  S rid = length (l_res s) /\
  exists r, l_res s !! rid = Some r /\ length (r_invocations r) = n /\
            r_promises r = visible s r e /\
            forall iv y, iv ∈ r_invocations r -> y ∈ rest ->
                         iv_key iv <> pe_key y /\ pe_key y ∉ iv_params iv.

Lemma Building_core s s' rid n e rest :
  res_core s s' -> Building s rid n e rest -> Building s' rid n e rest.
Proof.
  intros Hrc (Hlast & r & Hr & Hn & Hsync & Hent). pose proof Hrc as [Hlen Hres].
  split; [congruence|]. destruct (Hres rid r Hr) as (r' & Hr' & Hc).
  exists r'. split; [exact Hr'|]. pose proof Hc as (_ & _ & Hp & _ & Hst).
  split; [|split].
  - apply (f_equal length) in Hst. rewrite !length_fmap in Hst. congruence.
  - rewrite Hp, Hsync. symmetry. apply (visible_core s s' r r' e Hrc Hc).
  - intros iv' y Hiv' Hy. apply list_elem_of_lookup_1 in Hiv' as [i Hi].
    destruct (static_lookup _ _ _ _ Hst Hi) as (iv & Hiv & Hs).
    unfold static in Hs. injection Hs as Hk Hpar _. rewrite <- Hk, <- Hpar.
    apply Hent; [eapply list_elem_of_lookup_2; exact Hiv|exact Hy].
Qed.

(** No continuation waits on behalf of an entry that does not exist. *)
Lemma occ_no_entry h s rid e :
  WFh h s -> invocation s rid e = None -> occ (is_wait rid e) (l_q s) = 0.
Proof.
  intros H Hnone. apply tally_zero. intros k Hk.
  destruct (is_wait rid e k) eqn:Hw; [exfalso|reflexivity].
  destruct k as [| |rid' e' dep| | | |]; try discriminate.
  simpl in Hw. apply andb_prop in Hw as [Hw1 Hw2].
  apply Nat.eqb_eq in Hw1, Hw2. subst rid' e'.
  assert (Hwaits : exists p, waits s rid e dep p).
  { unfold callbacks in Hk. apply elem_of_app in Hk as [Hk|Hk].
    - apply list_elem_of_In, in_flat_map in Hk as (sub & Hsub & Hk).
      apply list_elem_of_In in Hsub. pose proof (wf_subs _ _ H sub Hsub) as [Herr Hok].
      simpl in Hk. destruct Hk as [Hk|[Hk|[]]].
      + rewrite Hk in Hok. destruct Hok as [_ Hw]. eauto.
      + rewrite Hk in Herr. discriminate.
    - apply list_elem_of_fmap in Hk as (t & Hk & Ht).
      pose proof (wf_tasks _ _ H t Ht) as Hwf. unfold task_wf in Hwf. rewrite <- Hk in Hwf.
      destruct Hwf as (p & Hw & _). eauto. }
  destruct Hwaits as (p & r & iv & Hr & Hiv & _).
  unfold invocation in Hnone. rewrite Hr in Hnone. simpl in Hnone. congruence.
Qed.

Section ThenFacts.
Context {K : Type}.
Implicit Types (q : Q K) (p : nat) (ok err : K).

Lemma q_subs_then q p ok err sub :
  sub ∈ q_subs (q_then p ok err q) -> sub ∈ q_subs q \/ sub = mkSub p ok err.
Proof.
  unfold q_then. destruct (q_state q p); cbn [q_subs]; auto;
    rewrite elem_of_app, list_elem_of_singleton; auto.
Qed.

Lemma q_queue_then q p ok err t :
  t ∈ q_queue (q_then p ok err q) ->
  t ∈ q_queue q \/ (exists v, q_state q p = Fulfilled v /\ t = (ok, v)) \/
  (exists x, q_state q p = Rejected x /\ t = (err, x)).
Proof.
  unfold q_then. destruct (q_state q p) as [| |v|x] eqn:Hq; cbn [q_queue]; auto;
    rewrite elem_of_app, list_elem_of_singleton; intros [H|H]; eauto.
Qed.

Lemma callbacks_then_mono q p ok err k :
  k ∈ callbacks q -> k ∈ callbacks (q_then p ok err q).
Proof.
  unfold q_then, callbacks.
  destruct (q_state q p); cbn [q_subs q_queue];
    rewrite ?flat_map_app, ?fmap_app, !elem_of_app; tauto.
Qed.

Lemma callbacks_then_ok q p ok err :
  (forall x, q_state q p <> Rejected x) -> ok ∈ callbacks (q_then p ok err q).
Proof.
  intros Hnr. unfold q_then, callbacks.
  destruct (q_state q p) as [| |v|x] eqn:Hq; cbn [q_subs q_queue];
    rewrite ?flat_map_app, ?fmap_app, !elem_of_app; cbn [flat_map fmap list_fmap fst app sub_ok sub_err].
  - left. right. left.
  - left. right. left.
  - right. right. left.
  - exfalso. apply (Hnr x). reflexivity.
Qed.

Lemma occ_then_rejected (P : K -> bool) q p ok err x :
  q_state q p = Rejected x -> P err = false ->
  occ P (q_then p ok err q) = occ P q.
Proof.
  intros Hq Herr. unfold occ, q_then, callbacks. rewrite Hq. cbn [q_subs q_queue].
  rewrite fmap_app, !tally_app. cbn [fmap list_fmap fst tally]. rewrite Herr. lia.
Qed.

Lemma occ_then_eq (P : K -> bool) q p ok err :
  P ok = false -> P err = false -> occ P (q_then p ok err q) = occ P q.
Proof.
  intros Hok Herr. unfold occ, q_then, callbacks.
  destruct (q_state q p); cbn [q_subs q_queue];
    rewrite ?flat_map_app, ?fmap_app, !tally_app;
    cbn [flat_map fmap list_fmap fst app tally sub_ok sub_err];
    rewrite ?Hok, ?Herr; lia.
Qed.
End ThenFacts.

(** Changing [waitParams] of one entry. *)
Lemma WF_set_wp h s rid eid (g : Invocation -> Invocation) :
  WFh h s -> (forall iv, static (g iv) = static iv) ->
  (forall r iv, l_res s !! rid = Some r -> r_invocations r !! eid = Some iv ->
     (Z.of_nat (occ (is_wait rid eid) (l_q s)) <= iv_waitParams (g iv))%Z /\
     (forall dep p,
         (1 <= iv_waitParams (g iv))%Z ->
         Z.of_nat (occ (is_wait rid eid) (l_q s)) = iv_waitParams (g iv) ->
         waits s rid eid dep p ->
         KWait rid eid dep ∈ callbacks (l_q s) \/ seen s r p dep \/ h rid eid dep) /\
     (started (l_q s) (iv_invocation iv) -> iv_waitParams (g iv) = 0%Z)) ->
  WFh h (with_invocation rid eid g s).
Proof.
  intros H Hg Hcond. unfold with_invocation.
  set (f := fun r : Resolution => set_invocations (alter g eid (r_invocations r)) r).
  assert (Hcore : forall r, l_res s !! rid = Some r -> core_same r (f r)).
  { intros r _. apply core_same_dec, Hg. }
  apply (WF_res_gen h s rid f H).
  - intros r Hr. apply core_same_shape, Hcore, Hr.
  - intros r rid' r' _ _ _. reflexivity.
  - intros r Hr. split; [apply (wf_promises _ _ H rid r Hr)|]. split.
    { apply (sorted_static (r_invocations r)); [apply static_alter, Hg|].
      apply (wf_sorted _ _ H rid r Hr). }
    intros e iv' Hiv'. unfold f in Hiv'. cbn [r_invocations set_invocations] in Hiv'.
    assert (Hlt : e < length (r_invocations r)).
    { pose proof (lookup_lt_Some _ _ _ Hiv') as Hlt. rewrite length_alter in Hlt. exact Hlt. }
    assert (HwB : forall dep p, waits (with_res rid f s) rid e dep p -> waits s rid e dep p).
    { intros dep p Hw. apply (waits_core s rid f) in Hw; [exact Hw|exact Hcore]. }
    rewrite list_lookup_alter in Hiv'.
    destruct (decide (eid = e)) as [<-|Hne].
    + destruct (r_invocations r !! eid) as [iv|] eqn:Hiv; [|discriminate].
      simpl in Hiv'. injection Hiv' as <-.
      destruct (Hcond r iv Hr Hiv) as (Hc & Hs & Hst).
      assert (Hpx : iv_invocation (g iv) = iv_invocation iv).
      { pose proof (Hg iv) as Hs0. unfold static in Hs0. injection Hs0 as _ _ Hs0. exact Hs0. }
      split; [exact Hc|]. split; [|split].
      * intros dep p Hwp Heq Hw. apply (Hs dep p Hwp Heq), HwB, Hw.
      * rewrite Hpx. exact Hst.
      * intros Hge. exfalso. lia.
    + split; [apply (wf_count _ _ H rid r e iv' Hr Hiv')|]. split; [|split].
      * intros dep p Hwp Heq Hw.
        apply (wf_seen _ _ H rid r e iv' dep p Hr Hiv' Hwp Heq), HwB, Hw.
      * apply (wf_started _ _ H rid r e iv' Hr Hiv').
      * intros Hge. exfalso. lia.
Qed.

(** The dependencies [forEach(params, ...)] of [__invoke] has still to
    look at. *)
Definition todo_hole (rid eid : nat) (todo : list string) : nat -> nat -> string -> Prop :=
  fun rid' e' dep' => rid' = rid /\ e' = eid /\ dep' ∈ todo.

(** The state in the middle of that [forEach]. *)
Definition Registering (s : Legacy) (rid eid px : nat) (todo : list string) : Prop :=
  WFh (todo_hole rid eid todo) s /\
  q_state (l_q s) px = Pending /\
  exists r iv,
    l_res s !! rid = Some r /\ r_invocations r !! eid = Some iv /\
    iv_invocation iv = px /\ r_promises r = visible s r eid /\
    (forall d, d ∈ todo -> d ∈ iv_params iv) /\
    (forall dep p, waits s rid eid dep p -> dep ∈ todo \/ (1 <= iv_waitParams iv)%Z).

Lemma Registering_step s rid eid px dep todo :
  Registering s rid eid px (dep :: todo) ->
  Registering (wait_for rid eid s dep) rid eid px todo.
Proof.
  intros (H & Hpx & r & iv & Hr & Hiv & Hpxe & Hsync & Hsub & HJ).
  assert (Hnoop : (forall p', ~ waits s rid eid dep p') -> Registering s rid eid px todo).
  { intros Hno. split; [|split; [exact Hpx|]].
    - apply (WFh_weaken (todo_hole rid eid (dep :: todo))); [|exact H].
      intros rid' e' dep' p' Hw (-> & -> & Hin). split; [reflexivity|]. split; [reflexivity|].
      apply elem_of_cons in Hin as [->|Hin]; [|exact Hin]. exfalso. apply (Hno p' Hw).
    - exists r, iv. split; [exact Hr|]. split; [exact Hiv|]. split; [exact Hpxe|].
      split; [exact Hsync|]. split; [intros d Hd; apply Hsub; right; exact Hd|].
      intros dep' p' Hw. destruct (HJ dep' p' Hw) as [Hin|Hwp]; [|right; exact Hwp].
      apply elem_of_cons in Hin as [->|Hin]; [|left; exact Hin]. exfalso. apply (Hno p' Hw). }
  unfold wait_for. rewrite Hr.
  destruct (get (r_promises r) dep) as [pd|] eqn:Hget.
  2:{ apply Hnoop. intros p' (r1 & iv1 & Hr1 & _ & _ & _ & Hvis).
      rewrite Hr in Hr1. injection Hr1 as <-. rewrite <- Hsync in Hvis. congruence. }
  destruct (has (r_locals r) dep) eqn:Hloc; cbn [negb].
  { apply Hnoop. intros p' (r1 & iv1 & Hr1 & _ & _ & Hl & _).
    rewrite Hr in Hr1. injection Hr1 as <-. congruence. }
  assert (Hwd : waits s rid eid dep pd).
  { exists r, iv. split; [exact Hr|]. split; [exact Hiv|]. split; [apply Hsub; left|].
    split; [exact Hloc|]. rewrite <- Hsync. exact Hget. }
  pose proof (wf_count _ _ H rid r eid iv Hr Hiv) as Hcnt.
  set (inc := fun iv0 : Invocation => set_waitParams (iv_waitParams iv0 + 1)%Z iv0).
  set (f := fun r0 : Resolution => set_invocations (alter inc eid (r_invocations r0)) r0).
  assert (Hcore : forall r0, l_res s !! rid = Some r0 -> core_same r0 (f r0)).
  { intros r0 _. apply core_same_dec. reflexivity. }
  set (s1 := with_invocation rid eid inc s).
  assert (H1 : WFh (todo_hole rid eid (dep :: todo)) s1).
  { apply WF_set_wp; [exact H|reflexivity|].
    intros r0 iv0 Hr0 Hiv0. rewrite Hr in Hr0. injection Hr0 as <-.
    rewrite Hiv in Hiv0. injection Hiv0 as <-. cbn [inc iv_waitParams set_waitParams].
    split; [lia|]. split; [intros dep' p' _ Heq; lia|].
    intros [Hs|[v Hs]]; rewrite Hpxe, Hpx in Hs; discriminate. }
  assert (Hr1 : l_res s1 !! rid = Some (f r)).
  { unfold s1, with_invocation. rewrite (lookup_with_res_fwd s rid _ rid r Hr).
    rewrite decide_True by reflexivity. reflexivity. }
  assert (Hiv1 : r_invocations (f r) !! eid = Some (inc iv)).
  { unfold f. cbn [r_invocations set_invocations].
    rewrite list_lookup_alter, decide_True, Hiv by reflexivity. reflexivity. }
  assert (Hw1 : forall rid' e' dep' p', waits s1 rid' e' dep' p' <-> waits s rid' e' dep' p').
  { intros rid' e' dep' p'. apply (waits_core s rid f). exact Hcore. }
  set (q' := q_then pd (KWait rid eid dep) (KOnFailure rid eid) (l_q s)).
  assert (H2 : WFh (todo_hole rid eid todo) (with_q (fun _ => q') s1)).
  { apply (WF_q_gen (todo_hole rid eid (dep :: todo)) _ s1 q' H1).
    - unfold q'. rewrite q_states_then. reflexivity.
    - intros p0 v Hp0. unfold q'. rewrite q_state_then. exact Hp0.
    - intros sub Hsub0. apply q_subs_then in Hsub0 as [Hold| ->]; [left; exact Hold|right].
      split; [reflexivity|]. cbn [sub_ok sub_err sub_on]. split; [reflexivity|].
      apply Hw1. exact Hwd.
    - intros t Ht. apply q_queue_then in Ht as [Hold|[(v & Hq & ->)|(x & Hq & ->)]];
        [left; exact Hold|right|right].
      + unfold task_wf. cbn [fst snd]. exists pd. split; [apply Hw1; exact Hwd|].
        cbn [with_q l_q]. unfold q'. rewrite q_state_then. exact Hq.
      + apply task_wf_errback. reflexivity.
    - intros rid' r' e' iv' Hr' Hiv'.
      destruct (decide (rid' = rid /\ e' = eid)) as [[-> ->]|Hne].
      + rewrite Hr1 in Hr'. injection Hr' as <-. rewrite Hiv1 in Hiv'. injection Hiv' as <-.
        cbn [inc iv_waitParams set_waitParams iv_invocation].
        assert (Hle : occ (is_wait rid eid) q' <= occ (is_wait rid eid) (l_q s) + 1).
        { unfold q'. etransitivity; [apply occ_then_le|]. unfold one. simpl.
          rewrite !Nat.eqb_refl. simpl. lia. }
        split; [lia|]. split; [|intros Hs; left; unfold q' in Hs; unfold started in *;
                                rewrite !q_state_then in Hs; exact Hs].
        intros dep' p' _ Heq Hw _. apply Hw1 in Hw.
        assert (Hin : KWait rid eid dep ∈ callbacks q').
        { apply callbacks_then_ok. intros x Hx.
          pose proof (occ_then_rejected (is_wait rid eid) (l_q s) pd
                        (KWait rid eid dep) (KOnFailure rid eid) x Hx eq_refl) as Hrej.
          fold q' in Hrej. lia. }
        assert (Hcase : dep' ∈ dep :: todo \/
                        KWait rid eid dep' ∈ callbacks (l_q s) \/ seen s r p' dep').
        { destruct (decide (1 <= iv_waitParams iv)%Z) as [Hwp|Hwp].
          - destruct (wf_seen _ _ H rid r eid iv dep' p' Hr Hiv Hwp) as [Hq|[Hs|(_ & _ & Hh)]];
              [lia|exact Hw|auto..].
          - destruct (HJ dep' p' Hw) as [Hin'|Hwp']; [left; exact Hin'|lia]. }
        destruct Hcase as [Hin'|[Hq|Hs]].
        * apply elem_of_cons in Hin' as [->|Hin']; [left; exact Hin|].
          right. right. split; [reflexivity|]. split; [reflexivity|exact Hin'].
        * left. apply callbacks_then_mono. exact Hq.
        * right. left. destruct Hs as (v & Hq & Hv). exists v.
          split; [cbn [with_q l_q]; unfold q'; rewrite q_state_then; exact Hq|exact Hv].
      + assert (Hocc : occ (is_wait rid' e') q' = occ (is_wait rid' e') (l_q s)).
        { unfold q'. apply occ_then_eq; [|reflexivity]. simpl.
          destruct (Nat.eqb_spec rid rid') as [<-|]; [|reflexivity].
          destruct (Nat.eqb_spec eid e') as [<-|]; [|reflexivity].
          exfalso. apply Hne. auto. }
        pose proof (wf_count _ _ H1 rid' r' e' iv' Hr' Hiv') as Hc.
        change (l_q s1) with (l_q s) in Hc |- *.
        split; [lia|]. split; [|intros Hs; left; unfold q' in Hs; unfold started in *;
                                rewrite !q_state_then in Hs; exact Hs].
        intros dep' p' Hwp Heq Hw Hold.
        destruct Hold as [Hq|[Hs|(-> & -> & _)]]; [lia| | |exfalso; apply Hne; auto].
        * left. apply callbacks_then_mono. exact Hq.
        * right. left. destruct Hs as (v & Hq & Hv). exists v.
          split; [cbn [with_q l_q]; unfold q'; rewrite q_state_then; exact Hq|exact Hv]. }
  split; [exact H2|]. split.
  { cbn [with_q l_q]. rewrite q_state_then. exact Hpx. }
  exists (f r), (inc iv). split; [exact Hr1|]. split; [exact Hiv1|]. split; [exact Hpxe|].
  split; [|split].
  - cbn [f r_promises set_invocations]. rewrite Hsync. symmetry.
    apply (visible_core s _ r (f r) eid); [|apply Hcore, Hr].
    apply (res_core_trans _ s1); [|apply res_core_eq; reflexivity].
    apply res_core_res. intros r0. apply core_same_dec. reflexivity.
  - intros d Hd. apply Hsub. right. exact Hd.
  - intros dep' p' _. right. cbn [inc iv_waitParams set_waitParams]. lia.
Qed.

Lemma Registering_fold todo s rid eid px :
  Registering s rid eid px todo ->
  Registering (fold_left (wait_for rid eid) todo s) rid eid px [].
Proof.
  revert s. induction todo as [|dep todo IH]; intros s H; [exact H|].
  simpl. apply IH, Registering_step, H.
Qed.

(** [__invoke] sets up its variables: a fresh [invocation] promise and
    [waitParams = 0]. *)
Lemma push_invocation s rid n x rest r :
  WF s -> Building s rid n n (x :: rest) ->
  (forall y, y ∈ rest -> pe_key x <> pe_key y /\ pe_key y ∉ pe_params x) ->
  l_res s !! rid = Some r ->
  let p := length (q_states (l_q s)) in
  let iv0 := mkInvocation (pe_key x) (pe_invocable x) (pe_params x) 0%Z p in
  let s_b := with_res rid (set_invocations (r_invocations r ++ [iv0]))
                      (with_q (fun q => snd (q_defer q)) s) in
  WF s_b /\ Building s_b rid (S n) n rest /\ Registering s_b rid n p (pe_params x).
Proof.
  intros H (Hlast & r0 & Hr0 & Hn & Hsync & Hent) Hlater Hr p iv0 s_b.
  rewrite Hr in Hr0. injection Hr0 as <-.
  set (s_a := with_q (fun q => snd (q_defer q)) s).
  set (f := set_invocations (r_invocations r ++ [iv0])).
  assert (Ha : WF s_a) by (apply WF_defer; exact H).
  assert (Hra : l_res s_a !! rid = Some r) by exact Hr.
  assert (Hshape : forall r1, l_res s_a !! rid = Some r1 -> shape_ext r1 (f r1)).
  { intros r1 Hr1. rewrite Hra in Hr1. injection Hr1 as <-.
    split; [reflexivity|]. split; [reflexivity|]. split; [reflexivity|].
    exists [static iv0]. unfold f. cbn [r_invocations set_invocations].
    rewrite fmap_app. reflexivity. }
  assert (Hprom : forall r1 rid' r', l_res s_a !! rid = Some r1 -> l_res s_a !! rid' = Some r' ->
            r_parent r' = Parent rid -> r_promises (f r1) = r_promises r1).
  { intros r1 rid' r' _ _ _. reflexivity. }
  assert (Hlook : forall e iv', (r_invocations r ++ [iv0]) !! e = Some iv' ->
            (e < n /\ r_invocations r !! e = Some iv') \/ (e = n /\ iv' = iv0)).
  { intros e iv' Hl. apply lookup_snoc_Some in Hl. rewrite Hn in Hl.
    destruct Hl as [[? ?]|[? ?]]; auto. }
  assert (Hplen : length (q_states (l_q s_a)) = S p).
  { unfold s_a. cbn [with_q l_q]. apply q_defer_length. }
  assert (Hpend : q_state (l_q s_a) p = Pending).
  { unfold s_a. cbn [with_q l_q]. rewrite q_state_defer. unfold q_state, p.
    rewrite lookup_ge_None_2 by lia. reflexivity. }
  assert (Hsorted : sorted_invocations (r_invocations r ++ [iv0])).
  { destruct (wf_sorted _ _ H rid r Hr) as [Hnd Hord]. split.
    - rewrite fmap_app. apply NoDup_app. split; [exact Hnd|]. split.
      + intros k Hk Hk'. apply list_elem_of_fmap in Hk as (iv & -> & Hiv).
        simpl in Hk'. apply list_elem_of_singleton in Hk'.
        destruct (Hent iv x Hiv) as [Hne _]; [left|]. apply Hne. exact Hk'.
      + simpl. apply NoDup_singleton.
    - intros e d iv ivd He Hd Hin Hne.
      destruct (Hlook e iv He) as [[Hen Hiv]|[-> ->]].
      + destruct (Hlook d ivd Hd) as [[Hdn Hivd]|[-> ->]].
        * apply (Hord e d iv ivd Hiv Hivd Hin Hne).
        * exfalso. simpl in Hin. apply list_elem_of_lookup_2 in Hiv.
          destruct (Hent iv x Hiv) as [_ Hnin]; [left|]. apply Hnin. exact Hin.
      + destruct (Hlook d ivd Hd) as [[Hdn Hivd]|[-> ->]]; [exact Hdn|congruence]. }
  assert (Hb : WF s_b).
  { apply (WF_res_gen no_hole s_a rid f Ha Hshape Hprom).
    intros r1 Hr1. rewrite Hra in Hr1. injection Hr1 as <-.
    split; [apply (wf_promises _ _ H rid r Hr)|]. split; [exact Hsorted|].
    intros e iv' Hiv'. unfold f in Hiv'. cbn [r_invocations set_invocations] in Hiv'.
    destruct (Hlook e iv' Hiv') as [[Hen Hiv]|[-> ->]].
    - split; [apply (wf_count _ _ Ha rid r e iv' Hra Hiv)|]. split; [|split].
      + intros dep p0 Hwp Heq Hw.
        destruct (waits_back s_a rid f Hshape Hprom _ _ _ _ Hw) as (r1 & Hr1 & Hwb).
        rewrite Hra in Hr1. injection Hr1 as <-.
        apply (wf_seen _ _ Ha rid r e iv' dep p0 Hra Hiv Hwp Heq). apply Hwb. lia.
      + apply (wf_started _ _ Ha rid r e iv' Hra Hiv).
      + intros Hge. exfalso. lia.
    - cbn [iv0 iv_waitParams iv_invocation].
      assert (Hocc : occ (is_wait rid n) (l_q s_a) = 0).
      { apply (occ_no_entry no_hole); [exact Ha|]. unfold invocation. rewrite Hra. simpl.
        apply lookup_ge_None_2. lia. }
      split; [lia|]. split; [intros dep p0 Hwp; lia|]. split; [reflexivity|].
      intros _. split; [lia|]. split; [|split; [|split]].
      + intros rid2 r2 Hr2. pose proof (wf_result_valid _ _ H rid2 r2 Hr2) as Hlt. fold p in Hlt. lia.
      + intros p0 fate Hp0. pose proof (wf_outside_valid _ _ H p0 fate Hp0) as Hlt. fold p in Hlt. lia.
      + intros rid2 r2 e2 iv2 Hr2 Hiv2.
        pose proof (wf_invocation_valid _ _ H rid2 r2 e2 iv2 Hr2 Hiv2) as Hlt. fold p in Hlt. lia.
      + intros e2 iv2 Hiv2 Hge _. destruct (Hlook e2 iv2 Hiv2) as [[? _]|[? _]]; lia. }
  assert (Hrb : l_res s_b !! rid = Some (f r)).
  { unfold s_b. fold s_a. fold f. rewrite (lookup_with_res_fwd s_a rid f rid r Hra).
    rewrite decide_True by reflexivity. reflexivity. }
  assert (Hivb : r_invocations (f r) !! n = Some iv0).
  { unfold f. cbn [r_invocations set_invocations]. apply lookup_snoc_Some. right. auto. }
  assert (Hvis : visible s_b (f r) n = visible s r n).
  { unfold visible. unfold f at 2. cbn [r_parent set_invocations].
    unfold s_b. fold s_a. fold f.
    rewrite (parent_promises_with_res s_a rid f Hshape Hprom rid r Hra).
    unfold f. cbn [r_invocations set_invocations].
    rewrite take_app_le by lia. reflexivity. }
  split; [exact Hb|]. split; [|split; [|split]].
  - split; [unfold s_b; cbn [with_res l_res]; rewrite length_alter; exact Hlast|].
    exists (f r). split; [exact Hrb|]. split.
    { unfold f. cbn [r_invocations set_invocations]. rewrite length_app. simpl. lia. }
    split; [rewrite Hvis; exact Hsync|].
    intros iv y Hiv Hy. unfold f in Hiv. cbn [r_invocations set_invocations] in Hiv.
    apply elem_of_app in Hiv as [Hiv|Hiv].
    + apply (Hent iv y Hiv). right. exact Hy.
    + apply list_elem_of_singleton in Hiv. subst iv. apply (Hlater y Hy).
  - apply (WFh_weaken no_hole); [|exact Hb]. intros rid' e dep p0 _ [].
  - exact Hpend.
  - exists (f r), iv0. split; [exact Hrb|]. split; [exact Hivb|]. split; [reflexivity|].
    split; [rewrite Hvis; exact Hsync|]. split; [intros d Hd; exact Hd|].
    intros dep p0 (r1 & iv1 & Hr1 & Hiv1 & Hdep & _). left.
    rewrite Hrb in Hr1. injection Hr1 as <-. rewrite Hivb in Hiv1. injection Hiv1 as <-.
    exact Hdep.
Qed.

(** [promises[key] = invocation.promise], on the newest resolution. *)
Lemma publish_promise h s rid n key px rest :
  WFh h s -> Building s rid (S n) n rest ->
  (forall r, l_res s !! rid = Some r ->
     exists iv, r_invocations r !! n = Some iv /\ iv_key iv = key /\ iv_invocation iv = px) ->
  let s' := with_res rid (fun r => set_promises (set (r_promises r) key px) r) s in
  WFh h s' /\ Building s' rid (S n) (S n) rest.
Proof.
  intros H (Hlast & r & Hr & Hn & Hsync & Hent) Hiv s'.
  set (f := fun r0 : Resolution => set_promises (set (r_promises r0) key px) r0).
  assert (Hshape : forall r1, l_res s !! rid = Some r1 -> shape_ext r1 (f r1)).
  { intros r1 _. split; [reflexivity|]. split; [reflexivity|]. split; reflexivity. }
  assert (Hprom : forall r1 rid' r', l_res s !! rid = Some r1 -> l_res s !! rid' = Some r' ->
            r_parent r' = Parent rid -> r_promises (f r1) = r_promises r1).
  { intros r1 rid' r' _ Hr' Hpar. exfalso.
    pose proof (wf_parent _ _ H rid' r' rid Hr' Hpar) as Hlt.
    apply lookup_lt_Some in Hr'. lia. }
  split.
  - apply (WF_res_gen h s rid f H Hshape Hprom).
    intros r1 Hr1. rewrite Hr in Hr1. injection Hr1 as <-.
    split; [apply NoDup_keys_set, (wf_promises _ _ H rid r Hr)|].
    split; [apply (wf_sorted _ _ H rid r Hr)|].
    intros e iv' Hiv'. change (r_invocations r !! e = Some iv') in Hiv'.
    split; [apply (wf_count _ _ H rid r e iv' Hr Hiv')|]. split; [|split].
    + intros dep p Hwp Heq Hw.
      destruct (waits_back s rid f Hshape Hprom _ _ _ _ Hw) as (r1 & Hr1 & Hwb).
      rewrite Hr in Hr1. injection Hr1 as <-.
      apply (wf_seen _ _ H rid r e iv' dep p Hr Hiv' Hwp Heq). apply Hwb.
      eapply lookup_lt_Some. exact Hiv'.
    + apply (wf_started _ _ H rid r e iv' Hr Hiv').
    + intros Hge. exfalso. apply lookup_lt_Some in Hiv'.
      change (length (r_invocations r) <= e) in Hge. lia.
  - split; [unfold s'; cbn [with_res l_res]; rewrite length_alter; exact Hlast|].
    exists (f r). split.
    { unfold s'. fold f. rewrite (lookup_with_res_fwd s rid f rid r Hr).
      rewrite decide_True by reflexivity. reflexivity. }
    split; [exact Hn|]. split; [|exact Hent].
    destruct (Hiv r Hr) as (iv & Hl & Hk & Hp).
    unfold visible. cbn [f r_promises r_parent r_invocations set_promises].
    unfold s'. fold f. rewrite (parent_promises_with_res s rid f Hshape Hprom rid r Hr).
    rewrite (take_S_r _ _ _ Hl), published_snoc, Hk, Hp, Hsync. reflexivity.
Qed.

Lemma res_core_fold_wait_for todo s rid eid :
  res_core s (fold_left (wait_for rid eid) todo s).
Proof.
  revert s. induction todo as [|dep todo IH]; intros s; [apply res_core_eq; reflexivity|].
  simpl. eapply res_core_trans; [apply res_core_wait_for|apply IH].
Qed.

Section Start.
Variable injector_get : string -> FnResult.

Lemma res_core_proceed s rid eid : res_core s (proceed injector_get rid eid s).
Proof.
  unfold proceed. destruct (l_res s !! rid) as [r|]; [|apply res_core_eq; reflexivity].
  destruct (invocation s rid eid) as [iv|]; [|apply res_core_eq; reflexivity].
  destruct (isDefined (r_failure r)); [apply res_core_eq; reflexivity|].
  destruct (invoke injector_get (iv_invocable iv) (r_self r) (r_values r)) as [v|x|fate].
  - apply res_core_eq. reflexivity.
  - eapply res_core_trans; [|apply res_core_onfailure]. apply res_core_eq. reflexivity.
  - apply res_core_eq. reflexivity.
Qed.

Lemma res_core_invocation s s' rid r e iv r' :
  res_core s s' -> l_res s !! rid = Some r -> r_invocations r !! e = Some iv ->
  l_res s' !! rid = Some r' ->
  exists iv', r_invocations r' !! e = Some iv' /\ static iv' = static iv.
Proof.
  intros [_ Hres] Hr Hiv Hr'. destruct (Hres rid r Hr) as (r2 & Hr2 & (_ & _ & _ & _ & Hst)).
  rewrite Hr' in Hr2. injection Hr2 as <-.
  apply (static_lookup_fwd (r_invocations r) (r_invocations r') e iv); [|exact Hiv].
  rewrite Hst. reflexivity.
Qed.

(** [__invoke(key, invocable, params)] for the next entry of the plan. *)
Lemma WF_invoke_entry s rid n x rest :
  WF s -> Building s rid n n (x :: rest) ->
  (forall y, y ∈ rest -> pe_key x <> pe_key y /\ pe_key y ∉ pe_params x) ->
  WF (invoke_entry injector_get rid x s) /\
  Building (invoke_entry injector_get rid x s) rid (S n) (S n) rest.
Proof.
  intros H HB Hlater. pose proof HB as (_ & r & Hr & Hn & _).
  unfold invoke_entry. rewrite Hr. unfold q_defer. rewrite Hn.
  set (p := length (q_states (l_q s))).
  set (iv0 := mkInvocation (pe_key x) (pe_invocable x) (pe_params x) 0%Z p).
  destruct (push_invocation s rid n x rest r H HB Hlater Hr) as (Hb & HBb & Hreg).
  fold p in Hb, HBb, Hreg. fold iv0 in Hb, HBb, Hreg.
  set (s_b := with_res rid (set_invocations (r_invocations r ++ [iv0]))
                (with_q (fun q => snd (q_defer q)) s)) in *.
  change (with_res rid (set_invocations (r_invocations r ++ [iv0]))
            (with_q (fun _ => mkQ (q_states (l_q s) ++ [Pending]) (q_subs (l_q s))
                                  (q_queue (l_q s))) s)) with s_b.
  assert (Hrb : l_res s_b !! rid = Some (set_invocations (r_invocations r ++ [iv0]) r)).
  { pose proof (lookup_with_res_fwd (with_q (fun q => snd (q_defer q)) s) rid
                  (set_invocations (r_invocations r ++ [iv0])) rid r Hr) as Hx.
    rewrite decide_True in Hx by reflexivity. exact Hx. }
  assert (Hivb : r_invocations (set_invocations (r_invocations r ++ [iv0]) r) !! n = Some iv0).
  { cbn [r_invocations set_invocations]. apply lookup_snoc_Some. right. auto. }
  set (s_c := fold_left (wait_for rid n) (pe_params x) s_b).
  pose proof (Registering_fold _ _ _ _ _ Hreg) as Hregc. fold s_c in Hregc.
  destruct Hregc as (Hc_h & Hpend & rc & ivc & Hrc & Hivc & Hpxc & Hsyncc & _ & HJc).
  assert (Hc : WF s_c).
  { apply (WFh_weaken (todo_hole rid n [])); [|exact Hc_h].
    intros rid' e dep p0 _ (_ & _ & Hin). inversion Hin. }
  assert (Hcore_bc : res_core s_b s_c) by apply res_core_fold_wait_for.
  assert (Hinv : invocation s_c rid n = Some ivc).
  { unfold invocation. rewrite Hrc. exact Hivc. }
  rewrite Hinv.
  set (s_d := if (iv_waitParams ivc =? 0)%Z then proceed injector_get rid n s_c else s_c).
  assert (Hd : WF s_d /\ res_core s_c s_d).
  { unfold s_d. destruct (Z.eqb_spec (iv_waitParams ivc) 0) as [Hz|Hnz].
    - split; [|apply res_core_proceed]. apply WF_proceed; [exact Hc|].
      intros r1 iv1 Hr1 Hiv1. rewrite Hrc in Hr1. injection Hr1 as <-.
      rewrite Hivc in Hiv1. injection Hiv1 as <-. split; [exact Hz|].
      intros dep p0 Hw. exfalso. destruct (HJc dep p0 Hw) as [Hin|Hwp]; [inversion Hin|lia].
    - split; [exact Hc|apply res_core_eq; reflexivity]. }
  destruct Hd as [Hd Hcore_cd].
  assert (Hcore_bd : res_core s_b s_d) by (apply (res_core_trans _ s_c); assumption).
  apply (publish_promise no_hole s_d rid n (pe_key x) p rest Hd).
  - apply (Building_core s_b s_d); assumption.
  - intros rd Hrd.
    destruct (res_core_invocation s_b s_d rid _ n iv0 rd Hcore_bd Hrb Hivb Hrd) as (ivd & Hivd & Hs).
    exists ivd. split; [exact Hivd|]. unfold static in Hs. injection Hs as Hk _ Hp. auto.
Qed.

(** One round of the loop over the plan. *)
Lemma WF_process_entry s rid n x rest :
  WF s -> Building s rid n n (x :: rest) ->
  (forall y, y ∈ rest -> pe_key x <> pe_key y /\ pe_key y ∉ pe_params x) ->
  exists n', WF (process_entry injector_get rid s x) /\
             Building (process_entry injector_get rid s x) rid n' n' rest.
Proof.
  intros H HB Hlater. pose proof HB as (Hlast & r & Hr & Hn & Hsync & Hent).
  unfold process_entry. rewrite Hr. destruct (has (r_locals r) (pe_key x)).
  - exists n. split; [apply WF_done; exact H|].
    apply (Building_core s); [apply res_core_done|].
    split; [exact Hlast|]. exists r. split; [exact Hr|]. split; [exact Hn|].
    split; [exact Hsync|]. intros iv y Hiv Hy. apply (Hent iv y Hiv). right. exact Hy.
  - exists (S n). apply WF_invoke_entry; assumption.
Qed.

(** No entry of the list is depended upon by an earlier one, and the
    names are distinct. *)
Fixpoint later_ok (pl : list PlanEntry) : Prop :=
  match pl with
  | [] => True
  | x :: rest =>
      (forall y, y ∈ rest -> pe_key x <> pe_key y /\ pe_key y ∉ pe_params x) /\
      later_ok rest
  end.

Lemma WF_process_plan pl s rid n :
  WF s -> Building s rid n n pl -> later_ok pl ->
  WF (fold_left (process_entry injector_get rid) pl s).
Proof.
  revert s n. induction pl as [|x rest IH]; intros s n H HB Hl; [exact H|].
  destruct Hl as [Hx Hrest]. simpl.
  destruct (WF_process_entry s rid n x rest H HB Hx) as (n' & H' & HB').
  apply (IH _ n' H' HB' Hrest).
Qed.
End Start.

Lemma NoDup_keys_extend {A : Type} (dst src : Obj A) :
  NoDup (keys dst) -> NoDup (keys (extend dst src)).
Proof.
  unfold extend. revert dst. induction src as [|[k v] src IH]; intros dst Hnd; [exact Hnd|].
  simpl. apply IH, NoDup_keys_set, Hnd.
Qed.

(** The variables of a new call of the returned function. *)
Lemma WF_push_res h s r0 :
  WFh h s -> r_invocations r0 = [] -> r_promises r0 = [] ->
  r_result r0 < length (q_states (l_q s)) ->
  (forall rid r e iv, l_res s !! rid = Some r -> r_invocations r !! e = Some iv ->
                      r_result r0 <> iv_invocation iv) ->
  (forall prid, r_parent r0 = Parent prid -> prid < length (l_res s)) ->
  WFh h (mkLegacy (l_q s) (l_res s ++ [r0]) (l_outside s) (l_log s)).
Proof.
  intros H Hivs Hprom Hres Hown Hparent.
  set (s' := mkLegacy (l_q s) (l_res s ++ [r0]) (l_outside s) (l_log s)).
  assert (Hlk : forall rid r, l_res s' !! rid = Some r ->
            l_res s !! rid = Some r \/ (rid = length (l_res s) /\ r = r0)).
  { intros rid r Hr. cbn [s' l_res] in Hr. apply lookup_snoc_Some in Hr.
    destruct Hr as [[_ Hr]|[-> <-]]; auto. }
  assert (Hfwd : forall rid r, l_res s !! rid = Some r -> l_res s' !! rid = Some r).
  { intros rid r Hr. cbn [s' l_res]. apply lookup_app_l_Some. exact Hr. }
  assert (Hold : forall rid r e iv, l_res s' !! rid = Some r -> r_invocations r !! e = Some iv ->
            l_res s !! rid = Some r).
  { intros rid r e iv Hr Hiv. destruct (Hlk rid r Hr) as [Ho|[_ ->]]; [exact Ho|].
    rewrite Hivs in Hiv. discriminate. }
  assert (Hvis : forall rid r e, l_res s !! rid = Some r -> visible s' r e = visible s r e).
  { intros rid r e Hr. unfold visible. f_equal. f_equal.
    destruct (r_parent r) as [|prid] eqn:Hpar; [reflexivity|].
    pose proof (wf_parent _ _ H rid r prid Hr Hpar) as Hlt.
    apply lookup_lt_Some in Hr. cbn [parent_promises s' l_res].
    rewrite lookup_app_l by lia. reflexivity. }
  assert (Hw : forall rid e dep p, waits s' rid e dep p <-> waits s rid e dep p).
  { intros rid e dep p. split.
    - intros (r & iv & Hr & Hiv & Hdep & Hloc & Hv).
      pose proof (Hold rid r e iv Hr Hiv) as Hr'.
      exists r, iv. rewrite (Hvis rid r e Hr') in Hv. auto.
    - intros (r & iv & Hr & Hiv & Hdep & Hloc & Hv).
      exists r, iv. rewrite (Hvis rid r e Hr). auto using Hfwd. }
  assert (Hinv : forall rid e iv, invocation s rid e = Some iv -> invocation s' rid e = Some iv).
  { intros rid e iv Hi. apply invocation_Some in Hi as (r & Hr & Hiv).
    unfold invocation. rewrite (Hfwd rid r Hr). exact Hiv. }
  constructor.
  - intros sub Hsub. destruct (wf_subs _ _ H sub Hsub) as [He Hok]. split; [exact He|].
    destruct (sub_ok sub) as [| |rid e dep| |rid e| |]; auto.
    + destruct Hok as [Herr Hwt]. split; [exact Herr|]. apply Hw. exact Hwt.
    + destruct Hok as (iv & Hi & Hp). exists iv. split; [apply Hinv; exact Hi|exact Hp].
  - intros t Ht. pose proof (wf_tasks _ _ H t Ht) as Hwf. unfold task_wf in *.
    destruct (fst t) as [| |rid e dep| |rid e| |]; auto.
    + destruct Hwf as (p & Hwt & Hq). exists p. split; [apply Hw; exact Hwt|exact Hq].
    + destruct Hwf as (iv & Hi & Hq). exists iv. split; [apply Hinv; exact Hi|exact Hq].
  - intros rid r e iv Hr Hiv.
    apply (wf_count _ _ H rid r e iv (Hold rid r e iv Hr Hiv) Hiv).
  - intros rid r e iv dep p Hr Hiv Hwp Heq Hwt.
    apply (wf_seen _ _ H rid r e iv dep p (Hold rid r e iv Hr Hiv) Hiv Hwp Heq).
    apply Hw. exact Hwt.
  - intros rid r e iv Hr Hiv.
    apply (wf_started _ _ H rid r e iv (Hold rid r e iv Hr Hiv) Hiv).
  - intros rid r Hr. destruct (Hlk rid r Hr) as [Ho|[_ ->]].
    + apply (wf_sorted _ _ H rid r Ho).
    + rewrite Hivs. split; [apply NoDup_nil_2|]. intros e d iv ivd He. discriminate.
  - intros rid r Hr. destruct (Hlk rid r Hr) as [Ho|[_ ->]]; [|exact Hres].
    apply (wf_result_valid _ _ H rid r Ho).
  - intros rid r e iv Hr Hiv.
    apply (wf_invocation_valid _ _ H rid r e iv (Hold rid r e iv Hr Hiv) Hiv).
  - apply (wf_outside_valid _ _ H).
  - intros rid r rid' r' e iv Hr Hr' Hiv.
    pose proof (Hold rid' r' e iv Hr' Hiv) as Ho'.
    destruct (Hlk rid r Hr) as [Ho|[_ ->]].
    + apply (wf_result_own _ _ H rid r rid' r' e iv Ho Ho' Hiv).
    + apply (Hown rid' r' e iv Ho' Hiv).
  - intros p f rid r e iv Hp Hr Hiv.
    apply (wf_outside_own _ _ H p f rid r e iv Hp (Hold rid r e iv Hr Hiv) Hiv).
  - intros rid r e iv rid' r' e' iv' Hr Hiv Hr' Hiv'.
    apply (wf_invocation_own _ _ H rid r e iv rid' r' e' iv'
             (Hold rid r e iv Hr Hiv) Hiv (Hold rid' r' e' iv' Hr' Hiv') Hiv').
  - intros rid r Hr. destruct (Hlk rid r Hr) as [Ho|[_ ->]].
    + apply (wf_promises _ _ H rid r Ho).
    + rewrite Hprom. apply NoDup_nil_2.
  - intros rid r prid Hr Hpar. destruct (Hlk rid r Hr) as [Ho|[-> ->]].
    + apply (wf_parent _ _ H rid r prid Ho Hpar).
    + apply Hparent. exact Hpar.
  - intros rid key vals Hl.
    destruct (wf_log _ _ H rid key vals Hl) as (r & e & iv & Hr & Hiv & Hk & Hv).
    exists r, e, iv. split; [apply Hfwd; exact Hr|]. split; [exact Hiv|]. split; [exact Hk|].
    intros dep p Hwt. apply Hv, Hw. exact Hwt.
Qed.

(** [extend(promises, parent.$$promises)], before any entry is set up. *)
Lemma inherit_promises h s rid pp pl :
  WFh h s -> S rid = length (l_res s) ->
  (exists r, l_res s !! rid = Some r /\ r_invocations r = [] /\ r_promises r = [] /\
             parent_promises s (r_parent r) = pp) ->
  let s' := with_res rid (fun r => set_promises (extend (r_promises r) pp) r) s in
  WFh h s' /\ Building s' rid 0 0 pl.
Proof.
  intros H Hlast (r & Hr & Hivs & Hp0 & Hpp) s'.
  set (f := fun r0 : Resolution => set_promises (extend (r_promises r0) pp) r0).
  assert (Hshape : forall r1, l_res s !! rid = Some r1 -> shape_ext r1 (f r1)).
  { intros r1 _. split; [reflexivity|]. split; [reflexivity|]. split; reflexivity. }
  assert (Hprom : forall r1 rid' r', l_res s !! rid = Some r1 -> l_res s !! rid' = Some r' ->
            r_parent r' = Parent rid -> r_promises (f r1) = r_promises r1).
  { intros r1 rid' r' _ Hr' Hpar. exfalso.
    pose proof (wf_parent _ _ H rid' r' rid Hr' Hpar) as Hlt.
    apply lookup_lt_Some in Hr'. lia. }
  split.
  - apply (WF_res_gen h s rid f H Hshape Hprom).
    intros r1 Hr1. rewrite Hr in Hr1. injection Hr1 as <-.
    split; [apply NoDup_keys_extend, (wf_promises _ _ H rid r Hr)|].
    split; [apply (wf_sorted _ _ H rid r Hr)|].
    intros e iv' Hiv'. change (r_invocations r !! e = Some iv') in Hiv'.
    rewrite Hivs in Hiv'. discriminate.
  - split; [unfold s'; cbn [with_res l_res]; rewrite length_alter; exact Hlast|].
    exists (f r). split.
    { unfold s'. fold f. rewrite (lookup_with_res_fwd s rid f rid r Hr).
      rewrite decide_True by reflexivity. reflexivity. }
    split; [cbn [f r_invocations set_promises]; rewrite Hivs; reflexivity|]. split.
    + unfold visible. cbn [f r_promises r_parent r_invocations set_promises take].
      unfold s'. fold f. rewrite (parent_promises_with_res s rid f Hshape Hprom rid r Hr).
      rewrite Hp0, Hpp. reflexivity.
    + intros iv y Hiv. cbn [f r_invocations set_promises] in Hiv. rewrite Hivs in Hiv.
      inversion Hiv.
Qed.

Section Calls.
Variable injector_get : string -> FnResult.

(** The function returned by [study], from the short-circuit on. *)
Lemma WF_start pl invocableKeys locals parent self s :
  WF s -> later_ok pl ->
  (forall prid, parent = Parent prid -> prid < length (l_res s)) ->
  WF (snd (start injector_get pl invocableKeys locals parent self s)).
Proof.
  intros H Hpl Hparent. unfold start, q_defer.
  set (p := length (q_states (l_q s))).
  set (rid := length (l_res s)).
  set (r0 := mkResolution locals parent self p [] (extend [] locals)
               (1 + Z.of_nat (length pl))%Z false false None VUndefined []).
  set (s0 := mkLegacy (mkQ (q_states (l_q s) ++ [Pending]) (q_subs (l_q s)) (q_queue (l_q s)))
               (l_res s ++ [r0]) (l_outside s) (l_log s)).
  assert (H0 : WF s0).
  { apply (WF_push_res no_hole (with_q (fun q => snd (q_defer q)) s) r0);
      [apply WF_defer; exact H|reflexivity|reflexivity| | |exact Hparent].
    - cbn [with_q l_q q_defer snd q_states r0 r_result]. rewrite length_app. simpl. lia.
    - intros rid' r e iv Hr Hiv. cbn [r0 r_result].
      pose proof (wf_invocation_valid _ _ H rid' r e iv Hr Hiv) as Hlt. fold p in Hlt. lia. }
  assert (Hr0 : l_res s0 !! rid = Some r0).
  { cbn [s0 l_res]. apply lookup_snoc_Some. right. auto. }
  assert (Hlast0 : S rid = length (l_res s0)).
  { cbn [s0 l_res]. rewrite length_app. simpl. unfold rid. lia. }
  assert (Hpp0 : forall s', res_core s0 s' -> parent_promises s' parent = parent_promises s parent).
  { intros s' Hrc. rewrite (parent_promises_core s0 s' parent Hrc).
    destruct parent as [|prid]; [reflexivity|]. cbn [parent_promises s0 l_res].
    rewrite lookup_app_l by (apply Hparent; reflexivity). reflexivity. }
  destruct (isDefined (parent_failure s parent)); cbn [snd]; [apply WF_fail; exact H0|].
  set (s1 := match parent_inherited s parent with
             | Some iv => with_res rid (fun r => set_values
                                          (merge (r_values r) (omit iv invocableKeys)) r) s0
             | None => s0
             end).
  assert (H1 : WF s1 /\ res_core s0 s1).
  { unfold s1. destruct (parent_inherited s parent) as [iv|].
    - split; [|apply res_core_res; intros r; repeat split].
      apply (WF_res_merge no_hole s0 rid (fun v r => set_values v r)); [exact H0|].
      intros v r. repeat split.
    - split; [exact H0|apply res_core_eq; reflexivity]. }
  destruct H1 as [H1 Hc1].
  assert (Hr1 : exists r1, l_res s1 !! rid = Some r1 /\ r_invocations r1 = [] /\
                           r_promises r1 = [] /\ r_parent r1 = parent).
  { destruct Hc1 as [_ Hc1]. destruct (Hc1 rid r0 Hr0) as (r1 & Hr1 & Hcs).
    exists r1. split; [exact Hr1|]. destruct Hcs as (_ & Hpar & Hpr & _ & Hst).
    split; [|split; [exact Hpr|exact Hpar]].
    cbn [r0 r_invocations fmap list_fmap] in Hst.
    destruct (r_invocations r1); [reflexivity|discriminate]. }
  set (s2 := with_res rid (fun r => set_promises
                             (extend (r_promises r) (parent_promises s parent)) r) s1).
  assert (H2 : WF s2 /\ Building s2 rid 0 0 pl).
  { apply inherit_promises; [exact H1|destruct Hc1 as [Hl _]; lia|].
    destruct Hr1 as (r1 & Hr1 & Hi1 & Hp1 & Hpar1). exists r1.
    split; [exact Hr1|]. split; [exact Hi1|]. split; [exact Hp1|].
    rewrite Hpar1. apply Hpp0. exact Hc1. }
  destruct H2 as [H2 HB2].
  match goal with |- WF (fold_left _ pl ?x) => set (s3 := x) end.
  assert (H3 : WF s3 /\ res_core s2 s3).
  { unfold s3. destruct (parent_values s parent) as [pv|].
    - split.
      + apply WF_done.
        apply (WF_res_merge no_hole s2 rid
                 (fun v r => set_inherited (Some (omit pv invocableKeys))
                               (set_merged true (set_values v r)))); [exact H2|].
        intros v r. repeat split.
      + eapply res_core_trans; [|apply res_core_done].
        apply res_core_res. intros r. repeat split.
    - set (s' := match parent_inherited s parent with
                 | Some iv => with_res rid (set_inherited (Some (omit iv invocableKeys))) s2
                 | None => s2
                 end).
      assert (H' : WF s' /\ res_core s2 s').
      { unfold s'. destruct (parent_inherited s parent) as [iv|].
        - split; [apply WF_res_misc; [exact H2|]; intros r; repeat split|].
          apply res_core_res. intros r. repeat split.
        - split; [exact H2|apply res_core_eq; reflexivity]. }
      destruct H' as [H' Hc'].
      destruct parent as [|prid]; [split; assumption|].
      destruct (l_res s !! prid) as [pr|]; [|split; assumption].
      split.
      + apply WF_then; [exact H'| |reflexivity]. split; [reflexivity|exact I].
      + eapply res_core_trans; [exact Hc'|apply res_core_eq; reflexivity]. }
  destruct H3 as [H3 Hc3].
  apply (WF_process_plan injector_get pl s3 rid 0 H3); [|exact Hpl].
  apply (Building_core s2 s3); assumption.
Qed.

Lemma WF_resolve_fn pl invocableKeys a1 a2 a3 s rid s' :
  WF s -> later_ok pl ->
  resolve_fn injector_get pl invocableKeys a1 a2 a3 s = CallReturns rid s' -> WF s'.
Proof.
  intros H Hpl. unfold resolve_fn.
  destruct (shift_args a1 a2 a3) as [[locals parent] self].
  destruct (negb (truthy locals) || match locals with VObj _ => true | _ => false end);
    [|destruct locals; discriminate].
  cbv zeta. destruct (negb (truthy parent)).
  - match goal with
    | |- context [start injector_get pl invocableKeys ?l NO_PARENT self s] =>
        pose proof (WF_start pl invocableKeys l NO_PARENT self s H Hpl) as Hw;
        destruct (start injector_get pl invocableKeys l NO_PARENT self s) as [rid0 s0]
    end.
    intros [= <- <-]. apply Hw. intros prid Hp. discriminate.
  - destruct (isResolve parent); [|discriminate].
    destruct parent as [| | | | |prid]; try discriminate.
    destruct (l_res s !! prid) as [pr|] eqn:Hpr; [|discriminate].
    match goal with
    | |- context [start injector_get pl invocableKeys ?l (Parent prid) self s] =>
        pose proof (WF_start pl invocableKeys l (Parent prid) self s H Hpl) as Hw;
        destruct (start injector_get pl invocableKeys l (Parent prid) self s) as [rid0 s0]
    end.
    intros [= <- <-]. apply Hw. intros prid' [= <-]. eapply lookup_lt_Some. exact Hpr.
Qed.

Lemma plan_later_ok inv pl : plan_ok inv pl -> later_ok pl.
Proof.
  intros (Htopo & _ & Hnd & Hall).
  assert (Hgen : forall rest pre, pl = pre ++ rest -> later_ok rest).
  { induction rest as [|x rest IH]; intros pre Hpl; [exact I|]. split.
    - intros y Hy.
      assert (Hnd' : NoDup ((pe_key <$> pre) ++ pe_key x :: (pe_key <$> rest))).
      { rewrite Hpl, fmap_app, fmap_cons in Hnd. exact Hnd. }
      apply NoDup_app in Hnd' as (_ & Hdisj & Hnd'). apply NoDup_cons in Hnd' as [Hx _].
      assert (Hky : pe_key y ∈ pe_key <$> rest).
      { apply list_elem_of_fmap. exists y. auto. }
      split; [intros Heq; apply Hx; rewrite Heq; exact Hky|].
      intros Hin.
      assert (Hpre : pe_key y ∈ pe_key <$> pre).
      { apply (Htopo pre x rest Hpl (pe_key y) Hin).
        - intros Heq. apply Hx. rewrite <- Heq. exact Hky.
        - apply Hall. rewrite Hpl, fmap_app, fmap_cons.
          apply elem_of_app. right. right. exact Hky. }
      apply (Hdisj _ Hpre). right. exact Hky.
    - apply (IH (pre ++ [x])). rewrite <- app_assoc. exact Hpl. }
  apply (Hgen pl []). reflexivity.
Qed.

Lemma WF_call invocables a1 a2 a3 s rid s' :
  WF s -> resolve injector_get invocables a1 a2 a3 s = CallReturns rid s' -> WF s'.
Proof.
  intros H. unfold resolve. pose proof (study_plan_spec invocables) as Hspec.
  destruct (study_plan invocables) as [pl|msg|]; try discriminate.
  apply WF_resolve_fn; [exact H|]. apply (plan_later_ok invocables), Hspec.
Qed.

Lemma WF_init : WF legacy_init.
Proof.
  constructor; cbn [legacy_init l_q l_res l_outside l_log q_empty q_subs q_queue q_states].
  - intros sub Hs. inversion Hs.
  - intros t Ht. inversion Ht.
  - intros rid r e iv Hr. discriminate.
  - intros rid r e iv dep p Hr. discriminate.
  - intros rid r e iv Hr. discriminate.
  - intros rid r Hr. discriminate.
  - intros rid r Hr. discriminate.
  - intros rid r e iv Hr. discriminate.
  - intros p f Hp. inversion Hp.
  - intros rid r rid' r' e iv Hr. discriminate.
  - intros p f rid r e iv Hp. inversion Hp.
  - intros rid r e iv rid' r' e' iv' Hr. discriminate.
  - intros rid r Hr. discriminate.
  - intros rid r prid Hr. discriminate.
  - intros rid key vals Hl. inversion Hl.
Qed.

(** The invariant holds in every state the engine can reach. *)
Lemma WF_reachable s : reachable injector_get s -> WF s.
Proof.
  unfold reachable. intros Hreach.
  assert (Hgen : forall s0 s1, clos_refl_trans Legacy (lstep injector_get) s0 s1 ->
                               WF s0 -> WF s1).
  { intros s0 s1 Hrt. induction Hrt as [s0 s1 Hstep|s0|s0 s1 s2 _ IH1 _ IH2]; intros H0.
    - destruct Hstep as [inv a1 a2 a3 s0 rid s1 Hcall|s0|i s0].
      + apply (WF_call inv a1 a2 a3 s0 rid s1 H0 Hcall).
      + apply WF_tick. exact H0.
      + apply WF_settle_outside. exact H0.
    - exact H0.
    - apply IH2, IH1, H0. }
  apply (Hgen legacy_init s Hreach WF_init).
Qed.
End Calls.

Lemma NoDup_parent_promises h s parent :
  WFh h s -> NoDup (keys (parent_promises s parent)).
Proof.
  intros H. destruct parent as [|prid]; simpl; [apply NoDup_nil_2|].
  destruct (l_res s !! prid) as [pr|] eqn:Hpr; simpl; [|apply NoDup_nil_2].
  apply (wf_promises _ _ H prid pr Hpr).
Qed.

Lemma decorate_x_acyclic : acyclic decorate_x.
Proof.
  apply (ranked_acyclic _ (fun k => if String.eqb k "y" then 1 else 0)).
  vm_compute. reflexivity.
Defined.

Lemma decorate_invocable_parent_reachable : reachable no_services decorate_invocable_parent.
Proof.
  unfold decorate_invocable_parent.
  destruct (call [("x", IFunc [] (fun _ _ => Returns (VNum 1)))]
                 VUndefined VUndefined VUndefined legacy_init) as [parent s1] eqn:Hc.
  apply reachable_drain, reachable_call, reachable_drain.
  change s1 with (snd (parent, s1)). rewrite <- Hc. apply reachable_call, rt_refl.
Defined.

(** C6 (amended): an entry that names itself among its dependencies is
    no cycle for [study]: a mapping without a cycle among the other
    dependencies gets a plan, and the entry is in it with its self-named
    dependency.  In every state the engine can reach, when the invocable
    of such an entry has been invoked and the parent resolution holds a
    promise under that name (the result of an invocable of the parent or
    of one of its ancestors), the invocable was given the value that
    promise was fulfilled with.  Every other entry of the same resolution
    that declares the name of an entry is invoked with the value that
    entry's own promise was fulfilled with, never with an inherited one. *)
Theorem self_dependency_reads_parent_promise (injector_get : string -> FnResult) :
  (forall inv key params body,
      get inv key = Some (IFunc params body) -> key ∈ params -> acyclic inv ->
      exists pl, study_plan inv = Ok pl /\ mkEntry key (PInvoke body) params ∈ pl) /\
  (forall s rid r e iv vals,
      reachable injector_get s ->
      l_res s !! rid = Some r -> r_invocations r !! e = Some iv ->
      (rid, iv_key iv, vals) ∈ l_log s ->
      (forall p,
          iv_key iv ∈ iv_params iv ->
          get (parent_promises s (r_parent r)) (iv_key iv) = Some p ->
          exists v, q_state (l_q s) p = Fulfilled v /\ get vals (iv_key iv) = Some v) /\
      (forall d ivd,
          r_invocations r !! d = Some ivd -> d <> e -> iv_key ivd ∈ iv_params iv ->
          exists v, q_state (l_q s) (iv_invocation ivd) = Fulfilled v /\
                    get vals (iv_key ivd) = Some v)).
Proof.
  split.
  - intros inv key params body Hget Hself Hac.
    pose proof (study_plan_spec inv) as Hspec.
    destruct (study_plan inv) as [pl|msg|]; [|exfalso|contradiction].
    + exists pl. split; [reflexivity|]. destruct Hspec as (_ & Hent & _ & Hall).
      assert (Hk : key ∈ pe_key <$> pl).
      { apply Hall. unfold has. rewrite Hget. reflexivity. }
      apply list_elem_of_fmap in Hk as (x & Hkx & Hx).
      rewrite Forall_forall in Hent. destruct (Hent x Hx) as (value & Hv & Hxe).
      rewrite <- Hkx, Hget in Hv. injection Hv as <-.
      subst key. simpl in Hxe. rewrite <- Hxe. exact Hx.
    + destruct (cycle_error_has_cycle inv msg Hspec) as (k & Hk). exact (Hac k Hk).
  - intros s rid r e iv vals Hreach Hr Hiv Hlog.
    pose proof (WF_reachable injector_get s Hreach) as H.
    pose proof (LocalsInv_reachable injector_get s Hreach) as HL.
    pose proof (wf_sorted _ _ H rid r Hr) as Hsorted. pose proof Hsorted as [Hnd Hord].
    destruct (wf_log _ _ H rid (iv_key iv) vals Hlog) as (r0 & e0 & iv0 & Hr0 & Hiv0 & Hk0 & Hv).
    rewrite Hr in Hr0. injection Hr0 as <-.
    assert (He : e0 = e).
    { apply (NoDup_lookup (iv_key <$> r_invocations r) e0 e (iv_key iv) Hnd).
      - rewrite list_lookup_fmap, Hiv0. simpl. congruence.
      - rewrite list_lookup_fmap, Hiv. reflexivity. }
    subst e0. clear iv0 Hiv0 Hk0.
    split.
    + intros p Hself Hp. apply Hv. exists r, iv.
      split; [exact Hr|]. split; [exact Hiv|]. split; [exact Hself|]. split.
      * apply (li_keys _ HL rid r iv Hr). eapply list_elem_of_lookup_2. exact Hiv.
      * rewrite (visible_self s r e iv Hsorted Hiv).
        rewrite get_extend by (apply (NoDup_parent_promises no_hole); exact H).
        rewrite Hp. reflexivity.
    + intros d ivd Hd Hne Hdep. apply Hv. exists r, iv.
      split; [exact Hr|]. split; [exact Hiv|]. split; [exact Hdep|]. split.
      * apply (li_keys _ HL rid r ivd Hr). eapply list_elem_of_lookup_2. exact Hd.
      * apply (visible_before s r e d ivd Hsorted Hd).
        apply (Hord e d iv ivd Hiv Hd Hdep Hne).
Qed.

Lemma self_dependency_reads_parent_promise_witness :
  (exists pl, study_plan decorate_x = Ok pl /\
              Exists (fun x => pe_key x = "x" /\ "x" ∈ pe_params x) pl) /\
  exists r ivx ivy,
    l_res decorate_invocable_parent !! 1 = Some r /\
    r_invocations r !! 0 = Some ivx /\ r_invocations r !! 1 = Some ivy /\
    iv_key ivx = "x" /\ iv_key ivy = "y" /\
    get (parent_promises decorate_invocable_parent (r_parent r)) "x" = Some 1 /\
    (exists v, q_state (l_q decorate_invocable_parent) 1 = Fulfilled v /\
               get [("x", VNum 1)] (iv_key ivx) = Some v) /\
    (exists v, q_state (l_q decorate_invocable_parent) (iv_invocation ivx) = Fulfilled v /\
               get [("x", VNum 11)] (iv_key ivx) = Some v).
Proof.
  destruct (self_dependency_reads_parent_promise no_services) as [Hstudy Hrun].
  split.
  - destruct (Hstudy decorate_x "x" ["x"] _ eq_refl) as (pl & Hpl & Hin);
      [left|exact decorate_x_acyclic|].
    exists pl. split; [exact Hpl|].
    apply Exists_exists. eexists. split; [exact Hin|]. split; [reflexivity|left].
  - eexists _, _, _.
    split; [vm_compute; reflexivity|].
    split; [vm_compute; reflexivity|]. split; [vm_compute; reflexivity|].
    split; [reflexivity|]. split; [reflexivity|]. split; [vm_compute; reflexivity|].
    split.
    + refine (proj1 (Hrun decorate_invocable_parent 1 _ 0 _ [("x", VNum 1)]
                       decorate_invocable_parent_reachable _ _ _) 1 _ _).
      * vm_compute. reflexivity.
      * vm_compute. reflexivity.
      * rewrite (proj1 decorate_invocable_parent_log). right. left.
      * left.
      * vm_compute. reflexivity.
    + refine (proj2 (Hrun decorate_invocable_parent 1 _ 1 _ [("x", VNum 11)]
                       decorate_invocable_parent_reachable _ _ _) 0 _ _ _ _).
      * vm_compute. reflexivity.
      * vm_compute. reflexivity.
      * rewrite (proj1 decorate_invocable_parent_log). right. right. left.
      * vm_compute. reflexivity.
      * discriminate.
      * left.
Defined.

(** * Further properties of the code *)

(** ** [Path.getResolvables] and [Path.pathFromRoot] *)

Lemma get_omit {A : Type} (o : Obj A) (ks : list string) k :
  get (omit o ks) k = if bool_decide (k ∈ ks) then None else get o k.
Proof.
  assert (Hex : forall k0, existsb (String.eqb k0) ks = bool_decide (k0 ∈ ks)).
  { intros k0. destruct (existsb (String.eqb k0) ks) eqn:He; symmetry.
    - apply bool_decide_eq_true_2. apply existsb_exists in He as (x & Hx & Heq).
      apply String.eqb_eq in Heq. subst x. apply list_elem_of_In. exact Hx.
    - apply bool_decide_eq_false_2. intros Hin.
      assert (Ht : existsb (String.eqb k0) ks = true).
      { apply existsb_exists. exists k0. split; [apply list_elem_of_In; exact Hin|].
        apply String.eqb_refl. }
      congruence. }
  unfold omit, Obj in *. induction o as [|[k0 v0] o IH].
  - destruct (bool_decide (k ∈ ks)); reflexivity.
  - rewrite filter_cons. cbn [fst]. rewrite Hex.
    destruct (bool_decide (k0 ∈ ks)) eqn:Hb0; cbn [negb].
    + rewrite decide_False by (intros H; exact H). rewrite IH. cbn [get].
      destruct (String.eqb_spec k0 k) as [->|Hne]; [rewrite Hb0|]; reflexivity.
    + rewrite decide_True by exact I. cbn [get].
      destruct (String.eqb_spec k0 k) as [->|Hne]; [rewrite Hb0; reflexivity|exact IH].
Qed.

Lemma NoDup_keys_omit {A : Type} (o : Obj A) (ks : list string) :
  NoDup (keys o) -> NoDup (keys (omit o ks)).
Proof.
  intros H. apply (sublist_NoDup _ (keys o)); [exact H|].
  unfold keys, omit, Obj. apply fmap_sublist, sublist_filter.
Qed.

Lemma fold_left_agree {X Y : Type} (f g : Y -> X -> Y) (l : list X) (y : Y) :
  (forall a x, x ∈ l -> f a x = g a x) -> fold_left f l y = fold_left g l y.
Proof.
  revert y. induction l as [|x l IH]; intros y H; [reflexivity|]. simpl.
  rewrite (H y x) by left. apply IH. intros a x' Hx'. apply H. right. exact Hx'.
Qed.

(** X1: the Resolvables of a path are those of its ancestors overridden,
    name by name, by those of its last element; a name listed in
    [omitOwnLocals] is hidden on the last element only, which exposes what
    the ancestors hold under it. *)
Theorem getResolvables_shadowing
        (pre : Path) (l : PathElement) (omitOwnLocals : list string) (k : string) :
  (forall e, e ∈ pre -> same_element e l = false) ->
  NoDup (keys (pel_resolvables l)) ->
  getResolvables (pre ++ [l]) omitOwnLocals
    = extend (getResolvables pre []) (omit (pel_resolvables l) omitOwnLocals) /\
  get (getResolvables (pre ++ [l]) omitOwnLocals) k =
    if bool_decide (k ∈ omitOwnLocals) then get (getResolvables pre []) k
    else match get (pel_resolvables l) k with
         | Some r => Some r
         | None => get (getResolvables pre []) k
         end.
Proof.
  intros Hpre Hnd.
  assert (Heq : getResolvables (pre ++ [l]) omitOwnLocals
                = extend (getResolvables pre []) (omit (pel_resolvables l) omitOwnLocals)).
  { assert (Hself : same_element l l = true) by (unfold same_element; apply Nat.eqb_refl).
    unfold getResolvables. rewrite last_snoc, fold_left_app. cbn [fold_left]. cbv beta.
    rewrite Hself. f_equal.
    apply fold_left_agree. intros a x Hx. rewrite (Hpre x Hx).
    destruct (last pre) as [l'|]; [|reflexivity].
    destruct (same_element x l'); reflexivity. }
  split; [exact Heq|]. rewrite Heq.
  rewrite get_extend by (apply NoDup_keys_omit; exact Hnd).
  rewrite get_omit. destruct (bool_decide (k ∈ omitOwnLocals)); reflexivity.
Qed.

Definition element_G : PathElement := mkPathElement 0 (VStr "G") [("_G", 0)].
Definition element_G2 : PathElement := mkPathElement 1 (VStr "G.G2") [("_G", 1)].

Lemma getResolvables_shadowing_witness :
  get (getResolvables ([element_G] ++ [element_G2]) []) "_G" = Some 1 /\
  get (getResolvables ([element_G] ++ [element_G2]) ["_G"]) "_G" = Some 0.
Proof.
  assert (Hpre : forall e, e ∈ [element_G] -> same_element e element_G2 = false).
  { intros e He. apply list_elem_of_singleton in He. subst e. reflexivity. }
  assert (Hnd : NoDup (keys (pel_resolvables element_G2))).
  { apply (bool_decide_unpack (NoDup _)). vm_compute. exact I. }
  split.
  - apply (proj2 (getResolvables_shadowing [element_G] element_G2 [] "_G" Hpre Hnd)).
  - apply (proj2 (getResolvables_shadowing [element_G] element_G2 ["_G"] "_G" Hpre Hnd)).
Defined.

Lemma elementIndex_none (e : PathElement) (path : Path) :
  (forall x, x ∈ path -> same_element x e = false) -> elementIndex e path = (-1)%Z.
Proof.
  induction path as [|x path IH]; intros H; [reflexivity|]. simpl.
  rewrite (H x) by left. rewrite IH by (intros y Hy; apply H; right; exact Hy). reflexivity.
Qed.

Lemma elementIndex_first (e x : PathElement) (pre post : Path) :
  (forall y, y ∈ pre -> same_element y e = false) -> same_element x e = true ->
  elementIndex e (pre ++ x :: post) = Z.of_nat (length pre).
Proof.
  intros Hpre Hx. induction pre as [|y pre IH]; simpl.
  - rewrite Hx. reflexivity.
  - rewrite (Hpre y) by left. rewrite IH by (intros z Hz; apply Hpre; right; exact Hz).
    destruct (Z.ltb_spec (Z.of_nat (length pre)) 0); lia.
Qed.

Lemma pathFromRoot_first (e x : PathElement) (pre post : Path) :
  (forall y, y ∈ pre -> same_element y e = false) -> same_element x e = true ->
  pathFromRoot (pre ++ x :: post) e = Some (pre ++ [x]).
Proof.
  intros Hpre Hx. unfold pathFromRoot. rewrite (elementIndex_first e x pre post Hpre Hx).
  destruct (Z.eqb_spec (Z.of_nat (length pre)) (-1)); [lia|]. f_equal.
  replace (Z.to_nat (Z.of_nat (length pre) + 1)) with (length pre + 1) by lia.
  rewrite take_app_ge by lia. replace (length pre + 1 - length pre) with 1 by lia.
  reflexivity.
Qed.

Lemma first_occurrence (e : PathElement) (path : Path) :
  (forall x, x ∈ path -> same_element x e = false) \/
  exists pre x post, path = pre ++ x :: post /\ same_element x e = true /\
                     forall y, y ∈ pre -> same_element y e = false.
Proof.
  induction path as [|x path IH]; [left; intros y Hy; inversion Hy|].
  destruct (same_element x e) eqn:Hx.
  - right. exists [], x, path. split; [reflexivity|]. split; [exact Hx|].
    intros y Hy. inversion Hy.
  - destruct IH as [Hnone|(pre & x' & post & -> & Hx' & Hpre)].
    + left. intros y Hy. apply elem_of_cons in Hy as [->|Hy]; auto.
    + right. exists (x :: pre), x', post. split; [reflexivity|]. split; [exact Hx'|].
      intros y Hy. apply elem_of_cons in Hy as [->|Hy]; auto.
Qed.

(** X2: [pathFromRoot] throws exactly when no element of the path is the
    given one; otherwise it returns the path from the root up to and
    including the first occurrence of that element, and nothing after it. *)
Theorem pathFromRoot_prefix (path : Path) (toPathElement : PathElement) :
  match pathFromRoot path toPathElement with
  | None => forall x, x ∈ path -> same_element x toPathElement = false
  | Some sub =>
      exists pre x post,
        path = pre ++ x :: post /\ sub = pre ++ [x] /\
        same_element x toPathElement = true /\
        forall y, y ∈ pre -> same_element y toPathElement = false
  end.
Proof.
  destruct (first_occurrence toPathElement path) as [Hnone|(pre & x & post & -> & Hx & Hpre)].
  - unfold pathFromRoot. rewrite (elementIndex_none _ _ Hnone). simpl. exact Hnone.
  - rewrite (pathFromRoot_first _ _ _ _ Hpre Hx). exists pre, x, post. auto.
Qed.

(** X3: [invokeNow] on an element sees the path from the root down to
    that element only: what the elements below it declare is never
    injected. *)
Theorem invokeNow_ignores_deeper_elements
        (pre post : Path) (elem : PathElement) (deps : list string)
        (fn : Val -> Obj Val -> FnResult) (locals : Obj Val) (s : NewApi) :
  (forall y, y ∈ pre -> same_element y elem = false) ->
  invokeNow elem deps fn locals (pre ++ elem :: post) s
  = invokeNow elem deps fn locals (pre ++ [elem]) s.
Proof.
  intros Hpre. unfold invokeNow, combinedLocals.
  assert (Hself : same_element elem elem = true) by (unfold same_element; apply Nat.eqb_refl).
  rewrite (pathFromRoot_first elem elem pre post Hpre Hself).
  rewrite (pathFromRoot_first elem elem pre [] Hpre Hself). reflexivity.
Qed.

Lemma invokeNow_ignores_deeper_elements_witness :
  invokeNow element_G ["_G"] (fun _ values => param_x values) [("x", VNum 5)]
            ([] ++ element_G :: [element_G2]) (new_world [])
  = invokeNow element_G ["_G"] (fun _ values => param_x values) [("x", VNum 5)]
              ([] ++ [element_G]) (new_world []).
Proof.
  apply (invokeNow_ignores_deeper_elements [] [element_G2] element_G).
  intros y Hy. inversion Hy.
Defined.

(** ** [invokeNow] in the worlds the engine can reach *)

(** X4: whatever the resolve functions have returned, [invokeNow] hands
    [undefined] to the function for each declared dependency that names a
    Resolvable in scope: no reachable world has a Resolvable whose data
    slot was written. *)
Theorem invokeNow_injects_undefined
        (strict : bool) (rs : list Resolvable) (s : NewApi)
        (elem : PathElement) (deps : list string)
        (fn : Val -> Obj Val -> FnResult) (locals : Obj Val)
        (pathContext sub : Path) (name : string) (r : nat) :
  clos_refl_trans NewApi (nstep strict) (new_world rs) s ->
  pathFromRoot pathContext elem = Some sub ->
  NoDup (keys locals) ->
  name ∈ deps ->
  get (getResolvables sub []) name = Some r ->
  exists combined,
    invokeNow elem deps fn locals pathContext s = Some (fn (pel_state elem) combined) /\
    get combined name = Some VUndefined.
Proof.
  intros Hreach Hsub Hnd Hdep Hget.
  destruct (combinedLocals_spec elem deps locals pathContext s sub name Hsub Hnd)
    as (combined & Hc & Hname).
  exists combined. split; [unfold invokeNow; rewrite Hc; reflexivity|].
  rewrite Hname, Hget, bool_decide_eq_true_2 by exact Hdep. f_equal.
  destruct (n_resolvables s !! r) as [rv|] eqn:Hr; [|reflexivity]. simpl.
  apply (data_never_stored strict rs s r rv Hreach Hr).
Qed.

Lemma n_drain_steps (strict : bool) fuel s :
  clos_refl_trans NewApi (nstep strict) s (n_drain strict fuel s).
Proof.
  revert s. induction fuel as [|fuel IH]; intros s; simpl; [apply rt_refl|].
  destruct (q_queue (n_q s)); [apply rt_refl|].
  eapply rt_trans; [apply rt_step, nstep_tick|apply IH].
Qed.

(** [a.get(path)] in a fresh world, then the queue run until it is empty. *)
Definition world_a_resolved : NewApi :=
  match rget 0 [home] (new_world [resolvable_a]) with
  | Some (_, s) => n_drain true 20 s
  | None => new_world [resolvable_a]
  end.

Lemma world_a_resolved_reachable :
  clos_refl_trans NewApi (nstep true) (new_world [resolvable_a]) world_a_resolved.
Proof.
  unfold world_a_resolved.
  destruct (rget 0 [home] (new_world [resolvable_a])) as [[p s]|] eqn:Hget; [|apply rt_refl].
  eapply rt_trans; [|apply n_drain_steps].
  apply rt_step. apply (nstep_get true 0 [home] _ p s); [| |exact Hget].
  - intros elem k id He Hk. apply list_elem_of_singleton in He. subst elem.
    simpl in Hk. apply list_elem_of_singleton in Hk. injection Hk as _ ->. simpl. lia.
  - simpl. lia.
Defined.

Lemma invokeNow_injects_undefined_witness :
  q_state (n_q world_a_resolved) 0 = Fulfilled (VNum 1) /\
  exists combined,
    invokeNow home ["a"] (fun _ values => Returns (default VNull (get values "a")))
              [] [home] world_a_resolved
      = Some (Returns (default VNull (get combined "a"))) /\
    get combined "a" = Some VUndefined.
Proof.
  split; [vm_compute; reflexivity|].
  apply (invokeNow_injects_undefined true [resolvable_a] world_a_resolved home ["a"]
           (fun _ values => Returns (default VNull (get values "a"))) [] [home] [home] "a" 0).
  - exact world_a_resolved_reachable.
  - vm_compute. reflexivity.
  - apply NoDup_nil_2.
  - left.
  - vm_compute. reflexivity.
Defined.

(** ** The function returned by [study]: arguments, parent failure, throws *)

(** X5: an invocable that declares a name which is neither a local nor a
    key of its own mapping, while the parent resolution holds a promise
    under that name, is invoked only once that promise is fulfilled, and
    is handed the value it was fulfilled with. *)
Theorem inherited_dependency_awaited
        (injector_get : string -> FnResult) (s : Legacy)
        (rid : nat) (r : Resolution) (e : nat) (iv : Invocation)
        (dep : string) (p : nat) (vals : Obj Val) :
  reachable injector_get s ->
  l_res s !! rid = Some r -> r_invocations r !! e = Some iv ->
  dep ∈ iv_params iv ->
  has (r_locals r) dep = false ->
  (forall ivd, ivd ∈ r_invocations r -> iv_key ivd <> dep) ->
  get (parent_promises s (r_parent r)) dep = Some p ->
  (rid, iv_key iv, vals) ∈ l_log s ->
  exists v, q_state (l_q s) p = Fulfilled v /\ get vals dep = Some v.
Proof.
  intros Hreach Hr Hiv Hdep Hloc Hown Hp Hlog.
  pose proof (WF_reachable injector_get s Hreach) as H.
  pose proof (wf_sorted _ _ H rid r Hr) as [Hnd _].
  destruct (wf_log _ _ H rid (iv_key iv) vals Hlog)
    as (r0 & e0 & iv0 & Hr0 & Hiv0 & Hk0 & Hv).
  rewrite Hr in Hr0. injection Hr0 as <-.
  assert (He : e0 = e).
  { apply (NoDup_lookup (iv_key <$> r_invocations r) e0 e (iv_key iv) Hnd).
    - rewrite list_lookup_fmap, Hiv0. simpl. congruence.
    - rewrite list_lookup_fmap, Hiv. reflexivity. }
  subst e0. apply Hv. exists r, iv.
  split; [exact Hr|]. split; [exact Hiv|]. split; [exact Hdep|].
  split; [exact Hloc|].
  unfold visible. rewrite get_published_notin.
  - rewrite get_extend by (apply (NoDup_parent_promises no_hole); exact H).
    rewrite Hp. reflexivity.
  - intros Hin. apply list_elem_of_fmap in Hin as (ivd & Hk & Hin).
    apply (Hown ivd); [|congruence].
    apply elem_of_take in Hin as (d & Hd & _).
    eapply list_elem_of_lookup_2. exact Hd.
Qed.

(** [{ base: function () { return 7; } }] *)
Definition provides_base : Obj Invocable :=
  [("base", IFunc [] (fun _ _ => Returns (VNum 7)))].

(** What an invocable declared as [function (base) { return base; }]
    returns. *)
Definition param_base (values : Obj Val) : FnResult :=
  match get values "base" with
  | Some v => Returns v
  | None => no_services "base"
  end.

(** [{ derived: function (base) { return base; } }] *)
Definition needs_base : Obj Invocable :=
  [("derived", IFunc ["base"] (fun _ values => param_base values))].

(** A parent resolving [base], then a child resolving [derived] against
    it before the parent has settled; the queue is drained afterwards. *)
Definition child_inherits_base : Legacy :=
  let (parent, s1) := call provides_base VUndefined VUndefined VUndefined legacy_init in
  let (child, s2) := call needs_base VUndefined (VResolve parent) VUndefined s1 in
  drain no_services 20 s2.

Lemma child_inherits_base_reachable : reachable no_services child_inherits_base.
Proof.
  unfold child_inherits_base.
  pose proof (reachable_call provides_base VUndefined VUndefined VUndefined legacy_init
                (rt_refl _ _ _)) as H1.
  destruct (call provides_base VUndefined VUndefined VUndefined legacy_init)
    as [parent s1].
  pose proof (reachable_call needs_base VUndefined (VResolve parent) VUndefined s1 H1) as H2.
  destruct (call needs_base VUndefined (VResolve parent) VUndefined s1) as [child s2].
  apply reachable_drain. exact H2.
Defined.

Lemma inherited_dependency_awaited_witness :
  exists r iv,
    l_res child_inherits_base !! 1 = Some r /\
    r_invocations r !! 0 = Some iv /\
    iv_key iv = "derived" /\
    get (parent_promises child_inherits_base (r_parent r)) "base" = Some 1 /\
    exists v, q_state (l_q child_inherits_base) 1 = Fulfilled v /\
              get [("base", VNum 7)] "base" = Some v.
Proof.
  eexists _, _.
  split; [vm_compute; reflexivity|]. split; [vm_compute; reflexivity|].
  split; [reflexivity|]. split; [vm_compute; reflexivity|].
  refine (inherited_dependency_awaited no_services child_inherits_base 1 _ 0 _ "base" 1
            [("base", VNum 7)] child_inherits_base_reachable _ _ _ _ _ _ _).
  - vm_compute. reflexivity.
  - vm_compute. reflexivity.
  - left.
  - reflexivity.
  - intros ivd Hin Hk. apply list_elem_of_singleton in Hin. subst ivd. discriminate.
  - vm_compute. reflexivity.
  - vm_compute. right. left.
Defined.

(** X6: the returned function checks [locals] before [parent]: a truthy
    [locals] that is no object is refused with "'locals' must be an
    object" whatever [parent] is, and with acceptable locals a truthy
    [parent] that is no resolve result is refused with "'parent' must be a
    promise returned by $resolve.resolve()". *)
Theorem resolve_fn_rejects_bad_arguments
        (injector_get : string -> FnResult) (pl : list PlanEntry)
        (invocableKeys : list string) (locals parent self : Val) (s : Legacy) :
  isResolve locals = false ->
  (truthy locals = true -> (forall o, locals <> VObj o) ->
   resolve_fn injector_get pl invocableKeys locals parent self s
   = CallThrows "'locals' must be an object") /\
  (truthy locals = false \/ (exists o, locals = VObj o) ->
   truthy parent = true -> isResolve parent = false ->
   resolve_fn injector_get pl invocableKeys locals parent self s
   = CallThrows "'parent' must be a promise returned by $resolve.resolve()").
Proof.
  intros Hres. unfold resolve_fn, shift_args. rewrite Hres. cbn [andb].
  split.
  - intros Ht Hobj. rewrite Ht. cbn [negb orb].
    destruct locals as [| |z|str|o|rid]; try reflexivity; try discriminate.
    exfalso. exact (Hobj o eq_refl).
  - intros Hloc Ht Hp.
    assert (Hok : negb (truthy locals)
                  || match locals with VObj _ => true | _ => false end = true).
    { destruct Hloc as [Hf|[o ->]]; [rewrite Hf; reflexivity|reflexivity]. }
    rewrite Hok, Ht, Hp. reflexivity.
Qed.

Lemma resolve_fn_rejects_bad_arguments_witness :
  resolve_fn no_services [] [] (VNum 1) (VStr "p") VUndefined legacy_init
  = CallThrows "'locals' must be an object" /\
  resolve_fn no_services [] [] VNull (VStr "p") VUndefined legacy_init
  = CallThrows "'parent' must be a promise returned by $resolve.resolve()".
Proof.
  split.
  - apply (proj1 (resolve_fn_rejects_bad_arguments no_services [] [] (VNum 1) (VStr "p")
                    VUndefined legacy_init eq_refl) eq_refl).
    intros o. discriminate.
  - apply (proj2 (resolve_fn_rejects_bad_arguments no_services [] [] VNull (VStr "p")
                    VUndefined legacy_init eq_refl)); [left|..]; reflexivity.
Defined.

(** X7: a call against a parent whose [$$failure] is defined returns at
    once: the new resolution is the only change to the resolutions, it has
    set up no invocation and inherited no promise, nothing is invoked, and
    its result promise is rejected with the parent's failure, which also
    becomes its own [$$failure]. *)
Theorem failed_parent_short_circuits
        (injector_get : string -> FnResult) (pl : list PlanEntry)
        (invocableKeys : list string) (locals self : Val) (prid : nat) (s : Legacy) :
  isDefined (parent_failure s (Parent prid)) = true ->
  isResolve locals = false ->
  truthy locals = false \/ (exists o, locals = VObj o) ->
  exists s' r,
    resolve_fn injector_get pl invocableKeys locals (VResolve prid) self s
    = CallReturns (length (l_res s)) s' /\
    l_res s' = l_res s ++ [r] /\
    l_log s' = l_log s /\
    r_invocations r = [] /\ r_promises r = [] /\
    r_failure r = parent_failure s (Parent prid) /\
    q_state (l_q s') (r_result r) = Rejected (parent_failure s (Parent prid)).
Proof.
  intros Hf Hres Hloc. unfold resolve_fn, shift_args. rewrite Hres. cbn [andb].
  assert (Hok : negb (truthy locals)
                || match locals with VObj _ => true | _ => false end = true).
  { destruct Hloc as [Ht|[o ->]]; [rewrite Ht; reflexivity|reflexivity]. }
  rewrite Hok. cbn [truthy negb isResolve].
  destruct (l_res s !! prid) as [pr|] eqn:Hpr.
  2:{ simpl in Hf. rewrite Hpr in Hf. discriminate. }
  unfold start. destruct (q_defer (l_q s)) as [p q1] eqn:Hq.
  rewrite Hf. unfold fail. cbn [l_res].
  rewrite lookup_app_r, Nat.sub_diag by lia. cbn [lookup list_lookup].
  unfold q_defer in Hq. injection Hq as <- <-.
  eexists. eexists. split; [reflexivity|].
  unfold with_q, with_res. cbn [l_q l_res l_log l_outside r_result].
  split.
  { apply list_eq. intros i. rewrite list_lookup_alter.
    destruct (decide (length (l_res s) = i)) as [<-|Hne].
    - rewrite !lookup_app_r, !Nat.sub_diag by lia. reflexivity.
    - destruct (decide (i < length (l_res s))) as [Hlt|Hge].
      + rewrite !lookup_app_l by lia. reflexivity.
      + rewrite !lookup_ge_None_2 by (rewrite length_app; simpl; lia). reflexivity. }
  split; [reflexivity|]. split; [reflexivity|]. split; [reflexivity|].
  split; [reflexivity|].
  cbn [set_failure r_result]. unfold q_reject, q_state. cbn [q_states].
  rewrite lookup_app_r, Nat.sub_diag by lia. simpl.
  rewrite list_lookup_insert_eq by (rewrite length_app; simpl; lia).
  reflexivity.
Qed.

(** The world in which a first resolution has failed with ["boom"]. *)
Definition parent_failed_boom : Legacy :=
  drain no_services 10
        (snd (call (throws_a (VStr "boom")) VUndefined VUndefined VUndefined legacy_init)).

Lemma failed_parent_short_circuits_witness :
  exists s' r,
    resolve_fn no_services [mkEntry "b" (PInvoke (fun _ _ => Returns (VNum 1))) []] ["b"]
               VUndefined (VResolve 0) VUndefined parent_failed_boom
    = CallReturns 1 s' /\
    l_res s' = l_res parent_failed_boom ++ [r] /\
    l_log s' = l_log parent_failed_boom /\
    r_invocations r = [] /\ r_promises r = [] /\
    r_failure r = VStr "boom" /\
    q_state (l_q s') (r_result r) = Rejected (VStr "boom").
Proof.
  refine (failed_parent_short_circuits no_services
            [mkEntry "b" (PInvoke (fun _ _ => Returns (VNum 1))) []] ["b"]
            VUndefined VUndefined 0 parent_failed_boom _ _ _).
  - vm_compute. reflexivity.
  - reflexivity.
  - left. reflexivity.
Defined.

(** ** The legacy engine: an invocable is invoked at most once *)

(** How often [$injector.invoke] has run the invocable [key] of the
    resolution [rid]. *)
Definition invoked_count (s : Legacy) (rid : nat) (key : string) : nat :=
  length (filter (fun x : nat * string * Obj Val => fst x = (rid, key)) (l_log s)).

(** The key and [waitParams] of every invocation of a resolution. *)
Definition row_of (r : Resolution) : list (string * Z) :=
  (fun iv => (iv_key iv, iv_waitParams iv)) <$> r_invocations r.

Definition wait_table (s : Legacy) : list (list (string * Z)) :=
  row_of <$> l_res s.

(** An invocable that has been invoked has been invoked once, belongs to
    an invocation that was set up, and its [waitParams] has reached zero:
    [proceed] runs when [--waitParams] gives zero, so it cannot run
    again. *)
Record Once (s : Legacy) : Prop := {
  once_count : forall rid key, invoked_count s rid key <= 1;
  once_wait : forall rid row e key wp,
      wait_table s !! rid = Some row -> row !! e = Some (key, wp) ->
      invoked_count s rid key = 1 -> (wp <= 0)%Z;
  once_known : forall rid key,
      invoked_count s rid key <> 0 ->
      exists row, wait_table s !! rid = Some row /\ key ∈ row.*1;
  once_keys : forall rid row, wait_table s !! rid = Some row -> NoDup row.*1
}.

Lemma Once_eq s s' :
  wait_table s' = wait_table s -> l_log s' = l_log s -> Once s -> Once s'.
Proof.
  intros Ht Hl [Hc Hw Hk Hn]. unfold invoked_count in *.
  constructor; unfold invoked_count; intros; rewrite ?Ht, ?Hl in *; eauto.
Qed.

Lemma wait_table_lookup s rid row e key wp :
  wait_table s !! rid = Some row -> row !! e = Some (key, wp) ->
  exists r iv, l_res s !! rid = Some r /\ r_invocations r !! e = Some iv /\
               iv_key iv = key /\ iv_waitParams iv = wp.
Proof.
  unfold wait_table. rewrite list_lookup_fmap.
  destruct (l_res s !! rid) as [r|]; simpl; [|discriminate].
  intros [= <-]. unfold row_of. rewrite list_lookup_fmap.
  destruct (r_invocations r !! e) as [iv|] eqn:Hiv; simpl; [|discriminate].
  intros [= <- <-]. exists r, iv. auto.
Qed.

Lemma wait_table_lookup_2 s rid r e iv :
  l_res s !! rid = Some r -> r_invocations r !! e = Some iv ->
  wait_table s !! rid = Some (row_of r) /\
  row_of r !! e = Some (iv_key iv, iv_waitParams iv).
Proof.
  intros Hr Hiv. unfold wait_table, row_of.
  rewrite !list_lookup_fmap, Hr, Hiv. auto.
Qed.

Lemma wait_table_with_q f s : wait_table (with_q f s) = wait_table s.
Proof. reflexivity. Qed.

Lemma wait_table_with_res rid f s :
  (forall r, row_of (f r) = row_of r) ->
  wait_table (with_res rid f s) = wait_table s.
Proof.
  intros Hf. unfold wait_table, with_res. cbn [l_res].
  apply list_eq. intros i. rewrite !list_lookup_fmap, list_lookup_alter.
  destruct (decide (rid = i)) as [->|Hne]; [|reflexivity].
  destruct (l_res s !! i) as [r|]; simpl; [rewrite Hf|]; reflexivity.
Qed.

(** The keys alone. *)
Definition key_table (s : Legacy) : list (list string) :=
  (fun row : list (string * Z) => row.*1) <$> wait_table s.

(** [waitParams] of one invocation changes by [g]. *)
Definition retouch (g : Z -> Z) (rid eid : nat) (t : list (list (string * Z)))
  : list (list (string * Z)) :=
  alter (alter (fun kw => (fst kw, g (snd kw))) eid) rid t.

Lemma wait_table_with_invocation rid eid g s :
  wait_table (with_invocation rid eid
                (fun iv => set_waitParams (g (iv_waitParams iv)) iv) s)
  = retouch g rid eid (wait_table s).
Proof.
  unfold wait_table, with_invocation, with_res, retouch. cbn [l_res].
  apply list_eq. intros i. rewrite list_lookup_fmap, !list_lookup_alter.
  destruct (decide (rid = i)) as [->|Hne]; [|rewrite list_lookup_fmap; reflexivity].
  rewrite list_lookup_fmap. destruct (l_res s !! i) as [r|]; simpl; [|reflexivity].
  f_equal. unfold row_of. cbn [r_invocations set_invocations].
  apply list_eq. intros j. rewrite list_lookup_fmap, !list_lookup_alter.
  destruct (decide (eid = j)) as [->|Hne]; [|rewrite list_lookup_fmap; reflexivity].
  rewrite list_lookup_fmap. destruct (r_invocations r !! j); reflexivity.
Qed.

Lemma retouch_keys g rid eid t rid' row' :
  retouch g rid eid t !! rid' = Some row' ->
  exists row, t !! rid' = Some row /\ row'.*1 = row.*1.
Proof.
  unfold retouch. rewrite list_lookup_alter.
  destruct (decide (rid = rid')) as [->|Hne]; [|eauto].
  destruct (t !! rid') as [row|] eqn:Hrow; simpl; [|discriminate].
  intros [= <-]. exists row. split; [reflexivity|].
  apply list_eq. intros j. rewrite !list_lookup_fmap, list_lookup_alter.
  destruct (decide (eid = j)) as [->|Hne]; [|reflexivity].
  destruct (row !! j); reflexivity.
Qed.

Lemma retouch_lookup g rid eid t rid' row' e key wp' :
  retouch g rid eid t !! rid' = Some row' -> row' !! e = Some (key, wp') ->
  exists row wp, t !! rid' = Some row /\ row !! e = Some (key, wp) /\
                 (wp' = wp \/ (rid' = rid /\ e = eid /\ wp' = g wp)).
Proof.
  unfold retouch. rewrite list_lookup_alter.
  destruct (decide (rid = rid')) as [->|Hne].
  2:{ intros Hrow He. exists row', wp'. auto. }
  destruct (t !! rid') as [row|] eqn:Hrow; simpl; [|discriminate].
  intros [= <-]. rewrite list_lookup_alter.
  destruct (decide (eid = e)) as [->|Hne].
  - destruct (row !! e) as [[k w]|] eqn:He; simpl; [|discriminate].
    intros [= <- <-]. exists row, w. auto 6.
  - intros He. exists row, wp'. auto.
Qed.

(** Changing [waitParams] of an invocation keeps the invariant when the
    invocation has not been invoked yet, or when the counter only goes
    down. *)
Lemma Once_retouch g rid eid s s' :
  wait_table s' = retouch g rid eid (wait_table s) -> l_log s' = l_log s ->
  (forall row key wp,
      wait_table s !! rid = Some row -> row !! eid = Some (key, wp) ->
      invoked_count s rid key = 0 \/ (g wp <= wp)%Z) ->
  Once s -> Once s'.
Proof.
  intros Ht Hl Hg [Hc Hw Hk Hn].
  assert (Hcnt : forall rid' key, invoked_count s' rid' key = invoked_count s rid' key).
  { intros. unfold invoked_count. rewrite Hl. reflexivity. }
  constructor.
  - intros rid' key. rewrite Hcnt. apply Hc.
  - intros rid' row' e key wp' Hrow He Hone. rewrite Hcnt in Hone. rewrite Ht in Hrow.
    destruct (retouch_lookup _ _ _ _ _ _ _ _ _ Hrow He)
      as (row & wp & Hrow0 & He0 & [->|(-> & -> & ->)]).
    + exact (Hw rid' row e key wp Hrow0 He0 Hone).
    + pose proof (Hw rid row eid key wp Hrow0 He0 Hone) as Hle.
      destruct (Hg row key wp Hrow0 He0) as [H0|Hgle]; lia.
  - intros rid' key Hne. rewrite Hcnt in Hne.
    destruct (Hk rid' key Hne) as (row & Hrow & Hin).
    destruct (retouch g rid eid (wait_table s) !! rid') as [row'|] eqn:Hrow'.
    + destruct (retouch_keys _ _ _ _ _ _ Hrow') as (row0 & Hrow0 & Hkeys).
      rewrite Hrow in Hrow0. injection Hrow0 as <-.
      exists row'. rewrite Ht. split; [exact Hrow'|]. rewrite Hkeys. exact Hin.
    + exfalso. apply lookup_ge_None_1 in Hrow'. apply lookup_lt_Some in Hrow.
      unfold retouch in Hrow'. rewrite length_alter in Hrow'. lia.
  - intros rid' row' Hrow. rewrite Ht in Hrow.
    destruct (retouch_keys _ _ _ _ _ _ Hrow) as (row & Hrow0 & ->).
    exact (Hn rid' row Hrow0).
Qed.

Lemma invoked_count_add_log rid key vals s rid' key' :
  invoked_count (add_log rid key vals s) rid' key'
  = invoked_count s rid' key' + (if decide ((rid, key) = (rid', key')) then 1 else 0).
Proof.
  unfold invoked_count, add_log. cbn [l_log].
  rewrite filter_app, length_app. f_equal.
  destruct (decide ((rid, key) = (rid', key'))) as [Heq|Hne].
  - rewrite filter_cons_True by exact Heq. reflexivity.
  - rewrite filter_cons_False by exact Hne. reflexivity.
Qed.

Lemma fail_table rid reason s :
  wait_table (fail rid reason s) = wait_table s /\ l_log (fail rid reason s) = l_log s.
Proof.
  unfold fail. destruct (l_res s !! rid); [|auto].
  rewrite wait_table_with_q, wait_table_with_res by reflexivity. auto.
Qed.

Lemma done_table rid s :
  wait_table (done rid s) = wait_table s /\ l_log (done rid s) = l_log s.
Proof.
  unfold done. destruct (l_res s !! rid); [|auto].
  destruct (_ =? _)%Z.
  - rewrite wait_table_with_q, wait_table_with_res by reflexivity. auto.
  - rewrite wait_table_with_res by reflexivity. auto.
Qed.

Lemma onfailure_table rid eid reason s :
  wait_table (onfailure rid eid reason s) = wait_table s /\
  l_log (onfailure rid eid reason s) = l_log s.
Proof.
  unfold onfailure. destruct (invocation s rid eid); [|auto].
  destruct (fail_table rid reason (with_q (q_reject (iv_invocation i) reason) s))
    as [Ht Hl].
  rewrite Ht, Hl. auto.
Qed.

Lemma wait_for_table rid eid s dep :
  l_log (wait_for rid eid s dep) = l_log s /\
  (wait_table (wait_for rid eid s dep) = wait_table s \/
   wait_table (wait_for rid eid s dep)
   = retouch (fun z => (z + 1)%Z) rid eid (wait_table s)).
Proof.
  unfold wait_for. destruct (l_res s !! rid) as [r|]; [|auto].
  destruct (get (r_promises r) dep) as [p|]; [|auto].
  destruct (negb (has (r_locals r) dep)); [|auto].
  split; [reflexivity|]. right.
  rewrite wait_table_with_q.
  apply (wait_table_with_invocation rid eid (fun z => (z + 1)%Z)).
Qed.

Section OnceSteps.
Variable injector_get : string -> FnResult.

(** [proceed] on an invocation that has not been invoked and whose
    [waitParams] is zero. *)
Lemma Once_proceed rid eid s r iv :
  Once s -> l_res s !! rid = Some r -> r_invocations r !! eid = Some iv ->
  (iv_waitParams iv <= 0)%Z -> invoked_count s rid (iv_key iv) = 0 ->
  Once (proceed injector_get rid eid s) /\
  wait_table (proceed injector_get rid eid s) = wait_table s.
Proof.
  intros H Hr Hiv Hwp Hzero. unfold proceed, invocation. rewrite Hr. simpl. rewrite Hiv.
  destruct (isDefined (r_failure r)); [auto|].
  set (s1 := add_log rid (iv_key iv) (r_values r) s).
  assert (Ht1 : wait_table s1 = wait_table s) by reflexivity.
  assert (H1 : Once s1).
  { destruct H as [Hc Hw Hk Hn].
    destruct (wait_table_lookup_2 s rid r eid iv Hr Hiv) as [Hrow He].
    constructor.
    - intros rid' key'. unfold s1. rewrite invoked_count_add_log.
      destruct (decide ((rid, iv_key iv) = (rid', key'))) as [[= <- <-]|Hne].
      + rewrite Hzero. lia.
      + pose proof (Hc rid' key'). lia.
    - intros rid' row e key wp Hrow' He' Hone. rewrite Ht1 in Hrow'.
      unfold s1 in Hone. rewrite invoked_count_add_log in Hone.
      destruct (decide ((rid, iv_key iv) = (rid', key))) as [[= <- <-]|Hne].
      + rewrite Hrow in Hrow'. injection Hrow' as <-.
        assert (Hee : e = eid).
        { apply (NoDup_lookup (row_of r).*1 e eid (iv_key iv) (Hn rid _ Hrow)).
          - rewrite list_lookup_fmap, He'. reflexivity.
          - rewrite list_lookup_fmap, He. reflexivity. }
        subst e. rewrite He in He'. injection He' as <-. exact Hwp.
      + apply (Hw rid' row e key wp Hrow' He'). lia.
    - intros rid' key' Hne. unfold s1 in Hne. rewrite invoked_count_add_log in Hne.
      rewrite Ht1.
      destruct (decide ((rid, iv_key iv) = (rid', key'))) as [[= <- <-]|Hne'].
      + exists (row_of r). split; [exact Hrow|].
        apply list_elem_of_fmap. exists (iv_key iv, iv_waitParams iv).
        split; [reflexivity|]. eapply list_elem_of_lookup_2. exact He.
      + apply Hk. lia.
    - intros rid' row Hrow'. rewrite Ht1 in Hrow'. exact (Hn rid' row Hrow'). }
  destruct (invoke injector_get (iv_invocable iv) (r_self r) (r_values r)) as [v|e|fate].
  - split; [|reflexivity]. apply (Once_eq s1); [reflexivity|reflexivity|exact H1].
  - destruct (onfailure_table rid eid e s1) as [Ht Hl].
    split; [|rewrite Ht; reflexivity]. apply (Once_eq s1); assumption.
  - split; [|reflexivity]. apply (Once_eq s1); [reflexivity|reflexivity|exact H1].
Qed.

Lemma Once_wait_params rid eid params : forall s key,
  Once s ->
  (exists row wp, wait_table s !! rid = Some row /\ row !! eid = Some (key, wp)) ->
  invoked_count s rid key = 0 ->
  let s' := fold_left (wait_for rid eid) params s in
  Once s' /\ l_log s' = l_log s /\
  (exists row wp, wait_table s' !! rid = Some row /\ row !! eid = Some (key, wp)) /\
  key_table s' = key_table s.
Proof.
  induction params as [|dep params IH]; intros s key H Hrow Hzero; simpl.
  - auto.
  - destruct (wait_for_table rid eid s dep) as [Hl Ht].
    assert (Hstep : Once (wait_for rid eid s dep) /\
                    (exists row wp, wait_table (wait_for rid eid s dep) !! rid = Some row /\
                                    row !! eid = Some (key, wp)) /\
                    key_table (wait_for rid eid s dep)
                    = key_table s).
    { destruct Ht as [Ht|Ht].
      - split; [apply (Once_eq s); assumption|].
        split; [rewrite Ht; exact Hrow|unfold key_table; rewrite Ht; reflexivity].
      - split; [|split].
        + apply (Once_retouch _ rid eid s _ Ht Hl); [|exact H].
          intros row key' wp Hr He. left.
          destruct Hrow as (row0 & wp0 & Hr0 & He0).
          rewrite Hr in Hr0. injection Hr0 as <-. rewrite He in He0.
          injection He0 as <- <-. exact Hzero.
        + destruct Hrow as (row0 & wp0 & Hr0 & He0). rewrite Ht. unfold retouch.
          rewrite list_lookup_alter, decide_True, Hr0 by reflexivity. simpl.
          eexists _, _. split; [reflexivity|].
          rewrite list_lookup_alter, decide_True, He0 by reflexivity. reflexivity.
        + unfold key_table. rewrite Ht. apply list_eq. intros i. rewrite !list_lookup_fmap.
          destruct (retouch (fun z => (z + 1)%Z) rid eid (wait_table s) !! i)
            as [row'|] eqn:Hrow'.
          * destruct (retouch_keys _ _ _ _ _ _ Hrow') as (row0 & -> & Hk). simpl.
            rewrite Hk. reflexivity.
          * apply lookup_ge_None_1 in Hrow'. unfold retouch in Hrow'.
            rewrite length_alter in Hrow'.
            rewrite (lookup_ge_None_2 (wait_table s)) by lia. reflexivity. }
    destruct Hstep as (H1 & Hrow1 & Hkeys1).
    destruct (IH (wait_for rid eid s dep) key H1 Hrow1) as (H2 & Hl2 & Hrow2 & Hkeys2).
    { unfold invoked_count. rewrite Hl. exact Hzero. }
    split; [exact H2|]. split; [congruence|]. split; [exact Hrow2|]. congruence.
Qed.

(** [__invoke] for a key that no invocation of the resolution carries. *)
Lemma Once_invoke_entry rid e s r :
  Once s -> l_res s !! rid = Some r -> pe_key e ∉ (row_of r).*1 ->
  let s' := invoke_entry injector_get rid e s in
  Once s' /\
  key_table s'
  = alter (fun ks => ks ++ [pe_key e]) rid (key_table s).
Proof.
  intros H Hr Hfresh. unfold invoke_entry. rewrite Hr.
  destruct (q_defer (l_q s)) as [p q1] eqn:Hq.
  set (eid := length (r_invocations r)).
  set (iv := mkInvocation (pe_key e) (pe_invocable e) (pe_params e) 0%Z p).
  set (s1 := with_res rid (set_invocations (r_invocations r ++ [iv]))
                      (with_q (fun _ => q1) s)).
  assert (Ht1 : wait_table s1
                = alter (fun row => row ++ [(pe_key e, 0%Z)]) rid (wait_table s)).
  { unfold s1, wait_table, with_res, with_q. cbn [l_res].
    apply list_eq. intros i. rewrite list_lookup_fmap, !list_lookup_alter.
    destruct (decide (rid = i)) as [<-|Hne]; [|rewrite list_lookup_fmap; reflexivity].
    rewrite list_lookup_fmap, Hr. simpl.
    unfold row_of. cbn [r_invocations set_invocations]. rewrite fmap_app. reflexivity. }
  assert (Hrow : wait_table s !! rid = Some (row_of r)).
  { unfold wait_table. rewrite list_lookup_fmap, Hr. reflexivity. }
  assert (Hzero : invoked_count s rid (pe_key e) = 0).
  { destruct (decide (invoked_count s rid (pe_key e) = 0)) as [Hz|Hnz]; [exact Hz|].
    destruct (once_known _ H rid (pe_key e) Hnz) as (row & Hrow' & Hin).
    rewrite Hrow in Hrow'. injection Hrow' as <-. contradiction. }
  assert (Hlen : length (row_of r) = eid).
  { unfold row_of. rewrite length_fmap. reflexivity. }
  assert (H1 : Once s1).
  { destruct H as [Hc Hw Hk Hn]. constructor.
    - exact Hc.
    - intros rid' row' e' key wp Hrow' He' Hone. rewrite Ht1, list_lookup_alter in Hrow'.
      destruct (decide (rid = rid')) as [<-|Hne].
      + rewrite Hrow in Hrow'. simpl in Hrow'. injection Hrow' as <-.
        apply lookup_app_Some in He' as [He'|[_ He']].
        * exact (Hw rid (row_of r) e' key wp Hrow He' Hone).
        * destruct (e' - length (row_of r)); simpl in He'; [|discriminate].
          injection He' as <- <-. lia.
      + exact (Hw rid' row' e' key wp Hrow' He' Hone).
    - intros rid' key Hne. destruct (Hk rid' key Hne) as (row & Hrow' & Hin).
      rewrite Ht1, list_lookup_alter.
      destruct (decide (rid = rid')) as [<-|Hne'].
      + rewrite Hrow'. simpl. eexists. split; [reflexivity|].
        rewrite fmap_app. apply elem_of_app. left. exact Hin.
      + eauto.
    - intros rid' row' Hrow'. rewrite Ht1, list_lookup_alter in Hrow'.
      destruct (decide (rid = rid')) as [<-|Hne].
      + rewrite Hrow in Hrow'. simpl in Hrow'. injection Hrow' as <-.
        rewrite fmap_app. apply NoDup_app. split; [exact (Hn rid _ Hrow)|].
        split; [|apply NoDup_singleton].
        intros k Hk1 Hk2. apply list_elem_of_singleton in Hk2. subst k. contradiction.
      + exact (Hn rid' row' Hrow'). }
  assert (Hrow1 : exists row wp, wait_table s1 !! rid = Some row /\
                                 row !! eid = Some (pe_key e, wp)).
  { rewrite Ht1, list_lookup_alter, decide_True, Hrow by reflexivity. simpl.
    eexists _, _. split; [reflexivity|].
    rewrite lookup_app_r, Hlen, Nat.sub_diag by lia. reflexivity. }
  assert (Hkeys1 : key_table s1
                   = alter (fun ks => ks ++ [pe_key e]) rid (key_table s)).
  { unfold key_table. rewrite Ht1. apply list_eq. intros i.
    rewrite list_lookup_fmap, !list_lookup_alter.
    destruct (decide (rid = i)) as [->|Hne]; [|rewrite list_lookup_fmap; reflexivity].
    rewrite list_lookup_fmap. destruct (wait_table s !! i); simpl; [|reflexivity].
    rewrite fmap_app. reflexivity. }
  destruct (Once_wait_params rid eid (pe_params e) s1 (pe_key e) H1 Hrow1 Hzero)
    as (H2 & Hl2 & Hrow2 & Hkeys2).
  set (s2 := fold_left (wait_for rid eid) (pe_params e) s1) in *.
  assert (Hzero2 : invoked_count s2 rid (pe_key e) = 0).
  { unfold invoked_count. rewrite Hl2. exact Hzero. }
  assert (H3 : Once
                 (match invocation s2 rid eid with
                  | Some iv' => if (iv_waitParams iv' =? 0)%Z
                                then proceed injector_get rid eid s2 else s2
                  | None => s2
                  end) /\
               wait_table
                 (match invocation s2 rid eid with
                  | Some iv' => if (iv_waitParams iv' =? 0)%Z
                                then proceed injector_get rid eid s2 else s2
                  | None => s2
                  end) = wait_table s2).
  { destruct (invocation s2 rid eid) as [iv'|] eqn:Hiv'; [|auto].
    destruct (iv_waitParams iv' =? 0)%Z eqn:Hwp; [|auto].
    apply invocation_Some in Hiv' as (r2 & Hr2 & Hiv2).
    destruct Hrow2 as (row & wp & Hrow2 & He2).
    destruct (wait_table_lookup_2 s2 rid r2 eid iv' Hr2 Hiv2) as [Hrow2' He2'].
    rewrite Hrow2 in Hrow2'. injection Hrow2' as ->. rewrite He2 in He2'.
    injection He2' as Hkey _.
    apply (Once_proceed rid eid s2 r2 iv' H2 Hr2 Hiv2); [lia|].
    rewrite <- Hkey. exact Hzero2. }
  destruct H3 as [H3 Ht3]. cbv zeta.
  match goal with
  | |- Once (with_res _ _ ?x) /\ _ =>
      change (Once x) in H3; change (wait_table x = wait_table s2) in Ht3;
      set (s3 := x) in *
  end.
  split.
  - apply (Once_eq s3); [apply wait_table_with_res; reflexivity|reflexivity|exact H3].
  - unfold key_table at 1. rewrite wait_table_with_res by reflexivity. rewrite Ht3.
    fold (key_table s2). rewrite Hkeys2. exact Hkeys1.
Qed.

Lemma Once_process_entry rid e s r :
  Once s -> l_res s !! rid = Some r -> pe_key e ∉ (row_of r).*1 ->
  let s' := process_entry injector_get rid s e in
  Once s' /\
  (key_table s' = key_table s \/
   key_table s'
   = alter (fun ks => ks ++ [pe_key e]) rid (key_table s)).
Proof.
  intros H Hr Hfresh. unfold process_entry. rewrite Hr.
  destruct (has (r_locals r) (pe_key e)).
  - destruct (done_table rid s) as [Ht Hl]. cbv zeta.
    split; [apply (Once_eq s); assumption|]. left. unfold key_table. rewrite Ht. reflexivity.
  - destruct (Once_invoke_entry rid e s r H Hr Hfresh) as [H1 Hk]. auto.
Qed.

Lemma keys_row s rid r :
  l_res s !! rid = Some r -> key_table s !! rid = Some (row_of r).*1.
Proof.
  intros Hr. unfold key_table, wait_table. rewrite !list_lookup_fmap, Hr. reflexivity.
Qed.

(** The loop over the plan: the keys of a plan are distinct, so each entry
    is set up under a key no earlier one carries. *)
Lemma Once_plan rid pl : forall s,
  NoDup (pe_key <$> pl) -> Once s -> rid < length (l_res s) ->
  (forall ks k, key_table s !! rid = Some ks -> k ∈ ks ->
                k ∉ pe_key <$> pl) ->
  Once (fold_left (process_entry injector_get rid) pl s).
Proof.
  induction pl as [|e pl IH]; intros s Hnd H Hrid Hdisj; simpl; [exact H|].
  rewrite fmap_cons in Hnd. apply NoDup_cons in Hnd as [He Hnd].
  destruct (lookup_lt_is_Some_2 _ _ Hrid) as [r Hr].
  assert (Hfresh : pe_key e ∉ (row_of r).*1).
  { intros Hin. apply (Hdisj _ _ (keys_row s rid r Hr) Hin). rewrite fmap_cons. left. }
  destruct (Once_process_entry rid e s r H Hr Hfresh) as [H1 Hk].
  cbv zeta in H1, Hk.
  assert (Hlen : length (wait_table (process_entry injector_get rid s e))
                 = length (wait_table s)).
  { assert (Hl : length (key_table (process_entry injector_get rid s e))
                 = length (key_table s)).
    { destruct Hk as [->| ->]; [reflexivity|apply length_alter]. }
    unfold key_table in Hl. rewrite !length_fmap in Hl. exact Hl. }
  apply IH; [exact Hnd|exact H1| |].
  - unfold wait_table in Hlen. rewrite !length_fmap in Hlen. lia.
  - intros ks k Hks Hin Hpl.
    destruct Hk as [Hk|Hk]; rewrite Hk in Hks.
    + apply (Hdisj ks k Hks Hin). rewrite fmap_cons. right. exact Hpl.
    + rewrite list_lookup_alter, decide_True, (keys_row s rid r Hr) in Hks by reflexivity.
      simpl in Hks. injection Hks as <-.
      apply elem_of_app in Hin as [Hin|Hin].
      * apply (Hdisj _ k (keys_row s rid r Hr) Hin). rewrite fmap_cons. right. exact Hpl.
      * apply list_elem_of_singleton in Hin. subst k. contradiction.
Qed.

Lemma Once_start pl ks locals parent self s :
  NoDup (pe_key <$> pl) -> Once s ->
  Once (snd (start injector_get pl ks locals parent self s)).
Proof.
  intros Hnd H. unfold start. destruct (q_defer (l_q s)) as [p q1].
  set (rid := length (l_res s)).
  match goal with
  | |- context [mkLegacy q1 (l_res s ++ [?r]) _ _] => set (r0 := r)
  end.
  set (s0 := mkLegacy q1 (l_res s ++ [r0]) (l_outside s) (l_log s)).
  assert (Ht0 : wait_table s0 = wait_table s ++ [[]]).
  { unfold wait_table, s0. cbn [l_res]. rewrite fmap_app. reflexivity. }
  assert (H0 : Once s0).
  { destruct H as [Hc Hw Hk Hn]. constructor.
    - exact Hc.
    - intros rid' row e key wp Hrow He Hone. rewrite Ht0 in Hrow.
      apply lookup_app_Some in Hrow as [Hrow|[_ Hrow]].
      + exact (Hw rid' row e key wp Hrow He Hone).
      + destruct (rid' - length (wait_table s)); simpl in Hrow; [|discriminate].
        injection Hrow as <-. discriminate.
    - intros rid' key Hne. destruct (Hk rid' key Hne) as (row & Hrow & Hin).
      exists row. split; [|exact Hin]. rewrite Ht0. apply lookup_app_l_Some. exact Hrow.
    - intros rid' row Hrow. rewrite Ht0 in Hrow.
      apply lookup_app_Some in Hrow as [Hrow|[_ Hrow]].
      + exact (Hn rid' row Hrow).
      + destruct (rid' - length (wait_table s)); simpl in Hrow; [|discriminate].
        injection Hrow as <-. apply NoDup_nil_2. }
  destruct (isDefined (parent_failure s parent)).
  - cbn [snd]. destruct (fail_table rid (parent_failure s parent) s0) as [Ht Hl].
    apply (Once_eq s0); assumption.
  - cbn [snd]. cbv zeta.
    match goal with
    | |- Once (fold_left _ pl ?x) => set (s3 := x)
    end.
    assert (H3 : wait_table s3 = wait_table s0 /\ l_log s3 = l_log s0).
    { unfold s3. destruct (parent_values s parent) as [pv|].
      - match goal with
        | |- wait_table (done rid ?x) = _ /\ _ =>
            destruct (done_table rid x) as [Ht Hl]; rewrite Ht, Hl
        end.
        rewrite wait_table_with_res by reflexivity.
        rewrite wait_table_with_res by reflexivity.
        destruct (parent_inherited s parent);
          [rewrite wait_table_with_res by reflexivity|]; auto.
      - assert (Hin : forall x,
                   wait_table x = wait_table s0 /\ l_log x = l_log s0 ->
                   wait_table
                     match parent with
                     | NO_PARENT => x
                     | Parent prid =>
                         match l_res s !! prid with
                         | Some pr => with_q (q_then (r_result pr) (KDone rid) (KFail rid)) x
                         | None => x
                         end
                     end = wait_table s0 /\
                   l_log
                     match parent with
                     | NO_PARENT => x
                     | Parent prid =>
                         match l_res s !! prid with
                         | Some pr => with_q (q_then (r_result pr) (KDone rid) (KFail rid)) x
                         | None => x
                         end
                     end = l_log s0).
        { intros x Hx. destruct parent as [|prid]; [exact Hx|].
          destruct (l_res s !! prid); exact Hx. }
        apply Hin.
        destruct (parent_inherited s parent).
        + rewrite !wait_table_with_res by reflexivity. auto.
        + rewrite !wait_table_with_res by reflexivity. auto. }
    destruct H3 as [Ht3 Hl3].
    apply Once_plan; [exact Hnd|apply (Once_eq s0); assumption| |].
    + assert (Hlen : length (wait_table s3) = length (wait_table s0)) by (rewrite Ht3; reflexivity).
      unfold wait_table in Hlen. rewrite !length_fmap in Hlen. rewrite Hlen.
      unfold s0. cbn [l_res]. rewrite length_app. simpl. unfold rid. lia.
    + intros ks' k Hks Hin. unfold key_table in Hks.
      rewrite Ht3, Ht0, list_lookup_fmap in Hks.
      unfold rid in Hks.
      assert (Hl : length (l_res s) = length (wait_table s)).
      { unfold wait_table. rewrite length_fmap. reflexivity. }
      rewrite Hl, lookup_app_r, Nat.sub_diag in Hks by lia. simpl in Hks.
      injection Hks as <-. inversion Hin.
Qed.

Lemma Once_resolve invocables a1 a2 a3 s rid s' :
  resolve injector_get invocables a1 a2 a3 s = CallReturns rid s' ->
  Once s -> Once s'.
Proof.
  unfold resolve, resolve_fn. intros Hcall H.
  pose proof (study_plan_spec invocables) as Hplan.
  destruct (study_plan invocables) as [pl| |]; try discriminate.
  destruct Hplan as (_ & _ & Hnd & _).
  destruct (shift_args a1 a2 a3) as [[locals parent] self].
  destruct (negb (truthy locals) || _); [|destruct locals; discriminate].
  destruct (negb (truthy parent)).
  - pose proof (Once_start pl (keys invocables)
                  (match locals with VObj o => o | _ => [] end) NO_PARENT self s Hnd H) as Hs.
    destruct (start _ _ _ _ _ _ _) as [rid0 s0]. injection Hcall as <- <-. exact Hs.
  - destruct (isResolve parent); [|discriminate].
    destruct parent as [| | | | |prid]; try discriminate.
    destruct (l_res s !! prid); [|discriminate].
    pose proof (Once_start pl (keys invocables)
                  (match locals with VObj o => o | _ => [] end) (Parent prid) self s Hnd H) as Hs.
    destruct (start _ _ _ _ _ _ _) as [rid0 s0]. injection Hcall as <- <-. exact Hs.
Qed.

Lemma Once_run_callback k arg s : Once s -> Once (run_callback injector_get k arg s).
Proof.
  intros H. destruct k as [rid|rid|rid eid dep|rid eid|rid eid|p|p]; simpl.
  - destruct (done_table rid s). apply (Once_eq s); assumption.
  - destruct (fail_table rid arg s). apply (Once_eq s); assumption.
  - set (s1 := with_res rid (fun r => set_values (set (r_values r) dep arg) r) s).
    assert (H1 : Once s1).
    { apply (Once_eq s); [apply wait_table_with_res; reflexivity|reflexivity|exact H]. }
    set (s2 := with_invocation rid eid
                 (fun iv => set_waitParams (iv_waitParams iv - 1)%Z iv) s1).
    assert (Ht2 : wait_table s2 = retouch (fun z => (z - 1)%Z) rid eid (wait_table s1)).
    { apply (wait_table_with_invocation rid eid (fun z => (z - 1)%Z)). }
    assert (H2 : Once s2).
    { apply (Once_retouch _ rid eid s1 s2 Ht2 eq_refl); [|exact H1].
      intros row key wp _ _. right. lia. }
    destruct (invocation s2 rid eid) as [iv|] eqn:Hiv; [|exact H2].
    destruct (iv_waitParams iv =? 0)%Z eqn:Hwp; [|exact H2].
    apply invocation_Some in Hiv as (r2 & Hr2 & Hiv2).
    apply (Once_proceed rid eid s2 r2 iv H2 Hr2 Hiv2); [lia|].
    destruct (wait_table_lookup_2 s2 rid r2 eid iv Hr2 Hiv2) as [Hrow2 He2].
    rewrite Ht2 in Hrow2.
    destruct (retouch_lookup _ _ _ _ _ _ _ _ _ Hrow2 He2)
      as (row & wp & Hrow1 & He1 & Hcase).
    assert (Hwp1 : wp = 1%Z).
    { unfold retouch in Hrow2. rewrite list_lookup_alter, decide_True, Hrow1 in Hrow2
        by reflexivity. simpl in Hrow2. injection Hrow2 as Hrow2.
      pose proof He2 as He2'. rewrite <- Hrow2, list_lookup_alter, decide_True, He1 in He2'
        by reflexivity. simpl in He2'. injection He2' as Hw. lia. }
    subst wp.
    assert (Hcnt : invoked_count s2 rid (iv_key iv) = invoked_count s1 rid (iv_key iv))
      by reflexivity.
    rewrite Hcnt.
    pose proof (once_count _ H1 rid (iv_key iv)) as Hle.
    destruct (decide (invoked_count s1 rid (iv_key iv) = 1)) as [Hone|Hnone]; [|lia].
    pose proof (once_wait _ H1 rid row eid (iv_key iv) 1%Z Hrow1 He1 Hone). lia.
  - destruct (onfailure_table rid eid arg s). apply (Once_eq s); assumption.
  - destruct (invocation s rid eid) as [iv|]; [|exact H].
    match goal with
    | |- Once (done rid ?x) => destruct (done_table rid x) as [Ht Hl]
    end.
    apply (Once_eq s); [rewrite Ht; apply wait_table_with_res; reflexivity
                       |rewrite Hl; reflexivity|exact H].
  - apply (Once_eq s); [reflexivity|reflexivity|exact H].
  - apply (Once_eq s); [reflexivity|reflexivity|exact H].
Qed.

Lemma Once_tick s : Once s -> Once (tick injector_get s).
Proof.
  intros H. unfold tick. destruct (q_queue (l_q s)) as [|[k arg] rest]; [exact H|].
  apply Once_run_callback. apply (Once_eq s); [reflexivity|reflexivity|exact H].
Qed.

Lemma Once_settle_outside i s : Once s -> Once (settle_outside i s).
Proof.
  intros H. unfold settle_outside.
  destruct (l_outside s !! i) as [[p [v|e|]]|]; try exact H;
    apply (Once_eq s); try reflexivity; exact H.
Qed.

Lemma Once_init : Once legacy_init.
Proof.
  constructor.
  - intros rid key. unfold invoked_count. simpl. lia.
  - intros rid row e key wp Hrow. discriminate.
  - intros rid key Hne. exfalso. apply Hne. reflexivity.
  - intros rid row Hrow. discriminate.
Qed.

Lemma Once_reachable s : reachable injector_get s -> Once s.
Proof.
  intros H. apply clos_rt_rtn1 in H. induction H as [|s1 s2 Hstep _ IH].
  - exact Once_init.
  - destruct Hstep as [invocables a1 a2 a3 s rid s' Hcall|s|i s].
    + eapply Once_resolve; eauto.
    + apply Once_tick, IH.
    + apply Once_settle_outside, IH.
Qed.
End OnceSteps.

(** X8: in every world the engine can reach, each invocable of each call
    of the returned function has been handed to [$injector.invoke] at most
    once, and only if that call set up an invocation under its key. *)
Theorem invocable_invoked_at_most_once
        (injector_get : string -> FnResult) (s : Legacy) (rid : nat) (key : string) :
  reachable injector_get s ->
  invoked_count s rid key <= 1 /\
  (invoked_count s rid key = 1 ->
   exists r iv, l_res s !! rid = Some r /\ iv ∈ r_invocations r /\ iv_key iv = key).
Proof.
  intros Hreach. pose proof (Once_reachable injector_get s Hreach) as H.
  split; [apply (once_count _ H)|].
  intros Hone. destruct (once_known _ H rid key) as (row & Hrow & Hin); [lia|].
  apply list_elem_of_fmap in Hin as ([k wp] & -> & Hin).
  apply list_elem_of_lookup_1 in Hin as [e He].
  destruct (wait_table_lookup s rid row e k wp Hrow He) as (r & iv & Hr & Hiv & Hk & _).
  exists r, iv. split; [exact Hr|]. split; [|exact Hk].
  eapply list_elem_of_lookup_2. exact Hiv.
Qed.

Lemma invocable_invoked_at_most_once_witness :
  invoked_count child_inherits_base 1 "derived" = 1 /\
  invoked_count child_inherits_base 1 "derived" <= 1.
Proof.
  split; [vm_compute; reflexivity|].
  exact (proj1 (invocable_invoked_at_most_once no_services child_inherits_base 1 "derived"
                  child_inherits_base_reachable)).
Defined.

(** ** [Resolvable.get]: the dependencies are started, nothing is invoked *)

Lemma GetStep_stays_set s s' r :
  GetStep s s' -> r < length (n_resolvables s) -> unset s r = false ->
  unset s' r = false.
Proof.
  intros Hstep Hr Hu. destruct (lookup_lt_is_Some_2 _ _ Hr) as [rv Hrv].
  unfold unset in *. rewrite Hrv in Hu. simpl in Hu.
  assert (Hp : rv_promise rv <> None).
  { unfold no_promise in Hu. destruct (rv_promise rv); [discriminate|discriminate]. }
  rewrite (gs_set _ _ Hstep r rv Hrv Hp). exact Hu.
Qed.

(** The loop over [depResolvables] leaves every dependency with a
    promise. *)
Lemma deps_loop_set (get_ : nat -> Path -> NewApi -> option (nat * NewApi))
      (pathContext : Path) (n : nat) (bound : nat) :
  (forall r s, r < n -> length (n_resolvables s) = n -> unset_count s < bound ->
     exists p s', get_ r pathContext s = Some (p, s') /\ GetStep s s' /\
                  unset s' r = false) ->
  forall (deps : Obj nat) acc s,
    (forall kr, kr ∈ deps -> snd kr < n) ->
    length (n_resolvables s) = n -> unset_count s < bound ->
    exists promises s',
      fold_left (fun acc kr =>
                   match acc with
                   | Some (depPromises, s') =>
                       match get_ (snd kr) pathContext s' with
                       | Some (p, s'') => Some (depPromises ++ [(fst kr, p)], s'')
                       | None => None
                       end
                   | None => None
                   end) deps (Some (acc, s)) = Some (promises, s') /\
      GetStep s s' /\
      forall kr, kr ∈ deps -> unset s' (snd kr) = false.
Proof.
  intros Hget deps. induction deps as [|[k id] deps IH]; intros acc s Hdeps Hlen Hcount.
  - simpl. exists acc, s. split; [reflexivity|]. split; [apply GetStep_refl|].
    intros kr Hkr. inversion Hkr.
  - simpl. destruct (Hget id s) as (p & s1 & Hg & Hstep & Hset); [|exact Hlen|exact Hcount|].
    { apply (Hdeps (k, id)). left. }
    rewrite Hg.
    destruct (IH (acc ++ [(k, p)]) s1) as (promises & s2 & Hfold & Hstep2 & Hall).
    + intros kr Hkr. apply Hdeps. right. exact Hkr.
    + rewrite (gs_len _ _ Hstep). exact Hlen.
    + pose proof (gs_count _ _ Hstep). lia.
    + exists promises, s2. split; [exact Hfold|].
      split; [eapply GetStep_trans; eassumption|].
      intros kr Hkr. apply elem_of_cons in Hkr as [->|Hkr]; [|apply Hall; exact Hkr].
      simpl. apply (GetStep_stays_set s1 s2 id Hstep2); [|exact Hset].
      rewrite (gs_len _ _ Hstep), Hlen. apply (Hdeps (k, id)). left.
Qed.

(** X9: [get] on a Resolvable without a promise returns without invoking
    any resolve function, and leaves a promise on each dependency:
    every Resolvable that the path offers under a name the Resolvable
    declares (its own name being looked up above its own element). *)
Theorem get_starts_dependencies
        (r : nat) (pathContext : Path) (s : NewApi) (rv : Resolvable)
        (p : nat) (s' : NewApi) :
  path_wf (length (n_resolvables s)) pathContext ->
  n_resolvables s !! r = Some rv -> rv_promise rv = None ->
  rget r pathContext s = Some (p, s') ->
  n_log s' = n_log s /\
  forall dep r',
    dep ∈ rv_deps rv ->
    get (getResolvables pathContext [rv_name rv]) dep = Some r' ->
    exists rv' d, n_resolvables s' !! r' = Some rv' /\ rv_promise rv' = Some d.
Proof.
  intros Hwf Hrv Hp Hget.
  assert (Hr : r < length (n_resolvables s)) by (eapply lookup_lt_Some; exact Hrv).
  destruct (rget_spec r pathContext s Hwf Hr) as (p0 & s0 & Hget0 & Hstep0 & _).
  rewrite Hget in Hget0. injection Hget0 as <- <-.
  split; [apply (gs_log _ _ Hstep0)|].
  intros dep r' Hdep Hr'.
  unfold rget in Hget. simpl in Hget. rewrite Hrv, Hp in Hget.
  unfold resolveResolvable_with in Hget.
  pose proof (GetStep_defer s) as H1.
  destruct (n_defer s) as [deferred s1] eqn:Hd. simpl in H1.
  assert (Hrv1 : n_resolvables s1 !! r = Some rv).
  { unfold n_defer in Hd. destruct (q_defer (n_q s)). injection Hd as _ <-. exact Hrv. }
  destruct (set_promise_step s1 r rv deferred Hrv1 Hp)
    as (Hb2 & Hl2 & Hn2 & Hs2 & Hd2 & Hc2 & Hu2).
  set (s2 := n_with_resolvable r (set_promise (Some deferred)) s1) in *.
  assert (Hlen2 : length (n_resolvables s2) = length (n_resolvables s)).
  { rewrite Hn2. apply (gs_len _ _ H1). }
  assert (Hin : (dep, r') ∈ pick (getResolvables pathContext [rv_name rv]) (rv_deps rv)).
  { apply get_Some_elem. rewrite get_pick, bool_decide_eq_true_2 by exact Hdep.
    exact Hr'. }
  assert (Hbound : forall kr,
             kr ∈ pick (getResolvables pathContext [rv_name rv]) (rv_deps rv) ->
             snd kr < length (n_resolvables s)).
  { intros [k id] Hkr. apply elem_of_pick, elem_of_getResolvables in Hkr
      as (elem & He & Hk). simpl. eapply Hwf; eassumption. }
  destruct (deps_loop_set (get_fuel (length (n_resolvables s))) pathContext
              (length (n_resolvables s)) (length (n_resolvables s)))
    with (deps := pick (getResolvables pathContext [rv_name rv]) (rv_deps rv))
         (acc := @nil (string * nat)) (s := s2)
    as (promises & s3 & Hfold & H3 & Hall).
  { intros r0 s0 Hr0 Hlen0 Hc0.
    apply get_fuel_spec; [rewrite Hlen0; exact Hwf|rewrite Hlen0; exact Hr0|exact Hc0]. }
  { exact Hbound. }
  { exact Hlen2. }
  { pose proof (gs_count _ _ H1) as Hc1.
    pose proof (tally_le_length no_promise (n_resolvables s)) as Ht.
    unfold unset_count in *. lia. }
  rewrite Hfold in Hget.
  pose proof (GetStep_q_all promises s3) as H4.
  destruct (q_all promises s3) as [a s4]. simpl in H4.
  destruct (n_then a (NInvoke r deferred) NPass s4) as [b s5] eqn:Hthen.
  pose proof (GetStep_then s5 b NStore NPass (fun _ _ => eq_refl) (fun _ _ => eq_refl)) as H6.
  destruct (n_then b NStore NPass s5) as [c s6]. simpl in H6.
  injection Hget as _ <-.
  assert (Hres5 : n_resolvables s5 = n_resolvables s4).
  { unfold n_then, n_defer in Hthen. destruct (q_defer (n_q s4)).
    injection Hthen as _ <-. reflexivity. }
  pose proof (Hall (dep, r') Hin) as Hu3. simpl in Hu3.
  assert (Hlt : r' < length (n_resolvables s3)).
  { rewrite (gs_len _ _ H3), Hlen2. apply (Hbound (dep, r') Hin). }
  pose proof (GetStep_stays_set s3 s4 r' H4 Hlt Hu3) as Hu4.
  assert (Hu5 : unset s5 r' = false).
  { unfold unset in *. rewrite Hres5. exact Hu4. }
  assert (Hlt5 : r' < length (n_resolvables s5)).
  { rewrite Hres5, (gs_len _ _ H4). exact Hlt. }
  pose proof (GetStep_stays_set s5 s6 r' H6 Hlt5 Hu5) as Hu6.
  assert (Hlt6 : r' < length (n_resolvables s6)).
  { rewrite (gs_len _ _ H6). exact Hlt5. }
  destruct (lookup_lt_is_Some_2 _ _ Hlt6) as [rv' Hrv'].
  unfold unset in Hu6. rewrite Hrv' in Hu6. simpl in Hu6. unfold no_promise in Hu6.
  destruct (rv_promise rv') as [d|] eqn:Hd'; [|discriminate].
  exists rv', d. auto.
Qed.

(** A state [{ resolve: { a: function () { return 1; },
                          b: function (a) { return a; } } }]. *)
Definition resolvable_b : Resolvable :=
  mkResolvable "b" (fun _ values => Returns (default VNull (get values "a")))
               (VStr "home") ["a"] None VUndefined.
Definition home_ab : PathElement := mkPathElement 0 (VStr "home") [("a", 0); ("b", 1)].

Lemma get_starts_dependencies_witness :
  exists p s',
    rget 1 [home_ab] (new_world [resolvable_a; resolvable_b]) = Some (p, s') /\
    n_log s' = [] /\
    exists rv' d, n_resolvables s' !! 0 = Some rv' /\ rv_promise rv' = Some d.
Proof.
  destruct (rget 1 [home_ab] (new_world [resolvable_a; resolvable_b]))
    as [[p s']|] eqn:Hget; [|vm_compute in Hget; discriminate].
  exists p, s'. split; [reflexivity|].
  destruct (get_starts_dependencies 1 [home_ab] (new_world [resolvable_a; resolvable_b])
              resolvable_b p s') as [Hlog Hdeps].
  - intros elem k id He Hk. apply list_elem_of_singleton in He. subst elem.
    simpl in Hk. apply elem_of_cons in Hk as [Hk|Hk].
    + injection Hk as _ ->. simpl. lia.
    + apply list_elem_of_singleton in Hk. injection Hk as _ ->. simpl. lia.
  - reflexivity.
  - reflexivity.
  - exact Hget.
  - split; [exact Hlog|]. apply (Hdeps "a" 0); [left|vm_compute; reflexivity].
Defined.

(** ** The legacy engine: what the result promise is fulfilled with *)

Section SettleCases.
Context {K : Type}.
Implicit Types (q : Q K) (p : nat) (st : PState).

Lemma q_settle_cases q p st p' :
  q_state (q_settle p st q) p' = q_state q p' \/
  (p' = p /\ q_state (q_settle p st q) p' = st).
Proof.
  destruct (decide (p = p')) as [<-|Hne].
  - destruct (decide (p < length (q_states q))) as [Hlt|Hge].
    + right. split; [reflexivity|]. rewrite q_state_settle, decide_True by auto.
      reflexivity.
    + left. unfold q_state, q_settle. cbn [q_states].
      rewrite list_insert_ge by lia. reflexivity.
  - left. unfold q_state, q_settle. cbn [q_states].
    rewrite list_lookup_insert_ne by exact Hne. reflexivity.
Qed.

Lemma q_resolve_cases q p v p' :
  q_state (q_resolve p v q) p' = q_state q p' \/
  (p' = p /\ q_state q p = Pending /\ q_state (q_resolve p v q) p' = Fulfilled v).
Proof.
  unfold q_resolve. destruct (q_state q p) eqn:Hp; auto.
  destruct (q_settle_cases q p (Fulfilled v) p') as [H|[-> H]]; auto.
Qed.

Lemma q_reject_cases q p x p' :
  q_state (q_reject p x q) p' = q_state q p' \/
  (p' = p /\ q_state q p = Pending /\ q_state (q_reject p x q) p' = Rejected x).
Proof.
  unfold q_reject. destruct (q_state q p) eqn:Hp; auto.
  destruct (q_settle_cases q p (Rejected x) p') as [H|[-> H]]; auto.
Qed.

Lemma q_adopt_cases q p st p' :
  q_state (q_adopt p st q) p' = q_state q p' \/
  (p' = p /\ q_state q p = Locked /\ q_state (q_adopt p st q) p' = st).
Proof.
  unfold q_adopt. destruct (q_state q p) eqn:Hp; auto.
  destruct (q_settle_cases q p st p') as [H|[-> H]]; auto.
Qed.

Lemma q_follow_cases q p src ok err p' :
  q_state (q_follow p src ok err q) p' = q_state q p' \/
  (p' = p /\ q_state q p = Pending /\
   q_state (q_follow p src ok err q) p' = Locked).
Proof.
  unfold q_follow. destruct (q_state q p) eqn:Hp; auto.
  rewrite q_state_then.
  destruct (decide (p = p')) as [<-|Hne].
  - destruct (decide (p < length (q_states q))) as [Hlt|Hge].
    + right. split; [reflexivity|]. split; [reflexivity|].
      unfold q_state. cbn [q_states]. rewrite list_lookup_insert_eq by exact Hlt.
      reflexivity.
    + left. unfold q_state. cbn [q_states]. rewrite list_insert_ge by lia. reflexivity.
  - left. unfold q_state. cbn [q_states].
    rewrite list_lookup_insert_ne by exact Hne. reflexivity.
Qed.

Lemma q_resolve_valid q p v :
  p < length (q_states q) -> q_state q p = Pending ->
  q_state (q_resolve p v q) p = Fulfilled v.
Proof.
  intros Hlt Hp. unfold q_resolve. rewrite Hp, q_state_settle, decide_True by auto.
  reflexivity.
Qed.

Lemma q_follow_valid q p src ok err :
  p < length (q_states q) -> q_state q p = Pending ->
  q_state (q_follow p src ok err q) p = Locked.
Proof.
  intros Hlt Hp. unfold q_follow. rewrite Hp, q_state_then.
  unfold q_state. cbn [q_states]. rewrite list_lookup_insert_eq by exact Hlt. reflexivity.
Qed.

Lemma q_states_resolve_length q p v :
  length (q_states (q_resolve p v q)) = length (q_states q).
Proof.
  unfold q_resolve. destruct (q_state q p); try reflexivity. apply q_states_settle_length.
Qed.

Lemma q_states_reject_length q p x :
  length (q_states (q_reject p x q)) = length (q_states q).
Proof.
  unfold q_reject. destruct (q_state q p); try reflexivity. apply q_states_settle_length.
Qed.

Lemma q_states_adopt_length q p st :
  length (q_states (q_adopt p st q)) = length (q_states q).
Proof.
  unfold q_adopt. destruct (q_state q p); try reflexivity. apply q_states_settle_length.
Qed.

Lemma q_states_follow_length q p src ok err :
  length (q_states (q_follow p src ok err q)) = length (q_states q).
Proof.
  unfold q_follow. destruct (q_state q p); try reflexivity.
  rewrite q_states_then. cbn [q_states]. apply length_insert.
Qed.

Lemma q_state_invalid q p : length (q_states q) <= p -> q_state q p = Pending.
Proof. intros H. unfold q_state. rewrite lookup_ge_None_2 by exact H. reflexivity. Qed.

(** A continuation enters the store through [then] only on the side its
    promise can still take. *)
Lemma callbacks_then_cases q p ok err k :
  k ∈ callbacks (q_then p ok err q) ->
  k ∈ callbacks q \/ (k = ok /\ forall x, q_state q p <> Rejected x) \/
  (k = err /\ forall v, q_state q p <> Fulfilled v).
Proof.
  unfold q_then, callbacks.
  destruct (q_state q p) as [| |v|x] eqn:Hq; cbn [q_subs q_queue];
    rewrite ?flat_map_app, ?fmap_app, !elem_of_app;
    cbn [flat_map fmap list_fmap fst app sub_ok sub_err];
    rewrite ?elem_of_cons, ?elem_of_nil; intros H;
    repeat match goal with
           | H : _ \/ _ |- _ => destruct H
           | H : False |- _ => destruct H
           end; subst;
    first [ left; left; assumption
          | left; right; assumption
          | right; left; split; [reflexivity|discriminate]
          | right; right; split; [reflexivity|discriminate] ].
Qed.

Lemma elem_of_callbacks q k :
  k ∈ callbacks q ->
  (exists sub, sub ∈ q_subs q /\ (k = sub_ok sub \/ k = sub_err sub)) \/
  (exists t, t ∈ q_queue q /\ fst t = k).
Proof.
  unfold callbacks. rewrite elem_of_app. intros [H|H].
  - left. apply list_elem_of_In, in_flat_map in H as (sub & Hsub & Hk).
    exists sub. split; [apply list_elem_of_In; exact Hsub|].
    simpl in Hk. destruct Hk as [<-|[<-|[]]]; auto.
  - right. apply list_elem_of_fmap in H as (t & -> & Ht). eauto.
Qed.
End SettleCases.

Definition is_done (rid : nat) (k : LK) : bool :=
  match k with KDone rid' => Nat.eqb rid' rid | _ => false end.

Definition is_invoked (rid e : nat) (k : LK) : bool :=
  match k with
  | KInvoked rid' e' => Nat.eqb rid' rid && Nat.eqb e' e
  | _ => false
  end.

(** What the counting of [wait] looks at in a resolution: the result
    promise, [wait], [values], and the key and promise of each
    invocation. *)
Record View : Type := mkView {
  v_result : nat;
  v_wait : Z;
  v_values : Obj Val;
  v_ivs : list (string * nat)
}.

Definition view (r : Resolution) : View :=
  mkView (r_result r) (r_wait r) (r_values r)
         ((fun iv => (iv_key iv, iv_invocation iv)) <$> r_invocations r).

Definition views (s : Legacy) : list View := view <$> l_res s.

(** Invocation [e] has called [done]: its promise is fulfilled, the value
    is stored under its key, and its [KInvoked] continuation has run. *)
Definition closedv (q : Q LK) (rid : nat) (v : View) (e : nat) : Prop :=
  exists k px val,
    v_ivs v !! e = Some (k, px) /\ q_state q px = Fulfilled val /\
    get (v_values v) k = Some val /\ KInvoked rid e ∉ callbacks q.

(** [wait] still counts the parent while its [KDone] is held, the plan
    entries not yet processed ([d]), and every invocation that has not
    called [done]. *)
Definition tallied (d : Z) (q : Q LK) (rid : nat) (v : View) : Prop :=
  exists done_ : list nat,
    NoDup done_ /\ (forall e, e ∈ done_ -> closedv q rid v e) /\
    (Z.of_nat (occ (is_done rid) q) + d + Z.of_nat (length (v_ivs v))
     <= v_wait v + Z.of_nat (length done_))%Z.

(** The value [res] is an object that holds, under the key of each
    invocation, what the promise of that invocation was fulfilled with. *)
Definition fullv (q : Q LK) (v : View) (res : Val) : Prop :=
  exists vals, res = VObj vals /\
    forall e k px, v_ivs v !! e = Some (k, px) ->
      exists val, q_state q px = Fulfilled val /\ get vals k = Some val.

Record TallyV (x : nat -> Z) (q : Q LK) (vs : list View) (out : list (nat * Fate))
  : Prop := {
  tv_tallied : forall rid v, vs !! rid = Some v -> tallied (x rid) q rid v;
  tv_full : forall rid v res,
      vs !! rid = Some v -> q_state q (v_result v) = Fulfilled res ->
      fullv q v res /\ (v_wait v <= 0)%Z;
  tv_unlocked : forall rid v, vs !! rid = Some v -> q_state q (v_result v) <> Locked;
  tv_outside : forall rid v p f,
      vs !! rid = Some v -> (p, f) ∈ out -> p <> v_result v;
  tv_result_own : forall rid v rid' v',
      vs !! rid = Some v -> vs !! rid' = Some v' -> v_result v = v_result v' ->
      rid = rid';
  tv_started : forall rid e,
      KInvoked rid e ∈ callbacks q ->
      exists v k px, vs !! rid = Some v /\ v_ivs v !! e = Some (k, px) /\ started q px;
  tv_once : forall rid e, occ (is_invoked rid e) q <= 1;
  tv_known : forall rid, KDone rid ∈ callbacks q -> rid < length vs;
  tv_valid : forall rid v, vs !! rid = Some v -> v_result v < length (q_states q);
  tv_out_valid : forall p f, (p, f) ∈ out -> p < length (q_states q)
}.

Definition Tally (x : nat -> Z) (s : Legacy) : Prop :=
  TallyV x (l_q s) (views s) (l_outside s).

Definition zero : nat -> Z := fun _ => 0%Z.

Definition upd (x : nat -> Z) (rid : nat) (d : Z) : nat -> Z :=
  fun rid' => if decide (rid' = rid) then d else x rid'.

Lemma closedv_lt q rid v e : closedv q rid v e -> e < length (v_ivs v).
Proof. intros (k & px & val & He & _). eapply lookup_lt_Some. exact He. Qed.

Lemma done_length q rid v (done_ : list nat) :
  NoDup done_ -> (forall e, e ∈ done_ -> closedv q rid v e) ->
  length done_ <= length (v_ivs v).
Proof.
  intros Hnd Hcl.
  assert (Hsub : done_ ⊆+ seq 0 (length (v_ivs v))).
  { apply NoDup_submseteq; [exact Hnd|]. intros e He.
    apply elem_of_seq. pose proof (closedv_lt _ _ _ _ (Hcl e He)). lia. }
  apply submseteq_length in Hsub. rewrite length_seq in Hsub. exact Hsub.
Qed.

Lemma done_all q rid v (done_ : list nat) e :
  NoDup done_ -> (forall e, e ∈ done_ -> closedv q rid v e) ->
  length (v_ivs v) <= length done_ -> e < length (v_ivs v) -> e ∈ done_.
Proof.
  intros Hnd Hcl Hlen He.
  assert (Hsub : done_ ⊆+ seq 0 (length (v_ivs v))).
  { apply NoDup_submseteq; [exact Hnd|]. intros e' He'.
    apply elem_of_seq. pose proof (closedv_lt _ _ _ _ (Hcl e' He')). lia. }
  apply submseteq_length_Permutation in Hsub; [|rewrite length_seq; exact Hlen].
  rewrite Hsub. apply elem_of_seq. lia.
Qed.

Lemma TallyV_weaken x x' q vs out :
  (forall rid, (x' rid <= x rid)%Z) -> TallyV x q vs out -> TallyV x' q vs out.
Proof.
  intros Hx [Ht Hf Hu Ho Hr Hs Hn Hk Hv Hov]. constructor; try assumption.
  intros rid v Hrid. destruct (Ht rid v Hrid) as (done_ & Hnd & Hcl & Hle).
  exists done_. split; [exact Hnd|]. split; [exact Hcl|]. specialize (Hx rid). lia.
Qed.

(** A change of the promise store. *)
Lemma TallyV_q x x' q q' vs out out' :
  TallyV x q vs out ->
  length (q_states q) <= length (q_states q') ->
  (forall p val, q_state q p = Fulfilled val -> q_state q' p = Fulfilled val) ->
  (forall rid v, vs !! rid = Some v ->
     q_state q' (v_result v) <> Locked /\
     forall res, q_state q' (v_result v) = Fulfilled res ->
       q_state q (v_result v) = Fulfilled res \/
       (fullv q' v res /\ (v_wait v <= 0)%Z)) ->
  (forall rid, (Z.of_nat (occ (is_done rid) q') + x' rid
                <= Z.of_nat (occ (is_done rid) q) + x rid)%Z) ->
  (forall rid e, KInvoked rid e ∈ callbacks q' ->
     (KInvoked rid e ∈ callbacks q \/
      exists v k px, vs !! rid = Some v /\ v_ivs v !! e = Some (k, px) /\
                     forall val, q_state q px <> Fulfilled val) /\
     exists v k px, vs !! rid = Some v /\ v_ivs v !! e = Some (k, px) /\ started q' px) ->
  (forall rid e, occ (is_invoked rid e) q' <= 1) ->
  (forall rid, KDone rid ∈ callbacks q' -> rid < length vs) ->
  (forall y, y ∈ out' ->
     y ∈ out \/ (fst y < length (q_states q') /\
                 forall rid v, vs !! rid = Some v -> fst y <> v_result v)) ->
  TallyV x' q' vs out'.
Proof.
  intros [Ht Hf Hu Ho Hr Hs Hn Hk Hv Hov] Hlen Hful Hres Hocc Hinv Honce Hknown Hout.
  constructor.
  - intros rid v Hrid. destruct (Ht rid v Hrid) as (done_ & Hnd & Hcl & Hle).
    exists done_. split; [exact Hnd|]. split; [|specialize (Hocc rid); lia].
    intros e He. destruct (Hcl e He) as (k & px & val & Hlook & Hpx & Hval & Hnot).
    exists k, px, val. split; [exact Hlook|]. split; [apply Hful; exact Hpx|].
    split; [exact Hval|]. intros Hin.
    destruct (Hinv rid e Hin) as [[Hold|(v0 & k0 & px0 & Hv0 & Hl0 & Hnf)] _].
    + exact (Hnot Hold).
    + rewrite Hrid in Hv0. injection Hv0 as <-. rewrite Hlook in Hl0.
      injection Hl0 as <- <-. exact (Hnf val Hpx).
  - intros rid v res Hrid Hq. destruct (Hres rid v Hrid) as [_ Hcase].
    destruct (Hcase res Hq) as [Hold|Hnew]; [|exact Hnew].
    destruct (Hf rid v res Hrid Hold) as [(vals & -> & Hall) Hw].
    split; [|exact Hw]. exists vals. split; [reflexivity|].
    intros e k px Hlook. destruct (Hall e k px Hlook) as (val & Hpx & Hval).
    exists val. split; [apply Hful; exact Hpx|exact Hval].
  - intros rid v Hrid. apply (Hres rid v Hrid).
  - intros rid v p f Hrid Hin. destruct (Hout (p, f) Hin) as [Hold|[_ Hnew]].
    + exact (Ho rid v p f Hrid Hold).
    + exact (Hnew rid v Hrid).
  - exact Hr.
  - intros rid e Hin. apply (Hinv rid e Hin).
  - exact Honce.
  - exact Hknown.
  - intros rid v Hrid. specialize (Hv rid v Hrid). lia.
  - intros p f Hin. destruct (Hout (p, f) Hin) as [Hold|[Hnew _]].
    + specialize (Hov p f Hold). lia.
    + exact Hnew.
Qed.

(** A change that adds no [KInvoked] and no [KDone], fulfils and locks no
    result promise, and keeps started promises started. *)
Lemma TallyV_quiet x q q' vs out out' :
  TallyV x q vs out ->
  length (q_states q) <= length (q_states q') ->
  (forall p val, q_state q p = Fulfilled val -> q_state q' p = Fulfilled val) ->
  (forall p, q_state q p = Locked -> started q' p) ->
  (forall rid v, vs !! rid = Some v ->
     q_state q' (v_result v) <> Locked /\
     forall res, q_state q' (v_result v) = Fulfilled res ->
       q_state q (v_result v) = Fulfilled res) ->
  (forall rid e, KInvoked rid e ∈ callbacks q' -> KInvoked rid e ∈ callbacks q) ->
  (forall rid, KDone rid ∈ callbacks q' -> KDone rid ∈ callbacks q) ->
  (forall rid, occ (is_done rid) q' <= occ (is_done rid) q) ->
  (forall rid e, occ (is_invoked rid e) q' <= occ (is_invoked rid e) q) ->
  (forall y, y ∈ out' ->
     y ∈ out \/ (fst y < length (q_states q') /\
                 forall rid v, vs !! rid = Some v -> fst y <> v_result v)) ->
  TallyV x q' vs out'.
Proof.
  intros H Hlen Hful Hlock Hres Hinv Hdone Hod Hoi Hout.
  apply (TallyV_q x x q q' vs out out' H Hlen Hful); try assumption.
  - intros rid v Hrid. destruct (Hres rid v Hrid) as [Hl Hf].
    split; [exact Hl|]. intros res Hq. left. apply Hf. exact Hq.
  - intros rid. specialize (Hod rid). lia.
  - intros rid e Hin. pose proof (Hinv rid e Hin) as Hold. split; [left; exact Hold|].
    destruct (tv_started _ _ _ _ H rid e Hold) as (v & k & px & Hv & Hl & Hst).
    exists v, k, px. split; [exact Hv|]. split; [exact Hl|].
    destruct Hst as [Hst|[val Hst]]; [apply Hlock; exact Hst|].
    right. exists val. apply Hful. exact Hst.
  - intros rid e. pose proof (Hoi rid e). pose proof (tv_once _ _ _ _ H rid e). lia.
  - intros rid Hin. apply (tv_known _ _ _ _ H). apply Hdone. exact Hin.
Qed.

(** A change of one resolution that keeps its result promise and its
    invocations. *)
Lemma TallyV_alter x x' q vs out rid (g : View -> View) :
  TallyV x q vs out ->
  (forall v, vs !! rid = Some v ->
     v_result (g v) = v_result v /\ v_ivs (g v) = v_ivs v /\
     (forall e, closedv q rid v e -> closedv q rid (g v) e) /\
     (x' rid - v_wait (g v) <= x rid - v_wait v)%Z /\
     (v_wait (g v) <= v_wait v)%Z) ->
  (forall rid', rid' <> rid -> (x' rid' <= x rid')%Z) ->
  TallyV x' q (alter g rid vs) out.
Proof.
  intros [Ht Hf Hu Ho Hr Hs Hn Hk Hv Hov] Hg Hx.
  assert (Hback : forall rid' v', alter g rid vs !! rid' = Some v' ->
            exists v, vs !! rid' = Some v /\
                      v_result v' = v_result v /\ v_ivs v' = v_ivs v /\
                      (rid' <> rid -> v' = v) /\ (rid' = rid -> v' = g v)).
  { intros rid' v' Hl. rewrite list_lookup_alter in Hl.
    destruct (decide (rid = rid')) as [<-|Hne].
    - destruct (vs !! rid) as [v|] eqn:Hvs; simpl in Hl; [|discriminate].
      injection Hl as <-. exists v. destruct (Hg v eq_refl) as (H1 & H2 & _).
      split; [reflexivity|]. split; [exact H1|]. split; [exact H2|].
      split; [congruence|reflexivity].
    - exists v'. split; [exact Hl|]. split; [reflexivity|]. split; [reflexivity|].
      split; [reflexivity|congruence]. }
  constructor.
  - intros rid' v' Hl. destruct (Hback rid' v' Hl) as (v & Hvs & Hres & Hivs & Hne & Heq).
    destruct (Ht rid' v Hvs) as (done_ & Hnd & Hcl & Hle).
    exists done_. split; [exact Hnd|].
    destruct (decide (rid' = rid)) as [->|Hd].
    + rewrite (Heq eq_refl). destruct (Hg v Hvs) as (_ & Hi & Hc & Hw & _).
      split; [intros e He; apply Hc, Hcl, He|]. rewrite Hi. lia.
    + rewrite (Hne Hd). split; [exact Hcl|]. specialize (Hx rid' Hd). lia.
  - intros rid' v' res Hl Hq.
    destruct (Hback rid' v' Hl) as (v & Hvs & Hres & Hivs & Hne & Heq).
    rewrite Hres in Hq. destruct (Hf rid' v res Hvs Hq) as [(vals & -> & Hall) Hw].
    split.
    + exists vals. split; [reflexivity|]. rewrite Hivs. exact Hall.
    + destruct (decide (rid' = rid)) as [->|Hd].
      * rewrite (Heq eq_refl). destruct (Hg v Hvs) as (_ & _ & _ & _ & Hw'). lia.
      * rewrite (Hne Hd). exact Hw.
  - intros rid' v' Hl. destruct (Hback rid' v' Hl) as (v & Hvs & Hres & _).
    rewrite Hres. exact (Hu rid' v Hvs).
  - intros rid' v' p f Hl Hin. destruct (Hback rid' v' Hl) as (v & Hvs & Hres & _).
    rewrite Hres. exact (Ho rid' v p f Hvs Hin).
  - intros r1 v1 r2 v2 H1 H2 Heq.
    destruct (Hback r1 v1 H1) as (w1 & Hw1 & Hres1 & _).
    destruct (Hback r2 v2 H2) as (w2 & Hw2 & Hres2 & _).
    apply (Hr r1 w1 r2 w2 Hw1 Hw2). congruence.
  - intros rid' e Hin. destruct (Hs rid' e Hin) as (v & k & px & Hvs & Hl & Hst).
    destruct (decide (rid' = rid)) as [->|Hd].
    + exists (g v), k, px. rewrite list_lookup_alter, decide_True, Hvs by reflexivity.
      split; [reflexivity|]. destruct (Hg v Hvs) as (_ & -> & _). auto.
    + exists v, k, px. rewrite list_lookup_alter, decide_False by congruence. auto.
  - exact Hn.
  - intros rid' Hin. rewrite length_alter. exact (Hk rid' Hin).
  - intros rid' v' Hl. destruct (Hback rid' v' Hl) as (v & Hvs & Hres & _).
    rewrite Hres. exact (Hv rid' v Hvs).
  - exact Hov.
Qed.

(** [__invoke] adds an invocation to the resolution being set up. *)
Lemma TallyV_push_iv x q vs out rid key px :
  TallyV x q vs out -> (1 <= x rid)%Z ->
  TallyV (upd x rid (x rid - 1)%Z) q
         (alter (fun v => mkView (v_result v) (v_wait v) (v_values v)
                                 (v_ivs v ++ [(key, px)])) rid vs) out.
Proof.
  intros H Hx. pose proof H as [Ht Hf Hu Ho Hr Hs Hn Hk Hv Hov].
  set (g := fun v => mkView (v_result v) (v_wait v) (v_values v) (v_ivs v ++ [(key, px)])).
  assert (Hback : forall rid' v', alter g rid vs !! rid' = Some v' ->
            exists v, vs !! rid' = Some v /\ v_result v' = v_result v /\
                      (rid' <> rid -> v' = v) /\ (rid' = rid -> v' = g v)).
  { intros rid' v' Hl. rewrite list_lookup_alter in Hl.
    destruct (decide (rid = rid')) as [<-|Hne].
    - destruct (vs !! rid) as [v|] eqn:Hvs; simpl in Hl; [|discriminate].
      injection Hl as <-. exists v. split; [reflexivity|]. split; [reflexivity|].
      split; [congruence|reflexivity].
    - exists v'. split; [exact Hl|]. split; [reflexivity|].
      split; [reflexivity|congruence]. }
  assert (Hwait : forall v, vs !! rid = Some v -> (1 <= v_wait v)%Z).
  { intros v Hvs. destruct (Ht rid v Hvs) as (done_ & Hnd & Hcl & Hle).
    pose proof (done_length q rid v done_ Hnd Hcl). lia. }
  constructor.
  - intros rid' v' Hl. destruct (Hback rid' v' Hl) as (v & Hvs & Hres & Hne & Heq).
    destruct (Ht rid' v Hvs) as (done_ & Hnd & Hcl & Hle).
    exists done_. split; [exact Hnd|]. unfold upd.
    destruct (decide (rid' = rid)) as [->|Hd].
    + rewrite (Heq eq_refl). split.
      * intros e He. destruct (Hcl e He) as (k & p & val & Hlook & Hp & Hval & Hnot).
        exists k, p, val. split; [|auto]. unfold g. cbn [v_ivs].
        apply lookup_app_l_Some. exact Hlook.
      * unfold g. cbn [v_ivs v_wait]. rewrite length_app. cbn [length]. lia.
    + rewrite (Hne Hd). split; [exact Hcl|exact Hle].
  - intros rid' v' res Hl Hq.
    destruct (Hback rid' v' Hl) as (v & Hvs & Hres & Hne & Heq).
    rewrite Hres in Hq. destruct (Hf rid' v res Hvs Hq) as [Hfull Hw].
    destruct (decide (rid' = rid)) as [->|Hd].
    + specialize (Hwait v Hvs). lia.
    + rewrite (Hne Hd). auto.
  - intros rid' v' Hl. destruct (Hback rid' v' Hl) as (v & Hvs & Hres & _).
    rewrite Hres. exact (Hu rid' v Hvs).
  - intros rid' v' p f Hl Hin. destruct (Hback rid' v' Hl) as (v & Hvs & Hres & _).
    rewrite Hres. exact (Ho rid' v p f Hvs Hin).
  - intros r1 v1 r2 v2 H1 H2 Heq.
    destruct (Hback r1 v1 H1) as (w1 & Hw1 & Hres1 & _).
    destruct (Hback r2 v2 H2) as (w2 & Hw2 & Hres2 & _).
    apply (Hr r1 w1 r2 w2 Hw1 Hw2). congruence.
  - intros rid' e Hin. destruct (Hs rid' e Hin) as (v & k & p & Hvs & Hl & Hst).
    destruct (decide (rid' = rid)) as [->|Hd].
    + exists (g v), k, p. rewrite list_lookup_alter, decide_True, Hvs by reflexivity.
      split; [reflexivity|]. split; [|exact Hst]. unfold g. cbn [v_ivs].
      apply lookup_app_l_Some. exact Hl.
    + exists v, k, p. rewrite list_lookup_alter, decide_False by congruence. auto.
  - exact Hn.
  - intros rid' Hin. rewrite length_alter. exact (Hk rid' Hin).
  - intros rid' v' Hl. destruct (Hback rid' v' Hl) as (v & Hvs & Hres & _).
    rewrite Hres. exact (Hv rid' v Hvs).
  - exact Hov.
Qed.

(** A call of the returned function adds a resolution whose result
    promise is fresh. *)
Lemma TallyV_push_res x q vs out values (n : nat) :
  TallyV x q vs out ->
  TallyV (upd x (length vs) (1 + Z.of_nat n)%Z) (snd (q_defer q))
         (vs ++ [mkView (length (q_states q)) (1 + Z.of_nat n)%Z values []]) out.
Proof.
  intros H. pose proof H as [Ht Hf Hu Ho Hr Hs Hn Hk Hv Hov].
  set (v0 := mkView (length (q_states q)) (1 + Z.of_nat n)%Z values []).
  assert (Hback : forall rid v, (vs ++ [v0]) !! rid = Some v ->
            (vs !! rid = Some v /\ rid < length vs) \/ (rid = length vs /\ v = v0)).
  { intros rid v Hl. apply lookup_app_Some in Hl as [Hl|[Hge Hl]].
    - left. split; [exact Hl|]. eapply lookup_lt_Some. exact Hl.
    - right. destruct (rid - length vs) as [|m] eqn:Hm; simpl in Hl; [|discriminate].
      injection Hl as <-. split; [lia|reflexivity]. }
  assert (Hnodone : occ (is_done (length vs)) q = 0).
  { apply tally_zero. intros k Hin. destruct k as [rid| | | | | |]; try reflexivity.
    simpl. destruct (Nat.eqb_spec rid (length vs)) as [->|Hne]; [|reflexivity].
    pose proof (Hk _ Hin). lia. }
  constructor.
  - intros rid v Hl. unfold upd. destruct (Hback rid v Hl) as [[Hvs Hlt]|[-> ->]].
    + rewrite decide_False by lia.
      destruct (Ht rid v Hvs) as (done_ & Hnd & Hcl & Hle).
      exists done_. split; [exact Hnd|]. split; [|exact Hle].
      intros e He. destruct (Hcl e He) as (k & p & val & Hlook & Hp & Hval & Hnot).
      exists k, p, val. rewrite q_state_defer. auto.
    + rewrite decide_True by reflexivity. exists []. split; [apply NoDup_nil_2|].
      split; [intros e He; inversion He|].
      change (occ (is_done (length vs)) (snd (q_defer q)))
        with (occ (is_done (length vs)) q).
      rewrite Hnodone. unfold v0. cbn [v_ivs v_wait length]. lia.
  - intros rid v res Hl Hq. rewrite q_state_defer in Hq.
    destruct (Hback rid v Hl) as [[Hvs Hlt]|[-> ->]].
    + destruct (Hf rid v res Hvs Hq) as [(vals & -> & Hall) Hw]. split; [|exact Hw].
      exists vals. split; [reflexivity|]. intros e k p Hlook.
      destruct (Hall e k p Hlook) as (val & Hp & Hval). exists val.
      rewrite q_state_defer. auto.
    + unfold v0 in Hq. cbn [v_result] in Hq.
      rewrite q_state_invalid in Hq by lia. discriminate.
  - intros rid v Hl. rewrite q_state_defer.
    destruct (Hback rid v Hl) as [[Hvs Hlt]|[-> ->]]; [exact (Hu rid v Hvs)|].
    unfold v0. cbn [v_result]. rewrite q_state_invalid by lia. discriminate.
  - intros rid v p f Hl Hin. destruct (Hback rid v Hl) as [[Hvs Hlt]|[-> ->]].
    + exact (Ho rid v p f Hvs Hin).
    + unfold v0. cbn [v_result]. pose proof (Hov p f Hin). lia.
  - intros r1 v1 r2 v2 H1 H2 Heq.
    destruct (Hback r1 v1 H1) as [[Hv1 Hlt1]|[-> ->]];
      destruct (Hback r2 v2 H2) as [[Hv2 Hlt2]|[-> ->]].
    + exact (Hr r1 v1 r2 v2 Hv1 Hv2 Heq).
    + pose proof (Hv r1 v1 Hv1). unfold v0 in Heq. cbn [v_result] in Heq. lia.
    + pose proof (Hv r2 v2 Hv2). unfold v0 in Heq. cbn [v_result] in Heq. lia.
    + reflexivity.
  - intros rid e Hin. change (callbacks (snd (q_defer q))) with (callbacks q) in Hin.
    destruct (Hs rid e Hin) as (v & k & p & Hvs & Hl & Hst).
    exists v, k, p. split; [apply lookup_app_l_Some; exact Hvs|]. split; [exact Hl|].
    unfold started. rewrite !q_state_defer. exact Hst.
  - exact Hn.
  - intros rid Hin. change (callbacks (snd (q_defer q))) with (callbacks q) in Hin.
    rewrite length_app. pose proof (Hk rid Hin). simpl. lia.
  - intros rid v Hl. unfold q_defer. cbn [snd q_states]. rewrite length_app. simpl.
    destruct (Hback rid v Hl) as [[Hvs Hlt]|[-> ->]].
    + pose proof (Hv rid v Hvs). lia.
    + unfold v0. cbn [v_result]. lia.
  - intros p f Hin. unfold q_defer. cbn [snd q_states]. rewrite length_app. simpl.
    pose proof (Hov p f Hin). lia.
Qed.

Lemma views_lookup s rid v :
  views s !! rid = Some v -> exists r, l_res s !! rid = Some r /\ v = view r.
Proof.
  unfold views. rewrite list_lookup_fmap.
  destruct (l_res s !! rid) as [r|]; simpl; [|discriminate].
  intros [= <-]. eauto.
Qed.

Lemma views_lookup_2 s rid r :
  l_res s !! rid = Some r -> views s !! rid = Some (view r).
Proof. intros H. unfold views. rewrite list_lookup_fmap, H. reflexivity. Qed.

Lemma view_ivs_lookup r e k px :
  v_ivs (view r) !! e = Some (k, px) ->
  exists iv, r_invocations r !! e = Some iv /\ iv_key iv = k /\ iv_invocation iv = px.
Proof.
  unfold view. cbn [v_ivs]. rewrite list_lookup_fmap.
  destruct (r_invocations r !! e) as [iv|] eqn:Hiv; simpl; [|discriminate].
  intros [= <- <-]. eauto.
Qed.

Lemma view_ivs_lookup_2 r e iv :
  r_invocations r !! e = Some iv ->
  v_ivs (view r) !! e = Some (iv_key iv, iv_invocation iv).
Proof. intros H. unfold view. cbn [v_ivs]. rewrite list_lookup_fmap, H. reflexivity. Qed.

Lemma views_with_res rid f (g : View -> View) s :
  (forall r, view (f r) = g (view r)) ->
  views (with_res rid f s) = alter g rid (views s).
Proof.
  intros Hf. unfold views, with_res. cbn [l_res].
  apply list_eq. intros i. rewrite list_lookup_fmap, !list_lookup_alter.
  destruct (decide (rid = i)) as [->|Hne]; [|rewrite list_lookup_fmap; reflexivity].
  rewrite list_lookup_fmap. destruct (l_res s !! i) as [r|]; simpl; [|reflexivity].
  rewrite Hf. reflexivity.
Qed.

Lemma views_with_res_same rid f s :
  (forall r, view (f r) = view r) -> views (with_res rid f s) = views s.
Proof.
  intros Hf. rewrite (views_with_res rid f (fun v => v)) by exact Hf.
  apply list_eq. intros i. rewrite list_lookup_alter.
  destruct (decide (rid = i)) as [->|Hne]; [|reflexivity].
  destruct (views s !! i); reflexivity.
Qed.

Lemma view_set_waitParams (g : Invocation -> Invocation) eid r :
  (forall iv, iv_key (g iv) = iv_key iv /\ iv_invocation (g iv) = iv_invocation iv) ->
  view (set_invocations (alter g eid (r_invocations r)) r) = view r.
Proof.
  intros Hg. unfold view. cbn [r_result r_wait r_values r_invocations set_invocations].
  f_equal. apply list_eq. intros i. rewrite !list_lookup_fmap, list_lookup_alter.
  destruct (decide (eid = i)) as [->|Hne]; [|reflexivity].
  destruct (r_invocations r !! i) as [iv|]; simpl; [|reflexivity].
  destruct (Hg iv) as [-> ->]. reflexivity.
Qed.

Lemma views_with_invocation rid eid g s :
  (forall iv, iv_key (g iv) = iv_key iv /\ iv_invocation (g iv) = iv_invocation iv) ->
  views (with_invocation rid eid g s) = views s.
Proof.
  intros Hg. unfold with_invocation. apply views_with_res_same.
  intros r. apply view_set_waitParams. exact Hg.
Qed.

Lemma Tally_eq x s s' :
  l_q s' = l_q s -> views s' = views s -> l_outside s' = l_outside s ->
  Tally x s -> Tally x s'.
Proof. unfold Tally. intros -> -> ->. auto. Qed.

Lemma Tally_weaken x x' s :
  (forall rid, (x' rid <= x rid)%Z) -> Tally x s -> Tally x' s.
Proof. apply TallyV_weaken. Qed.

Lemma upd_le x rid d : (d <= x rid)%Z -> forall rid', (upd x rid d rid' <= x rid')%Z.
Proof. intros H rid'. unfold upd. destruct (decide (rid' = rid)) as [->|]; lia. Qed.

Section KeepFacts.
Context {K : Type}.
Implicit Types (q : Q K) (p : nat).

Lemma resolve_keeps q p v p' :
  q_state q p' <> Pending -> q_state (q_resolve p v q) p' = q_state q p'.
Proof.
  intros H. destruct (q_resolve_cases q p v p') as [Hs|(-> & Hp & _)]; [exact Hs|].
  contradiction.
Qed.

Lemma reject_keeps q p x p' :
  q_state q p' <> Pending -> q_state (q_reject p x q) p' = q_state q p'.
Proof.
  intros H. destruct (q_reject_cases q p x p') as [Hs|(-> & Hp & _)]; [exact Hs|].
  contradiction.
Qed.

Lemma adopt_keeps q p st p' :
  q_state q p' <> Locked -> q_state (q_adopt p st q) p' = q_state q p'.
Proof.
  intros H. destruct (q_adopt_cases q p st p') as [Hs|(-> & Hp & _)]; [exact Hs|].
  contradiction.
Qed.

Lemma follow_keeps q p src ok err p' :
  q_state q p' <> Pending -> q_state (q_follow p src ok err q) p' = q_state q p'.
Proof.
  intros H. destruct (q_follow_cases q p src ok err p') as [Hs|(-> & Hp & _)];
    [exact Hs|]. contradiction.
Qed.
End KeepFacts.

(** [deferred.reject] on any promise. *)
Lemma Tally_reject x s p e : Tally x s -> Tally x (with_q (q_reject p e) s).
Proof.
  intros H. unfold Tally in *. cbn [with_q l_q l_outside].
  change (views (with_q (q_reject p e) s)) with (views s).
  apply (TallyV_quiet x (l_q s) _ (views s) (l_outside s) _ H).
  - rewrite q_states_reject_length. lia.
  - intros p' val Hp. rewrite reject_keeps; [exact Hp|]. rewrite Hp. discriminate.
  - intros p' Hp. left. rewrite reject_keeps; [exact Hp|]. rewrite Hp. discriminate.
  - intros rid v Hv. pose proof (tv_unlocked _ _ _ _ H rid v Hv) as Hu.
    destruct (q_reject_cases (l_q s) p e (v_result v)) as [Hs|(_ & _ & Hs)]; rewrite Hs.
    + split; [exact Hu|]. auto.
    + split; [discriminate|]. discriminate.
  - intros rid e0. apply callbacks_reject.
  - intros rid. apply callbacks_reject.
  - intros rid. apply occ_reject_le.
  - intros rid e0. apply occ_reject_le.
  - auto.
Qed.

Lemma Tally_fail x s rid reason : Tally x s -> Tally x (fail rid reason s).
Proof.
  intros H. unfold fail. destruct (l_res s !! rid) as [r|]; [|exact H].
  apply Tally_reject.
  apply (Tally_eq x s); [reflexivity|apply views_with_res_same; reflexivity
                        |reflexivity|exact H].
Qed.

Lemma Tally_onfailure x s rid eid reason :
  Tally x s -> Tally x (onfailure rid eid reason s).
Proof.
  intros H. unfold onfailure. destruct (invocation s rid eid) as [iv|]; [|exact H].
  apply Tally_fail, Tally_reject, H.
Qed.

(** [then] with continuations that are neither [KInvoked] nor [KDone]. *)
Lemma Tally_then x s p ok err :
  (forall rid e, is_invoked rid e ok = false /\ is_invoked rid e err = false) ->
  (forall rid, is_done rid ok = false /\ is_done rid err = false) ->
  Tally x s -> Tally x (with_q (q_then p ok err) s).
Proof.
  intros Hi Hd H. unfold Tally in *. cbn [with_q l_q l_outside].
  change (views (with_q (q_then p ok err) s)) with (views s).
  apply (TallyV_quiet x (l_q s) _ (views s) (l_outside s) _ H).
  - rewrite q_states_then. lia.
  - intros p' val Hp. rewrite q_state_then. exact Hp.
  - intros p' Hp. left. rewrite q_state_then. exact Hp.
  - intros rid v Hv. rewrite q_state_then.
    split; [exact (tv_unlocked _ _ _ _ H rid v Hv)|auto].
  - intros rid e Hin. apply callbacks_then in Hin as [Hin|[Heq|Heq]]; [exact Hin| |].
    + destruct (Hi rid e) as [Hc _]. rewrite <- Heq in Hc. simpl in Hc.
      rewrite !Nat.eqb_refl in Hc. discriminate.
    + destruct (Hi rid e) as [_ Hc]. rewrite <- Heq in Hc. simpl in Hc.
      rewrite !Nat.eqb_refl in Hc. discriminate.
  - intros rid Hin. apply callbacks_then in Hin as [Hin|[Heq|Heq]]; [exact Hin| |].
    + destruct (Hd rid) as [Hc _]. rewrite <- Heq in Hc. simpl in Hc.
      rewrite Nat.eqb_refl in Hc. discriminate.
    + destruct (Hd rid) as [_ Hc]. rewrite <- Heq in Hc. simpl in Hc.
      rewrite Nat.eqb_refl in Hc. discriminate.
  - intros rid. rewrite occ_then_eq; [lia|apply Hd|apply Hd].
  - intros rid e. rewrite occ_then_eq; [lia|apply Hi|apply Hi].
  - auto.
Qed.

(** [parent.then(done, fail)]: the parent takes one unit of [wait]. *)
Lemma Tally_then_done x s p rid :
  Tally x s -> rid < length (views s) ->
  Tally (upd x rid (x rid - 1)%Z) (with_q (q_then p (KDone rid) (KFail rid)) s).
Proof.
  intros H Hrid. unfold Tally in *. cbn [with_q l_q l_outside].
  change (views (with_q (q_then p (KDone rid) (KFail rid)) s)) with (views s).
  apply (TallyV_q x _ (l_q s) _ _ (l_outside s)); try exact H.
  - rewrite q_states_then. lia.
  - intros p' val Hp. rewrite q_state_then. exact Hp.
  - intros rid' v Hv. rewrite q_state_then.
    split; [exact (tv_unlocked _ _ _ _ H rid' v Hv)|auto].
  - intros rid'. pose proof (occ_then_le (is_done rid') (l_q s) p (KDone rid) (KFail rid))
      as Hle. unfold one, upd in *. cbn [is_done] in Hle.
    destruct (decide (rid' = rid)) as [->|Hne].
    + rewrite Nat.eqb_refl in Hle. lia.
    + destruct (Nat.eqb_spec rid rid') as [Heq|_]; [congruence|]. lia.
  - intros rid' e Hin. apply callbacks_then in Hin as [Hin|[Heq|Heq]]; try discriminate.
    split; [left; exact Hin|].
    destruct (tv_started _ _ _ _ H rid' e Hin) as (v & k & px & Hv & Hl & Hst).
    exists v, k, px. split; [exact Hv|]. split; [exact Hl|].
    unfold started. rewrite !q_state_then. exact Hst.
  - intros rid' e. rewrite occ_then_eq by reflexivity. apply (tv_once _ _ _ _ H).
  - intros rid' Hin. apply callbacks_then in Hin as [Hin|[Heq|Heq]]; try discriminate.
    + exact (tv_known _ _ _ _ H rid' Hin).
    + injection Heq as ->. exact Hrid.
  - auto.
Qed.

(** The oldest continuation leaves the queue. *)
Lemma Tally_pop x s k arg rest :
  q_queue (l_q s) = (k, arg) :: rest -> Tally x s ->
  Tally (fun rid => (x rid + if is_done rid k then 1 else 0)%Z)
        (with_q (fun q => mkQ (q_states q) (q_subs q) rest) s).
Proof.
  intros Hq H. unfold Tally in *. cbn [with_q l_q l_outside].
  change (views (with_q (fun q => mkQ (q_states q) (q_subs q) rest) s)) with (views s).
  apply (TallyV_q x _ (l_q s) _ _ (l_outside s)); try exact H.
  - reflexivity.
  - auto.
  - intros rid v Hv. split; [exact (tv_unlocked _ _ _ _ H rid v Hv)|auto].
  - intros rid. rewrite (occ_pop (is_done rid) (l_q s) k arg rest Hq). unfold one.
    destruct (is_done rid k); lia.
  - intros rid e Hin. apply (callbacks_pop _ _ _ _ _ Hq) in Hin.
    split; [left; exact Hin|]. exact (tv_started _ _ _ _ H rid e Hin).
  - intros rid e. pose proof (tv_once _ _ _ _ H rid e) as Hle.
    rewrite (occ_pop (is_invoked rid e) (l_q s) k arg rest Hq) in Hle. lia.
  - intros rid Hin. apply (callbacks_pop _ _ _ _ _ Hq) in Hin.
    exact (tv_known _ _ _ _ H rid Hin).
  - auto.
Qed.

(** [resolution.resolve(values)] once [wait] is zero: every invocation
    has called [done]. *)
Lemma TallyV_fulfil x q vs out rid v :
  TallyV x q vs out -> vs !! rid = Some v -> v_wait v = 0%Z -> (0 <= x rid)%Z ->
  TallyV x (q_resolve (v_result v) (VObj (v_values v)) q) vs out.
Proof.
  intros H Hv Hw Hx.
  apply (TallyV_q x x q _ vs out out H).
  - rewrite q_states_resolve_length. lia.
  - intros p val Hp. rewrite resolve_keeps; [exact Hp|]. rewrite Hp. discriminate.
  - intros rid' v' Hv'. pose proof (tv_unlocked _ _ _ _ H rid' v' Hv') as Hu.
    destruct (q_resolve_cases q (v_result v) (VObj (v_values v)) (v_result v'))
      as [Hs|(Heq & Hpend & Hs)]; rewrite Hs.
    + split; [exact Hu|]. auto.
    + split; [discriminate|]. intros res [= <-]. right.
      assert (rid' = rid) by (apply (tv_result_own _ _ _ _ H rid' v' rid v Hv' Hv Heq)).
      subst rid'. rewrite Hv in Hv'. injection Hv' as <-.
      split; [|lia]. exists (v_values v). split; [reflexivity|].
      intros e k px Hl.
      destruct (tv_tallied _ _ _ _ H rid v Hv) as (done_ & Hnd & Hcl & Hle).
      assert (He : e ∈ done_).
      { apply (done_all q rid v done_ e Hnd Hcl); [lia|]. eapply lookup_lt_Some. exact Hl. }
      destruct (Hcl e He) as (k' & px' & val & Hl' & Hpx & Hval & _).
      rewrite Hl in Hl'. injection Hl' as <- <-. exists val. split; [|exact Hval].
      rewrite resolve_keeps; [exact Hpx|]. rewrite Hpx. discriminate.
  - intros rid'. pose proof (occ_resolve_le (is_done rid') q (v_result v) (VObj (v_values v))).
    lia.
  - intros rid' e Hin. apply callbacks_resolve in Hin. split; [left; exact Hin|].
    destruct (tv_started _ _ _ _ H rid' e Hin) as (v' & k & px & Hv' & Hl & Hst).
    exists v', k, px. split; [exact Hv'|]. split; [exact Hl|].
    destruct Hst as [Hst|[val Hst]]; [left|right; exists val];
      (rewrite resolve_keeps; [exact Hst|rewrite Hst; discriminate]).
  - intros rid' e.
    pose proof (occ_resolve_le (is_invoked rid' e) q (v_result v) (VObj (v_values v))).
    pose proof (tv_once _ _ _ _ H rid' e). lia.
  - intros rid' Hin. apply callbacks_resolve in Hin. exact (tv_known _ _ _ _ H rid' Hin).
  - auto.
Qed.

Lemma get_merge_keep {A : Type} (dst src : Obj A) k v :
  get dst k = Some v -> get (merge dst src) k = Some v.
Proof. intros H. rewrite get_merge; [exact H|]. rewrite H. discriminate. Qed.

Lemma closedv_values q rid v values e :
  (forall k val, get (v_values v) k = Some val -> get values k = Some val) ->
  forall wait,
  closedv q rid v e ->
  closedv q rid (mkView (v_result v) wait values (v_ivs v)) e.
Proof.
  intros Hk wait (k & px & val & Hl & Hp & Hval & Hnot).
  exists k, px, val. cbn [v_ivs v_values]. auto.
Qed.

(** [function done()]. *)
Lemma Tally_done x s rid :
  Tally x s -> (1 <= x rid)%Z -> Tally (upd x rid (x rid - 1)%Z) (done rid s).
Proof.
  intros H Hx. unfold done. destruct (l_res s !! rid) as [r|] eqn:Hr.
  2:{ apply (Tally_weaken x); [apply upd_le; lia|exact H]. }
  pose proof (views_lookup_2 s rid r Hr) as Hv.
  destruct (r_wait r - 1 =? 0)%Z eqn:Hw.
  - apply Z.eqb_eq in Hw.
    set (values := if r_merged r then r_values r
                   else merge (r_values r) (default [] (parent_values s (r_parent r)))).
    set (g := fun v => mkView (v_result v) (r_wait r - 1)%Z values (v_ivs v)).
    set (s1 := with_res rid
                 (fun r0 => set_inherited None
                              (set_published true
                                 (set_values values (set_wait (r_wait r - 1)%Z r0)))) s).
    assert (Hviews : views s1 = alter g rid (views s)).
    { apply views_with_res. reflexivity. }
    assert (H1 : Tally (upd x rid (x rid - 1)%Z) s1).
    { unfold Tally. change (l_q s1) with (l_q s). change (l_outside s1) with (l_outside s).
      rewrite Hviews. apply (TallyV_alter x); [exact H| |].
      - intros v Hv'. rewrite Hv in Hv'. injection Hv' as <-.
        split; [reflexivity|]. split; [reflexivity|]. split.
        + intros e. apply closedv_values. intros k val Hk. unfold values.
          destruct (r_merged r); [exact Hk|apply get_merge_keep; exact Hk].
        + unfold g, upd. cbn [v_wait view]. rewrite decide_True by reflexivity. lia.
      - intros rid' Hne. unfold upd. rewrite decide_False by exact Hne. lia. }
    assert (Hv1 : views s1 !! rid = Some (g (view r))).
    { rewrite Hviews, list_lookup_alter, decide_True, Hv by reflexivity. reflexivity. }
    pose proof (TallyV_fulfil _ _ _ _ rid (g (view r)) H1 Hv1) as H2.
    unfold g in H2 at 1 2. cbn [v_wait v_result v_values view] in H2.
    unfold Tally. cbn [with_q l_q l_outside].
    change (views (with_q (q_resolve (r_result r) (VObj values)) s1)) with (views s1).
    apply H2; [exact Hw|]. unfold upd. rewrite decide_True by reflexivity. lia.
  - apply Z.eqb_neq in Hw.
    set (g := fun v => mkView (v_result v) (r_wait r - 1)%Z (v_values v) (v_ivs v)).
    unfold Tally. cbn [with_res l_q l_outside].
    rewrite (views_with_res rid (set_wait (r_wait r - 1)%Z) g) by reflexivity.
    apply (TallyV_alter x); [exact H| |].
    + intros v Hv'. rewrite Hv in Hv'. injection Hv' as <-.
      split; [reflexivity|]. split; [reflexivity|]. split.
      * intros e. apply closedv_values. auto.
      * unfold g, upd. cbn [v_wait view]. rewrite decide_True by reflexivity. lia.
    + intros rid' Hne. unfold upd. rewrite decide_False by exact Hne. lia.
Qed.

(** [invocation.resolve(...)] followed by
    [invocation.promise.then(..., onfailure)], for an invocation whose
    promise has not been started. *)
Lemma TallyV_invoke x q q1 vs out out' rid eid v k px :
  TallyV x q vs out ->
  vs !! rid = Some v -> v_ivs v !! eid = Some (k, px) ->
  ~ started q px -> px < length (q_states q) ->
  (forall rid' v', vs !! rid' = Some v' -> v_result v' <> px) ->
  length (q_states q) <= length (q_states q1) ->
  (forall p', p' <> px -> q_state q1 p' = q_state q p') ->
  (q_state q px = Pending -> started q1 px) ->
  (q_state q px <> Pending -> q_state q1 px = q_state q px) ->
  (forall c, c ∈ callbacks q1 ->
     c ∈ callbacks q \/
     ((forall rid' e', c <> KInvoked rid' e') /\ forall rid', c <> KDone rid')) ->
  (forall rid', occ (is_done rid') q1 <= occ (is_done rid') q) ->
  (forall rid' e', occ (is_invoked rid' e') q1 <= occ (is_invoked rid' e') q) ->
  (forall y, y ∈ out' ->
     y ∈ out \/ (fst y < length (q_states q1) /\
                 forall rid' v', vs !! rid' = Some v' -> fst y <> v_result v')) ->
  TallyV x (q_then px (KInvoked rid eid) (KOnFailure rid eid) q1) vs out'.
Proof.
  intros H Hv Hl Hns Hpx Hres Hlen Hother Hpend Hsame Hcb Hod Hoi Hout.
  assert (Hne : forall p val, q_state q p = Fulfilled val -> p <> px).
  { intros p val Hp ->. apply Hns. right. eauto. }
  assert (Hkeep : forall p, started q p -> p <> px).
  { intros p Hp ->. exact (Hns Hp). }
  assert (Hzero : occ (is_invoked rid eid) q = 0).
  { apply tally_zero. intros c Hc. destruct c as [| | | |rid' e'| |]; try reflexivity.
    simpl. destruct (Nat.eqb_spec rid' rid) as [->|]; [|reflexivity].
    destruct (Nat.eqb_spec e' eid) as [->|]; [|reflexivity]. exfalso.
    destruct (tv_started _ _ _ _ H rid eid Hc) as (v0 & k0 & px0 & Hv0 & Hl0 & Hst).
    rewrite Hv in Hv0. injection Hv0 as <-. rewrite Hl in Hl0. injection Hl0 as <- <-.
    exact (Hns Hst). }
  apply (TallyV_q x x q _ vs out out' H).
  - rewrite q_states_then. exact Hlen.
  - intros p val Hp. rewrite q_state_then, Hother by (eapply Hne; exact Hp). exact Hp.
  - intros rid' v' Hv'. rewrite q_state_then, Hother by (apply Hres with rid'; exact Hv').
    split; [exact (tv_unlocked _ _ _ _ H rid' v' Hv')|auto].
  - intros rid'. rewrite occ_then_eq by reflexivity. specialize (Hod rid'). lia.
  - intros rid' e' Hin.
    apply callbacks_then_cases in Hin as [Hin|[[Heq Hnr]|[Heq _]]]; [| |discriminate].
    + destruct (Hcb _ Hin) as [Hold|[Hno _]]; [|exfalso; exact (Hno rid' e' eq_refl)].
      split; [left; exact Hold|].
      destruct (tv_started _ _ _ _ H rid' e' Hold) as (v' & k' & px' & Hv' & Hl' & Hst).
      exists v', k', px'. split; [exact Hv'|]. split; [exact Hl'|].
      unfold started. rewrite !q_state_then, Hother by (apply Hkeep; exact Hst).
      exact Hst.
    + injection Heq as -> ->. split.
      * right. exists v, k, px. split; [exact Hv|]. split; [exact Hl|].
        intros val Hp. apply Hns. right. eauto.
      * exists v, k, px. split; [exact Hv|]. split; [exact Hl|].
        unfold started. rewrite !q_state_then.
        destruct (q_state q px) as [| |val|xr] eqn:Hq.
        -- apply Hpend. reflexivity.
        -- exfalso. apply Hns. left. exact Hq.
        -- exfalso. apply Hns. right. eauto.
        -- exfalso. apply (Hnr xr), Hsame. discriminate.
  - intros rid' e'.
    pose proof (occ_then_le (is_invoked rid' e') q1 px (KInvoked rid eid) (KOnFailure rid eid))
      as Hle. unfold one in Hle. cbn [is_invoked] in Hle.
    specialize (Hoi rid' e'). pose proof (tv_once _ _ _ _ H rid' e').
    destruct (Nat.eqb_spec rid rid') as [<-|Hr]; cbn [andb] in Hle; [|lia].
    destruct (Nat.eqb_spec eid e') as [<-|He]; [|lia]. lia.
  - intros rid' Hin. apply callbacks_then in Hin as [Hin|[Heq|Heq]]; try discriminate.
    destruct (Hcb _ Hin) as [Hold|[_ Hno]]; [|exfalso; exact (Hno rid' eq_refl)].
    exact (tv_known _ _ _ _ H rid' Hold).
  - intros y Hy. rewrite q_states_then. exact (Hout y Hy).
Qed.

(** The promise of the invocation is not started, is a promise of the
    store, and is no result promise: what [proceed] relies on. *)
Definition ready (s : Legacy) (px : nat) : Prop :=
  ~ started (l_q s) px /\ px < length (q_states (l_q s)) /\
  forall rid v, views s !! rid = Some v -> v_result v <> px.

Section TallySteps.
Variable injector_get : string -> FnResult.

Lemma Tally_proceed x s rid eid r iv :
  Tally x s -> l_res s !! rid = Some r -> r_invocations r !! eid = Some iv ->
  ready s (iv_invocation iv) ->
  Tally x (proceed injector_get rid eid s).
Proof.
  intros H Hr Hiv (Hns & Hpx & Hres). unfold proceed, invocation. rewrite Hr. simpl.
  rewrite Hiv. destruct (isDefined (r_failure r)); [exact H|].
  set (s1 := add_log rid (iv_key iv) (r_values r) s).
  assert (H1 : Tally x s1) by exact H.
  pose proof (views_lookup_2 s rid r Hr) as Hv.
  pose proof (view_ivs_lookup_2 r eid iv Hiv) as Hl.
  destruct (invoke injector_get (iv_invocable iv) (r_self r) (r_values r)) as [v|e|fate].
  - unfold Tally. subst s1. cbn [with_q add_log l_q l_outside].
    change (views _) with (views s).
    apply (TallyV_invoke x (l_q s) _ (views s) (l_outside s) _ rid eid (view r)
             (iv_key iv) (iv_invocation iv) H Hv Hl Hns Hpx Hres).
    + rewrite q_states_resolve_length. lia.
    + intros p' Hne. destruct (q_resolve_cases (l_q s) (iv_invocation iv) v p')
        as [Hs|(Heq & _)]; [exact Hs|contradiction].
    + intros Hp. right. exists v. apply q_resolve_valid; assumption.
    + intros Hp. apply resolve_keeps. exact Hp.
    + intros c Hc. left. eapply callbacks_resolve. exact Hc.
    + intros rid'. apply occ_resolve_le.
    + intros rid' e'. apply occ_resolve_le.
    + auto.
  - apply Tally_onfailure. exact H1.
  - subst s1. cbn [add_log l_q l_res l_outside l_log].
    destruct (q_defer (l_q s)) as [p q1] eqn:Hq.
    unfold q_defer in Hq. injection Hq as <- <-.
    unfold Tally. cbn [with_q l_q l_outside].
    change (views _) with (views s).
    set (qd := mkQ (q_states (l_q s) ++ [Pending]) (q_subs (l_q s)) (q_queue (l_q s))).
    assert (Hqd : forall p', q_state qd p' = q_state (l_q s) p').
    { intros p'. apply (q_state_defer (l_q s)). }
    apply (TallyV_invoke x (l_q s) _ (views s) (l_outside s) _ rid eid (view r)
             (iv_key iv) (iv_invocation iv) H Hv Hl Hns Hpx Hres).
    + rewrite q_states_follow_length. unfold qd. cbn [q_states].
      rewrite length_app. simpl. lia.
    + intros p' Hne.
      destruct (q_follow_cases qd (iv_invocation iv) (length (q_states (l_q s)))
                  (KAdopt (iv_invocation iv)) (KAdoptFail (iv_invocation iv)) p')
        as [Hs|(Heq & _)]; [rewrite Hs; apply Hqd|contradiction].
    + intros Hp. left. fold qd.
      apply q_follow_valid; [|rewrite Hqd; exact Hp].
      unfold qd. cbn [q_states]. rewrite length_app. simpl. lia.
    + intros Hp. fold qd.
      rewrite follow_keeps; [apply Hqd|rewrite Hqd; exact Hp].
    + intros c Hc. fold qd in Hc.
      apply callbacks_follow in Hc as [Hc|[->| ->]].
      * left. exact Hc.
      * right. split; discriminate.
      * right. split; discriminate.
    + intros rid'. fold qd.
      etransitivity; [apply occ_follow_le|]. unfold one. simpl.
      change (occ (is_done rid') qd) with (occ (is_done rid') (l_q s)). lia.
    + intros rid' e'. fold qd.
      etransitivity; [apply occ_follow_le|]. unfold one. simpl.
      change (occ (is_invoked rid' e') qd) with (occ (is_invoked rid' e') (l_q s)). lia.
    + intros y Hy.
      apply elem_of_app in Hy as [Hy|Hy]; [left; exact Hy|].
      apply list_elem_of_singleton in Hy. subst y. right. cbn [fst].
      rewrite q_states_follow_length. unfold qd. cbn [q_states].
      rewrite length_app. simpl. split; [lia|].
      intros rid' v' Hv'. pose proof (tv_valid _ _ _ _ H rid' v' Hv'). lia.
Qed.
End TallySteps.

Ltac upd_solve :=
  intros; unfold upd, zero; cbn [length];
  repeat match goal with
         | |- context [decide (?a = ?b)] => destruct (decide (a = b)); try subst
         end;
  try congruence; try lia.

Ltac weaken_by H := eapply Tally_weaken; [|exact H]; upd_solve.

Lemma views_with_res_at rid f (g : View -> View) s :
  (forall r, l_res s !! rid = Some r -> view (f r) = g (view r)) ->
  views (with_res rid f s) = alter g rid (views s).
Proof.
  intros Hf. unfold views, with_res. cbn [l_res].
  apply list_eq. intros i. rewrite list_lookup_fmap, !list_lookup_alter.
  destruct (decide (rid = i)) as [->|Hne]; [|rewrite list_lookup_fmap; reflexivity].
  rewrite list_lookup_fmap. destruct (l_res s !! i) as [r|] eqn:Hr; simpl; [|reflexivity].
  rewrite (Hf r eq_refl). reflexivity.
Qed.

Lemma alter_view_back (g : View -> View) (rid : nat) (vs : list View) (rid' : nat) v' :
  (forall v, v_result (g v) = v_result v) ->
  alter g rid vs !! rid' = Some v' ->
  exists v, vs !! rid' = Some v /\ v_result v' = v_result v /\
            (rid' = rid -> v' = g v) /\ (rid' <> rid -> v' = v).
Proof.
  intros Hg Hl. rewrite list_lookup_alter in Hl.
  destruct (decide (rid = rid')) as [<-|Hne].
  - destruct (vs !! rid) as [v|] eqn:Hvs; simpl in Hl; [|discriminate].
    injection Hl as <-. exists v. split; [reflexivity|]. split; [apply Hg|].
    split; [reflexivity|congruence].
  - exists v'. split; [exact Hl|]. split; [reflexivity|]. split; [congruence|reflexivity].
Qed.

(** A change of [values] that keeps what the invocations have stored. *)
Lemma Tally_res_values x s rid f (g : View -> View) :
  (forall r, l_res s !! rid = Some r -> view (f r) = g (view r)) ->
  (forall v, v_result (g v) = v_result v /\ v_ivs (g v) = v_ivs v /\
             v_wait (g v) = v_wait v) ->
  (forall v e, views s !! rid = Some v ->
               closedv (l_q s) rid v e -> closedv (l_q s) rid (g v) e) ->
  Tally x s -> Tally x (with_res rid f s).
Proof.
  intros Hf Hg Hcl H. unfold Tally. cbn [with_res l_q l_outside].
  rewrite (views_with_res_at rid f g) by exact Hf.
  apply (TallyV_alter x); [exact H| |intros; lia].
  intros v Hv. destruct (Hg v) as (H1 & H2 & H3).
  split; [exact H1|]. split; [exact H2|]. split; [intros e; apply Hcl; exact Hv|]. lia.
Qed.

Lemma Tally_merge x s rid (f : Obj Val -> Resolution -> Resolution) (src : Obj Val) :
  (forall vals r, view (f vals r)
                  = mkView (r_result r) (r_wait r) vals (v_ivs (view r))) ->
  Tally x s -> Tally x (with_res rid (fun r => f (merge (r_values r) src) r) s).
Proof.
  intros Hf H.
  apply (Tally_res_values x s rid _
           (fun v => mkView (v_result v) (v_wait v) (merge (v_values v) src) (v_ivs v))).
  - intros r _. rewrite Hf. reflexivity.
  - intros v. auto.
  - intros v e _. apply closedv_values. intros k val. apply get_merge_keep.
  - exact H.
Qed.

Lemma Tally_defer x s : Tally x s -> Tally x (with_q (fun q => snd (q_defer q)) s).
Proof.
  intros H. unfold Tally in *. cbn [with_q l_q l_outside].
  change (views (with_q (fun q => snd (q_defer q)) s)) with (views s).
  apply (TallyV_quiet x (l_q s) _ (views s) (l_outside s) _ H).
  - unfold q_defer. cbn [snd q_states]. rewrite length_app. lia.
  - intros p val Hp. rewrite q_state_defer. exact Hp.
  - intros p Hp. left. rewrite q_state_defer. exact Hp.
  - intros rid v Hv. rewrite q_state_defer.
    split; [exact (tv_unlocked _ _ _ _ H rid v Hv)|auto].
  - auto.
  - auto.
  - intros rid. reflexivity.
  - intros rid e. reflexivity.
  - auto.
Qed.

Lemma Tally_wait_for x s rid eid dep :
  Tally x s -> Tally x (wait_for rid eid s dep).
Proof.
  intros H. unfold wait_for. destruct (l_res s !! rid) as [r|]; [|exact H].
  destruct (get (r_promises r) dep) as [p|]; [|exact H].
  destruct (negb (has (r_locals r) dep)); [|exact H].
  apply Tally_then; [intros; split; reflexivity|intros; split; reflexivity|].
  apply (Tally_eq x s); [reflexivity| |reflexivity|exact H].
  apply views_with_invocation. intros iv. split; reflexivity.
Qed.

Lemma wait_for_frame rid eid s dep :
  views (wait_for rid eid s dep) = views s /\
  q_states (l_q (wait_for rid eid s dep)) = q_states (l_q s).
Proof.
  unfold wait_for. destruct (l_res s !! rid) as [r|]; [|auto].
  destruct (get (r_promises r) dep) as [p|]; [|auto].
  destruct (negb (has (r_locals r) dep)); [|auto].
  cbn [with_q l_q]. rewrite q_states_then. split; [|reflexivity].
  change (views (with_q _ ?y)) with (views y).
  apply views_with_invocation. intros iv. split; reflexivity.
Qed.

Lemma fold_wait_for_frame rid eid params : forall s x,
  Tally x s ->
  let s' := fold_left (wait_for rid eid) params s in
  Tally x s' /\ views s' = views s /\ q_states (l_q s') = q_states (l_q s).
Proof.
  induction params as [|dep params IH]; intros s x H; simpl; [auto|].
  destruct (wait_for_frame rid eid s dep) as [Hv Hq].
  destruct (IH (wait_for rid eid s dep) x (Tally_wait_for x s rid eid dep H))
    as (H' & Hv' & Hq').
  split; [exact H'|]. split; congruence.
Qed.

Section TallyCalls.
Variable injector_get : string -> FnResult.

(** [function __invoke(key, invocable, params)]. *)
Lemma Tally_invoke_entry x s rid e :
  Tally x s -> (1 <= x rid)%Z ->
  Tally (upd x rid (x rid - 1)%Z) (invoke_entry injector_get rid e s).
Proof.
  intros H Hx. unfold invoke_entry. destruct (l_res s !! rid) as [r|] eqn:Hr.
  2:{ apply (Tally_weaken x); [apply upd_le; lia|exact H]. }
  destruct (q_defer (l_q s)) as [p q1] eqn:Hq.
  unfold q_defer in Hq. injection Hq as <- <-.
  set (p := length (q_states (l_q s))).
  set (iv0 := mkInvocation (pe_key e) (pe_invocable e) (pe_params e) 0%Z p).
  set (sd := with_q (fun q => snd (q_defer q)) s).
  set (g := fun v => mkView (v_result v) (v_wait v) (v_values v)
                            (v_ivs v ++ [(pe_key e, p)])).
  set (s1 := with_res rid (set_invocations (r_invocations r ++ [iv0])) sd).
  change (with_res rid (set_invocations (r_invocations r ++ [iv0]))
            (with_q (fun _ => mkQ (q_states (l_q s) ++ [Pending]) (q_subs (l_q s))
                                  (q_queue (l_q s))) s)) with s1.
  assert (Hd : Tally x sd) by (apply Tally_defer; exact H).
  assert (Hviews1 : views s1 = alter g rid (views s)).
  { unfold s1. rewrite (views_with_res_at rid _ g).
    - reflexivity.
    - intros r0 Hr0. change (l_res sd) with (l_res s) in Hr0.
      rewrite Hr in Hr0. injection Hr0 as <-.
      unfold view, g. cbn [r_result r_wait r_values r_invocations set_invocations
                           v_result v_wait v_values v_ivs].
      rewrite fmap_app. reflexivity. }
  assert (H1 : Tally (upd x rid (x rid - 1)%Z) s1).
  { unfold Tally. rewrite Hviews1. change (l_q s1) with (l_q sd).
    change (l_outside s1) with (l_outside sd). change (views s) with (views sd).
    apply TallyV_push_iv; [exact Hd|exact Hx]. }
  destruct (fold_wait_for_frame rid (length (r_invocations r)) (pe_params e) s1 _ H1)
    as (H2 & Hviews2 & Hq2).
  set (s2 := fold_left (wait_for rid (length (r_invocations r))) (pe_params e) s1) in *.
  assert (H3 : Tally (upd x rid (x rid - 1)%Z)
                 (match invocation s2 rid (length (r_invocations r)) with
                  | Some iv' => if (iv_waitParams iv' =? 0)%Z
                                then proceed injector_get rid (length (r_invocations r)) s2
                                else s2
                  | None => s2
                  end)).
  { destruct (invocation s2 rid (length (r_invocations r))) as [iv'|] eqn:Hiv';
      [|exact H2].
    destruct (iv_waitParams iv' =? 0)%Z; [|exact H2].
    apply invocation_Some in Hiv' as (r2 & Hr2 & Hiv2).
    assert (Hpx : iv_invocation iv' = p).
    { assert (Hv2 : view r2 = g (view r)).
      { pose proof (views_lookup_2 s2 rid r2 Hr2) as Hv2.
        rewrite Hviews2, Hviews1, list_lookup_alter, decide_True in Hv2 by reflexivity.
        rewrite (views_lookup_2 s rid r Hr) in Hv2.
        cbn [fmap option_fmap option_map] in Hv2. congruence. }
      pose proof (view_ivs_lookup_2 r2 _ iv' Hiv2) as Hl. rewrite Hv2 in Hl.
      unfold g in Hl. cbn [v_ivs view] in Hl.
      rewrite lookup_app_r in Hl by (rewrite length_fmap; lia).
      rewrite length_fmap, Nat.sub_diag in Hl. simpl in Hl. injection Hl as _ <-.
      reflexivity. }
    assert (Hst : q_state (l_q s2) p = Pending).
    { unfold q_state. rewrite Hq2. cbn [s1 sd with_res with_q l_q q_defer snd q_states].
      unfold p. rewrite lookup_app_r, Nat.sub_diag by lia. reflexivity. }
    apply (Tally_proceed injector_get _ s2 rid _ r2 iv' H2 Hr2 Hiv2).
    rewrite Hpx. split; [|split].
    - intros [Hc|[val Hc]]; rewrite Hst in Hc; discriminate.
    - rewrite Hq2. cbn [s1 sd with_res with_q l_q q_defer snd q_states].
      rewrite length_app. simpl. unfold p. lia.
    - intros rid' v' Hv'. rewrite Hviews2, Hviews1 in Hv'.
      destruct (alter_view_back g rid (views s) rid' v' (fun _ => eq_refl) Hv')
        as (v & Hv & Hres & _).
      rewrite Hres. pose proof (tv_valid _ _ _ _ H rid' v Hv). unfold p. lia. }
  cbv zeta.
  match goal with
  | |- Tally _ (with_res _ _ ?y) =>
      apply (Tally_eq _ y); [reflexivity|apply views_with_res_same; reflexivity
                            |reflexivity|exact H3]
  end.
Qed.

Lemma Tally_process_entry x s rid e :
  Tally x s -> (1 <= x rid)%Z ->
  Tally (upd x rid (x rid - 1)%Z) (process_entry injector_get rid s e).
Proof.
  intros H Hx. unfold process_entry. destruct (l_res s !! rid) as [r|].
  2:{ apply (Tally_weaken x); [apply upd_le; lia|exact H]. }
  destruct (has (r_locals r) (pe_key e)).
  - apply Tally_done; assumption.
  - apply Tally_invoke_entry; assumption.
Qed.

Lemma Tally_plan rid pl : forall s (d : Z),
  Tally (upd zero rid (d + Z.of_nat (length pl))%Z) s -> (0 <= d)%Z ->
  Tally (upd zero rid d) (fold_left (process_entry injector_get rid) pl s).
Proof.
  induction pl as [|e pl IH]; intros s d H Hd.
  - weaken_by H.
  - cbn [fold_left]. apply IH; [|exact Hd].
    assert (Hx : (1 <= upd zero rid (d + Z.of_nat (length (e :: pl)))%Z rid)%Z).
    { unfold upd. rewrite decide_True by reflexivity. cbn [length]. lia. }
    pose proof (Tally_process_entry _ s rid e H Hx) as H1.
    weaken_by H1.
Qed.

Lemma Tally_start pl ks locals parent self s :
  Tally zero s -> Tally zero (snd (start injector_get pl ks locals parent self s)).
Proof.
  intros H. unfold start. destruct (q_defer (l_q s)) as [p q1] eqn:Hq.
  unfold q_defer in Hq. injection Hq as <- <-.
  set (rid := length (l_res s)).
  match goal with
  | |- context [mkLegacy _ (l_res s ++ [?r]) _ _] => set (r0 := r)
  end.
  set (s0 := mkLegacy _ (l_res s ++ [r0]) (l_outside s) (l_log s)).
  assert (Hlen : length (views s) = rid).
  { unfold views. rewrite length_fmap. reflexivity. }
  assert (H0 : Tally (upd zero rid (1 + Z.of_nat (length pl))%Z) s0).
  { unfold Tally, s0. cbn [l_q l_outside]. unfold views. cbn [l_res].
    rewrite fmap_app. cbn [fmap list_fmap]. fold (views s). rewrite <- Hlen.
    apply (TallyV_push_res zero (l_q s) (views s) (l_outside s) (extend [] locals)
             (length pl) H). }
  assert (Hrid0 : rid < length (views s0)).
  { unfold views, s0. cbn [l_res]. rewrite length_fmap, length_app. simpl.
    unfold rid. lia. }
  destruct (isDefined (parent_failure s parent)).
  { cbn [snd]. apply Tally_fail. weaken_by H0. }
  cbn [snd]. cbv zeta.
  match goal with
  | |- Tally zero (fold_left _ pl ?y) => set (s3 := y)
  end.
  assert (H3 : Tally (upd zero rid (0 + Z.of_nat (length pl))%Z) s3).
  { unfold s3.
    set (s1 := match parent_inherited s parent with
               | Some iv =>
                   with_res rid (fun r => set_values
                                   (merge (r_values r) (omit iv ks)) r) s0
               | None => s0
               end).
    assert (H1 : Tally (upd zero rid (1 + Z.of_nat (length pl))%Z) s1).
    { unfold s1. destruct (parent_inherited s parent) as [iv|]; [|exact H0].
      apply (Tally_merge _ s0 rid (fun vals r => set_values vals r)); [|exact H0].
      reflexivity. }
    set (s2 := with_res rid (fun r => set_promises
                              (extend (r_promises r) (parent_promises s parent)) r) s1).
    assert (H2 : Tally (upd zero rid (1 + Z.of_nat (length pl))%Z) s2).
    { apply (Tally_eq _ s1); [reflexivity|apply views_with_res_same; reflexivity
                             |reflexivity|exact H1]. }
    assert (Hrid2 : rid < length (views s2)).
    { unfold s2. rewrite views_with_res_same by reflexivity. unfold s1.
      destruct (parent_inherited s parent);
        [rewrite (views_with_res_at rid _ (fun v => mkView (v_result v) (v_wait v)
                    (merge (v_values v) (omit o ks)) (v_ivs v)))
           by (intros; reflexivity); rewrite length_alter|]; exact Hrid0. }
    destruct (parent_values s parent) as [pv|].
    - match goal with
      | |- Tally _ (done rid ?y0) =>
          set (y := y0);
          assert (Hy : Tally (upd zero rid (1 + Z.of_nat (length pl))%Z) y)
      end.
      { apply (Tally_merge _ s2 rid
                 (fun vals r => set_inherited (Some (omit pv ks))
                                  (set_merged true (set_values vals r))));
          [reflexivity|exact H2]. }
      assert (Hdone : Tally (upd (upd zero rid (1 + Z.of_nat (length pl))%Z) rid
                                 (upd zero rid (1 + Z.of_nat (length pl))%Z rid - 1)%Z)
                            (done rid y)).
      { apply Tally_done; [exact Hy|upd_solve]. }
      weaken_by Hdone.
    - match goal with
      | |- Tally _ match parent with
                   | NO_PARENT => ?y
                   | Parent _ => _
                   end =>
          assert (Hy : Tally (upd zero rid (1 + Z.of_nat (length pl))%Z) y);
          [|assert (Hridy : rid < length (views y))]
      end.
      { destruct (parent_inherited s parent); [|exact H2].
        apply (Tally_eq _ s2); [reflexivity|apply views_with_res_same; reflexivity
                               |reflexivity|exact H2]. }
      { destruct (parent_inherited s parent); [|exact Hrid2].
        rewrite views_with_res_same by reflexivity. exact Hrid2. }
      destruct parent as [|prid].
      + weaken_by Hy.
      + destruct (l_res s !! prid) as [pr|].
        * pose proof (Tally_then_done _ _ (r_result pr) rid Hy Hridy) as Ht.
          weaken_by Ht.
        * weaken_by Hy. }
  assert (Hend : Tally (upd zero rid 0%Z)
                       (fold_left (process_entry injector_get rid) pl s3)).
  { apply Tally_plan; [exact H3|lia]. }
  weaken_by Hend.
Qed.

Lemma Tally_resolve invocables a1 a2 a3 s rid s' :
  resolve injector_get invocables a1 a2 a3 s = CallReturns rid s' ->
  Tally zero s -> Tally zero s'.
Proof.
  unfold resolve, resolve_fn. intros Hcall H.
  destruct (study_plan invocables) as [pl| |]; try discriminate.
  destruct (shift_args a1 a2 a3) as [[locals parent] self].
  destruct (negb (truthy locals) || _); [|destruct locals; discriminate].
  destruct (negb (truthy parent)).
  - pose proof (Tally_start pl (keys invocables)
                  (match locals with VObj o => o | _ => [] end) NO_PARENT self s H) as Hs.
    destruct (start _ _ _ _ _ _ _) as [rid0 s0]. injection Hcall as <- <-. exact Hs.
  - destruct (isResolve parent); [|discriminate].
    destruct parent as [| | | | |prid]; try discriminate.
    destruct (l_res s !! prid); [|discriminate].
    pose proof (Tally_start pl (keys invocables)
                  (match locals with VObj o => o | _ => [] end) (Parent prid) self s H) as Hs.
    destruct (start _ _ _ _ _ _ _) as [rid0 s0]. injection Hcall as <- <-. exact Hs.
Qed.
End TallyCalls.

(** The [KInvoked] continuation of invocation [e] runs: the value is
    stored under its key, and the invocation has called [done] but for the
    decrement of [wait]. *)
Lemma TallyV_run_invoked x q vs out rid e arg rest v k px :
  TallyV x q vs out ->
  q_queue q = (KInvoked rid e, arg) :: rest ->
  vs !! rid = Some v -> v_ivs v !! e = Some (k, px) ->
  q_state q px = Fulfilled arg ->
  NoDup (v_ivs v).*1 ->
  TallyV (upd x rid (x rid + 1)%Z) (mkQ (q_states q) (q_subs q) rest)
         (alter (fun v => mkView (v_result v) (v_wait v) (set (v_values v) k arg)
                                 (v_ivs v)) rid vs) out.
Proof.
  intros H Hq Hv Hl Hpx Hnd.
  set (qp := mkQ (q_states q) (q_subs q) rest).
  set (g := fun v => mkView (v_result v) (v_wait v) (set (v_values v) k arg) (v_ivs v)).
  assert (Hstate : forall p, q_state qp p = q_state q p) by reflexivity.
  assert (Hcb : forall c, c ∈ callbacks qp -> c ∈ callbacks q).
  { intros c. apply (callbacks_pop _ _ _ _ _ Hq). }
  assert (Hgone : KInvoked rid e ∉ callbacks qp).
  { intros Hin. pose proof (tv_once _ _ _ _ H rid e) as Hle.
    rewrite (occ_pop (is_invoked rid e) q _ arg rest Hq) in Hle.
    unfold one in Hle. cbn [is_invoked] in Hle. rewrite !Nat.eqb_refl in Hle.
    cbn [andb] in Hle.
    assert (Hz : occ (is_invoked rid e) qp = 0) by (fold qp in Hle; lia).
    pose proof (tally_none _ _ _ Hz Hin) as Hf. cbn [is_invoked] in Hf.
    rewrite !Nat.eqb_refl in Hf. discriminate. }
  assert (Hkeep : forall e', closedv qp rid v e' -> closedv qp rid (g v) e').
  { intros e' (k' & px' & val & Hl' & Hp' & Hval & Hnot).
    exists k', px', val. unfold g. cbn [v_ivs v_values].
    split; [exact Hl'|]. split; [exact Hp'|]. split; [|exact Hnot].
    rewrite get_set. destruct (String.eqb_spec k k') as [<-|Hne]; [|exact Hval].
    assert (He : e' = e).
    { apply (NoDup_lookup (v_ivs v).*1 e' e k Hnd).
      - rewrite list_lookup_fmap, Hl'. reflexivity.
      - rewrite list_lookup_fmap, Hl. reflexivity. }
    subst e'. rewrite Hl in Hl'. injection Hl' as <-.
    rewrite Hstate, Hpx in Hp'. congruence. }
  assert (H1 : TallyV x qp vs out).
  { apply (TallyV_q x x q qp vs out out H).
    - reflexivity.
    - auto.
    - intros rid' v' Hv'. split; [exact (tv_unlocked _ _ _ _ H rid' v' Hv')|auto].
    - intros rid'. rewrite (occ_pop (is_done rid') q _ arg rest Hq). fold qp.
      unfold one. simpl. lia.
    - intros rid' e' Hin. apply Hcb in Hin. split; [left; exact Hin|].
      exact (tv_started _ _ _ _ H rid' e' Hin).
    - intros rid' e'. pose proof (tv_once _ _ _ _ H rid' e') as Hle.
      rewrite (occ_pop (is_invoked rid' e') q _ arg rest Hq) in Hle. fold qp in Hle. lia.
    - intros rid' Hin. apply Hcb in Hin. exact (tv_known _ _ _ _ H rid' Hin).
    - auto. }
  assert (H2 : TallyV x qp (alter g rid vs) out).
  { apply (TallyV_alter x x qp vs out rid g H1); [|intros; lia].
    intros v0 Hv0. rewrite Hv in Hv0. injection Hv0 as <-.
    split; [reflexivity|]. split; [reflexivity|]. split; [exact Hkeep|].
    unfold g. cbn [v_wait]. lia. }
  destruct H2 as [Ht Hf Hu Ho Hr Hs Hn Hk Hva Hov].
  constructor; try assumption.
  intros rid' v' Hv'. unfold upd. destruct (decide (rid' = rid)) as [->|Hne].
  2:{ exact (Ht rid' v' Hv'). }
  rewrite list_lookup_alter, decide_True, Hv in Hv' by reflexivity.
  simpl in Hv'. injection Hv' as <-.
  destruct (tv_tallied _ _ _ _ H rid v Hv) as (done_ & Hnd' & Hcl & Hle).
  assert (Hnotin : e ∉ done_).
  { intros Hin. destruct (Hcl e Hin) as (_ & _ & _ & _ & _ & _ & Hnot).
    apply Hnot. eapply callbacks_head. exact Hq. }
  exists (e :: done_). split; [apply NoDup_cons; auto|]. split.
  - intros e' He'. apply elem_of_cons in He' as [->|He'].
    + exists k, px, arg. unfold g. cbn [v_ivs v_values].
      split; [exact Hl|]. split; [exact Hpx|]. split; [apply get_set_eq|exact Hgone].
    + apply Hkeep. destruct (Hcl e' He') as (k' & px' & val & Hl' & Hp' & Hval & Hnot).
      exists k', px', val. split; [exact Hl'|]. split; [exact Hp'|].
      split; [exact Hval|]. intros Hin. apply Hnot, Hcb, Hin.
  - unfold g. cbn [v_ivs v_wait length].
    pose proof (occ_pop (is_done rid) q _ arg rest Hq) as Hocc. fold qp in Hocc.
    unfold one in Hocc. simpl in Hocc. lia.
Qed.

Lemma view_keys r : (v_ivs (view r)).*1 = iv_key <$> r_invocations r.
Proof.
  unfold view. cbn [v_ivs]. rewrite <- list_fmap_compose. reflexivity.
Qed.

Lemma Tally_outside x s out' :
  (forall y, y ∈ out' -> y ∈ l_outside s) ->
  Tally x s -> Tally x (mkLegacy (l_q s) (l_res s) out' (l_log s)).
Proof.
  intros Hsub H. unfold Tally in *. cbn [l_q l_outside].
  change (views (mkLegacy (l_q s) (l_res s) out' (l_log s))) with (views s).
  apply (TallyV_quiet x (l_q s) _ (views s) (l_outside s) _ H); auto.
  - intros p Hp. left. exact Hp.
  - intros rid v Hv. split; [exact (tv_unlocked _ _ _ _ H rid v Hv)|auto].
Qed.

(** A promise returned by an invocable is fulfilled. *)
Lemma Tally_resolve_other x s p v :
  (forall rid w, views s !! rid = Some w -> v_result w <> p) ->
  Tally x s -> Tally x (with_q (q_resolve p v) s).
Proof.
  intros Hp H. unfold Tally in *. cbn [with_q l_q l_outside].
  change (views (with_q (q_resolve p v) s)) with (views s).
  apply (TallyV_quiet x (l_q s) _ (views s) (l_outside s) _ H).
  - rewrite q_states_resolve_length. lia.
  - intros p' val Hq. rewrite resolve_keeps; [exact Hq|]. rewrite Hq. discriminate.
  - intros p' Hq. left. rewrite resolve_keeps; [exact Hq|]. rewrite Hq. discriminate.
  - intros rid w Hw.
    assert (Hs : q_state (q_resolve p v (l_q s)) (v_result w) = q_state (l_q s) (v_result w)).
    { destruct (q_resolve_cases (l_q s) p v (v_result w)) as [Hs|(Heq & _)]; [exact Hs|].
      exfalso. exact (Hp rid w Hw Heq). }
    rewrite Hs. split; [exact (tv_unlocked _ _ _ _ H rid w Hw)|auto].
  - intros rid e. apply callbacks_resolve.
  - intros rid. apply callbacks_resolve.
  - intros rid. apply occ_resolve_le.
  - intros rid e. apply occ_resolve_le.
  - auto.
Qed.

Lemma Tally_settle_outside i s : Tally zero s -> Tally zero (settle_outside i s).
Proof.
  intros H. unfold settle_outside.
  destruct (l_outside s !! i) as [[p fate]|] eqn:Hi; [|exact H].
  assert (Hsub : forall y, y ∈ delete i (l_outside s) -> y ∈ l_outside s).
  { intros y Hy. eapply list_elem_of_delete_inv. exact Hy. }
  destruct fate as [v|e|]; [| |exact H].
  - apply Tally_resolve_other; [|apply Tally_outside; assumption].
    intros rid w Hw. change (views _) with (views s) in Hw.
    intros Heq. apply (tv_outside _ _ _ _ H rid w p (WillFulfil v) Hw); [|congruence].
    eapply list_elem_of_lookup_2. exact Hi.
  - apply Tally_reject. apply Tally_outside; assumption.
Qed.

Section TallyTurn.
Variable injector_get : string -> FnResult.

(** A promise locked onto a promise returned by an invocable settles as
    that promise did. *)
Lemma Tally_adopt x s p st :
  WF s -> (exists v, st = Fulfilled v) \/ (exists e, st = Rejected e) ->
  Tally x s -> Tally x (with_q (q_adopt p st) s).
Proof.
  intros Hwf Hst H. unfold Tally in *. cbn [with_q l_q l_outside].
  change (views (with_q (q_adopt p st) s)) with (views s).
  apply (TallyV_q x x (l_q s) _ (views s) (l_outside s) (l_outside s) H).
  - rewrite q_states_adopt_length. lia.
  - intros p' val Hq. rewrite adopt_keeps; [exact Hq|]. rewrite Hq. discriminate.
  - intros rid w Hw. pose proof (tv_unlocked _ _ _ _ H rid w Hw) as Hu.
    rewrite adopt_keeps by exact Hu. split; [exact Hu|auto].
  - intros rid. pose proof (occ_adopt_le (is_done rid) (l_q s) p st). lia.
  - intros rid e Hin. pose proof (callbacks_adopt _ _ _ _ Hin) as Hold.
    split; [left; exact Hold|].
    destruct (tv_started _ _ _ _ H rid e Hold) as (w & k & px & Hw & Hl & Hstd).
    exists w, k, px. split; [exact Hw|]. split; [exact Hl|].
    destruct (q_adopt_cases (l_q s) p st px) as [Hs|(Heq & Hlock & Hs)].
    { unfold started. rewrite Hs. exact Hstd. }
    destruct Hst as [[val ->]|[xr ->]]; [right; exists val; exact Hs|].
    exfalso. subst px.
    destruct (views_lookup s rid w Hw) as (r & Hr & ->).
    destruct (view_ivs_lookup r e k p Hl) as (iv & Hiv & _ & Hpx).
    assert (Hinv : invocation s rid e = Some iv).
    { unfold invocation. rewrite Hr. exact Hiv. }
    unfold q_adopt in Hin. rewrite Hlock in Hin.
    apply elem_of_callbacks in Hin as [(sub & Hsub & Hk)|(t & Ht & Hk)].
    + unfold q_settle in Hsub. cbn [q_subs] in Hsub.
      apply list_elem_of_filter in Hsub as [Hon Hsub].
      destruct (wf_subs _ _ Hwf sub Hsub) as [Herr Hok].
      destruct Hk as [Hk|Hk].
      * rewrite <- Hk in Hok. destruct Hok as (iv' & Hinv' & Hon').
        rewrite Hinv in Hinv'. injection Hinv' as <-. congruence.
      * rewrite <- Hk in Herr. discriminate.
    + apply q_queue_settle in Ht as [Ht|(sub & Hsub & Hon & Ht)].
      * pose proof (wf_tasks _ _ Hwf t Ht) as Htask. unfold task_wf in Htask.
        rewrite Hk in Htask. destruct Htask as (iv' & Hinv' & Hful).
        rewrite Hinv in Hinv'. injection Hinv' as <-. rewrite Hpx, Hlock in Hful.
        discriminate.
      * simpl in Ht. apply list_elem_of_singleton in Ht. subst t. simpl in Hk.
        destruct (wf_subs _ _ Hwf sub Hsub) as [Herr _].
        rewrite Hk in Herr. discriminate.
  - intros rid e. pose proof (occ_adopt_le (is_invoked rid e) (l_q s) p st).
    pose proof (tv_once _ _ _ _ H rid e). lia.
  - intros rid Hin. apply callbacks_adopt in Hin. exact (tv_known _ _ _ _ H rid Hin).
  - auto.
Qed.

Lemma Tally_run_callback s k arg rest :
  WF s -> Tally zero s -> q_queue (l_q s) = (k, arg) :: rest ->
  Tally zero (run_callback injector_get k arg
                (with_q (fun q => mkQ (q_states q) (q_subs q) rest) s)).
Proof.
  intros Hwf H Hq.
  set (sp := with_q (fun q => mkQ (q_states q) (q_subs q) rest) s).
  pose proof (Tally_pop zero s k arg rest Hq H) as Hpop. fold sp in Hpop.
  assert (Hp : Tally zero sp).
  { eapply Tally_weaken; [|exact Hpop]. intros rid. unfold zero.
    destruct (is_done rid k); lia. }
  assert (Hwfp : WF sp) by (apply (WF_pop _ s k arg rest Hwf Hq)).
  destruct k as [rid|rid|rid eid dep|rid eid|rid eid|p|p]; cbn [run_callback].
  - assert (Hd : Tally (upd (fun rid' => (zero rid' + if is_done rid' (KDone rid)
                                                      then 1 else 0)%Z) rid
                            ((zero rid + if is_done rid (KDone rid) then 1 else 0) - 1)%Z)
                       (done rid sp)).
    { apply Tally_done; [exact Hpop|]. unfold zero. simpl. rewrite Nat.eqb_refl. lia. }
    eapply Tally_weaken; [|exact Hd]. intros rid'. unfold upd, zero. simpl.
    destruct (decide (rid' = rid)) as [->|Hne].
    + rewrite Nat.eqb_refl. lia.
    + destruct (rid =? rid'); lia.
  - apply Tally_fail. exact Hp.
  - (* KWait *)
    pose proof (wf_tasks _ _ Hwf (KWait rid eid dep, arg)) as Htask.
    rewrite Hq in Htask. specialize (Htask ltac:(left)).
    destruct Htask as (p & (r & iv & Hr & Hiv & Hdep & Hloc & Hvis) & Hful).
    cbn [fst snd] in *.
    pose proof (wf_sorted _ _ Hwf rid r Hr) as Hsorted. pose proof Hsorted as [Hnd Hord].
    assert (Hocc : 0 < occ (is_wait rid eid) (l_q s)).
    { apply (tally_pos _ _ (KWait rid eid dep)); [eapply callbacks_head; exact Hq|].
      simpl. rewrite !Nat.eqb_refl. reflexivity. }
    assert (Hnst : ~ started (l_q s) (iv_invocation iv)).
    { intros Hst. pose proof (wf_started _ _ Hwf rid r eid iv Hr Hiv Hst) as Hz.
      pose proof (wf_count _ _ Hwf rid r eid iv Hr Hiv). lia. }
    set (g := fun v => mkView (v_result v) (v_wait v) (set (v_values v) dep arg) (v_ivs v)).
    set (s1 := with_res rid (fun r => set_values (set (r_values r) dep arg) r) sp).
    assert (Hviews1 : views s1 = alter g rid (views s)).
    { unfold s1. rewrite (views_with_res_at rid _ g) by (intros; reflexivity).
      reflexivity. }
    assert (H1 : Tally zero s1).
    { apply (Tally_res_values zero sp rid _ g); [intros; reflexivity|auto| |exact Hp].
      intros v e' Hv (k' & px' & val & Hl' & Hp' & Hval & Hnot).
      exists k', px', val. unfold g. cbn [v_ivs v_values].
      split; [exact Hl'|]. split; [exact Hp'|]. split; [|exact Hnot].
      rewrite get_set. destruct (String.eqb_spec dep k') as [<-|Hne]; [|exact Hval].
      change (views sp) with (views s) in Hv.
      rewrite (views_lookup_2 s rid r Hr) in Hv. injection Hv as <-.
      destruct (view_ivs_lookup r e' dep px' Hl') as (iv' & Hiv' & Hkey & Hpx').
      destruct (decide (e' = eid)) as [->|Hne].
      - exfalso. apply Hnst. rewrite Hiv in Hiv'. injection Hiv' as <-.
        right. exists val. rewrite Hpx'. exact Hp'.
      - assert (Hlt : e' < eid).
        { apply (Hord eid e' iv iv' Hiv Hiv'); [rewrite Hkey; exact Hdep|exact Hne]. }
        pose proof (visible_before s r eid e' iv' Hsorted Hiv' Hlt) as Hvis'.
        rewrite Hkey, Hvis in Hvis'. injection Hvis' as ->.
        rewrite Hpx' in Hful. change (q_state (l_q sp) px') with (q_state (l_q s) px') in Hp'.
        congruence. }
    set (s2 := with_invocation rid eid
                 (fun iv => set_waitParams (iv_waitParams iv - 1)%Z iv) s1).
    assert (Hviews2 : views s2 = views s1).
    { apply views_with_invocation. intros iv0. split; reflexivity. }
    assert (H2 : Tally zero s2).
    { apply (Tally_eq zero s1); [reflexivity|exact Hviews2|reflexivity|exact H1]. }
    destruct (invocation s2 rid eid) as [iv2|] eqn:Hiv2; [|exact H2].
    destruct (iv_waitParams iv2 =? 0)%Z; [|exact H2].
    apply invocation_Some in Hiv2 as (r2 & Hr2 & Hiv2).
    assert (Hpx2 : iv_invocation iv2 = iv_invocation iv).
    { assert (Hv2 : view r2 = g (view r)).
      { pose proof (views_lookup_2 s2 rid r2 Hr2) as Hv2.
        rewrite Hviews2, Hviews1, list_lookup_alter, decide_True in Hv2 by reflexivity.
        rewrite (views_lookup_2 s rid r Hr) in Hv2.
        cbn [fmap option_fmap option_map] in Hv2. congruence. }
      pose proof (view_ivs_lookup_2 r2 eid iv2 Hiv2) as Hl2. rewrite Hv2 in Hl2.
      unfold g in Hl2. cbn [v_ivs] in Hl2.
      rewrite (view_ivs_lookup_2 r eid iv Hiv) in Hl2. congruence. }
    apply (Tally_proceed injector_get zero s2 rid eid r2 iv2 H2 Hr2 Hiv2).
    rewrite Hpx2. split; [exact Hnst|]. split.
    + exact (wf_invocation_valid _ _ Hwf rid r eid iv Hr Hiv).
    + intros rid' v' Hv'. rewrite Hviews2, Hviews1 in Hv'.
      destruct (alter_view_back g rid (views s) rid' v' (fun _ => eq_refl) Hv')
        as (v0 & Hv0 & Hres & _).
      rewrite Hres. destruct (views_lookup s rid' v0 Hv0) as (r' & Hr' & ->).
      exact (wf_result_own _ _ Hwf rid' r' rid r eid iv Hr' Hr Hiv).
  - apply Tally_onfailure. exact Hp.
  - (* KInvoked *)
    destruct (invocation sp rid eid) as [iv|] eqn:Hinv; [|exact Hp].
    pose proof (wf_tasks _ _ Hwf (KInvoked rid eid, arg)) as Htask.
    rewrite Hq in Htask. specialize (Htask ltac:(left)).
    destruct Htask as (iv0 & Hinv0 & Hful). cbn [fst snd] in *.
    change (invocation sp rid eid) with (invocation s rid eid) in Hinv.
    rewrite Hinv in Hinv0. injection Hinv0 as <-.
    apply invocation_Some in Hinv as (r & Hr & Hiv).
    pose proof (wf_sorted _ _ Hwf rid r Hr) as [Hnd _].
    set (g := fun v => mkView (v_result v) (v_wait v)
                              (set (v_values v) (iv_key iv) arg) (v_ivs v)).
    set (s1 := with_res rid (fun r => set_values (set (r_values r) (iv_key iv) arg) r) sp).
    assert (H1 : Tally (upd zero rid (zero rid + 1)%Z) s1).
    { unfold Tally, s1. cbn [with_res l_q l_outside].
      rewrite (views_with_res_at rid _ g) by (intros; reflexivity).
      change (views sp) with (views s).
      apply (TallyV_run_invoked zero (l_q s) (views s) (l_outside s) rid eid arg rest
               (view r) (iv_key iv) (iv_invocation iv) H Hq).
      - apply views_lookup_2. exact Hr.
      - apply view_ivs_lookup_2. exact Hiv.
      - exact Hful.
      - rewrite view_keys. exact Hnd. }
    assert (Hd : Tally (upd (upd zero rid (zero rid + 1)%Z) rid
                            (upd zero rid (zero rid + 1)%Z rid - 1)%Z) (done rid s1)).
    { apply Tally_done; [exact H1|upd_solve]. }
    weaken_by Hd.
  - apply (Tally_adopt zero sp p (Fulfilled arg) Hwfp); [left; eauto|exact Hp].
  - apply (Tally_adopt zero sp p (Rejected arg) Hwfp); [right; eauto|exact Hp].
Qed.

Lemma Tally_tick s : WF s -> Tally zero s -> Tally zero (tick injector_get s).
Proof.
  intros Hwf H. unfold tick. destruct (q_queue (l_q s)) as [|[k arg] rest] eqn:Hq;
    [exact H|].
  apply Tally_run_callback; assumption.
Qed.

Lemma Tally_init : Tally zero legacy_init.
Proof.
  unfold Tally. simpl. constructor.
  - intros rid v Hv. discriminate.
  - intros rid v res Hv. discriminate.
  - intros rid v Hv. discriminate.
  - intros rid v p f Hv. discriminate.
  - intros rid v rid' v' Hv. discriminate.
  - intros rid e Hin. inversion Hin.
  - intros rid e. unfold occ. simpl. lia.
  - intros rid Hin. inversion Hin.
  - intros rid v Hv. discriminate.
  - intros p f Hin. inversion Hin.
Qed.

Lemma Tally_reachable s : reachable injector_get s -> Tally zero s.
Proof.
  intros H. apply clos_rt_rtn1 in H. induction H as [|s1 s2 Hstep Hpre IH].
  - exact Tally_init.
  - assert (Hwf : WF s1).
    { apply (WF_reachable injector_get). apply clos_rtn1_rt. exact Hpre. }
    destruct Hstep as [invocables a1 a2 a3 s rid s' Hcall|s|i s].
    + eapply Tally_resolve; eauto.
    + apply Tally_tick; assumption.
    + apply Tally_settle_outside, IH.
Qed.
End TallyTurn.

(** X10: when the result promise of a call of the returned function is
    fulfilled, it is fulfilled with an object that holds, under the key of
    every invocation the call set up, the value that invocation's promise
    was fulfilled with: the result is not fulfilled before every invocable
    has delivered its value. *)
Theorem result_holds_every_invocable
        (injector_get : string -> FnResult) (s : Legacy)
        (rid : nat) (r : Resolution) (res : Val) :
  reachable injector_get s ->
  l_res s !! rid = Some r ->
  q_state (l_q s) (r_result r) = Fulfilled res ->
  exists vals,
    res = VObj vals /\
    forall iv, iv ∈ r_invocations r ->
      exists v, q_state (l_q s) (iv_invocation iv) = Fulfilled v /\
                get vals (iv_key iv) = Some v.
Proof.
  intros Hreach Hr Hres.
  pose proof (Tally_reachable injector_get s Hreach) as H.
  destruct (tv_full _ _ _ _ H rid (view r) res (views_lookup_2 s rid r Hr) Hres)
    as [(vals & -> & Hall) _].
  exists vals. split; [reflexivity|]. intros iv Hin.
  apply list_elem_of_lookup_1 in Hin as [e He].
  exact (Hall e (iv_key iv) (iv_invocation iv) (view_ivs_lookup_2 r e iv He)).
Qed.

Lemma result_holds_every_invocable_witness :
  exists r iv,
    l_res child_inherits_base !! 1 = Some r /\
    r_invocations r = [iv] /\ iv_key iv = "derived" /\
    q_state (l_q child_inherits_base) (r_result r)
    = Fulfilled (VObj [("base", VNum 7); ("derived", VNum 7)]) /\
    exists vals,
      VObj [("base", VNum 7); ("derived", VNum 7)] = VObj vals /\
      forall iv', iv' ∈ r_invocations r ->
        exists v, q_state (l_q child_inherits_base) (iv_invocation iv') = Fulfilled v /\
                  get vals (iv_key iv') = Some v.
Proof.
  eexists _, _.
  split; [vm_compute; reflexivity|]. split; [reflexivity|]. split; [reflexivity|].
  split; [vm_compute; reflexivity|].
  refine (result_holds_every_invocable no_services child_inherits_base 1 _ _
            child_inherits_base_reachable _ _).
  - vm_compute. reflexivity.
  - vm_compute. reflexivity.
Defined.

(** ** A call against a resolved parent: the values it starts with *)

Lemma get_merge_full {A : Type} (dst src : Obj A) k :
  get (merge dst src) k = match get dst k with Some v => Some v | None => get src k end.
Proof.
  unfold merge. revert dst. induction src as [|[k0 v0] src IH]; intros dst.
  - simpl. destruct (get dst k); reflexivity.
  - cbn [fold_left fst snd]. destruct (has dst k0) eqn:Hh.
    + rewrite IH. destruct (get dst k) eqn:Hd; [reflexivity|].
      simpl. destruct (String.eqb_spec k0 k) as [->|Hne]; [|reflexivity].
      unfold has in Hh. rewrite Hd in Hh. discriminate.
    + rewrite IH, get_set. simpl.
      destruct (String.eqb_spec k0 k) as [->|Hne]; [|reflexivity].
      unfold has in Hh. destruct (get dst k); [discriminate|reflexivity].
Qed.

(** [values] of a resolution whose [merged] flag is set. *)
Definition merged_values (s : Legacy) (rid : nat) : option (Obj Val) :=
  r ← l_res s !! rid; if r_merged r then Some (r_values r) else None.

Lemma merged_values_with_res s rid rid' f vals :
  (forall r, l_res s !! rid' = Some r -> r_merged r = true ->
             r_merged (f r) = true /\ r_values (f r) = r_values r) ->
  merged_values s rid = Some vals ->
  merged_values (with_res rid' f s) rid = Some vals.
Proof.
  intros Hf. unfold merged_values, with_res. cbn [l_res]. rewrite list_lookup_alter.
  destruct (decide (rid' = rid)) as [->|Hne]; [|auto].
  destruct (l_res s !! rid) as [r|] eqn:Hr; simpl; [|discriminate].
  destruct (r_merged r) eqn:Hm; [|discriminate].
  destruct (Hf r eq_refl Hm) as [-> ->]. auto.
Qed.

Lemma merged_values_fail s rid rid' reason vals :
  merged_values s rid = Some vals -> merged_values (fail rid' reason s) rid = Some vals.
Proof.
  intros H. unfold fail. destruct (l_res s !! rid') as [r0|]; [|exact H].
  change (merged_values (with_q ?f ?y) rid) with (merged_values y rid).
  apply merged_values_with_res; [|exact H]. intros r _ Hm. auto.
Qed.

Lemma merged_values_done s rid rid' vals :
  merged_values s rid = Some vals -> merged_values (done rid' s) rid = Some vals.
Proof.
  intros H. unfold done. destruct (l_res s !! rid') as [r|] eqn:Hr; [|exact H].
  destruct (_ =? _)%Z.
  - change (merged_values (with_q ?f ?y) rid) with (merged_values y rid).
    apply merged_values_with_res; [|exact H]. intros r0 Hr0 Hm.
    rewrite Hr in Hr0. injection Hr0 as <-. rewrite Hm. auto.
  - apply merged_values_with_res; [|exact H]. intros r0 _ Hm. auto.
Qed.

Lemma merged_values_onfailure s rid rid' eid reason vals :
  merged_values s rid = Some vals ->
  merged_values (onfailure rid' eid reason s) rid = Some vals.
Proof.
  intros H. unfold onfailure. destruct (invocation s rid' eid); [|exact H].
  apply merged_values_fail. exact H.
Qed.

Lemma merged_values_wait_for s rid rid' eid dep vals :
  merged_values s rid = Some vals ->
  merged_values (wait_for rid' eid s dep) rid = Some vals.
Proof.
  intros H. unfold wait_for. destruct (l_res s !! rid') as [r|]; [|exact H].
  destruct (get (r_promises r) dep); [|exact H].
  destruct (negb (has (r_locals r) dep)); [|exact H].
  change (merged_values (with_q ?f ?y) rid) with (merged_values y rid).
  unfold with_invocation. apply merged_values_with_res; [|exact H]. auto.
Qed.

Section MergedValues.
Variable injector_get : string -> FnResult.

Lemma merged_values_proceed s rid rid' eid vals :
  merged_values s rid = Some vals ->
  merged_values (proceed injector_get rid' eid s) rid = Some vals.
Proof.
  intros H. unfold proceed. destruct (l_res s !! rid') as [r|]; [|exact H].
  destruct (invocation s rid' eid) as [iv|]; [|exact H].
  destruct (isDefined (r_failure r)); [exact H|].
  destruct (invoke injector_get (iv_invocable iv) (r_self r) (r_values r)).
  - exact H.
  - apply merged_values_onfailure. exact H.
  - destruct (q_defer _). exact H.
Qed.

Lemma merged_values_invoke_entry s rid rid' e vals :
  merged_values s rid = Some vals ->
  merged_values (invoke_entry injector_get rid' e s) rid = Some vals.
Proof.
  intros H. unfold invoke_entry. destruct (l_res s !! rid') as [r|]; [|exact H].
  destruct (q_defer (l_q s)) as [p q1]. cbv zeta.
  apply merged_values_with_res; [auto|].
  assert (H2 : forall params s0, merged_values s0 rid = Some vals ->
             merged_values (fold_left (wait_for rid' (length (r_invocations r))) params s0)
                           rid = Some vals).
  { induction params as [|dep params IH]; intros s0 H0; simpl; [exact H0|].
    apply IH, merged_values_wait_for, H0. }
  assert (H1 : merged_values
                 (fold_left (wait_for rid' (length (r_invocations r))) (pe_params e)
                    (with_res rid'
                       (set_invocations
                          (r_invocations r ++
                           [mkInvocation (pe_key e) (pe_invocable e) (pe_params e) 0%Z p]))
                       (with_q (fun _ => q1) s))) rid = Some vals).
  { apply H2. apply merged_values_with_res; [auto|exact H]. }
  destruct (invocation _ rid' (length (r_invocations r))) as [iv'|]; [|exact H1].
  destruct (iv_waitParams iv' =? 0)%Z; [|exact H1].
  apply merged_values_proceed. exact H1.
Qed.

Lemma merged_values_plan rid rid' pl vals : forall s,
  merged_values s rid = Some vals ->
  merged_values (fold_left (process_entry injector_get rid') pl s) rid = Some vals.
Proof.
  induction pl as [|e pl IH]; intros s H; simpl; [exact H|].
  apply IH. unfold process_entry. destruct (l_res s !! rid') as [r|]; [|exact H].
  destruct (has (r_locals r) (pe_key e)).
  - apply merged_values_done. exact H.
  - apply merged_values_invoke_entry. exact H.
Qed.

(** X11: a call against a parent whose [$$values] are published starts
    with its own locals, and under every other name that is no key of its
    own invocables with what the parent offers: the parent's
    [$$inheritedValues] first, else the parent's [$$values].  The keys of
    its own invocables are not inherited. *)
Theorem resolved_parent_values_inherited
        (pl : list PlanEntry) (invocableKeys : list string)
        (locals : Obj Val) (self : Val) (prid : nat) (pr : Resolution) (s : Legacy) :
  l_res s !! prid = Some pr -> r_published pr = true ->
  isDefined (r_failure pr) = false ->
  isResolve (VObj locals) = false -> NoDup (keys locals) ->
  exists s' r,
    resolve_fn injector_get pl invocableKeys (VObj locals) (VResolve prid) self s
    = CallReturns (length (l_res s)) s' /\
    l_res s' !! length (l_res s) = Some r /\
    forall k,
      get (r_values r) k =
      match get locals k with
      | Some v => Some v
      | None =>
          if bool_decide (k ∈ invocableKeys) then None
          else match r_inherited pr with
               | Some iv => match get iv k with
                            | Some v => Some v
                            | None => get (r_values pr) k
                            end
               | None => get (r_values pr) k
               end
      end.
Proof.
  intros Hpr Hpub Hfail Hres Hnd.
  unfold resolve_fn, shift_args. rewrite Hres. cbn [andb truthy negb orb isResolve].
  rewrite Hpr. unfold start. destruct (q_defer (l_q s)) as [p q1].
  cbn [parent_failure parent_inherited parent_values parent_promises].
  rewrite Hpr. cbn [from_option mbind option_bind]. rewrite Hfail, Hpub.
  set (rid := length (l_res s)).
  match goal with
  | |- context [fold_left _ pl ?y] => set (s3 := y)
  end.
  set (vals := merge (match r_inherited pr with
                      | Some iv => merge (extend [] locals) (omit iv invocableKeys)
                      | None => extend [] locals
                      end) (omit (r_values pr) invocableKeys)).
  assert (H3 : merged_values s3 rid = Some vals).
  { unfold s3. apply merged_values_done.
    unfold merged_values, with_res. cbn [l_res]. rewrite !list_lookup_alter_eq.
    destruct (r_inherited pr) as [iv|].
    - cbn [with_res l_res]. rewrite list_lookup_alter_eq. unfold rid.
      rewrite lookup_app_r, Nat.sub_diag by lia. reflexivity.
    - cbn [l_res]. unfold rid. rewrite lookup_app_r, Nat.sub_diag by lia. reflexivity. }
  pose proof (merged_values_plan rid rid pl vals s3 H3) as Hend.
  unfold merged_values in Hend.
  destruct (l_res (fold_left (process_entry injector_get rid) pl s3) !! rid)
    as [rnew|] eqn:Hr; [|discriminate].
  simpl in Hend. destruct (r_merged rnew); [|discriminate]. injection Hend as Hvals.
  eexists _, rnew. split; [reflexivity|].
  split; [exact Hr|]. intros k. rewrite Hvals. unfold vals.
  rewrite get_merge_full, get_omit.
  destruct (r_inherited pr) as [iv|].
  - rewrite get_merge_full, get_omit, get_extend by exact Hnd. simpl.
    destruct (get locals k); [reflexivity|].
    destruct (bool_decide (k ∈ invocableKeys)); [reflexivity|].
    destruct (get iv k); reflexivity.
  - rewrite get_extend by exact Hnd. simpl.
    destruct (get locals k); [reflexivity|].
    destruct (bool_decide (k ∈ invocableKeys)); reflexivity.
Qed.
End MergedValues.

(** The world in which a first resolution has published [base = 7]. *)
Definition parent_resolved_base : Legacy :=
  drain no_services 10
        (snd (call provides_base VUndefined VUndefined VUndefined legacy_init)).

Lemma resolved_parent_values_inherited_witness :
  exists s' r,
    resolve_fn no_services
               [mkEntry "derived" (PInvoke (fun _ values => param_base values)) ["base"]]
               ["derived"] (VObj [("mine", VNum 1)]) (VResolve 0) VUndefined
               parent_resolved_base
    = CallReturns 1 s' /\
    l_res s' !! 1 = Some r /\
    get (r_values r) "mine" = Some (VNum 1) /\
    get (r_values r) "base" = Some (VNum 7) /\
    get (r_values r) "derived" = None.
Proof.
  destruct (l_res parent_resolved_base !! 0) as [pr|] eqn:Hpr;
    [|vm_compute in Hpr; discriminate].
  assert (Hpub : r_published pr = true).
  { assert (H : (r_published <$> l_res parent_resolved_base !! 0) = Some true)
      by (vm_compute; reflexivity).
    rewrite Hpr in H. injection H as H. exact H. }
  assert (Hfail : isDefined (r_failure pr) = false).
  { assert (H : (r_failure <$> l_res parent_resolved_base !! 0) = Some VUndefined)
      by (vm_compute; reflexivity).
    rewrite Hpr in H. injection H as ->. reflexivity. }
  assert (Hinh : r_inherited pr = None).
  { assert (H : (r_inherited <$> l_res parent_resolved_base !! 0) = Some None)
      by (vm_compute; reflexivity).
    rewrite Hpr in H. injection H as H. exact H. }
  assert (Hvals : r_values pr = [("base", VNum 7)]).
  { assert (H : (r_values <$> l_res parent_resolved_base !! 0) = Some [("base", VNum 7)])
      by (vm_compute; reflexivity).
    rewrite Hpr in H. injection H as H. exact H. }
  destruct (resolved_parent_values_inherited no_services
              [mkEntry "derived" (PInvoke (fun _ values => param_base values)) ["base"]]
              ["derived"] [("mine", VNum 1)] VUndefined 0 pr parent_resolved_base
              Hpr Hpub Hfail eq_refl)
    as (s' & r & Hcall & Hr & Hget).
  { apply NoDup_singleton. }
  exists s', r. split; [exact Hcall|]. split; [exact Hr|].
  rewrite !Hget, Hinh, Hvals. repeat split; reflexivity.
Defined.

(** ** The legacy engine: a call with nothing to wait for *)

Section NothingToWaitFor.
Variable injector_get : string -> FnResult.

(** The plan loop over entries that are all shadowed by locals only counts
    [wait] down; the last entry brings it to zero and resolves the result. *)
Lemma plan_of_locals rid pl : forall s r,
  l_res s !! rid = Some r -> r_merged r = true ->
  (forall e, e ∈ pl -> has (r_locals r) (pe_key e) = true) ->
  r_wait r = Z.of_nat (length pl) -> pl <> [] ->
  q_state (l_q s) (r_result r) = Pending ->
  r_result r < length (q_states (l_q s)) ->
  exists r',
    l_res (fold_left (process_entry injector_get rid) pl s) !! rid = Some r' /\
    r_result r' = r_result r /\ r_values r' = r_values r /\
    r_invocations r' = r_invocations r /\ r_published r' = true /\
    q_state (l_q (fold_left (process_entry injector_get rid) pl s)) (r_result r)
    = Fulfilled (VObj (r_values r)) /\
    l_log (fold_left (process_entry injector_get rid) pl s) = l_log s.
Proof.
  induction pl as [|e pl IH]; intros s r Hr Hm Hloc Hw Hne Hq Hlt; [congruence|].
  cbn [fold_left]. unfold process_entry at 2 4 6. rewrite Hr.
  rewrite (Hloc e) by (left). unfold done. rewrite Hr, Hm.
  destruct pl as [|e2 pl].
  - assert (Hz : ((r_wait r - 1 =? 0) = true)%Z) by (rewrite Hw; reflexivity).
    rewrite Hz. cbn [fold_left].
    cbn [with_q with_res l_q l_res l_log]. rewrite list_lookup_alter_eq, Hr.
    eexists. split; [reflexivity|]. cbn.
    repeat split.
    unfold q_resolve. rewrite Hq. unfold q_state, q_settle. cbn [q_states].
    rewrite list_lookup_insert_eq by exact Hlt. reflexivity.
  - assert (Hz : ((r_wait r - 1 =? 0) = false)%Z).
    { apply Z.eqb_neq. rewrite Hw. cbn [length]. lia. }
    rewrite Hz.
    destruct (IH (with_res rid (set_wait (r_wait r - 1)) s)
                 (set_wait (r_wait r - 1) r)) as (r' & H1 & H2 & H3 & H4 & H5 & H6 & H7).
    + cbn [with_res l_res]. rewrite list_lookup_alter_eq, Hr. reflexivity.
    + exact Hm.
    + intros e' He'. apply Hloc. right. exact He'.
    + cbn [set_wait r_wait]. rewrite Hw. cbn [length]. lia.
    + discriminate.
    + exact Hq.
    + exact Hlt.
    + exists r'. repeat split; assumption.
Qed.

(** Without a parent and with every plan entry shadowed by a local, [wait]
    reaches zero before the function returns. *)
Lemma locals_only_call_settled
        (pl : list PlanEntry) (invocableKeys : list string)
        (locals : Obj Val) (self : Val) (s : Legacy) :
  isResolve (VObj locals) = false ->
  (forall e, e ∈ pl -> has locals (pe_key e) = true) ->
  exists s' r,
    resolve_fn injector_get pl invocableKeys (VObj locals) VUndefined self s
    = CallReturns (length (l_res s)) s' /\
    l_res s' !! length (l_res s) = Some r /\
    q_state (l_q s') (r_result r) = Fulfilled (VObj (extend [] locals)) /\
    r_invocations r = [] /\
    l_log s' = l_log s.
Proof.
  intros Hres Hloc.
  unfold resolve_fn, shift_args. rewrite Hres.
  cbn [andb truthy negb orb isDefined]. unfold start, q_defer.
  cbn [parent_failure parent_inherited parent_values parent_promises isDefined].
  set (rid := length (l_res s)). set (p := length (q_states (l_q s))).
  set (r0 := mkResolution locals NO_PARENT self p [] (extend [] locals)
                          (1 + Z.of_nat (length pl))%Z false false None VUndefined []).
  set (q1 := mkQ (q_states (l_q s) ++ [Pending]) (q_subs (l_q s)) (q_queue (l_q s))).
  assert (Hr0 : (l_res s ++ [r0]) !! rid = Some r0).
  { unfold rid. rewrite lookup_app_r, Nat.sub_diag by lia. reflexivity. }
  assert (Hp : q_state q1 p = Pending).
  { unfold q_state, q1, p. cbn [q_states].
    rewrite lookup_app_r, Nat.sub_diag by lia. reflexivity. }
  assert (Hlt : p < length (q_states q1)).
  { unfold q1, p. cbn [q_states]. rewrite length_app. simpl. lia. }
  unfold done at 1. cbn [with_res l_res]. rewrite !list_lookup_alter_eq, Hr0.
  cbn [fmap option_fmap option_map set_promises set_inherited set_merged set_values
       r_wait r_merged r_values r_result r0 omit filter merge extend fold_left].
  destruct pl as [|e pl].
  - change ((1 + Z.of_nat (length (@nil PlanEntry)) - 1 =? 0)%Z) with true.
    cbn [fold_left]. eexists _, _. split; [reflexivity|].
    cbn [with_q with_res l_q l_res l_log]. rewrite !list_lookup_alter_eq, Hr0.
    split; [reflexivity|]. cbn.
    split; [|split; reflexivity].
    unfold q_resolve. fold p. rewrite Hp. unfold q_state, q_settle. cbn [q_states].
    rewrite list_lookup_insert_eq by exact Hlt. reflexivity.
  - assert (Hz : ((1 + Z.of_nat (length (e :: pl)) - 1 =? 0) = false)%Z).
    { apply Z.eqb_neq. cbn [length]. lia. }
    rewrite Hz.
    match goal with
    | |- context [fold_left _ _ ?y] => set (s3 := y)
    end.
    assert (H3 : exists r3, l_res s3 !! rid = Some r3 /\ r_merged r3 = true /\
                   r_locals r3 = locals /\
                   r_wait r3 = Z.of_nat (length (e :: pl)) /\ r_result r3 = p /\
                   r_values r3 = extend [] locals /\ r_invocations r3 = []).
    { unfold s3. cbn [with_res l_res]. rewrite !list_lookup_alter_eq, Hr0.
      eexists. split; [reflexivity|]. cbn. repeat split. lia. }
    destruct H3 as (r3 & Hr3 & Hm3 & Hl3 & Hw3 & Hp3 & Hv3 & Hi3).
    destruct (plan_of_locals rid (e :: pl) s3 r3 Hr3 Hm3)
      as (r' & H1 & H2 & H4 & H5 & H6 & H7 & H8).
    + rewrite Hl3. exact Hloc.
    + exact Hw3.
    + discriminate.
    + rewrite Hp3. exact Hp.
    + rewrite Hp3. exact Hlt.
    + eexists _, r'. split; [reflexivity|]. split; [exact H1|].
      rewrite H2, Hp3. rewrite Hp3, Hv3 in H7. split; [exact H7|].
      split; [congruence|]. rewrite H8. reflexivity.
Qed.

(** X12: a call without a parent whose plan has no entry to invoke, because
    there is none or because every key is among the locals, is settled when
    it returns: the result promise is already fulfilled with a copy of the
    locals, no invocation has been set up and nothing has been invoked. *)
Theorem call_with_locals_only_is_settled
        (pl : list PlanEntry) (invocableKeys : list string)
        (locals : Obj Val) (self : Val) (s : Legacy) :
  isResolve (VObj locals) = false ->
  (forall e, e ∈ pl -> has locals (pe_key e) = true) ->
  exists s' r,
    resolve_fn injector_get pl invocableKeys (VObj locals) VUndefined self s
    = CallReturns (length (l_res s)) s' /\
    l_res s' !! length (l_res s) = Some r /\
    q_state (l_q s') (r_result r) = Fulfilled (VObj (extend [] locals)) /\
    r_invocations r = [] /\
    l_log s' = l_log s.
Proof.
  exact (locals_only_call_settled pl invocableKeys locals self s).
Qed.
End NothingToWaitFor.

Lemma call_with_locals_only_is_settled_witness :
  exists s' r,
    resolve_fn no_services
               [mkEntry "x" (PInvoke (fn0 (VNum 1))) []] ["x"]
               (VObj [("x", VNum 5)]) VUndefined VUndefined legacy_init
    = CallReturns 0 s' /\
    l_res s' !! 0 = Some r /\
    q_state (l_q s') (r_result r) = Fulfilled (VObj [("x", VNum 5)]) /\
    r_invocations r = [] /\
    l_log s' = [].
Proof.
  refine (call_with_locals_only_is_settled no_services
            [mkEntry "x" (PInvoke (fn0 (VNum 1))) []] ["x"]
            [("x", VNum 5)] VUndefined legacy_init _ _).
  - vm_compute. reflexivity.
  - intros e He. apply list_elem_of_singleton in He. subst e. vm_compute. reflexivity.
Defined.

(** ** The legacy engine: a call waits for its parent *)

Section QGrows.
Context {K : Type}.
Implicit Types (q : Q K) (p : nat) (st : PState).

(** From [q] to [q']: no promise goes back to pending, and a [then] on a
    promise that is still pending is still held. *)
Definition qgrows q q' : Prop :=
  length (q_states q) <= length (q_states q') /\
  (forall p, q_state q p <> Pending -> q_state q' p <> Pending) /\
  (forall sub, sub ∈ q_subs q -> sub_on sub < length (q_states q) ->
               q_state q' (sub_on sub) = Pending -> sub ∈ q_subs q').

Lemma qgrows_refl q : qgrows q q.
Proof. split; [lia|]. split; auto. Qed.

Lemma qgrows_trans q1 q2 q3 : qgrows q1 q2 -> qgrows q2 q3 -> qgrows q1 q3.
Proof.
  intros (Hl1 & Hm1 & Hs1) (Hl2 & Hm2 & Hs2). split; [lia|]. split; [auto|].
  intros sub Hin Hv Hp. apply Hs2; [|lia|exact Hp].
  apply Hs1; [exact Hin|exact Hv|].
  destruct (q_state q2 (sub_on sub)) eqn:Hq; [reflexivity|..];
    (exfalso; apply (Hm2 (sub_on sub)); [rewrite Hq; discriminate|exact Hp]).
Qed.

Lemma qgrows_defer q : qgrows q (snd (q_defer q)).
Proof.
  split; [unfold q_defer; cbn [snd q_states]; rewrite length_app; lia|].
  split; [intros p; rewrite q_state_defer; auto|].
  intros sub Hin _ _. exact Hin.
Qed.

Lemma qgrows_then q p ok err : qgrows q (q_then p ok err q).
Proof.
  split; [rewrite q_states_then; lia|].
  split; [intros p'; rewrite q_state_then; auto|].
  intros sub Hin _ _. unfold q_then.
  destruct (q_state q p); cbn [q_subs]; try exact Hin;
    apply elem_of_app; left; exact Hin.
Qed.

Lemma qgrows_settle q p st : st <> Pending -> qgrows q (q_settle p st q).
Proof.
  intros Hst. split; [rewrite q_states_settle_length; lia|]. split.
  - intros p' Hp'. destruct (q_settle_cases q p st p') as [->|[_ ->]]; auto.
  - intros sub Hin Hv Hp. unfold q_settle. cbn [q_subs].
    apply list_elem_of_filter. split; [|exact Hin].
    intros Heq. rewrite Heq in Hp, Hv.
    rewrite q_state_settle, decide_True in Hp by auto. auto.
Qed.

Lemma qgrows_resolve q p v : qgrows q (q_resolve p v q).
Proof.
  unfold q_resolve. destruct (q_state q p); try apply qgrows_refl.
  apply qgrows_settle. discriminate.
Qed.

Lemma qgrows_reject q p x : qgrows q (q_reject p x q).
Proof.
  unfold q_reject. destruct (q_state q p); try apply qgrows_refl.
  apply qgrows_settle. discriminate.
Qed.

Lemma qgrows_adopt q p st : st <> Pending -> qgrows q (q_adopt p st q).
Proof.
  intros Hst. unfold q_adopt. destruct (q_state q p); try apply qgrows_refl.
  apply qgrows_settle. exact Hst.
Qed.

Lemma qgrows_follow q p src ok err : qgrows q (q_follow p src ok err q).
Proof.
  unfold q_follow. destruct (q_state q p) eqn:Hp; try apply qgrows_refl.
  eapply qgrows_trans; [|apply qgrows_then].
  split; [cbn [q_states]; rewrite length_insert; lia|]. split.
  - intros p' Hp'. unfold q_state. cbn [q_states].
    destruct (decide (p = p')) as [<-|Hne]; [congruence|].
    rewrite list_lookup_insert_ne by exact Hne. exact Hp'.
  - intros sub Hin _ _. exact Hin.
Qed.

Lemma qgrows_pop q rest : qgrows q (mkQ (q_states q) (q_subs q) rest).
Proof. split; [cbn; lia|]. split; auto. Qed.

Lemma q_reject_settles q p x :
  p < length (q_states q) -> q_state (q_reject p x q) p <> Pending.
Proof.
  intros Hlt. unfold q_reject. destruct (q_state q p) eqn:Hp;
    try (rewrite Hp; discriminate).
  rewrite q_state_settle, decide_True by auto. discriminate.
Qed.

Lemma q_resolve_settles q p v :
  p < length (q_states q) -> q_state (q_resolve p v q) p <> Pending.
Proof.
  intros Hlt. unfold q_resolve. destruct (q_state q p) eqn:Hp;
    try (rewrite Hp; discriminate).
  rewrite q_state_settle, decide_True by auto. discriminate.
Qed.
End QGrows.

(** [result.$$values] or a defined [result.$$failure] has been set. *)
Definition marked (r : Resolution) : Prop :=
  r_published r = true \/ isDefined (r_failure r) = true.

(** From [s] to [s']: the promise store grows, every resolution keeps its
    result promise and its parent, and a resolution is marked only once
    its result promise is no longer pending. *)
Definition grows (s s' : Legacy) : Prop :=
  qgrows (l_q s) (l_q s') /\
  forall rid r, l_res s !! rid = Some r ->
    exists r', l_res s' !! rid = Some r' /\
      r_result r' = r_result r /\ r_parent r' = r_parent r /\
      (marked r' -> marked r \/
         (r_result r < length (q_states (l_q s)) ->
          q_state (l_q s') (r_result r) <> Pending)).

Lemma grows_refl s : grows s s.
Proof. split; [apply qgrows_refl|]. intros rid r Hr. exists r. auto. Qed.

Lemma grows_trans s1 s2 s3 : grows s1 s2 -> grows s2 s3 -> grows s1 s3.
Proof.
  intros (Hq1 & H1) (Hq2 & H2). split; [eapply qgrows_trans; eassumption|].
  intros rid r Hr. destruct (H1 rid r Hr) as (r2 & Hr2 & Hres2 & Hpar2 & Hm2).
  destruct (H2 rid r2 Hr2) as (r3 & Hr3 & Hres3 & Hpar3 & Hm3).
  exists r3. split; [exact Hr3|]. split; [congruence|]. split; [congruence|].
  intros Hm. destruct (Hm3 Hm) as [Hmk|Hnp].
  - destruct (Hm2 Hmk) as [Hmk1|Hnp1]; [left; exact Hmk1|].
    right. intros Hv. apply (proj1 (proj2 Hq2)). apply Hnp1. exact Hv.
  - right. intros Hv. rewrite <- Hres2. apply Hnp. rewrite Hres2.
    pose proof (proj1 Hq1). lia.
Qed.

Lemma grows_length s s' : grows s s' -> length (l_res s) <= length (l_res s').
Proof.
  intros (_ & H). destruct (decide (length (l_res s) <= length (l_res s'))) as [|Hn];
    [assumption|].
  destruct (lookup_lt_is_Some_2 (l_res s) (length (l_res s'))) as [r Hr]; [lia|].
  destruct (H _ r Hr) as (r' & Hr' & _). apply lookup_lt_Some in Hr'. lia.
Qed.

Lemma grows_q s s' : qgrows (l_q s) (l_q s') -> l_res s' = l_res s -> grows s s'.
Proof.
  intros Hq Hres. split; [exact Hq|]. intros rid r Hr. exists r. rewrite Hres. auto.
Qed.

Lemma grows_with_q f s : qgrows (l_q s) (f (l_q s)) -> grows s (with_q f s).
Proof. intros H. apply grows_q; [exact H|reflexivity]. Qed.

Lemma grows_with_res rid f s :
  (forall r, r_result (f r) = r_result r /\ r_parent (f r) = r_parent r /\
             r_published (f r) = r_published r /\ r_failure (f r) = r_failure r) ->
  grows s (with_res rid f s).
Proof.
  intros Hf. split; [apply qgrows_refl|]. intros rid' r Hr. cbn [with_res l_res].
  rewrite list_lookup_alter. destruct (decide (rid = rid')) as [<-|Hne].
  - rewrite Hr. exists (f r). destruct (Hf r) as (H1 & H2 & H3 & H4).
    split; [reflexivity|]. split; [exact H1|]. split; [exact H2|].
    intros [Hm|Hm]; left; [left|right]; congruence.
  - exists r. auto.
Qed.

(** A resolution is marked and its result promise settled in one go. *)
Lemma grows_mark rid f (g : Q LK -> Q LK) s :
  (forall r, r_result (f r) = r_result r /\ r_parent (f r) = r_parent r) ->
  qgrows (l_q s) (g (l_q s)) ->
  (forall r, l_res s !! rid = Some r -> r_result r < length (q_states (l_q s)) ->
             q_state (g (l_q s)) (r_result r) <> Pending) ->
  grows s (with_q g (with_res rid f s)).
Proof.
  intros Hf Hq Hnp. split; [exact Hq|]. intros rid' r Hr. cbn [with_q with_res l_res l_q].
  rewrite list_lookup_alter. destruct (decide (rid = rid')) as [<-|Hne].
  - rewrite Hr. exists (f r). destruct (Hf r) as (H1 & H2).
    split; [reflexivity|]. split; [exact H1|]. split; [exact H2|].
    intros _. right. apply Hnp. exact Hr.
  - exists r. auto.
Qed.

Section GrowsSteps.
Variable injector_get : string -> FnResult.

Lemma grows_fail rid reason s : grows s (fail rid reason s).
Proof.
  unfold fail. destruct (l_res s !! rid) as [r|] eqn:Hr; [|apply grows_refl].
  apply grows_mark.
  - intros r0. split; reflexivity.
  - apply qgrows_reject.
  - intros r0 Hr0 Hv. rewrite Hr in Hr0. injection Hr0 as <-.
    apply q_reject_settles. exact Hv.
Qed.

Lemma grows_done rid s : grows s (done rid s).
Proof.
  unfold done. destruct (l_res s !! rid) as [r|] eqn:Hr; [|apply grows_refl].
  destruct (r_wait r - 1 =? 0)%Z.
  - apply grows_mark.
    + intros r0. split; reflexivity.
    + apply qgrows_resolve.
    + intros r0 Hr0 Hv. rewrite Hr in Hr0. injection Hr0 as <-.
      apply q_resolve_settles. exact Hv.
  - apply grows_with_res. intros r0. repeat split; reflexivity.
Qed.

Lemma grows_onfailure rid eid reason s : grows s (onfailure rid eid reason s).
Proof.
  unfold onfailure. destruct (invocation s rid eid) as [iv|]; [|apply grows_refl].
  eapply grows_trans; [|apply grows_fail].
  apply grows_with_q, qgrows_reject.
Qed.

Lemma grows_proceed rid eid s : grows s (proceed injector_get rid eid s).
Proof.
  unfold proceed. destruct (l_res s !! rid) as [r|]; [|apply grows_refl].
  destruct (invocation s rid eid) as [iv|]; [|apply grows_refl].
  destruct (isDefined (r_failure r)); [apply grows_refl|].
  set (s1 := add_log rid (iv_key iv) (r_values r) s).
  assert (H1 : grows s s1) by (apply grows_q; [apply qgrows_refl|reflexivity]).
  eapply grows_trans; [exact H1|].
  destruct (invoke injector_get (iv_invocable iv) (r_self r) (r_values r)) as [v|e|fate].
  - eapply grows_trans; [apply grows_with_q, qgrows_resolve|].
    apply grows_with_q, qgrows_then.
  - apply grows_onfailure.
  - destruct (q_defer (l_q s1)) as [p q1] eqn:Hq.
    assert (Hq1 : q1 = snd (q_defer (l_q s1))) by (rewrite Hq; reflexivity).
    eapply grows_trans; [|apply grows_with_q, qgrows_then].
    eapply grows_trans; [|apply grows_with_q, qgrows_follow].
    apply grows_q; [|reflexivity]. cbn [l_q]. rewrite Hq1. apply qgrows_defer.
Qed.

Lemma grows_with_invocation rid eid g s : grows s (with_invocation rid eid g s).
Proof. unfold with_invocation. apply grows_with_res. intros r. repeat split; reflexivity. Qed.

Lemma grows_wait_for rid eid s dep : grows s (wait_for rid eid s dep).
Proof.
  unfold wait_for. destruct (l_res s !! rid) as [r|]; [|apply grows_refl].
  destruct (get (r_promises r) dep) as [p|]; [|apply grows_refl].
  destruct (negb (has (r_locals r) dep)); [|apply grows_refl].
  eapply grows_trans; [apply grows_with_invocation|].
  apply grows_with_q, qgrows_then.
Qed.

Lemma grows_fold_wait_for rid eid deps : forall s,
  grows s (fold_left (wait_for rid eid) deps s).
Proof.
  induction deps as [|dep deps IH]; intros s; [apply grows_refl|].
  cbn [fold_left]. eapply grows_trans; [apply grows_wait_for|apply IH].
Qed.

Lemma grows_invoke_entry rid e s : grows s (invoke_entry injector_get rid e s).
Proof.
  unfold invoke_entry. destruct (l_res s !! rid) as [r|]; [|apply grows_refl].
  destruct (q_defer (l_q s)) as [p q1] eqn:Hq.
  assert (Hq1 : q1 = snd (q_defer (l_q s))) by (rewrite Hq; reflexivity).
  cbv zeta.
  eapply grows_trans; [|apply grows_with_res; intros r0; repeat split; reflexivity].
  match goal with
  | |- grows s match invocation ?y _ _ with _ => _ end => set (s2 := y)
  end.
  assert (H2 : grows s s2).
  { unfold s2. eapply grows_trans; [|apply grows_fold_wait_for].
    eapply grows_trans; [|apply grows_with_res; intros r0; repeat split; reflexivity].
    apply grows_with_q. rewrite Hq1. apply qgrows_defer. }
  destruct (invocation s2 rid (length (r_invocations r))) as [iv'|]; [|exact H2].
  destruct (iv_waitParams iv' =? 0)%Z; [|exact H2].
  eapply grows_trans; [exact H2|apply grows_proceed].
Qed.

Lemma grows_process_entry rid s e : grows s (process_entry injector_get rid s e).
Proof.
  unfold process_entry. destruct (l_res s !! rid) as [r|]; [|apply grows_refl].
  destruct (has (r_locals r) (pe_key e)); [apply grows_done|apply grows_invoke_entry].
Qed.

Lemma grows_plan rid pl : forall s,
  grows s (fold_left (process_entry injector_get rid) pl s).
Proof.
  induction pl as [|e pl IH]; intros s; [apply grows_refl|].
  cbn [fold_left]. eapply grows_trans; [apply grows_process_entry|apply IH].
Qed.

Lemma grows_run_callback k arg s : grows s (run_callback injector_get k arg s).
Proof.
  destruct k as [rid|rid|rid eid dep|rid eid|rid eid|p|p]; cbn [run_callback].
  - apply grows_done.
  - apply grows_fail.
  - match goal with
    | |- grows s match invocation ?y _ _ with _ => _ end => set (s2 := y)
    end.
    assert (H2 : grows s s2).
    { unfold s2. eapply grows_trans; [|apply grows_with_invocation].
      apply grows_with_res. intros r. repeat split; reflexivity. }
    destruct (invocation s2 rid eid) as [iv|]; [|exact H2].
    destruct (iv_waitParams iv =? 0)%Z; [|exact H2].
    eapply grows_trans; [exact H2|apply grows_proceed].
  - apply grows_onfailure.
  - destruct (invocation s rid eid) as [iv|]; [|apply grows_refl].
    eapply grows_trans; [|apply grows_done].
    apply grows_with_res. intros r. repeat split; reflexivity.
  - apply grows_with_q, qgrows_adopt. discriminate.
  - apply grows_with_q, qgrows_adopt. discriminate.
Qed.

Lemma grows_tick s : grows s (tick injector_get s).
Proof.
  unfold tick. destruct (q_queue (l_q s)) as [|[k arg] rest]; [apply grows_refl|].
  eapply grows_trans; [|apply grows_run_callback].
  apply grows_with_q, qgrows_pop.
Qed.

Lemma grows_settle_outside i s : grows s (settle_outside i s).
Proof.
  unfold settle_outside. destruct (l_outside s !! i) as [[p fate]|]; [|apply grows_refl].
  destruct fate as [v|e|]; [| |apply grows_refl].
  - apply grows_q; [apply qgrows_resolve|reflexivity].
  - apply grows_q; [apply qgrows_reject|reflexivity].
Qed.

(** While the result promise of the parent of a call is pending, the
    store holds the [parent.then(done, fail)] of the call. *)
Record PP (s : Legacy) : Prop := {
  pp_valid : forall rid r,
      l_res s !! rid = Some r -> r_result r < length (q_states (l_q s));
  pp_marked : forall rid r,
      l_res s !! rid = Some r -> marked r -> q_state (l_q s) (r_result r) <> Pending;
  pp_parent : forall rid r prid,
      l_res s !! rid = Some r -> r_parent r = Parent prid -> prid < length (l_res s);
  pp_sub : forall rid r prid pr,
      l_res s !! rid = Some r -> r_parent r = Parent prid ->
      l_res s !! prid = Some pr -> q_state (l_q s) (r_result pr) = Pending ->
      mkSub (r_result pr) (KDone rid) (KFail rid) ∈ q_subs (l_q s)
}.

Lemma PP_init : PP legacy_init.
Proof. constructor; intros; discriminate. Qed.

(** What a step that adds resolutions owes for each of them. *)
Definition fresh_ok (s' : Legacy) (rid : nat) (r' : Resolution) : Prop :=
  r_result r' < length (q_states (l_q s')) /\
  (marked r' -> q_state (l_q s') (r_result r') <> Pending) /\
  forall prid, r_parent r' = Parent prid ->
    prid < length (l_res s') /\
    forall pr', l_res s' !! prid = Some pr' ->
      q_state (l_q s') (r_result pr') = Pending ->
      mkSub (r_result pr') (KDone rid) (KFail rid) ∈ q_subs (l_q s').

Lemma PP_grows s s' :
  PP s -> grows s s' ->
  (forall rid r', length (l_res s) <= rid -> l_res s' !! rid = Some r' ->
                  fresh_ok s' rid r') ->
  PP s'.
Proof.
  intros H Hg Hnew. pose proof (grows_length s s' Hg) as Hlen.
  destruct Hg as (Hq & Hres). destruct Hq as (Hql & Hmono & Hsubs).
  assert (Hold : forall rid r', l_res s' !! rid = Some r' -> rid < length (l_res s) ->
            exists r, l_res s !! rid = Some r /\ r_result r' = r_result r /\
                      r_parent r' = r_parent r /\
                      (marked r' -> q_state (l_q s') (r_result r') <> Pending)).
  { intros rid r' Hr' Hlt.
    destruct (lookup_lt_is_Some_2 (l_res s) rid Hlt) as [r Hr].
    destruct (Hres rid r Hr) as (r2 & Hr2 & H1 & H2 & H3).
    rewrite Hr' in Hr2. injection Hr2 as <-.
    exists r. split; [exact Hr|]. split; [exact H1|]. split; [exact H2|].
    intros Hm. rewrite H1. destruct (H3 Hm) as [Hmk|Hnp].
    - apply Hmono. apply (pp_marked s H rid r Hr Hmk).
    - apply Hnp. apply (pp_valid s H rid r Hr). }
  constructor.
  - intros rid r' Hr'. destruct (decide (rid < length (l_res s))) as [Hlt|Hge].
    + destruct (Hold rid r' Hr' Hlt) as (r & Hr & H1 & _).
      rewrite H1. pose proof (pp_valid s H rid r Hr). lia.
    + apply (Hnew rid r'); [lia|exact Hr'].
  - intros rid r' Hr'. destruct (decide (rid < length (l_res s))) as [Hlt|Hge].
    + destruct (Hold rid r' Hr' Hlt) as (r & _ & _ & _ & Hm). exact Hm.
    + apply (Hnew rid r'); [lia|exact Hr'].
  - intros rid r' prid Hr' Hpar. destruct (decide (rid < length (l_res s))) as [Hlt|Hge].
    + destruct (Hold rid r' Hr' Hlt) as (r & Hr & _ & H2 & _).
      rewrite H2 in Hpar. pose proof (pp_parent s H rid r prid Hr Hpar). lia.
    + apply (Hnew rid r'); [lia|exact Hr'|exact Hpar].
  - intros rid r' prid pr' Hr' Hpar Hpr' Hpend.
    destruct (decide (rid < length (l_res s))) as [Hlt|Hge].
    + destruct (Hold rid r' Hr' Hlt) as (r & Hr & _ & H2 & _).
      rewrite H2 in Hpar. pose proof (pp_parent s H rid r prid Hr Hpar) as Hplt.
      destruct (Hold prid pr' Hpr' Hplt) as (pr & Hpr & H1 & _).
      rewrite H1 in Hpend |- *.
      assert (Hp0 : q_state (l_q s) (r_result pr) = Pending).
      { destruct (q_state (l_q s) (r_result pr)) eqn:Hq0; [reflexivity|..];
          (exfalso; apply (Hmono (r_result pr)); [rewrite Hq0; discriminate|exact Hpend]). }
      apply (Hsubs (mkSub (r_result pr) (KDone rid) (KFail rid))).
      * apply (pp_sub s H rid r prid pr Hr Hpar Hpr Hp0).
      * apply (pp_valid s H prid pr Hpr).
      * exact Hpend.
    + destruct (Hnew rid r' ltac:(lia) Hr') as (_ & _ & Hp).
      destruct (Hp prid Hpar) as (_ & Hs). exact (Hs pr' Hpr' Hpend).
Qed.

Lemma PP_same s s' :
  PP s -> grows s s' -> length (l_res s') = length (l_res s) -> PP s'.
Proof.
  intros H Hg Hlen. apply (PP_grows s s' H Hg).
  intros rid r' Hge Hr'. apply lookup_lt_Some in Hr'. lia.
Qed.

Lemma length_with_res rid f s : length (l_res (with_res rid f s)) = length (l_res s).
Proof. unfold with_res. cbn [l_res]. apply length_alter. Qed.
End GrowsSteps.

Lemma grows_pending_back s s' p :
  grows s s' -> q_state (l_q s') p = Pending -> q_state (l_q s) p = Pending.
Proof.
  intros ((_ & Hmono & _) & _) Hp.
  destruct (q_state (l_q s) p) eqn:Hq; [reflexivity|..];
    (exfalso; apply (Hmono p); [rewrite Hq; discriminate|exact Hp]).
Qed.

Section ParentWait.
Variable injector_get : string -> FnResult.

Lemma len_fail rid reason s : length (l_res (fail rid reason s)) = length (l_res s).
Proof.
  unfold fail. destruct (l_res s !! rid); [|reflexivity].
  cbn [with_q l_res]. apply length_with_res.
Qed.

Lemma len_done rid s : length (l_res (done rid s)) = length (l_res s).
Proof.
  unfold done. destruct (l_res s !! rid); [|reflexivity].
  destruct (_ =? _)%Z; cbn [with_q l_res]; apply length_with_res.
Qed.

Lemma len_onfailure rid eid reason s :
  length (l_res (onfailure rid eid reason s)) = length (l_res s).
Proof.
  unfold onfailure. destruct (invocation s rid eid); [|reflexivity].
  rewrite len_fail. reflexivity.
Qed.

Lemma len_proceed rid eid s :
  length (l_res (proceed injector_get rid eid s)) = length (l_res s).
Proof.
  unfold proceed. destruct (l_res s !! rid) as [r|]; [|reflexivity].
  destruct (invocation s rid eid) as [iv|]; [|reflexivity].
  destruct (isDefined (r_failure r)); [reflexivity|].
  destruct (invoke injector_get (iv_invocable iv) (r_self r) (r_values r)).
  - reflexivity.
  - rewrite len_onfailure. reflexivity.
  - reflexivity.
Qed.

Lemma len_wait_for rid eid s dep :
  length (l_res (wait_for rid eid s dep)) = length (l_res s).
Proof.
  unfold wait_for. destruct (l_res s !! rid) as [r|]; [|reflexivity].
  destruct (get (r_promises r) dep); [|reflexivity].
  destruct (negb _); [|reflexivity].
  cbn [with_q l_res]. unfold with_invocation. apply length_with_res.
Qed.

Lemma len_fold_wait_for rid eid deps : forall s,
  length (l_res (fold_left (wait_for rid eid) deps s)) = length (l_res s).
Proof.
  induction deps as [|dep deps IH]; intros s; [reflexivity|].
  cbn [fold_left]. rewrite IH. apply len_wait_for.
Qed.

Lemma len_invoke_entry rid e s :
  length (l_res (invoke_entry injector_get rid e s)) = length (l_res s).
Proof.
  unfold invoke_entry. destruct (l_res s !! rid) as [r|]; [|reflexivity].
  destruct (q_defer (l_q s)) as [p q1]. cbv zeta. rewrite length_with_res.
  match goal with
  | |- length (l_res match invocation ?y _ _ with _ => _ end) = _ => set (s2 := y)
  end.
  assert (H2 : length (l_res s2) = length (l_res s)).
  { unfold s2. rewrite len_fold_wait_for, length_with_res. reflexivity. }
  destruct (invocation s2 rid (length (r_invocations r))) as [iv'|]; [|exact H2].
  destruct (iv_waitParams iv' =? 0)%Z; [|exact H2].
  rewrite len_proceed. exact H2.
Qed.

Lemma len_process_entry rid s e :
  length (l_res (process_entry injector_get rid s e)) = length (l_res s).
Proof.
  unfold process_entry. destruct (l_res s !! rid) as [r|]; [|reflexivity].
  destruct (has (r_locals r) (pe_key e)); [apply len_done|apply len_invoke_entry].
Qed.

Lemma len_plan rid pl : forall s,
  length (l_res (fold_left (process_entry injector_get rid) pl s)) = length (l_res s).
Proof.
  induction pl as [|e pl IH]; intros s; [reflexivity|].
  cbn [fold_left]. rewrite IH. apply len_process_entry.
Qed.

Lemma len_run_callback k arg s :
  length (l_res (run_callback injector_get k arg s)) = length (l_res s).
Proof.
  destruct k as [rid|rid|rid eid dep|rid eid|rid eid|p|p]; cbn [run_callback].
  - apply len_done.
  - apply len_fail.
  - match goal with
    | |- length (l_res match invocation ?y _ _ with _ => _ end) = _ => set (s2 := y)
    end.
    assert (H2 : length (l_res s2) = length (l_res s)).
    { unfold s2, with_invocation. rewrite !length_with_res. reflexivity. }
    destruct (invocation s2 rid eid) as [iv|]; [|exact H2].
    destruct (iv_waitParams iv =? 0)%Z; [|exact H2].
    rewrite len_proceed. exact H2.
  - apply len_onfailure.
  - destruct (invocation s rid eid) as [iv|]; [|reflexivity].
    rewrite len_done, length_with_res. reflexivity.
  - reflexivity.
  - reflexivity.
Qed.

Lemma len_tick s : length (l_res (tick injector_get s)) = length (l_res s).
Proof.
  unfold tick. destruct (q_queue (l_q s)) as [|[k arg] rest]; [reflexivity|].
  rewrite len_run_callback. reflexivity.
Qed.

Lemma len_settle_outside i s : length (l_res (settle_outside i s)) = length (l_res s).
Proof.
  unfold settle_outside. destruct (l_outside s !! i) as [[p fate]|]; [|reflexivity].
  destruct fate; reflexivity.
Qed.

(** A call has pushed the resolution [r0] and run to [sf]. *)
Lemma PP_started s s0 sf rid r0 :
  PP s -> grows s s0 -> grows s0 sf ->
  rid = length (l_res s) -> l_res s0 !! rid = Some r0 ->
  length (l_res sf) = S rid ->
  ~ marked r0 -> r_result r0 < length (q_states (l_q s0)) ->
  (forall prid, r_parent r0 = Parent prid ->
     prid < rid /\
     forall pr, l_res s !! prid = Some pr ->
       q_state (l_q sf) (r_result pr) = Pending ->
       mkSub (r_result pr) (KDone rid) (KFail rid) ∈ q_subs (l_q sf)) ->
  PP sf.
Proof.
  intros H G0 Gf Hrid Hr0 Hlen Hnm Hv0 Hpar.
  pose proof (grows_trans _ _ _ G0 Gf) as G.
  apply (PP_grows s sf H G).
  intros rid' r' Hge Hr'.
  assert (rid' = rid) as ->.
  { apply lookup_lt_Some in Hr'. lia. }
  destruct Gf as (Hqf & Hresf).
  destruct (Hresf rid r0 Hr0) as (r2 & Hr2 & H1 & H2 & H3).
  rewrite Hr' in Hr2. injection Hr2 as <-.
  assert (Hvf : r_result r' < length (q_states (l_q sf))).
  { rewrite H1. pose proof (proj1 Hqf). lia. }
  split; [exact Hvf|]. split.
  - intros Hm. rewrite H1. destruct (H3 Hm) as [Hmk|Hnp]; [contradiction|].
    apply Hnp. exact Hv0.
  - intros prid Hp. rewrite H2 in Hp. destruct (Hpar prid Hp) as (Hlt & Hsub).
    split; [lia|]. intros pr' Hpr' Hpend.
    destruct (lookup_lt_is_Some_2 (l_res s) prid) as [pr Hpr]; [lia|].
    destruct G as (_ & Hres). destruct (Hres prid pr Hpr) as (pr2 & Hpr2 & Hres2 & _).
    rewrite Hpr' in Hpr2. injection Hpr2 as <-.
    rewrite Hres2 in Hpend |- *. apply (Hsub pr Hpr Hpend).
Qed.

Lemma PP_start pl ks locals parent self s :
  PP s ->
  (forall prid, parent = Parent prid -> prid < length (l_res s)) ->
  PP (snd (start injector_get pl ks locals parent self s)).
Proof.
  intros H Hparent. unfold start. destruct (q_defer (l_q s)) as [p q1] eqn:Hq.
  assert (Hq1 : q1 = snd (q_defer (l_q s))) by (rewrite Hq; reflexivity).
  unfold q_defer in Hq. injection Hq as Hp _.
  set (rid := length (l_res s)).
  match goal with
  | |- context [mkLegacy _ (l_res s ++ [?r]) _ _] => set (r0 := r)
  end.
  set (s0 := mkLegacy q1 (l_res s ++ [r0]) (l_outside s) (l_log s)).
  assert (G0 : grows s s0).
  { split; [unfold s0; cbn [l_q]; rewrite Hq1; apply qgrows_defer|].
    intros rid' r Hr. exists r. unfold s0. cbn [l_res l_q].
    rewrite lookup_app_l by (eapply lookup_lt_Some; exact Hr). auto. }
  assert (Hr0 : l_res s0 !! rid = Some r0).
  { unfold s0, rid. cbn [l_res]. rewrite lookup_app_r, Nat.sub_diag by lia. reflexivity. }
  assert (Hlen0 : length (l_res s0) = S rid).
  { unfold s0, rid. cbn [l_res]. rewrite length_app. simpl. lia. }
  assert (Hnm : ~ marked r0).
  { unfold marked, r0. cbn. intros [?|?]; discriminate. }
  assert (Hv0 : r_result r0 < length (q_states (l_q s0))).
  { unfold s0, r0. cbn [l_q r_result]. rewrite Hq1. unfold q_defer. cbn [snd q_states].
    rewrite length_app. simpl. lia. }
  assert (Hpar0 : r_parent r0 = parent) by reflexivity.
  destruct (isDefined (parent_failure s parent)) eqn:Hpf.
  { cbn [snd].
    apply (PP_started s s0 _ rid r0 H G0 (grows_fail _ _ s0) eq_refl Hr0);
      [rewrite len_fail; exact Hlen0|exact Hnm|exact Hv0|].
    intros prid Hpar. rewrite Hpar0 in Hpar. split; [apply Hparent; exact Hpar|].
    intros pr Hpr Hpend. exfalso.
    assert (Hm : marked pr).
    { right. rewrite Hpar in Hpf. cbn [parent_failure] in Hpf. rewrite Hpr in Hpf.
      exact Hpf. }
    apply (pp_marked s H prid pr Hpr Hm).
    apply (grows_pending_back s (fail rid (parent_failure s parent) s0));
      [|exact Hpend].
    eapply grows_trans; [exact G0|apply grows_fail]. }
  cbn [snd]. cbv zeta.
  match goal with
  | |- PP (fold_left _ pl ?y) => set (s3 := y)
  end.
  assert (G3 : grows s0 s3 /\ length (l_res s3) = S rid /\
               forall prid pr, parent = Parent prid -> l_res s !! prid = Some pr ->
                 q_state (l_q s) (r_result pr) = Pending -> r_published pr = false ->
                 mkSub (r_result pr) (KDone rid) (KFail rid) ∈ q_subs (l_q s3)).
  { unfold s3.
    set (s1 := match parent_inherited s parent with
               | Some iv =>
                   with_res rid (fun r => set_values
                                   (merge (r_values r) (omit iv ks)) r) s0
               | None => s0
               end).
    assert (H1 : grows s0 s1 /\ length (l_res s1) = S rid /\ l_q s1 = q1).
    { unfold s1. destruct (parent_inherited s parent) as [iv|].
      - split; [apply grows_with_res; intros r; repeat split; reflexivity|].
        split; [rewrite length_with_res; exact Hlen0|reflexivity].
      - split; [apply grows_refl|]. split; [exact Hlen0|reflexivity]. }
    destruct H1 as (G1 & Hlen1 & Hq1').
    set (s2 := with_res rid (fun r => set_promises
                              (extend (r_promises r) (parent_promises s parent)) r) s1).
    assert (H2 : grows s0 s2 /\ length (l_res s2) = S rid /\ l_q s2 = q1).
    { split; [|split].
      - eapply grows_trans; [exact G1|].
        apply grows_with_res. intros r. repeat split; reflexivity.
      - unfold s2. rewrite length_with_res. exact Hlen1.
      - exact Hq1'. }
    destruct H2 as (G2 & Hlen2 & Hq2).
    destruct (parent_values s parent) as [pv|] eqn:Hpv.
    - split; [|split].
      + eapply grows_trans; [exact G2|]. eapply grows_trans; [|apply grows_done].
        apply grows_with_res. intros r. repeat split; reflexivity.
      + rewrite len_done, length_with_res. exact Hlen2.
      + intros prid pr Hpar Hpr _ Hpub. exfalso. rewrite Hpar in Hpv.
        cbn [parent_values] in Hpv. rewrite Hpr in Hpv. simpl in Hpv.
        rewrite Hpub in Hpv. discriminate.
    - match goal with
      | |- grows s0 match parent with
                    | NO_PARENT => ?y
                    | Parent _ => _
                    end /\ _ => set (s' := y)
      end.
      assert (H' : grows s0 s' /\ length (l_res s') = S rid /\ l_q s' = q1).
      { unfold s'. destruct (parent_inherited s parent) as [iv|].
        - split; [|split].
          + eapply grows_trans; [exact G2|].
            apply grows_with_res. intros r. repeat split; reflexivity.
          + rewrite length_with_res. exact Hlen2.
          + exact Hq2.
        - split; [exact G2|]. split; [exact Hlen2|exact Hq2]. }
      destruct H' as (G' & Hlen' & Hq').
      destruct parent as [|prid].
      + split; [exact G'|]. split; [exact Hlen'|]. intros; discriminate.
      + destruct (l_res s !! prid) as [pr|] eqn:Hpr.
        * split; [|split].
          -- eapply grows_trans; [exact G'|]. apply grows_with_q, qgrows_then.
          -- exact Hlen'.
          -- intros prid' pr' [= <-] Hpr' Hpend _. rewrite Hpr in Hpr'.
             injection Hpr' as <-. cbn [with_q l_q]. rewrite Hq'. unfold q_then.
             rewrite Hq1, q_state_defer, Hpend. cbn [q_subs].
             apply elem_of_app. right. apply list_elem_of_singleton. reflexivity.
        * split; [exact G'|]. split; [exact Hlen'|].
          intros prid' pr' [= <-] Hpr'. rewrite Hpr in Hpr'. discriminate. }
  destruct G3 as (G3 & Hlen3 & Hsub3).
  pose proof (grows_plan injector_get rid pl s3) as Gp.
  apply (PP_started s s0 _ rid r0 H G0 (grows_trans _ _ _ G3 Gp) eq_refl Hr0);
    [rewrite len_plan; exact Hlen3|exact Hnm|exact Hv0|].
  intros prid Hpar. rewrite Hpar0 in Hpar. split; [apply Hparent; exact Hpar|].
  intros pr Hpr Hpend.
  assert (Gs3 : grows s s3) by (eapply grows_trans; eassumption).
  assert (Hp0 : q_state (l_q s) (r_result pr) = Pending).
  { apply (grows_pending_back s (fold_left (process_entry injector_get rid) pl s3));
      [|exact Hpend].
    eapply grows_trans; eassumption. }
  assert (Hpub : r_published pr = false).
  { destruct (r_published pr) eqn:Hpub; [|reflexivity]. exfalso.
    apply (pp_marked s H prid pr Hpr); [left; exact Hpub|exact Hp0]. }
  destruct Gp as ((_ & _ & Hsubs) & _).
  apply (Hsubs (mkSub (r_result pr) (KDone rid) (KFail rid))).
  - apply (Hsub3 prid pr Hpar Hpr Hp0 Hpub).
  - cbn [sub_on]. pose proof (pp_valid s H prid pr Hpr).
    destruct Gs3 as ((Hl & _) & _). lia.
  - exact Hpend.
Qed.

Lemma PP_resolve invocables a1 a2 a3 s rid s' :
  resolve injector_get invocables a1 a2 a3 s = CallReturns rid s' ->
  PP s -> PP s'.
Proof.
  unfold resolve, resolve_fn. intros Hcall H.
  destruct (study_plan invocables) as [pl| |]; try discriminate.
  destruct (shift_args a1 a2 a3) as [[locals parent] self].
  destruct (negb (truthy locals) || _); [|destruct locals; discriminate].
  destruct (negb (truthy parent)).
  - pose proof (PP_start pl (keys invocables)
                  (match locals with VObj o => o | _ => [] end) NO_PARENT self s H) as Hs.
    destruct (start _ _ _ _ _ _ _) as [rid0 s0]. injection Hcall as <- <-.
    apply Hs. intros; discriminate.
  - destruct (isResolve parent); [|discriminate].
    destruct parent as [| | | | |prid]; try discriminate.
    destruct (l_res s !! prid) as [pr|] eqn:Hpr; [|discriminate].
    pose proof (PP_start pl (keys invocables)
                  (match locals with VObj o => o | _ => [] end) (Parent prid) self s H) as Hs.
    destruct (start _ _ _ _ _ _ _) as [rid0 s0]. injection Hcall as <- <-.
    apply Hs. intros prid' [= <-]. eapply lookup_lt_Some. exact Hpr.
Qed.

Lemma PP_reachable s : reachable injector_get s -> PP s.
Proof.
  intros H. apply clos_rt_rtn1 in H. induction H as [|s1 s2 Hstep _ IH].
  - exact PP_init.
  - destruct Hstep as [invocables a1 a2 a3 s rid s' Hcall|s|i s].
    + eapply PP_resolve; eauto.
    + apply (PP_same s); [exact IH|apply grows_tick|apply len_tick].
    + apply (PP_same s); [exact IH|apply grows_settle_outside|apply len_settle_outside].
Qed.

(** X13: in every world the engine can reach, a call that was given a
    parent has its result promise fulfilled only after the result promise
    of the parent has been settled: while the parent is pending, the call
    is not fulfilled. *)
Theorem result_waits_for_parent
        (s : Legacy) (rid : nat) (r : Resolution) (prid : nat) (pr : Resolution)
        (res : Val) :
  reachable injector_get s ->
  l_res s !! rid = Some r -> r_parent r = Parent prid ->
  l_res s !! prid = Some pr ->
  q_state (l_q s) (r_result r) = Fulfilled res ->
  exists v, q_state (l_q s) (r_result pr) = Fulfilled v \/
            q_state (l_q s) (r_result pr) = Rejected v.
Proof.
  intros Hreach Hr Hpar Hpr Hres.
  pose proof (PP_reachable s Hreach) as HP.
  pose proof (Tally_reachable injector_get s Hreach) as HT.
  destruct (q_state (l_q s) (r_result pr)) as [| |v|e] eqn:Hq.
  - exfalso.
    pose proof (pp_sub s HP rid r prid pr Hr Hpar Hpr Hq) as Hsub.
    assert (Hin : KDone rid ∈ callbacks (l_q s)).
    { unfold callbacks. apply elem_of_app. left.
      apply list_elem_of_In, in_flat_map.
      exists (mkSub (r_result pr) (KDone rid) (KFail rid)).
      split; [apply list_elem_of_In; exact Hsub|]. left. reflexivity. }
    assert (Hocc : occ (is_done rid) (l_q s) <> 0).
    { intros Hz. pose proof (tally_none _ _ _ Hz Hin) as Hf. cbn [is_done] in Hf.
      rewrite Nat.eqb_refl in Hf. discriminate. }
    pose proof (views_lookup_2 s rid r Hr) as Hv.
    destruct (tv_tallied _ _ _ _ HT rid (view r) Hv) as (done_ & Hnd & Hcl & Hle).
    pose proof (done_length _ _ _ _ Hnd Hcl) as Hdl.
    destruct (tv_full _ _ _ _ HT rid (view r) res Hv Hres) as (_ & Hw).
    unfold zero in Hle. lia.
  - exfalso. apply (tv_unlocked _ _ _ _ HT prid (view pr) (views_lookup_2 s prid pr Hpr)).
    exact Hq.
  - exists v. left. reflexivity.
  - exists e. right. reflexivity.
Qed.
End ParentWait.

Lemma result_waits_for_parent_witness :
  exists r pr res,
    l_res child_inherits_base !! 1 = Some r /\ r_parent r = Parent 0 /\
    l_res child_inherits_base !! 0 = Some pr /\
    q_state (l_q child_inherits_base) (r_result r) = Fulfilled res /\
    exists v, q_state (l_q child_inherits_base) (r_result pr) = Fulfilled v \/
              q_state (l_q child_inherits_base) (r_result pr) = Rejected v.
Proof.
  eexists _, _, _.
  split; [vm_compute; reflexivity|]. split; [vm_compute; reflexivity|].
  split; [vm_compute; reflexivity|]. split; [vm_compute; reflexivity|].
  refine (result_waits_for_parent no_services child_inherits_base 1 _ 0 _ _
            child_inherits_base_reachable _ _ _ _).
  - vm_compute. reflexivity.
  - vm_compute. reflexivity.
  - vm_compute. reflexivity.
  - vm_compute. reflexivity.
Defined.

(** ** The legacy engine: the result holds the locals *)

(** [res] is an object that holds every local of [r] under its name. *)
Definition holds_locals (r : Resolution) (res : Val) : Prop :=
  exists vals, res = VObj vals /\
    forall k, has (r_locals r) k = true ->
              get vals k = get (extend [] (r_locals r)) k.

(** From [s] to [s']: every resolution of [s'] is one of [s], with the same
    result promise and locals, and a result promise that has become
    fulfilled is fulfilled with an object that holds the locals. *)
Definition fills (s s' : Legacy) : Prop :=
  length (q_states (l_q s)) <= length (q_states (l_q s')) /\
  forall rid r', l_res s' !! rid = Some r' ->
    exists r, l_res s !! rid = Some r /\
      r_result r' = r_result r /\ r_locals r' = r_locals r /\
      forall res, q_state (l_q s') (r_result r') = Fulfilled res ->
        q_state (l_q s) (r_result r) = Fulfilled res \/ holds_locals r res.

(** Every fulfilled result promise holds the locals of its call. *)
Definition Full (s : Legacy) : Prop :=
  forall rid r res,
    l_res s !! rid = Some r -> q_state (l_q s) (r_result r) = Fulfilled res ->
    holds_locals r res.

Definition notres (s : Legacy) (p : nat) : Prop :=
  forall rid r, l_res s !! rid = Some r -> r_result r <> p.

Definition valid_results (s : Legacy) : Prop :=
  forall rid r, l_res s !! rid = Some r -> r_result r < length (q_states (l_q s)).

Definition own_results (s : Legacy) : Prop :=
  forall rid r rid' r',
    l_res s !! rid = Some r -> l_res s !! rid' = Some r' ->
    r_result r = r_result r' -> rid = rid'.

(** No invocation is set up under the name of a local, and [values] holds
    every local. *)
Definition locals_ok (s : Legacy) : Prop :=
  (forall rid r iv, l_res s !! rid = Some r -> iv ∈ r_invocations r ->
                    has (r_locals r) (iv_key iv) = false) /\
  (forall rid r k, l_res s !! rid = Some r -> has (r_locals r) k = true ->
                   get (r_values r) k = get (extend [] (r_locals r)) k).

(** No promise of an invocation is a result promise. *)
Definition results_apart (s : Legacy) : Prop :=
  forall rid r e iv,
    l_res s !! rid = Some r -> r_invocations r !! e = Some iv ->
    notres s (iv_invocation iv).

Lemma holds_locals_eq r r' res :
  r_locals r' = r_locals r -> holds_locals r res -> holds_locals r' res.
Proof. unfold holds_locals. intros ->. auto. Qed.

Lemma fills_refl s : fills s s.
Proof. split; [lia|]. intros rid r Hr. exists r. auto. Qed.

Lemma fills_trans s1 s2 s3 : fills s1 s2 -> fills s2 s3 -> fills s1 s3.
Proof.
  intros (Hl1 & H1) (Hl2 & H2). split; [lia|].
  intros rid r3 Hr3. destruct (H2 rid r3 Hr3) as (r2 & Hr2 & Hres2 & Hloc2 & Hf2).
  destruct (H1 rid r2 Hr2) as (r1 & Hr1 & Hres1 & Hloc1 & Hf1).
  exists r1. split; [exact Hr1|]. split; [congruence|]. split; [congruence|].
  intros res Hres. destruct (Hf2 res Hres) as [Hq|Hh].
  - apply Hf1. exact Hq.
  - right. apply (holds_locals_eq r2); [congruence|exact Hh].
Qed.

Lemma Full_fills s s' : Full s -> fills s s' -> Full s'.
Proof.
  intros HF (_ & H) rid r' res Hr' Hres.
  destruct (H rid r' Hr') as (r & Hr & _ & Hloc & Hf).
  apply (holds_locals_eq r); [exact Hloc|].
  destruct (Hf res Hres) as [Hq|Hh]; [|exact Hh]. exact (HF rid r res Hr Hq).
Qed.

Lemma notres_fills s s' p : fills s s' -> notres s p -> notres s' p.
Proof.
  intros (_ & H) Hn rid r' Hr'. destruct (H rid r' Hr') as (r & Hr & Hres & _).
  rewrite Hres. exact (Hn rid r Hr).
Qed.

Lemma valid_results_fills s s' : fills s s' -> valid_results s -> valid_results s'.
Proof.
  intros (Hl & H) Hv rid r' Hr'. destruct (H rid r' Hr') as (r & Hr & Hres & _).
  rewrite Hres. pose proof (Hv rid r Hr). lia.
Qed.

Lemma own_results_fills s s' : fills s s' -> own_results s -> own_results s'.
Proof.
  intros (_ & H) Ho rid r1 rid' r2 Hr1 Hr2 Heq.
  destruct (H rid r1 Hr1) as (r1' & Hr1' & Hres1 & _).
  destruct (H rid' r2 Hr2) as (r2' & Hr2' & Hres2 & _).
  apply (Ho rid r1' rid' r2' Hr1' Hr2'). congruence.
Qed.

Lemma valid_notres s :
  valid_results s -> notres s (length (q_states (l_q s))).
Proof. intros Hv rid r Hr. pose proof (Hv rid r Hr). lia. Qed.

Lemma LocalsInv_locals_ok s : LocalsInv s -> locals_ok s.
Proof. intros [Hk Hv _ _]. split; assumption. Qed.

(** A change of the store alone. *)
Lemma fills_q s s' :
  l_res s' = l_res s ->
  length (q_states (l_q s)) <= length (q_states (l_q s')) ->
  (forall rid r res, l_res s !! rid = Some r ->
     q_state (l_q s') (r_result r) = Fulfilled res ->
     q_state (l_q s) (r_result r) = Fulfilled res \/ holds_locals r res) ->
  fills s s'.
Proof.
  intros Hres Hl H. split; [exact Hl|]. intros rid r Hr. rewrite Hres in Hr.
  exists r. split; [exact Hr|]. split; [reflexivity|]. split; [reflexivity|].
  intros res. apply (H rid r res Hr).
Qed.

(** A change of the store that fulfils no promise. *)
Lemma fills_quiet s s' :
  l_res s' = l_res s ->
  length (q_states (l_q s)) <= length (q_states (l_q s')) ->
  (forall p res, q_state (l_q s') p = Fulfilled res ->
                 q_state (l_q s) p = Fulfilled res) ->
  fills s s'.
Proof. intros Hres Hl H. apply fills_q; [exact Hres|exact Hl|]. intros. left. auto. Qed.

Lemma fills_with_res rid f s :
  (forall r, r_result (f r) = r_result r /\ r_locals (f r) = r_locals r) ->
  fills s (with_res rid f s).
Proof.
  intros Hf. split; [cbn; lia|]. intros rid' r'. cbn [with_res l_res l_q].
  rewrite list_lookup_alter. destruct (decide (rid = rid')) as [<-|Hne].
  - destruct (l_res s !! rid) as [r|]; cbn [fmap option_fmap option_map];
      [|discriminate].
    intros [= <-]. destruct (Hf r) as (H1 & H2). exists r.
    split; [reflexivity|]. split; [exact H1|]. split; [exact H2|].
    intros res Hres. left. rewrite <- H1. exact Hres.
  - intros Hr. exists r'. auto.
Qed.

Lemma fills_then s p ok err : fills s (with_q (q_then p ok err) s).
Proof.
  apply fills_quiet; [reflexivity|cbn [with_q l_q]; rewrite q_states_then; lia|].
  intros p' res. cbn [with_q l_q]. rewrite q_state_then. auto.
Qed.

Lemma fills_reject s p e : fills s (with_q (q_reject p e) s).
Proof.
  apply fills_quiet; [reflexivity|cbn [with_q l_q]; rewrite q_states_reject_length; lia|].
  intros p' res. cbn [with_q l_q].
  destruct (q_reject_cases (l_q s) p e p') as [->|(_ & _ & ->)]; [auto|discriminate].
Qed.

Lemma fills_follow s p src ok err : fills s (with_q (q_follow p src ok err) s).
Proof.
  apply fills_quiet; [reflexivity|cbn [with_q l_q]; rewrite q_states_follow_length; lia|].
  intros p' res. cbn [with_q l_q].
  destruct (q_follow_cases (l_q s) p src ok err p') as [->|(_ & _ & ->)];
    [auto|discriminate].
Qed.

Lemma fills_resolve_other s p v : notres s p -> fills s (with_q (q_resolve p v) s).
Proof.
  intros Hn.
  apply fills_q; [reflexivity|cbn [with_q l_q]; rewrite q_states_resolve_length; lia|].
  intros rid r res Hr. cbn [with_q l_q].
  destruct (q_resolve_cases (l_q s) p v (r_result r)) as [->|(Heq & _)]; [auto|].
  exfalso. exact (Hn rid r Hr Heq).
Qed.

Lemma fills_adopt s p st :
  (forall rid r, l_res s !! rid = Some r -> q_state (l_q s) (r_result r) <> Locked) ->
  fills s (with_q (q_adopt p st) s).
Proof.
  intros Hu.
  apply fills_q; [reflexivity|cbn [with_q l_q]; rewrite q_states_adopt_length; lia|].
  intros rid r res Hr. cbn [with_q l_q].
  destruct (q_adopt_cases (l_q s) p st (r_result r)) as [->|(Heq & Hl & _)]; [auto|].
  exfalso. apply (Hu rid r Hr). rewrite Heq. exact Hl.
Qed.

Lemma fills_fail rid reason s : fills s (fail rid reason s).
Proof.
  unfold fail. destruct (l_res s !! rid) as [r|]; [|apply fills_refl].
  eapply fills_trans; [|apply fills_reject].
  apply fills_with_res. intros r0. split; reflexivity.
Qed.

Lemma fills_onfailure rid eid reason s : fills s (onfailure rid eid reason s).
Proof.
  unfold onfailure. destruct (invocation s rid eid) as [iv|]; [|apply fills_refl].
  eapply fills_trans; [apply fills_reject|apply fills_fail].
Qed.

(** [done]: when [wait] reaches zero the result is fulfilled with
    [values], which holds the locals. *)
Lemma fills_done rid s :
  own_results s ->
  (forall r k, l_res s !! rid = Some r -> has (r_locals r) k = true ->
               get (r_values r) k = get (extend [] (r_locals r)) k) ->
  fills s (done rid s).
Proof.
  intros Ho Hv. unfold done. destruct (l_res s !! rid) as [r|] eqn:Hr; [|apply fills_refl].
  destruct (r_wait r - 1 =? 0)%Z.
  2:{ apply fills_with_res. intros r0. split; reflexivity. }
  match goal with
  | |- fills s (with_q (q_resolve _ (VObj ?x)) _) => set (values := x)
  end.
  match goal with
  | |- fills s (with_q _ ?y) => set (s1 := y)
  end.
  assert (G1 : fills s s1) by (apply fills_with_res; intros r0; split; reflexivity).
  apply (fills_trans s s1); [exact G1|].
  apply fills_q; [reflexivity|cbn [with_q l_q]; rewrite q_states_resolve_length; lia|].
  intros rid' r1 res Hr1. cbn [with_q l_q]. change (l_q s1) with (l_q s).
  destruct (q_resolve_cases (l_q s) (r_result r) (VObj values) (r_result r1))
    as [->|(Heq & _ & ->)]; [auto|].
  intros [= <-]. right.
  destruct G1 as (_ & G1). destruct (G1 rid' r1 Hr1) as (r1' & Hr1' & Hres1 & Hloc1 & _).
  assert (rid' = rid) as ->.
  { apply (Ho rid' r1' rid r Hr1' Hr). congruence. }
  rewrite Hr in Hr1'. injection Hr1' as <-.
  exists values. split; [reflexivity|]. intros k Hk. rewrite Hloc1 in Hk |- *.
  pose proof (Hv r k eq_refl Hk) as Hg. unfold values.
  destruct (r_merged r); [exact Hg|].
  rewrite has_merge_dst; [exact Hg|]. unfold has. rewrite Hg.
  fold (has (extend (A := Val) [] (r_locals r)) k). rewrite has_extend, Hk.
  apply orb_true_r.
Qed.

(** The promise of invocation [e] of resolution [rid]. *)
Definition promise_at (s : Legacy) (rid e : nat) : option nat :=
  iv_invocation <$> invocation s rid e.

Lemma promise_at_with_res rid' f s rid e :
  (forall r, iv_invocation <$> r_invocations (f r) = iv_invocation <$> r_invocations r) ->
  promise_at (with_res rid' f s) rid e = promise_at s rid e.
Proof.
  intros Hf. unfold promise_at, invocation, with_res. cbn [l_res].
  rewrite list_lookup_alter. destruct (decide (rid' = rid)) as [->|Hne]; [|reflexivity].
  destruct (l_res s !! rid) as [r|]; cbn; [|reflexivity].
  rewrite <- !list_lookup_fmap, Hf. reflexivity.
Qed.

Lemma promise_at_with_invocation rid' e' g s rid e :
  (forall iv, iv_invocation (g iv) = iv_invocation iv) ->
  promise_at (with_invocation rid' e' g s) rid e = promise_at s rid e.
Proof.
  intros Hg. unfold with_invocation. apply promise_at_with_res. intros r.
  cbn [set_invocations r_invocations]. apply list_eq. intros i.
  rewrite !list_lookup_fmap, list_lookup_alter.
  destruct (decide (e' = i)) as [->|Hne]; [|reflexivity].
  destruct (r_invocations r !! i) as [iv|]; cbn; [|reflexivity].
  rewrite Hg. reflexivity.
Qed.

Lemma promise_at_wait_for rid' e' s dep rid e :
  promise_at (wait_for rid' e' s dep) rid e = promise_at s rid e.
Proof.
  unfold wait_for. destruct (l_res s !! rid') as [r|]; [|reflexivity].
  destruct (get (r_promises r) dep); [|reflexivity].
  destruct (negb _); [|reflexivity].
  change (promise_at (with_q ?f ?y) rid e) with (promise_at y rid e).
  apply promise_at_with_invocation. reflexivity.
Qed.

Lemma promise_at_fold_wait_for rid' e' deps rid e : forall s,
  promise_at (fold_left (wait_for rid' e') deps s) rid e = promise_at s rid e.
Proof.
  induction deps as [|dep deps IH]; intros s; [reflexivity|].
  cbn [fold_left]. rewrite IH. apply promise_at_wait_for.
Qed.

Lemma promise_at_Some s rid e iv :
  invocation s rid e = Some iv -> promise_at s rid e = Some (iv_invocation iv).
Proof. intros H. unfold promise_at. rewrite H. reflexivity. Qed.

Section FillsSteps.
Variable injector_get : string -> FnResult.

Lemma fills_proceed rid eid s :
  (forall p, promise_at s rid eid = Some p -> notres s p) ->
  fills s (proceed injector_get rid eid s).
Proof.
  intros Hn. unfold proceed. destruct (l_res s !! rid) as [r|]; [|apply fills_refl].
  destruct (invocation s rid eid) as [iv|] eqn:Hiv; [|apply fills_refl].
  destruct (isDefined (r_failure r)); [apply fills_refl|].
  specialize (Hn _ (promise_at_Some s rid eid iv Hiv)).
  set (s1 := add_log rid (iv_key iv) (r_values r) s).
  assert (H1 : fills s s1) by (apply fills_quiet; [reflexivity|cbn; lia|auto]).
  eapply fills_trans; [exact H1|].
  destruct (invoke injector_get (iv_invocable iv) (r_self r) (r_values r)) as [v|e|fate].
  - eapply fills_trans; [|apply fills_then].
    apply fills_resolve_other. exact Hn.
  - apply fills_onfailure.
  - destruct (q_defer (l_q s1)) as [p q1] eqn:Hq.
    assert (Hq1 : q1 = snd (q_defer (l_q s1))) by (rewrite Hq; reflexivity).
    eapply fills_trans; [|apply fills_then].
    eapply fills_trans; [|apply fills_follow].
    apply fills_quiet; [reflexivity| |].
    + cbn [l_q]. rewrite Hq1. unfold q_defer. cbn [snd q_states].
      rewrite length_app. lia.
    + intros p' res. cbn [l_q]. rewrite Hq1, q_state_defer. auto.
Qed.

Lemma fills_wait_for rid eid s dep : fills s (wait_for rid eid s dep).
Proof.
  unfold wait_for. destruct (l_res s !! rid) as [r|]; [|apply fills_refl].
  destruct (get (r_promises r) dep) as [p|]; [|apply fills_refl].
  destruct (negb (has (r_locals r) dep)); [|apply fills_refl].
  eapply fills_trans; [|apply fills_then].
  unfold with_invocation. apply fills_with_res. intros r0. split; reflexivity.
Qed.

Lemma fills_fold_wait_for rid eid deps : forall s,
  fills s (fold_left (wait_for rid eid) deps s).
Proof.
  induction deps as [|dep deps IH]; intros s; [apply fills_refl|].
  cbn [fold_left]. eapply fills_trans; [apply fills_wait_for|apply IH].
Qed.

Lemma fills_invoke_entry rid e s :
  valid_results s -> fills s (invoke_entry injector_get rid e s).
Proof.
  intros Hv. unfold invoke_entry. destruct (l_res s !! rid) as [r|] eqn:Hr;
    [|apply fills_refl].
  destruct (q_defer (l_q s)) as [p q1] eqn:Hq.
  assert (Hq1 : q1 = snd (q_defer (l_q s))) by (rewrite Hq; reflexivity).
  assert (Hp : p = length (q_states (l_q s))).
  { unfold q_defer in Hq. injection Hq as <- _. reflexivity. }
  cbv zeta.
  eapply fills_trans; [|apply fills_with_res; intros r0; split; reflexivity].
  match goal with
  | |- fills s match invocation ?y _ _ with _ => _ end => set (s2 := y)
  end.
  set (s1 := with_res rid
               (set_invocations
                  (r_invocations r ++
                   [mkInvocation (pe_key e) (pe_invocable e) (pe_params e) 0%Z p]))
               (with_q (fun _ => q1) s)) in *.
  assert (H2 : fills s s2).
  { unfold s2. eapply fills_trans; [|apply fills_fold_wait_for].
    unfold s1. eapply fills_trans; [|apply fills_with_res; intros r0; split; reflexivity].
    apply fills_quiet; [reflexivity| |].
    - cbn [with_q l_q]. rewrite Hq1. unfold q_defer. cbn [snd q_states].
      rewrite length_app. lia.
    - intros p' res. cbn [with_q l_q]. rewrite Hq1, q_state_defer. auto. }
  assert (Hat : promise_at s2 rid (length (r_invocations r)) = Some p).
  { unfold s2. rewrite promise_at_fold_wait_for. unfold s1, promise_at, invocation.
    cbn [with_res with_q l_res]. rewrite list_lookup_alter_eq, Hr.
    cbn [fmap option_fmap option_map mbind option_bind set_invocations r_invocations].
    rewrite lookup_app_r, Nat.sub_diag by lia. reflexivity. }
  destruct (invocation s2 rid (length (r_invocations r))) as [iv'|]; [|exact H2].
  destruct (iv_waitParams iv' =? 0)%Z; [|exact H2].
  eapply fills_trans; [exact H2|]. apply fills_proceed.
  intros p' Hp'. rewrite Hat in Hp'. injection Hp' as <-.
  apply (notres_fills s s2 p H2). rewrite Hp. apply valid_notres. exact Hv.
Qed.

Lemma fills_process_entry rid s e :
  locals_ok s -> valid_results s -> own_results s ->
  fills s (process_entry injector_get rid s e).
Proof.
  intros (_ & Hl) Hv Ho. unfold process_entry.
  destruct (l_res s !! rid) as [r|]; [|apply fills_refl].
  destruct (has (r_locals r) (pe_key e)).
  - apply fills_done; [exact Ho|]. intros r0 k. apply Hl.
  - apply fills_invoke_entry. exact Hv.
Qed.

Lemma fills_plan rid pl : forall s,
  LocalsInv s -> valid_results s -> own_results s ->
  fills s (fold_left (process_entry injector_get rid) pl s).
Proof.
  induction pl as [|e pl IH]; intros s HL Hv Ho; [apply fills_refl|].
  cbn [fold_left].
  pose proof (fills_process_entry rid s e (LocalsInv_locals_ok s HL) Hv Ho) as H1.
  eapply fills_trans; [exact H1|]. apply IH.
  - apply LocalsInv_process_entry. exact HL.
  - apply (valid_results_fills s); assumption.
  - apply (own_results_fills s); assumption.
Qed.

Lemma fills_run_callback k arg s :
  locals_ok s -> own_results s -> results_apart s ->
  (forall rid r, l_res s !! rid = Some r -> q_state (l_q s) (r_result r) <> Locked) ->
  fills s (run_callback injector_get k arg s).
Proof.
  intros (Hkeys & Hvals) Ho Hra Hu.
  destruct k as [rid|rid|rid eid dep|rid eid|rid eid|p|p]; cbn [run_callback].
  - apply fills_done; [exact Ho|]. intros r k. apply Hvals.
  - apply fills_fail.
  - match goal with
    | |- fills s match invocation ?y _ _ with _ => _ end => set (s2 := y)
    end.
    assert (H2 : fills s s2).
    { unfold s2, with_invocation.
      eapply fills_trans; apply fills_with_res; intros r; split; reflexivity. }
    assert (Hat : promise_at s2 rid eid = promise_at s rid eid).
    { unfold s2. rewrite promise_at_with_invocation by reflexivity.
      apply promise_at_with_res. reflexivity. }
    destruct (invocation s2 rid eid) as [iv|]; [|exact H2].
    destruct (iv_waitParams iv =? 0)%Z; [|exact H2].
    eapply fills_trans; [exact H2|]. apply fills_proceed.
    intros p Hp. rewrite Hat in Hp. apply (notres_fills s s2 p H2).
    unfold promise_at in Hp.
    destruct (invocation s rid eid) as [iv0|] eqn:Hiv0; [|discriminate].
    injection Hp as <-. apply invocation_Some in Hiv0 as (r & Hr & Hiv0).
    exact (Hra rid r eid iv0 Hr Hiv0).
  - apply fills_onfailure.
  - destruct (invocation s rid eid) as [iv|] eqn:Hiv; [|apply fills_refl].
    apply invocation_Some in Hiv as (r & Hr & Hiv).
    set (s1 := with_res rid (fun r => set_values (set (r_values r) (iv_key iv) arg) r) s).
    assert (H1 : fills s s1) by (apply fills_with_res; intros r0; split; reflexivity).
    eapply fills_trans; [exact H1|]. apply fills_done.
    + apply (own_results_fills s); assumption.
    + intros r1 k Hr1 Hk. unfold s1 in Hr1. cbn [with_res l_res] in Hr1.
      rewrite list_lookup_alter_eq, Hr in Hr1. injection Hr1 as <-.
      cbn [set_values r_values r_locals] in Hk |- *. rewrite get_set.
      destruct (String.eqb_spec (iv_key iv) k) as [Heq|Hne].
      * exfalso. subst k.
        rewrite (Hkeys rid r iv Hr) in Hk by (eapply list_elem_of_lookup_2; exact Hiv).
        discriminate.
      * apply (Hvals rid r k Hr Hk).
  - apply fills_adopt. exact Hu.
  - apply fills_adopt. exact Hu.
Qed.

Lemma fills_tick s :
  locals_ok s -> own_results s -> results_apart s ->
  (forall rid r, l_res s !! rid = Some r -> q_state (l_q s) (r_result r) <> Locked) ->
  fills s (tick injector_get s).
Proof.
  intros Hl Ho Hra Hu. unfold tick.
  destruct (q_queue (l_q s)) as [|[k arg] rest]; [apply fills_refl|].
  eapply fills_trans; [|apply fills_run_callback; [exact Hl|exact Ho|exact Hra|exact Hu]].
  apply fills_quiet; [reflexivity|cbn; lia|auto].
Qed.

Lemma fills_settle_outside i s :
  (forall p f, (p, f) ∈ l_outside s -> notres s p) ->
  fills s (settle_outside i s).
Proof.
  intros Hout. unfold settle_outside.
  destruct (l_outside s !! i) as [[p fate]|] eqn:Hi; [|apply fills_refl].
  destruct fate as [v|e|]; [| |apply fills_refl].
  - eapply fills_trans; [|apply fills_resolve_other].
    + apply fills_quiet; [reflexivity|cbn; lia|auto].
    + intros rid r Hr. cbn [l_res] in Hr.
      refine (Hout p (WillFulfil v) _ rid r Hr).
      eapply list_elem_of_lookup_2. exact Hi.
  - eapply fills_trans; [|apply fills_reject].
    apply fills_quiet; [reflexivity|cbn; lia|auto].
Qed.

Lemma Full_start pl ks locals parent self s :
  LocalsInv s -> valid_results s -> own_results s -> Full s ->
  Full (snd (start injector_get pl ks locals parent self s)).
Proof.
  intros HL Hv Ho HF. unfold start. destruct (q_defer (l_q s)) as [p q1] eqn:Hq.
  assert (Hq1 : q1 = snd (q_defer (l_q s))) by (rewrite Hq; reflexivity).
  assert (Hp : p = length (q_states (l_q s))).
  { unfold q_defer in Hq. injection Hq as <- _. reflexivity. }
  set (rid := length (l_res s)).
  set (r0 := mkResolution _ _ _ _ _ _ _ _ _ _ _ _).
  set (s0 := mkLegacy q1 (l_res s ++ [r0]) (l_outside s) (l_log s)).
  assert (Hlook : forall rid' r', l_res s0 !! rid' = Some r' ->
                    l_res s !! rid' = Some r' \/ (rid' = rid /\ r' = r0)).
  { intros rid' r' Hr'. unfold s0 in Hr'. cbn [l_res] in Hr'.
    apply lookup_app_Some in Hr' as [Hr'|[Hge Hr']]; [auto|]. right.
    assert (rid' - length (l_res s) = 0) as Hz.
    { apply lookup_lt_Some in Hr'. simpl in Hr'. lia. }
    rewrite Hz in Hr'. injection Hr' as <-. split; [unfold rid; lia|reflexivity]. }
  assert (HL0 : LocalsInv s0).
  { apply LocalsInv_new_resolution; [|reflexivity|reflexivity|exact HL].
    rewrite Hq1. reflexivity. }
  assert (Hlen1 : length (q_states q1) = S (length (q_states (l_q s)))).
  { rewrite Hq1. unfold q_defer. cbn [snd q_states]. rewrite length_app. simpl. lia. }
  assert (Hv0 : valid_results s0).
  { intros rid' r' Hr'. unfold s0. cbn [l_q]. rewrite Hlen1.
    destruct (Hlook rid' r' Hr') as [Hr|[_ ->]].
    - pose proof (Hv rid' r' Hr). lia.
    - unfold r0. cbn [r_result]. lia. }
  assert (Ho0 : own_results s0).
  { intros rid1 r1 rid2 r2 Hr1 Hr2 Heq.
    destruct (Hlook rid1 r1 Hr1) as [Hr1'|[-> ->]];
      destruct (Hlook rid2 r2 Hr2) as [Hr2'|[-> ->]].
    - exact (Ho rid1 r1 rid2 r2 Hr1' Hr2' Heq).
    - exfalso. pose proof (Hv rid1 r1 Hr1'). unfold r0 in Heq. cbn [r_result] in Heq. lia.
    - exfalso. pose proof (Hv rid2 r2 Hr2'). unfold r0 in Heq. cbn [r_result] in Heq. lia.
    - reflexivity. }
  assert (HF0 : Full s0).
  { intros rid' r' res Hr' Hres. unfold s0 in Hres. cbn [l_q] in Hres.
    rewrite Hq1, q_state_defer in Hres.
    destruct (Hlook rid' r' Hr') as [Hr|[_ ->]].
    - exact (HF rid' r' res Hr Hres).
    - unfold r0 in Hres. cbn [r_result] in Hres.
      rewrite Hp, q_state_invalid in Hres by lia. discriminate. }
  destruct (isDefined (parent_failure s parent)); cbn [snd].
  { apply (Full_fills s0); [exact HF0|apply fills_fail]. }
  match goal with
  | |- Full (fold_left _ pl ?y) => set (s3 := y)
  end.
  assert (H3 : LocalsInv s3 /\ fills s0 s3).
  { unfold s3.
    assert (Hmerge : forall s1 (x : Obj Val) g,
              LocalsInv s1 ->
              (forall v r, r_locals (g v r) = r_locals r) ->
              (forall v r, r_invocations (g v r) = r_invocations r) ->
              (forall v r, r_values (g v r) = v) ->
              LocalsInv (with_res rid (fun r => g (merge (r_values r) x) r) s1)).
    { intros s1 x g H1 Hl Hi Hvv. apply LocalsInv_with_res; [|exact H1].
      intros r Hr. apply keeps_locals_merge; auto.
      right. intros k Hk. apply (li_values _ H1 rid r k Hr Hk). }
    set (s1 := match parent_inherited s parent with
               | Some iv => _
               | None => _
               end).
    assert (H1 : LocalsInv s1 /\ fills s0 s1).
    { unfold s1. destruct (parent_inherited s parent) as [iv|];
        [|split; [exact HL0|apply fills_refl]].
      split.
      - apply (Hmerge _ (omit iv ks) (fun v r => set_values v r) HL0); reflexivity.
      - apply fills_with_res. intros r. split; reflexivity. }
    destruct H1 as (HL1 & G1).
    set (s2 := with_res rid _ s1).
    assert (H2 : LocalsInv s2 /\ fills s0 s2).
    { split.
      - apply LocalsInv_with_res; [|exact HL1].
        intros r _. apply keeps_locals_other; reflexivity.
      - eapply fills_trans; [exact G1|].
        apply fills_with_res. intros r. split; reflexivity. }
    destruct H2 as (HL2 & G2).
    destruct (parent_values s parent) as [pv|].
    - match goal with
      | |- LocalsInv (done rid ?y0) /\ _ => set (y := y0)
      end.
      assert (HLy : LocalsInv y).
      { apply (Hmerge _ (omit pv ks)
                 (fun v r => set_inherited (Some (omit pv ks))
                               (set_merged true (set_values v r))) HL2); reflexivity. }
      assert (Gy : fills s0 y).
      { eapply fills_trans; [exact G2|].
        apply fills_with_res. intros r. split; reflexivity. }
      split; [apply LocalsInv_done; exact HLy|].
      eapply fills_trans; [exact Gy|]. apply fills_done.
      + apply (own_results_fills s0); assumption.
      + intros r k. apply (li_values _ HLy).
    - assert (H' : LocalsInv match parent_inherited s parent with
                             | Some iv => with_res rid (set_inherited (Some (omit iv ks))) s2
                             | None => s2
                             end /\
                   fills s0 match parent_inherited s parent with
                            | Some iv => with_res rid (set_inherited (Some (omit iv ks))) s2
                            | None => s2
                            end).
      { destruct (parent_inherited s parent) as [iv|]; [|split; assumption].
        split.
        - apply LocalsInv_with_res; [|exact HL2].
          intros r _. apply keeps_locals_other; reflexivity.
        - eapply fills_trans; [exact G2|].
          apply fills_with_res. intros r. split; reflexivity. }
      destruct H' as (HL' & G').
      destruct parent as [|prid]; [split; assumption|].
      destruct (l_res s !! prid) as [pr|]; [|split; assumption].
      split.
      + apply LocalsInv_with_q_then; [exact I|exact I|exact HL'].
      + eapply fills_trans; [exact G'|apply fills_then]. }
  destruct H3 as (HL3 & G3).
  apply (Full_fills s0); [exact HF0|].
  eapply fills_trans; [exact G3|]. apply fills_plan.
  - exact HL3.
  - apply (valid_results_fills s0); assumption.
  - apply (own_results_fills s0); assumption.
Qed.

Lemma Full_resolve invocables a1 a2 a3 s rid s' :
  resolve injector_get invocables a1 a2 a3 s = CallReturns rid s' ->
  LocalsInv s -> valid_results s -> own_results s -> Full s -> Full s'.
Proof.
  unfold resolve, resolve_fn. intros Hcall HL Hv Ho HF.
  destruct (study_plan invocables) as [pl| |]; try discriminate.
  destruct (shift_args a1 a2 a3) as [[locals parent] self].
  destruct (negb (truthy locals) || _); [|destruct locals; discriminate].
  destruct (negb (truthy parent)).
  - pose proof (Full_start pl (keys invocables)
                  (match locals with VObj o => o | _ => [] end) NO_PARENT self s
                  HL Hv Ho HF) as Hs.
    destruct (start _ _ _ _ _ _ _) as [rid0 s0]. injection Hcall as <- <-. exact Hs.
  - destruct (isResolve parent); [|discriminate].
    destruct parent as [| | | | |prid]; try discriminate.
    destruct (l_res s !! prid); [|discriminate].
    pose proof (Full_start pl (keys invocables)
                  (match locals with VObj o => o | _ => [] end) (Parent prid) self s
                  HL Hv Ho HF) as Hs.
    destruct (start _ _ _ _ _ _ _) as [rid0 s0]. injection Hcall as <- <-. exact Hs.
Qed.

Lemma Full_init : Full legacy_init.
Proof. intros rid r res Hr. discriminate. Qed.

Lemma Full_reachable s : reachable injector_get s -> Full s.
Proof.
  intros H. apply clos_rt_rtn1 in H. induction H as [|s1 s2 Hstep Hpre IH].
  - exact Full_init.
  - assert (Hreach : reachable injector_get s1) by (apply clos_rtn1_rt; exact Hpre).
    pose proof (WF_reachable injector_get s1 Hreach) as Hwf.
    pose proof (Tally_reachable injector_get s1 Hreach) as HT.
    pose proof (LocalsInv_reachable injector_get s1 Hreach) as HL.
    assert (Hv : valid_results s1).
    { intros rid r Hr. exact (wf_result_valid _ _ Hwf rid r Hr). }
    assert (Ho : own_results s1).
    { intros rid r rid' r' Hr Hr' Heq.
      exact (tv_result_own _ _ _ _ HT rid (view r) rid' (view r')
               (views_lookup_2 s1 rid r Hr) (views_lookup_2 s1 rid' r' Hr') Heq). }
    destruct Hstep as [invocables a1 a2 a3 s rid s' Hcall|s|i s].
    + eapply Full_resolve; eauto.
    + apply (Full_fills s); [exact IH|]. apply fills_tick.
      * apply LocalsInv_locals_ok. exact HL.
      * exact Ho.
      * intros rid r e iv Hr Hiv rid' r' Hr'.
        exact (wf_result_own _ _ Hwf rid' r' rid r e iv Hr' Hr Hiv).
      * intros rid r Hr.
        exact (tv_unlocked _ _ _ _ HT rid (view r) (views_lookup_2 s rid r Hr)).
    + apply (Full_fills s); [exact IH|]. apply fills_settle_outside.
      intros p f Hin rid r Hr Heq.
      exact (tv_outside _ _ _ _ HT rid (view r) p f (views_lookup_2 s rid r Hr) Hin
               (eq_sym Heq)).
Qed.
End FillsSteps.

(** C9: a local shadows the invocable of its name.  In every world the
    engine can reach, for every resolution and every name among its
    locals: no invocable of that name has been invoked for this
    resolution, the merged value set of the resolution ([values]) holds the
    local's value under that name, and when the result promise of the
    resolution is fulfilled it is fulfilled with an object that holds the
    local's value under that name.  And a call without a parent in which
    every invocable is shadowed by a local returns with its result promise
    already fulfilled with a copy of the locals, having set up no
    invocation and invoked nothing. *)
Theorem local_shadows_invocable (injector_get : string -> FnResult) :
  (forall (s : Legacy) (rid : nat) (r : Resolution) (k : string) (v : Val),
     reachable injector_get s ->
     l_res s !! rid = Some r ->
     NoDup (keys (r_locals r)) ->
     get (r_locals r) k = Some v ->
     (forall vals, (rid, k, vals) ∉ l_log s) /\
     get (r_values r) k = Some v /\
     forall res, q_state (l_q s) (r_result r) = Fulfilled res ->
       exists vals, res = VObj vals /\ get vals k = Some v) /\
  (forall (pl : list PlanEntry) (invocableKeys : list string)
          (locals : Obj Val) (self : Val) (s : Legacy),
     isResolve (VObj locals) = false ->
     (forall e, e ∈ pl -> has locals (pe_key e) = true) ->
     exists s' r,
       resolve_fn injector_get pl invocableKeys (VObj locals) VUndefined self s
       = CallReturns (length (l_res s)) s' /\
       l_res s' !! length (l_res s) = Some r /\
       q_state (l_q s') (r_result r) = Fulfilled (VObj (extend [] locals)) /\
       r_invocations r = [] /\
       l_log s' = l_log s).
Proof.
  split.
  - intros s rid r k v Hreach Hr Hnd Hk.
    pose proof (LocalsInv_reachable _ _ Hreach) as H.
    assert (Hhas : has (r_locals r) k = true) by (unfold has; rewrite Hk; reflexivity).
    split; [|split].
    + intros vals Hin. destruct (li_log _ H _ _ _ Hin) as (r' & Hr' & Hh).
      rewrite Hr in Hr'. injection Hr' as <-. congruence.
    + rewrite (li_values _ H rid r k Hr Hhas), get_extend by exact Hnd.
      rewrite Hk. reflexivity.
    + intros res Hres.
      destruct (Full_reachable injector_get s Hreach rid r res Hr Hres)
        as (vals & -> & Hv).
      exists vals. split; [reflexivity|].
      rewrite (Hv k Hhas), get_extend by exact Hnd. rewrite Hk. reflexivity.
  - intros pl invocableKeys locals self s Hres Hloc.
    exact (locals_only_call_settled injector_get pl invocableKeys locals self s Hres Hloc).
Qed.

Lemma local_shadows_invocable_witness :
  (exists r,
     l_res local_x_5 !! 0 = Some r /\
     get (r_locals r) "x" = Some (VNum 5) /\
     q_state (l_q local_x_5) (r_result r)
     = Fulfilled (VObj [("x", VNum 5); ("y", VNum 5)]) /\
     (forall vals, (0, "x", vals) ∉ l_log local_x_5) /\
     get (r_values r) "x" = Some (VNum 5) /\
     forall res, q_state (l_q local_x_5) (r_result r) = Fulfilled res ->
       exists vals, res = VObj vals /\ get vals "x" = Some (VNum 5)) /\
  (exists s' r,
     resolve_fn no_services
                [mkEntry "x" (PInvoke (fn0 (VNum 1))) []] ["x"]
                (VObj [("x", VNum 5)]) VUndefined VUndefined legacy_init
     = CallReturns 0 s' /\
     l_res s' !! 0 = Some r /\
     q_state (l_q s') (r_result r) = Fulfilled (VObj [("x", VNum 5)]) /\
     r_invocations r = [] /\
     l_log s' = []).
Proof.
  split.
  - eexists. split; [vm_compute; reflexivity|]. split; [vm_compute; reflexivity|].
    split; [vm_compute; reflexivity|].
    refine (proj1 (local_shadows_invocable no_services)
                  local_x_5 0 _ "x" (VNum 5) local_x_5_reachable _ _ _).
    + vm_compute. reflexivity.
    + apply (bool_decide_unpack (NoDup _)). vm_compute. exact I.
    + vm_compute. reflexivity.
  - refine (proj2 (local_shadows_invocable no_services)
                  [mkEntry "x" (PInvoke (fn0 (VNum 1))) []] ["x"]
                  [("x", VNum 5)] VUndefined legacy_init _ _).
    + vm_compute. reflexivity.
    + intros e He. apply list_elem_of_singleton in He. subst e. vm_compute. reflexivity.
Defined.
